(** * instaScraper: the reel extractor and its numeric normalizer

    The repository holds three versions of one Apify actor:
    - [MainTs]: [src/main.ts];
    - [Enhanced]: the first file of [unnamed/part_000] (internal API data,
      then DOM selectors);
    - [Optimized]: the second file of [unnamed/part_000] (profile links,
      page-text patterns, exact selectors).
    Each one is a [requestHandler] that fills a [ReelData] record from a
    rendered page and pushes it to the dataset, and a [parseMetric] helper
    that turns "1.2K" or "817,242" into a number.

    The browser page and the dataset are the actor's collaborators: a [Page]
    records what every call on the page answers (a value or a thrown
    exception), and the handlers run in a small state-and-exception monad
    over the record under construction and the list of pushed items. *)

From Stdlib Require Import List ZArith NArith Lia Bool String Ascii Arith SpecFloat DecimalN.
Import ListNotations.

Set Implicit Arguments.

(* ===================================================================== *)
(** * JavaScript strings *)
(* ===================================================================== *)

(** A JavaScript string is a sequence of UTF-16 code units; [length] counts
    code units, as [String.prototype.length] does. *)
Module JsString.

Local Open Scope N_scope.

Abbreviation char := N (only parsing).
Abbreviation jstring := (list N) (only parsing).

(** An ASCII literal as a JavaScript string. *)
Definition lit (s : string) : jstring :=
  map N_of_ascii (list_ascii_of_string s).

(** An ASCII character as a code unit. *)
Definition ch (a : ascii) : char := N_of_ascii a.

Definition eqb (a b : jstring) : bool :=
  if list_eq_dec N.eq_dec a b then true else false.

Definition is_empty (s : jstring) : bool :=
  match s with [] => true | _ => false end.

(** Code units the code names. *)
Definition c_lf : char := 10.
Definition c_comma : char := 44.
Definition c_dot : char := 46.
Definition c_bullet : char := 8226.   (* U+2022 *)

(** ECMAScript LineTerminator: LF, CR, LS, PS. *)
Definition is_line_terminator (c : char) : bool :=
  (c =? 10) || (c =? 13) || (c =? 8232) || (c =? 8233).

(** ECMAScript WhiteSpace and LineTerminator: what [\s] matches and
    [trim] strips. *)
Definition is_space (c : char) : bool :=
  (c =? 9) || (c =? 11) || (c =? 12) || (c =? 32) || (c =? 160) ||
  (c =? 5760) || ((8192 <=? c) && (c <=? 8202)) || (c =? 8239) ||
  (c =? 8287) || (c =? 12288) || (c =? 65279) || is_line_terminator c.

Definition is_digit (c : char) : bool := (48 <=? c) && (c <=? 57).

Fixpoint starts_with (p s : jstring) : bool :=
  match p, s with
  | [], _ => true
  | a :: p', b :: s' => (a =? b) && starts_with p' s'
  | _ :: _, [] => false
  end.

(** [s.includes(p)] *)
Fixpoint includes (s p : jstring) : bool :=
  starts_with p s ||
  match s with
  | [] => false
  | _ :: t => includes t p
  end.

Fixpoint trimStart (s : jstring) : jstring :=
  match s with
  | c :: t => if is_space c then trimStart t else s
  | [] => []
  end.

Definition trimEnd (s : jstring) : jstring := rev (trimStart (rev s)).

(** [s.trim()] *)
Definition trim (s : jstring) : jstring := trimEnd (trimStart s).

(** Upper-casing of one code unit, on the ASCII letters.  The code uses
    [toUpperCase] and the [i] flag only to look for ASCII letters and
    digits; no other code unit upper-cases to one of those. *)
Definition upper1 (c : char) : char :=
  if (97 <=? c) && (c <=? 122) then c - 32 else c.

Definition toUpperCase (s : jstring) : jstring := map upper1 s.

(** Lower-casing: the ASCII letters, and the two other code units whose
    lower case holds an ASCII letter (U+0130 and the Kelvin sign U+212A). *)
Definition lower1 (c : char) : jstring :=
  if (65 <=? c) && (c <=? 90) then [c + 32]
  else if c =? 304 then [105; 775]
  else if c =? 8490 then [107]
  else [c].

Definition toLowerCase (s : jstring) : jstring := flat_map lower1 s.

(** [s.split(sep)] for a one-unit separator, never empty: the pieces
    between the separators. *)
Fixpoint split (sep : char) (s : jstring) : list jstring :=
  match s with
  | [] => [[]]
  | c :: t =>
      if c =? sep then [] :: split sep t
      else match split sep t with
           | l :: ls => (c :: l) :: ls
           | [] => [[c]]
           end
  end.

(** [s.split('\n')[0]] *)
Definition first_line (s : jstring) : jstring := hd [] (split c_lf s).

(** [s.replace(/[...]/g, '')] for a class of single code units. *)
Definition remove_all (p : char -> bool) (s : jstring) : jstring :=
  filter (fun c => negb (p c)) s.

(** [s.replace(a, b)] for one-unit strings: the first occurrence only. *)
Fixpoint replace_first (a b : char) (s : jstring) : jstring :=
  match s with
  | [] => []
  | c :: t => if c =? a then b :: t else c :: replace_first a b t
  end.

(** Maximal prefix of decimal digits, and the rest. *)
Fixpoint span_digits (s : jstring) : jstring * jstring :=
  match s with
  | c :: t =>
      if is_digit c then let '(d, r) := span_digits t in (c :: d, r)
      else ([], s)
  | [] => ([], [])
  end.

(** Value of a run of decimal digits. *)
Definition digits_value (ds : jstring) : N :=
  fold_left (fun acc c => 10 * acc + (c - 48)) ds 0.

End JsString.
Import JsString.

(* ===================================================================== *)
(** * JavaScript numbers *)
(* ===================================================================== *)

(** A JavaScript number is an IEEE 754 binary64 value: the Standard
    Library's specification of floating-point numbers at precision 53. *)
Module JsNumber.

Local Open Scope N_scope.

Definition number := spec_float.
Definition prec : Z := 53.
Definition emax : Z := 1024.

Definition NaN : number := S754_nan.
Definition pos_zero : number := S754_zero false.

(** The number nearest to [n / d] (ties to even), for [0 < n] and [0 < d];
    the quotient is computed with enough bits, and the remainder's place,
    for one rounding. *)
Definition round_ratio (neg : bool) (n d : positive) : number :=
  let '(q, e, l) := SFdiv_core_binary prec emax (Zpos n) 0 (Zpos d) 0 in
  binary_round_aux prec emax neg q e l.

(** The number value of the decimal [digits * 10 ^ exp10]. *)
Definition of_decimal (neg : bool) (digits : N) (exp10 : Z) : number :=
  match digits with
  | N0 => S754_zero neg
  | Npos p =>
      match exp10 with
      | Z0 => round_ratio neg p 1
      | Zpos e => round_ratio neg (p * 10 ^ e) 1
      | Zneg e => round_ratio neg p (10 ^ e)
      end
  end.

(** An integer literal of the source, such as [1000]. *)
Definition of_N (n : N) : number := of_decimal false n 0.

(** [x * y] *)
Definition mul (x y : number) : number := SFmul prec emax x y.

(** [Math.round(x)]: [x] itself when it is not finite or is integral,
    otherwise the integer nearest to [x], the larger one on a tie; a result
    of zero keeps the sign of [x]. *)
Definition Math_round (x : number) : number :=
  match x with
  | S754_finite s m e =>
      if (0 <=? e)%Z then x
      else
        let d := (2 ^ (- e))%Z in
        if (Zpos m mod d =? 0)%Z then x
        else
          let v := if s then Zneg m else Zpos m in
          let r := ((2 * v + d) / (2 * d))%Z in
          if (r =? 0)%Z then S754_zero s
          else binary_normalize prec emax r 0 s
  | _ => x
  end.

(** [!x] for a number: zero and NaN are falsy. *)
Definition is_falsy (x : number) : bool :=
  match x with
  | S754_zero _ | S754_nan => true
  | _ => false
  end.

(** The integer a number holds, when it is finite and integral. *)
Definition to_Z (x : number) : option Z :=
  match x with
  | S754_zero _ => Some 0%Z
  | S754_finite s m e =>
      let sg := fun z => if s then Z.opp z else z in
      if (0 <=? e)%Z then Some (sg (Zpos m * 2 ^ e)%Z)
      else if (Zpos m mod 2 ^ (- e) =? 0)%Z then Some (sg (Zpos m / 2 ^ (- e))%Z)
      else None
  | _ => None
  end.

(** [parseFloat(s)]: leading white space is skipped, then the longest prefix
    that is a decimal literal (sign, digits, fraction, exponent, or
    [Infinity]) is converted; NaN when there is none. *)
Definition take_sign (s : jstring) : bool * jstring :=
  match s with
  | c :: t => if c =? 45 then (true, t) else if c =? 43 then (false, t) else (false, s)
  | [] => (false, [])
  end.

Definition exponent_part (s : jstring) : Z :=
  match s with
  | c :: t =>
      if (c =? 101) || (c =? 69) then
        let '(eneg, t') := take_sign t in
        match fst (span_digits t') with
        | [] => 0%Z
        | ed => if eneg then (- Z.of_N (digits_value ed))%Z else Z.of_N (digits_value ed)
        end
      else 0%Z
  | [] => 0%Z
  end.

Definition parseFloat (s : jstring) : number :=
  let '(neg, s0) := take_sign (trimStart s) in
  if starts_with (lit "Infinity") s0 then S754_infinity neg
  else
    let '(ip, s1) := span_digits s0 in
    let '(fp, s2) :=
      match s1 with
      | c :: t => if c =? c_dot then span_digits t else ([], s1)
      | [] => ([], s1)
      end in
    match ip ++ fp with
    | [] => NaN
    | ds => of_decimal neg (digits_value ds) (exponent_part s2 - Z.of_nat (List.length fp))
    end.

End JsNumber.
Import JsNumber.

(* ===================================================================== *)
(** * Regular expressions *)
(* ===================================================================== *)

(** The fragment of JavaScript regular expressions the code uses, with the
    backtracking semantics of the language: alternatives are tried left to
    right, a greedy quantifier tries one more iteration before it tries to
    go on, a lazy one the other way round, and an iteration that consumes
    nothing is refused. *)
Module Regex.

Inductive regex : Type :=
| Eps                                   (* the empty pattern *)
| Sym (p : char -> bool)                (* one code unit of a class *)
| Cat (r1 r2 : regex)                   (* r1 r2 *)
| Alt (r1 r2 : regex)                   (* r1 | r2 *)
| Star (greedy : bool) (r : regex)      (* r* and r*? *)
| Grp (i : nat) (r : regex)             (* capturing group number i *)
| Eos.                                  (* $ without the m flag *)

Declare Scope regex_scope.
Delimit Scope regex_scope with re.
Bind Scope regex_scope with regex.
Infix "+++" := Cat (at level 60, right associativity) : regex_scope.
Infix "<|>" := Alt (at level 65, right associativity) : regex_scope.

(** Quantifiers and literals, written with the constructors. *)
Definition Opt (r : regex) : regex := Alt r Eps.               (* r? *)
Definition Plus (r : regex) : regex := Cat r (Star true r).   (* r+ *)

Fixpoint Upto (n : nat) (r : regex) : regex :=                 (* r{0,n} *)
  match n with
  | O => Eps
  | S n' => Opt (Cat r (Upto n' r))
  end.

Fixpoint Rep (lo extra : nat) (r : regex) : regex :=
  match lo with
  | O => Upto extra r
  | S lo' => Cat r (Rep lo' extra r)
  end.

Definition Quant (lo hi : nat) (r : regex) : regex :=         (* r{lo,hi} *)
  Rep lo (hi - lo) r.

(** Character classes. *)
Definition digit : char -> bool := is_digit.                   (* \d *)
Definition space : char -> bool := is_space.                   (* \s *)
Definition dot (c : char) : bool := negb (is_line_terminator c). (* . *)
Definition one_of (l : jstring) (c : char) : bool := existsb (N.eqb c) l.
Definition none_of (l : jstring) (c : char) : bool := negb (one_of l c).
Definition range (lo hi c : char) : bool := (lo <=? c)%N && (c <=? hi)%N.
Definition either (p q : char -> bool) (c : char) : bool := p c || q c.
(** [[...]] under the [i] flag: code units are compared upper-cased. *)
Definition one_of_i (l : jstring) (c : char) : bool :=
  existsb (fun x => (upper1 x =? upper1 c)%N) l.

Definition chr (x : char) : regex := Sym (N.eqb x).
Definition chr_i (x : char) : regex := Sym (fun c => (upper1 c =? upper1 x)%N).

Fixpoint str (s : jstring) : regex :=
  match s with
  | [] => Eps
  | c :: t => Cat (chr c) (str t)
  end.

Fixpoint str_i (s : jstring) : regex :=
  match s with
  | [] => Eps
  | c :: t => Cat (chr_i c) (str_i t)
  end.

(** Captures: the text of each group that took part in the match. *)
Definition caps := list (nat * jstring).

Definition capture (i : nat) (c : caps) : option jstring :=
  option_map snd (find (fun p => Nat.eqb (fst p) i) c).

Section Matcher.

Variable R : Type.

Definition cont := jstring -> caps -> option R.

Definition or_else (a b : option R) : option R :=
  match a with
  | Some x => Some x
  | None => b
  end.

(** The iterations of a quantified pattern whose body is matched by [mr];
    [n] bounds their number, and every iteration consumes input. *)
Fixpoint star_loop (greedy : bool) (mr : jstring -> caps -> cont -> option R)
  (k : cont) (n : nat) (s : jstring) (c : caps) {struct n} : option R :=
  let again :=
    match n with
    | O => None
    | S n' =>
        mr s c (fun s' c' =>
                  if (List.length s' <? List.length s)%nat
                  then star_loop greedy mr k n' s' c'
                  else None)
    end in
  if greedy then or_else again (k s c) else or_else (k s c) again.

(** [run r s c k]: match [r] at the start of [s], then go on with [k] on
    what is left; on failure of [k] the next way to match [r] is tried. *)
Fixpoint run (r : regex) (s : jstring) (c : caps) (k : cont) {struct r} : option R :=
  match r with
  | Eps => k s c
  | Sym p =>
      match s with
      | x :: s' => if p x then k s' c else None
      | [] => None
      end
  | Cat r1 r2 => run r1 s c (fun s' c' => run r2 s' c' k)
  | Alt r1 r2 => or_else (run r1 s c k) (run r2 s c k)
  | Star g r1 => star_loop g (run r1) k (List.length s) s c
  | Grp i r1 =>
      run r1 s c (fun s' c' =>
                    k s' ((i, firstn (List.length s - List.length s') s) :: c'))
  | Eos =>
      match s with
      | [] => k s c
      | _ :: _ => None
      end
  end.

End Matcher.

(** A successful match: where it starts, the matched text ([match[0]]),
    the groups, and the input after it. *)
Record result : Type := mkResult {
  index : nat;
  text : jstring;
  groups : caps;
  rest : jstring
}.

(** The match of [r] that starts at the beginning of [s]. *)
Definition match_here (r : regex) (s : jstring) : option (jstring * caps) :=
  run r s [] (fun s' c' => Some (s', c')).

(** [r.exec(s)]: the leftmost match. *)
Fixpoint exec_from (i : nat) (r : regex) (s : jstring) : option result :=
  match match_here r s with
  | Some (s', c) =>
      Some (mkResult i (firstn (List.length s - List.length s') s) c s')
  | None =>
      match s with
      | [] => None
      | _ :: t => exec_from (S i) r t
      end
  end.

Definition exec (r : regex) (s : jstring) : option result := exec_from 0 r s.

(** [match[i]] *)
Definition group (i : nat) (m : result) : option jstring :=
  match i with
  | O => Some (text m)
  | _ => capture i (groups m)
  end.

(** The matches a [g]-flagged pattern finds, left to right, each search
    starting where the last match ended (one further on after an empty
    match); [n] bounds their number. *)
Fixpoint all_from (n : nat) (r : regex) (s : jstring) : list jstring :=
  match n with
  | O => []
  | S n' =>
      match exec r s with
      | None => []
      | Some m =>
          text m ::
          match text m, rest m with
          | [], [] => []
          | [], _ :: t => all_from n' r t
          | _ :: _, s' => all_from n' r s'
          end
      end
  end.

(** [s.match(r)] for a pattern with the [g] flag: [null] when nothing
    matches, else the matched texts. *)
Definition match_all (r : regex) (s : jstring) : option (list jstring) :=
  match all_from (S (List.length s)) r s with
  | [] => None
  | l => Some l
  end.

(** The declarative reading: [matches r s s'] when [r] can match a prefix of
    [s] and leave [s']. *)
Inductive matches : regex -> jstring -> jstring -> Prop :=
| M_eps s : matches Eps s s
| M_sym (p : char -> bool) x s : p x = true -> matches (Sym p) (x :: s) s
| M_cat r1 r2 s s1 s2 :
    matches r1 s s1 -> matches r2 s1 s2 -> matches (Cat r1 r2) s s2
| M_alt_l r1 r2 s s' : matches r1 s s' -> matches (Alt r1 r2) s s'
| M_alt_r r1 r2 s s' : matches r2 s s' -> matches (Alt r1 r2) s s'
| M_star_done g r s : matches (Star g r) s s
| M_star_more g r s s1 s2 :
    matches r s s1 -> (List.length s1 < List.length s)%nat ->
    matches (Star g r) s1 s2 -> matches (Star g r) s s2
| M_grp i r s s' : matches r s s' -> matches (Grp i r) s s'
| M_eos : matches Eos [] [].

End Regex.
Import Regex.

(* ===================================================================== *)
(** * The record, the page and the handler monad *)
(* ===================================================================== *)

(** [interface ReelData]: every field but [url] is optional. *)
Record ReelData : Type := mkReelData {
  username : option jstring;
  audioUsed : option jstring;
  comments : option number;
  likes : option number;
  views : option number;
  title : option jstring;
  description : option jstring;
  url : jstring;
  error : option jstring
}.

(** [const reelData: ReelData = { url: request.url }] *)
Definition new_reelData (u : jstring) : ReelData :=
  mkReelData None None None None None None None u None.

Definition set_username (v : option jstring) (d : ReelData) : ReelData :=
  mkReelData v (audioUsed d) (comments d) (likes d) (views d) (title d)
             (description d) (url d) (error d).
Definition set_audioUsed (v : option jstring) (d : ReelData) : ReelData :=
  mkReelData (username d) v (comments d) (likes d) (views d) (title d)
             (description d) (url d) (error d).
Definition set_comments (v : option number) (d : ReelData) : ReelData :=
  mkReelData (username d) (audioUsed d) v (likes d) (views d) (title d)
             (description d) (url d) (error d).
Definition set_likes (v : option number) (d : ReelData) : ReelData :=
  mkReelData (username d) (audioUsed d) (comments d) v (views d) (title d)
             (description d) (url d) (error d).
Definition set_views (v : option number) (d : ReelData) : ReelData :=
  mkReelData (username d) (audioUsed d) (comments d) (likes d) v (title d)
             (description d) (url d) (error d).
Definition set_title (v : option jstring) (d : ReelData) : ReelData :=
  mkReelData (username d) (audioUsed d) (comments d) (likes d) (views d) v
             (description d) (url d) (error d).
Definition set_description (v : option jstring) (d : ReelData) : ReelData :=
  mkReelData (username d) (audioUsed d) (comments d) (likes d) (views d)
             (title d) v (url d) (error d).
Definition set_error (v : option jstring) (d : ReelData) : ReelData :=
  mkReelData (username d) (audioUsed d) (comments d) (likes d) (views d)
             (title d) (description d) (url d) v.

(** Truthiness of an optional string and an optional number: [undefined],
    the empty string, zero and NaN are falsy. *)
Definition truthy_str (v : option jstring) : bool :=
  match v with
  | Some (_ :: _) => true
  | _ => false
  end.

Definition truthy_num (v : option number) : bool :=
  match v with
  | Some x => negb (is_falsy x)
  | None => false
  end.

(** What a [throw] carries: an [Error] with its message, or another value. *)
Inductive exn : Type :=
| JsError (message : jstring)
| Thrown.

(** The outcome of a call on a collaborator: a value, or an exception. *)
Definition Exc (A : Type) : Type := (exn + A)%type.

(** An element handle: what the three readers the code applies to a handle
    answer. *)
Record Element : Type := mkElement {
  textContent : Exc (option jstring);   (* el.textContent *)
  href : Exc (option jstring);          (* (el as HTMLAnchorElement).href *)
  ariaLabel : Exc (option jstring)      (* el.getAttribute('aria-label') *)
}.

(** The media object of the page's embedded data,
    [entry_data.PostPage[0].graphql.shortcode_media], with the fields the
    code reads at the types [ReelData] gives them. *)
Record Media : Type := mkMedia {
  owner_username : option jstring;              (* owner?.username *)
  edge_media_preview_like_count : option number;
  video_view_count : option number;
  edge_media_to_comment_count : option number;
  caption_text : option jstring   (* edge_media_to_caption?.edges?.[0]?.node?.text *)
}.

(** The rendered page, as the document provider answers. *)
Record Page : Type := mkPage {
  goto : Exc unit;                          (* page.goto(request.url, ...) *)
  waitForNavigation : Exc unit;
  waitForTimeout : Exc unit;
  waitForSelector : jstring -> Exc unit;
  page_url : jstring;                       (* page.url() *)
  body_textContent : Exc (option jstring);  (* document.body.textContent *)
  shared_media : Exc (option Media);        (* the script-tag scan *)
  querySelectorAll : jstring -> Exc (list Element)   (* page.$$ *)
}.

(** [page.$(selector)]: the first element, or [null]. *)
Definition querySelector (p : Page) (sel : jstring) : Exc (option Element) :=
  match querySelectorAll p sel with
  | inl e => inl e
  | inr l => inr (hd_error l)
  end.

(** One invocation of the handler: the request, the page, and what the
    dataset answers to a push. *)
Record Context : Type := mkContext {
  request_url : jstring;
  page : Page;
  pushData_outcome : ReelData -> Exc unit
}.

(** The handler's state: the record being filled, and the records handed
    to [Actor.pushData] so far, in order. *)
Record State : Type := mkState {
  reelData : ReelData;
  pushed : list ReelData
}.

(** Computations that read and write the state and may throw; the state
    survives a throw. *)
Definition M (A : Type) : Type := State -> Exc A * State.

Definition ret {A} (a : A) : M A := fun st => (inr a, st).

Definition bind {A B} (m : M A) (f : A -> M B) : M B :=
  fun st =>
    match m st with
    | (inr a, st') => f a st'
    | (inl e, st') => (inl e, st')
    end.

Declare Scope monad_scope.
Delimit Scope monad_scope with monad.
Notation "x <- c1 ;; c2" := (bind c1 (fun x => c2))
  (at level 61, c1 at next level, right associativity) : monad_scope.
Notation "c1 ;; c2" := (bind c1 (fun _ => c2))
  (at level 61, right associativity) : monad_scope.
Open Scope monad_scope.

Definition throw {A} (e : exn) : M A := fun st => (inl e, st).

(** [try { body } catch (e) { handler }] *)
Definition try_catch {A} (body : M A) (handler : exn -> M A) : M A :=
  fun st =>
    match body st with
    | (inr a, st') => (inr a, st')
    | (inl e, st') => handler e st'
    end.

(** [await] on a collaborator's answer. *)
Definition await {A} (x : Exc A) : M A := fun st => (x, st).

(** Reading and assigning fields of [reelData]. *)
Definition read {A} (f : ReelData -> A) : M A :=
  fun st => (inr (f (reelData st)), st).

Definition assign (f : ReelData -> ReelData) : M unit :=
  fun st => (inr tt, mkState (f (reelData st)) (pushed st)).

(** [await Actor.pushData(reelData)] *)
Definition pushData (ctx : Context) : M unit :=
  fun st =>
    (pushData_outcome ctx (reelData st),
     mkState (reelData st) (pushed st ++ [reelData st])).

(** [if (c) { body }] *)
Definition when (c : bool) (body : M unit) : M unit :=
  if c then body else ret tt.

(** [for (const x of l) { body }]; the body answers [true] for [break]. *)
Fixpoint for_of {A} (l : list A) (body : A -> M bool) : M unit :=
  match l with
  | [] => ret tt
  | x :: t => b <- body x ;; if b then ret tt else for_of t body
  end.

Definition break : M bool := ret true.
Definition continue : M bool := ret false.

(** [error instanceof Error ? error.message : 'Unknown error occurred'] *)
Definition error_message (e : exn) : jstring :=
  match e with
  | JsError m => m
  | Thrown => lit "Unknown error occurred"
  end.

(** The handler run on a fresh record. *)
Definition run_handler (h : M unit) (u : jstring) : Exc unit * State :=
  h (mkState (new_reelData u) []).

(** A double quote, for selectors that hold one. *)
Definition dq : jstring := [34%N].

(** [lit] with the double quotes a selector needs: the pieces are joined
    with a double quote between them. *)
Fixpoint quoted (pieces : list string) : jstring :=
  match pieces with
  | [] => []
  | [s] => lit s
  | s :: t => lit s ++ dq ++ quoted t
  end.

(** [match[1]] handed to a function that calls a string method on it:
    a [TypeError] when the group took no part in the match. *)
Definition group_arg (i : nat) (m : result) : M jstring :=
  match group i m with
  | Some g => ret g
  | None => throw (JsError (lit "TypeError"))
  end.

(** [s?.match(r)] for a string that may be [null]. *)
Definition exec_opt (r : regex) (s : option jstring) : option result :=
  match s with
  | Some t => exec r t
  | None => None
  end.

(* ===================================================================== *)
(** * [src/main.ts] *)
(* ===================================================================== *)

Module MainTs.

(** [\d{1,3}(?:,\d{3})*(?:\.\d+)?[KM]?] under the [i] flag *)
Definition count_re : regex :=
  (Quant 1 3 (Sym digit)
   +++ Star true (chr c_comma +++ Quant 3 3 (Sym digit))
   +++ Opt (chr c_dot +++ Plus (Sym digit))
   +++ Opt (Sym (one_of_i (lit "KM"))))%re.

(** [/(\d{1,3}(?:,\d{3})*(?:\.\d+)?[KM]?)\s*likes?/i] *)
Definition likes_re : regex :=
  (Grp 1 count_re +++ Star true (Sym space)
   +++ str_i (lit "like") +++ Opt (chr_i (ch "s")))%re.

(** [/(\d{1,3}(?:,\d{3})*(?:\.\d+)?[KM]?)\s*views?/i] *)
Definition views_re : regex :=
  (Grp 1 count_re +++ Star true (Sym space)
   +++ str_i (lit "view") +++ Opt (chr_i (ch "s")))%re.

(** [/(\d{1,3}(?:,\d{3})*(?:\.\d+)?[KM]?)\s*comments?/i] *)
Definition comments_re : regex :=
  (Grp 1 count_re +++ Star true (Sym space)
   +++ str_i (lit "comment") +++ Opt (chr_i (ch "s")))%re.

(** [function parseMetric(value: string): number] *)
Definition parseMetric (value : jstring) : number :=
  let cleanValue := toUpperCase (remove_all (N.eqb c_comma) value) in
  let numericValue := parseFloat cleanValue in
  if includes cleanValue (lit "K") then
    Math_round (mul numericValue (of_N 1000))
  else if includes cleanValue (lit "M") then
    Math_round (mul numericValue (of_N 1000000))
  else
    Math_round numericValue.

Definition usernameSelectors : list jstring :=
  [ lit "article header div div div a";
    quoted ["header a[role="; "link"; "]"];
    quoted ["a[href^="; "/"; "]"];
    lit "span._ap3a._aaco._aacw._aacx._aad7._aade" ]%string.

Definition audioSelectors : list jstring :=
  [ quoted ["[aria-label*="; "Audio"; "]"];
    quoted ["[data-testid="; "audio-attribution"; "]"];
    quoted ["a[href*="; "/audio/"; "]"] ]%string.

Definition commentButtons : jstring :=
  quoted ["button[aria-label*="; "comment"; "]"]%string.

Definition captionSelectors : list jstring :=
  [ lit "article div div div div span";
    quoted ["[data-testid="; "post-caption"; "]"];
    lit "div._a9zs span";
    lit "h1" ]%string.

(** Extract username *)
Definition extract_username (p : Page) : M unit :=
  try_catch
    (for_of usernameSelectors (fun selector =>
       usernameElement <- await (querySelector p selector) ;;
       match usernameElement with
       | Some el =>
           username <- await (textContent el) ;;
           match username with
           | Some u =>
               if negb (is_empty u) && negb (is_empty (trim u))
                  && negb (includes u [c_bullet])
               then assign (set_username (Some (trim u))) ;; break
               else continue
           | None => continue
           end
       | None => continue
       end))
    (fun _ => ret tt).

(** Extract audio/music info *)
Definition extract_audio (p : Page) : M unit :=
  try_catch
    (for_of audioSelectors (fun selector =>
       audioElement <- await (querySelector p selector) ;;
       match audioElement with
       | Some el =>
           audio <- await (textContent el) ;;
           match audio with
           | Some a =>
               if negb (is_empty a) && negb (is_empty (trim a))
               then assign (set_audioUsed (Some (trim a))) ;; break
               else continue
           | None => continue
           end
       | None => continue
       end))
    (fun _ => ret tt).

(** Extract engagement metrics (likes, comments, views) *)
Definition extract_metrics (p : Page) : M unit :=
  try_catch
    (allText <- await (body_textContent p) ;;
     match exec_opt likes_re allText with
     | Some likesMatch =>
         g <- group_arg 1 likesMatch ;;
         assign (set_likes (Some (parseMetric g)))
     | None => ret tt
     end ;;
     match exec_opt views_re allText with
     | Some viewsMatch =>
         g <- group_arg 1 viewsMatch ;;
         assign (set_views (Some (parseMetric g)))
     | None => ret tt
     end ;;
     commentElements <- await (querySelectorAll p commentButtons) ;;
     for_of commentElements (fun element =>
       text <- await (textContent element) ;;
       match exec_opt comments_re text with
       | Some commentMatch =>
           g <- group_arg 1 commentMatch ;;
           assign (set_comments (Some (parseMetric g))) ;; break
       | None => continue
       end))
    (fun _ => ret tt).

(** Extract caption/description *)
Definition extract_caption (p : Page) : M unit :=
  try_catch
    (for_of captionSelectors (fun selector =>
       captionElement <- await (querySelector p selector) ;;
       match captionElement with
       | Some el =>
           caption <- await (textContent el) ;;
           match caption with
           | Some c =>
               if negb (is_empty c) && negb (is_empty (trim c))
                  && (10 <? List.length c)
               then
                 assign (set_description (Some (trim c))) ;;
                 let firstLine := trim (first_line c) in
                 when (List.length firstLine <=? 100)
                      (assign (set_title (Some firstLine))) ;;
                 break
               else continue
           | None => continue
           end
       | None => continue
       end))
    (fun _ => ret tt).

(** [async requestHandler({ page, request })] *)
Definition requestHandler (ctx : Context) : M unit :=
  let p := page ctx in
  try_catch
    (try_catch (await (waitForNavigation p)) (fun _ => ret tt) ;;
     await (waitForTimeout p) ;;
     extract_username p ;;
     extract_audio p ;;
     extract_metrics p ;;
     extract_caption p ;;
     pushData ctx)
    (fun error =>
       assign (set_error (Some (error_message error))) ;;
       pushData ctx).

End MainTs.

(** [page.evaluate(() => document.body.textContent || '')] *)
Definition body_text (p : Page) : Exc jstring :=
  match body_textContent p with
  | inl e => inl e
  | inr (Some t) => inr t
  | inr None => inr []
  end.

(** A pattern with or without the [g] flag, and [s.match(pattern)[0]]. *)
Record pattern : Type := mkPattern { pat_re : regex; pat_global : bool }.

Definition match0 (pat : pattern) (s : jstring) : option jstring :=
  if pat_global pat then option_map (hd []) (match_all (pat_re pat) s)
  else option_map text (exec (pat_re pat) s).

(** [m[1]] when it is used as a value that may be [undefined]; the empty
    string and [undefined] are both falsy. *)
Definition group_or_empty (i : nat) (m : option result) : jstring :=
  match m with
  | Some r => match group i r with Some g => g | None => [] end
  | None => []
  end.

(* ===================================================================== *)
(** * The numeric normalizer of [unnamed/part_000] *)
(* ===================================================================== *)

(** The two files of [unnamed/part_000] hold the same [parseMetric] and
    the same count pattern. *)
Module Normalizer.

(** [\d{1,3}(?:[,.]\d{3})*(?:\.\d+)?[KMB]?] under the [i] flag *)
Definition count : regex :=
  (Quant 1 3 (Sym digit)
   +++ Star true (Sym (one_of (lit ",.")) +++ Quant 3 3 (Sym digit))
   +++ Opt (chr c_dot +++ Plus (Sym digit))
   +++ Opt (Sym (one_of_i (lit "KMB"))))%re.

(** [/(\d{1,3}(?:[,.]\d{3})*(?:\.\d+)?[KMB]?)/i] *)
Definition count_re : regex := Grp 1 count.

(** [/(\d+(?:[.,]\d+)?)/] *)
Definition numeric_re : regex :=
  Grp 1 (Plus (Sym digit)
         +++ Opt (Sym (one_of (lit ".,")) +++ Plus (Sym digit)))%re.

(** [function parseMetric(value: string): number] *)
Definition parseMetric (value : jstring) : number :=
  if is_empty value then of_N 0
  else
    let cleanValue :=
      toUpperCase (remove_all (fun c => (c =? c_comma)%N || is_space c) value) in
    let numericPart :=
      match group_or_empty 1 (exec numeric_re cleanValue) with
      | [] => lit "0"
      | g => g
      end in
    let normalizedNumeric := replace_first c_comma c_dot numericPart in
    let numericValue := parseFloat normalizedNumeric in
    if includes cleanValue (lit "B") then
      Math_round (mul numericValue (of_N 1000000000))
    else if includes cleanValue (lit "M") then
      Math_round (mul numericValue (of_N 1000000))
    else if includes cleanValue (lit "K") then
      Math_round (mul numericValue (of_N 1000))
    else
      Math_round numericValue.

(** [numMatch = text.match(/(\d{1,3}...[KMB]?)/i)] followed by
    [if (numMatch) { field = parseMetric(numMatch[1]) }] *)
Definition count_in (t : jstring) : option number :=
  match exec count_re t with
  | Some numMatch => Some (parseMetric (group_or_empty 1 (Some numMatch)))
  | None => None
  end.

End Normalizer.

(* ===================================================================== *)
(** * [unnamed/part_000], first file *)
(* ===================================================================== *)

Module Enhanced.

Definition parseMetric : jstring -> number := Normalizer.parseMetric.

Definition count : regex := Normalizer.count.

Definition ws : regex := Star true (Sym space).        (* \s* *)
Definition ws1 : regex := Plus (Sym space).            (* \s+ *)

(** [patterns.likes], each with the flags [gi] *)
Definition likes_patterns : list pattern :=
  [ mkPattern (Grp 1 count +++ ws +++ str_i (lit "like") +++ Opt (chr_i (ch "s"))) true;
    mkPattern (Grp 1 count +++ ws +++ str_i (lit "like")) true;
    mkPattern (str_i (lit "Liked by") +++ ws1 +++ Star false (Sym dot)
               +++ str_i (lit "and") +++ ws1 +++ Grp 1 count +++ ws
               +++ str_i (lit "others")) true ]%re.

(** [patterns.views] *)
Definition views_patterns : list pattern :=
  [ mkPattern (Grp 1 count +++ ws +++ str_i (lit "view") +++ Opt (chr_i (ch "s"))) true;
    mkPattern (Grp 1 count +++ ws +++ str_i (lit "play") +++ Opt (chr_i (ch "s"))) true ]%re.

(** [patterns.comments] *)
Definition comments_patterns : list pattern :=
  [ mkPattern (str_i (lit "View all") +++ ws1 +++ Grp 1 count +++ ws
               +++ str_i (lit "comment") +++ Opt (chr_i (ch "s"))) true;
    mkPattern (Grp 1 count +++ ws +++ str_i (lit "comment") +++ Opt (chr_i (ch "s"))) true ]%re.

(** [/instagram\.com\/([^/]+)/] *)
Definition profile_re : regex :=
  (str (lit "instagram.com/") +++ Grp 1 (Plus (Sym (none_of (lit "/")))))%re.

(** [audioPatterns] *)
Definition audioPatterns : list pattern :=
  [ mkPattern (Grp 1 (Plus (Sym (none_of [c_lf; c_bullet]))) +++ ws
               +++ chr c_bullet +++ ws
               +++ Grp 2 (Plus (Sym (none_of [c_lf; c_bullet])))) true;
    mkPattern (Grp 1 (str_i (lit "Original audio"))) false;
    mkPattern (Grp 1 (str_i (lit "Audio is muted"))) false ]%re.

Definition usernameSelectors : list jstring :=
  [ lit "article header h2 a";
    lit "header h2 a";
    quoted ["article header div div div a[href^="; "/"; "]"];
    quoted ["span[dir="; "auto"; "] a[href^="; "/"; "]"];
    quoted ["a[role="; "link"; "][href^="; "/"; "]:not([href="; "/"; "])"];
    quoted ["header a[href^="; "/"; "]:not([href="; "/"; "])"] ]%string.

Definition audioSelectors : list jstring :=
  [ quoted ["div[class*="; "music"; "] span"];
    quoted ["div[class*="; "audio"; "] span"];
    quoted ["a[href*="; "/audio-page/"; "]"];
    quoted ["[data-testid="; "audio-attribution"; "]"];
    quoted ["span:contains("; "Original audio"; ")"];
    (lit "span:contains(" ++ dq ++ [c_bullet] ++ dq ++ lit ")")%list ]%string.

Definition captionSelectors : list jstring :=
  [ quoted ["article div[class*="; "caption"; "] span"];
    quoted ["div[data-testid="; "post-caption"; "] span"];
    quoted ["article div span[dir="; "auto"; "]"];
    lit "article div div div div span";
    lit "div._a9zs span";
    quoted ["div[class*="; "_a9z"; "] span"];
    lit "article span" ]%string.

(** Strategy 1: Try Instagram's internal API data *)
Definition internal_api (p : Page) : M unit :=
  try_catch
    (pageData <- await (shared_media p) ;;
     match pageData with
     | Some media =>
         assign (set_username (owner_username media)) ;;
         assign (set_likes (edge_media_preview_like_count media)) ;;
         assign (set_views (video_view_count media)) ;;
         assign (set_comments (edge_media_to_comment_count media)) ;;
         assign (set_description (caption_text media)) ;;
         d <- read description ;;
         match d with
         | Some (x :: t) =>
             let firstLine := trim (first_line (x :: t)) in
             when (List.length firstLine <=? 100)
                  (assign (set_title (Some firstLine)))
         | _ => ret tt
         end
     | None => ret tt
     end)
    (fun _ => ret tt).

(** Extract username with improved selectors *)
Definition extract_username (p : Page) : M unit :=
  u <- read username ;;
  when (negb (truthy_str u))
    (try_catch
       (for_of usernameSelectors (fun selector =>
          elements <- await (querySelectorAll p selector) ;;
          for_of elements (fun element =>
            h <- await (href element) ;;
            text <- await (textContent element) ;;
            match h, text with
            | Some (h0 :: hs), Some (t0 :: ts) =>
                let usernameFromHref :=
                  group_or_empty 1 (exec profile_re (h0 :: hs)) in
                let usernameFromText := trim (t0 :: ts) in
                let username :=
                  if is_empty usernameFromHref then usernameFromText
                  else usernameFromHref in
                if negb (is_empty username)
                   && negb (includes username [c_bullet])
                   && negb (includes username (lit "instagram.com"))
                   && (0 <? List.length username)
                then assign (set_username (Some username)) ;; break
                else continue
            | _, _ => continue
            end) ;;
          u' <- read username ;;
          if truthy_str u' then break else continue))
       (fun _ => ret tt)).

(** Extract audio/music info with better targeting *)
Definition extract_audio (p : Page) : M unit :=
  a <- read audioUsed ;;
  when (negb (truthy_str a))
    (try_catch
       (allText <- await (body_text p) ;;
        for_of audioPatterns (fun pat =>
          match match0 pat allText with
          | Some m0 => assign (set_audioUsed (Some (trim m0))) ;; break
          | None => continue
          end) ;;
        a1 <- read audioUsed ;;
        when (negb (truthy_str a1))
          (for_of audioSelectors (fun selector =>
             audioElement <- await (querySelector p selector) ;;
             match audioElement with
             | Some el =>
                 audio <- await (textContent el) ;;
                 match audio with
                 | Some au =>
                     if negb (is_empty au) && negb (is_empty (trim au))
                        && (3 <? List.length au)
                     then assign (set_audioUsed (Some (trim au))) ;; break
                     else continue
                 | None => continue
                 end
             | None => continue
             end)) ;;
        a2 <- read audioUsed ;;
        when (negb (truthy_str a2))
          (assign (set_audioUsed (Some (lit "Audio not detected")))))
       (fun _ =>
          assign (set_audioUsed (Some (lit "Audio extraction failed"))))).

(** One metric's patterns: the first one whose first match holds a count
    gives the value. *)
Definition scan_patterns (pats : list pattern) (pageText : jstring)
  (set : option number -> ReelData -> ReelData) : M unit :=
  for_of pats (fun pat =>
    match match0 pat pageText with
    | Some m0 =>
        match Normalizer.count_in m0 with
        | Some n => assign (set (Some n)) ;; break
        | None => continue
        end
    | None => continue
    end).

(** Alternative: Try extracting from button attributes *)
Definition scan_buttons (p : Page) : M unit :=
  buttons <- await (querySelectorAll p (lit "button, a")) ;;
  for_of buttons (fun button =>
    label <- await (ariaLabel button) ;;
    match label with
    | Some (l0 :: ls) =>
        let lbl := l0 :: ls in
        l <- read likes ;;
        when (includes lbl (lit "like") && negb (truthy_num l))
          (match Normalizer.count_in lbl with
           | Some n => assign (set_likes (Some n))
           | None => ret tt
           end) ;;
        c <- read comments ;;
        when (includes lbl (lit "comment") && negb (truthy_num c))
          (match Normalizer.count_in lbl with
           | Some n => assign (set_comments (Some n))
           | None => ret tt
           end) ;;
        continue
    | _ => continue
    end).

(** Extract engagement metrics with enhanced pattern matching *)
Definition extract_metrics (p : Page) : M unit :=
  l <- read likes ;; v <- read views ;; c <- read comments ;;
  when (negb (truthy_num l) || negb (truthy_num v) || negb (truthy_num c))
    (try_catch
       (pageText <- await (body_text p) ;;
        l1 <- read likes ;;
        when (negb (truthy_num l1)) (scan_patterns likes_patterns pageText set_likes) ;;
        v1 <- read views ;;
        when (negb (truthy_num v1)) (scan_patterns views_patterns pageText set_views) ;;
        c1 <- read comments ;;
        when (negb (truthy_num c1)) (scan_patterns comments_patterns pageText set_comments) ;;
        l2 <- read likes ;; c2 <- read comments ;;
        when (negb (truthy_num l2) || negb (truthy_num c2)) (scan_buttons p))
       (fun _ => ret tt)).

(** Extract caption/description with better selectors *)
Definition extract_caption (p : Page) : M unit :=
  d <- read description ;;
  when (negb (truthy_str d))
    (try_catch
       (for_of captionSelectors (fun selector =>
          elements <- await (querySelectorAll p selector) ;;
          for_of elements (fun element =>
            caption <- await (textContent element) ;;
            match caption with
            | Some (c0 :: cs) =>
                let c := c0 :: cs in
                if (10 <? List.length (trim c))
                   && negb (includes c (lit "likes"))
                   && negb (includes c (lit "views"))
                then
                  assign (set_description (Some (trim c))) ;;
                  let firstLine := trim (first_line c) in
                  when ((List.length firstLine <=? 100)
                        && (3 <? List.length firstLine))
                       (assign (set_title (Some firstLine))) ;;
                  break
                else continue
            | _ => continue
            end) ;;
          d' <- read description ;;
          if truthy_str d' then break else continue))
       (fun _ => ret tt)).

(** The reel path a landing URL must hold. *)
Definition reel_path : jstring := lit "instagram.com/reel/".

(** Check if we're blocked or redirected *)
Definition check_redirect (p : Page) : M unit :=
  let currentUrl := page_url p in
  when (negb (includes currentUrl reel_path))
       (throw (JsError (lit "Redirected away from reel: " ++ currentUrl))).

(** [async requestHandler({ page, request })] *)
Definition requestHandler (ctx : Context) : M unit :=
  let p := page ctx in
  try_catch
    (await (goto p) ;;
     try_catch (await (waitForSelector p (lit "article"))) (fun _ => ret tt) ;;
     check_redirect p ;;
     internal_api p ;;
     extract_username p ;;
     extract_audio p ;;
     extract_metrics p ;;
     extract_caption p ;;
     pushData ctx)
    (fun error =>
       assign (set_error (Some (error_message error))) ;;
       pushData ctx).

End Enhanced.

(* ===================================================================== *)
(** * [unnamed/part_000], second file *)
(* ===================================================================== *)

Module Optimized.

Definition parseMetric : jstring -> number := Normalizer.parseMetric.

Definition count : regex := Normalizer.count.
Definition ws : regex := Star true (Sym space).        (* \s* *)
Definition ws1 : regex := Plus (Sym space).            (* \s+ *)
Definition plural (w : string) : regex :=              (* likes? and the like *)
  (str_i (lit w) +++ Opt (chr_i (ch "s")))%re.

(** [/instagram\.com\/([^/?#]+)\/?$/] *)
Definition profile_re : regex :=
  (str (lit "instagram.com/") +++ Grp 1 (Plus (Sym (none_of (lit "/?#"))))
   +++ Opt (chr (ch "/")) +++ Eos)%re.

(** [\d{1,3}(?:,\d{3})+] *)
Definition large_count : regex :=
  (Quant 1 3 (Sym digit) +++ Plus (chr c_comma +++ Quant 3 3 (Sym digit)))%re.

(** [/(\d{1,3}(?:,\d{3})+)\s*(?:likes?|views?|comments?)/gi] *)
Definition largeNumberPattern : regex :=
  (Grp 1 large_count +++ ws
   +++ (plural "like" <|> plural "view" <|> plural "comment"))%re.

(** [likesPatterns], each with the flags [gi] *)
Definition likesPatterns : list pattern :=
  [ mkPattern (Grp 1 count +++ ws +++ plural "like") true;
    mkPattern (str_i (lit "Liked by") +++ ws1 +++ Star false (Sym dot)
               +++ str_i (lit "and") +++ ws1 +++ Grp 1 count +++ ws
               +++ str_i (lit "others")) true ]%re.

(** [/(\d{1,3}(?:[,.]\d{3})*(?:\.\d+)?[KMB]?)\s*(?:views?|plays?)/gi] *)
Definition views_pattern : pattern :=
  mkPattern (Grp 1 count +++ ws +++ (plural "view" <|> plural "play"))%re true.

(** [/(?:View all\s+)?(\d{1,3}(?:[,.]\d{3})*(?:\.\d+)?[KMB]?)\s*comments?/gi] *)
Definition comments_pattern : pattern :=
  mkPattern (Opt (str_i (lit "View all") +++ ws1) +++ Grp 1 count +++ ws
             +++ plural "comment")%re true.

Definition alpha : char -> bool :=
  either (range (ch "A") (ch "Z")) (range (ch "a") (ch "z")).
Definition alnum_space : char -> bool := either alpha (either digit space).

(** [/([A-Za-z][A-Za-z0-9\s]{2,30})\s*•\s*([A-Za-z][A-Za-z0-9\s]{2,30})/g] *)
Definition cleanAudioPattern : regex :=
  (Grp 1 (Sym alpha +++ Quant 2 30 (Sym alnum_space)) +++ ws
   +++ chr c_bullet +++ ws
   +++ Grp 2 (Sym alpha +++ Quant 2 30 (Sym alnum_space)))%re.

(** [audioPatterns], each with the flags [gi] *)
Definition audioPatterns : list pattern :=
  [ mkPattern (str_i (lit "Original audio")) true;
    mkPattern (str_i (lit "Audio is muted")) true;
    mkPattern (str_i (lit "Sound on")) true;
    mkPattern (str_i (lit "Sound off")) true ].

Definition profileLinks : jstring :=
  quoted ["a[href^="; "/"; "]:not([href="; "/"; "]):not([href*="; "accounts";
          "]):not([href*="; "login"; "]):not([href*="; "signup"; "])"]%string.

Definition headerSelectors : list jstring :=
  [ lit "header h2 a";
    lit "header h1 a";
    quoted ["header a[href^="; "/"; "]:not([href*="; "accounts"; "])"] ]%string.

Definition commentsLink : jstring :=
  quoted ["a[href*="; "/comments/"; "] span"]%string.

Definition audioLink : jstring :=
  quoted ["a[href*="; "/reels/audio/"; "]"]%string.

Definition h1Caption : jstring := lit "h1._ap3a._aaco._aacu._aacx._aad7._aade".

Definition captionSelectors : list jstring :=
  [ quoted ["h1[dir="; "auto"; "]"];
    lit "h1";
    quoted ["span[dir="; "auto"; "]"];
    quoted ["div[class*="; "caption"; "] span"];
    lit "article span" ]%string.

(** The emoji of the caption scan, as UTF-16 code units. *)
Definition emoji_joystick : jstring := [55357; 56697]%N.   (* U+1F579 *)
Definition emoji_robot : jstring := [55358; 56598]%N.      (* U+1F916 *)
Definition emoji_camera : jstring := [55356; 57253]%N.     (* U+1F3A5 *)
Definition emoji_heart : jstring := [10084; 65039]%N.      (* U+2764 U+FE0F *)

(** [href.match(/instagram\.com\/([^/?#]+)\/?$/)] and its [match[1]]; the
    empty string when there is no match. *)
Definition handle_of (h : jstring) : jstring :=
  group_or_empty 1 (exec profile_re h).

(** Method 1: Look for profile links that aren't login/signup *)
Definition username_from_links (p : Page) : M unit :=
  profile_links <- await (querySelectorAll p profileLinks) ;;
  for_of profile_links (fun link =>
    h <- await (href link) ;;
    text <- await (textContent link) ;;
    found <-
      match h with
      | Some (h0 :: hs) =>
          let m1 := handle_of (h0 :: hs) in
          if negb (is_empty m1)
             && negb (includes m1 (lit "accounts"))
             && negb (includes m1 (lit "reel"))
             && negb (includes m1 (lit "audio"))
             && negb (includes m1 (lit "explore"))
             && (1 <? List.length m1)
          then assign (set_username (Some m1)) ;; ret true
          else ret false
      | _ => ret false
      end ;;
    if found : bool then break
    else
      match text with
      | Some (t0 :: ts) =>
          let t := t0 :: ts in
          if negb (is_empty (trim t))
             && negb (includes t (lit "Follow"))
             && negb (includes t (lit "Sign"))
             && negb (includes t (lit "Log"))
             && negb (includes t [c_bullet])
             && (1 <? List.length t) && (List.length t <? 30)
          then assign (set_username (Some (trim t))) ;; break
          else continue
      | _ => continue
      end).

(** Method 2: Try header username specifically *)
Definition username_from_header (p : Page) : M unit :=
  u <- read username ;;
  when (negb (truthy_str u))
    (for_of headerSelectors (fun selector =>
       try_catch
         (element <- await (querySelector p selector) ;;
          match element with
          | Some el =>
              h <- await (href el) ;;
              match h with
              | Some (h0 :: hs) =>
                  let m1 := handle_of (h0 :: hs) in
                  if negb (is_empty m1) && negb (includes m1 (lit "accounts"))
                  then assign (set_username (Some m1)) ;; break
                  else continue
              | _ => continue
              end
          | None => continue
          end)
         (fun _ => continue))).

(** Extract username - avoid login/signup links *)
Definition extract_username (p : Page) : M unit :=
  try_catch
    (username_from_links p ;; username_from_header p)
    (fun _ => ret tt).

(** [numMatch = match.match(/(\d{1,3}(?:,\d{3})+)/i)] and the value of its
    [numMatch[1]] *)
Definition large_count_in (t : jstring) : option number :=
  match exec (Grp 1 large_count) t with
  | Some numMatch => Some (parseMetric (group_or_empty 1 (Some numMatch)))
  | None => None
  end.

(** Strategy 1: Look for large numbers in page text first *)
Definition large_numbers (pageText : jstring) : M unit :=
  match match_all largeNumberPattern pageText with
  | Some largeNumberMatches =>
      for_of largeNumberMatches (fun m =>
        when (includes m (lit "like"))
          (match large_count_in m with
           | Some n => assign (set_likes (Some n))
           | None => ret tt
           end) ;;
        when (includes m (lit "view"))
          (match large_count_in m with
           | Some n => assign (set_views (Some n))
           | None => ret tt
           end) ;;
        when (includes m (lit "comment"))
          (match large_count_in m with
           | Some n => assign (set_comments (Some n))
           | None => ret tt
           end) ;;
        continue)
  | None => ret tt
  end.

(** [m = pageText.match(pattern)], [if (m && m[0])], then the count in
    [m[0]] *)
Definition count_of_first (pat : pattern) (pageText : jstring) : option number :=
  match match0 pat pageText with
  | Some (x :: t) => Normalizer.count_in (x :: t)
  | _ => None
  end.

(** Strategy 2: Standard patterns with K/M notation *)
Definition likes_from_patterns (pageText : jstring) : M unit :=
  l <- read likes ;;
  when (negb (truthy_num l))
    (for_of likesPatterns (fun pat =>
       match count_of_first pat pageText with
       | Some n => assign (set_likes (Some n)) ;; break
       | None => continue
       end)).

(** Views (if not found above) *)
Definition views_from_pattern (pageText : jstring) : M unit :=
  v <- read views ;;
  when (negb (truthy_num v))
    (match count_of_first views_pattern pageText with
     | Some n => assign (set_views (Some n))
     | None => ret tt
     end).

(** Comments (if not found above): the exact selector, then the pattern *)
Definition comments_from_link (p : Page) : M unit :=
  c <- read comments ;;
  when (negb (truthy_num c))
    (try_catch
       (link <- await (querySelector p commentsLink) ;;
        match link with
        | Some el =>
            commentsText <- await (textContent el) ;;
            match commentsText with
            | Some (c0 :: cs) =>
                match Normalizer.count_in (c0 :: cs) with
                | Some n => assign (set_comments (Some n))
                | None => ret tt
                end
            | _ => ret tt
            end
        | None => ret tt
        end)
       (fun _ => ret tt)).

Definition comments_from_pattern (pageText : jstring) : M unit :=
  c <- read comments ;;
  when (negb (truthy_num c))
    (match count_of_first comments_pattern pageText with
     | Some n => assign (set_comments (Some n))
     | None => ret tt
     end).

(** Extract engagement metrics with better number detection *)
Definition extract_metrics (p : Page) (pageText : jstring) : M unit :=
  try_catch
    (large_numbers pageText ;;
     likes_from_patterns pageText ;;
     views_from_pattern pageText ;;
     comments_from_link p ;;
     comments_from_pattern pageText)
    (fun _ => ret tt).

(** Strategy 1: Use the exact audio link selector *)
Definition audio_from_link (p : Page) : M unit :=
  try_catch
    (link <- await (querySelector p audioLink) ;;
     match link with
     | Some el =>
         audioText <- await (textContent el) ;;
         match audioText with
         | Some (a0 :: t) =>
             when (negb (is_empty (trim (a0 :: t))))
                  (assign (set_audioUsed (Some (trim (a0 :: t)))))
         | _ => ret tt
         end
     | None => ret tt
     end)
    (fun _ => ret tt).

(** Strategy 2: Look for clean "Artist • Song" pattern in text (backup) *)
Definition audio_from_pattern (pageText : jstring) : M unit :=
  a <- read audioUsed ;;
  when (negb (truthy_str a))
    (match match_all cleanAudioPattern pageText with
     | Some cleanAudioMatch =>
         for_of cleanAudioMatch (fun m =>
           if negb (includes m (lit "Sign"))
              && negb (includes m (lit "Log"))
              && negb (includes m (lit "Follow"))
              && negb (includes m (lit "Verified"))
              && (List.length m <? 100)
           then assign (set_audioUsed (Some (trim m))) ;; break
           else continue)
     | None => ret tt
     end).

(** Strategy 3: Fallback to status patterns *)
Definition audio_from_status (pageText : jstring) : M unit :=
  a <- read audioUsed ;;
  when (negb (truthy_str a))
    (for_of audioPatterns (fun pat =>
       match match0 pat pageText with
       | Some m0 => assign (set_audioUsed (Some m0)) ;; break
       | None => continue
       end)).

(** Extract audio info using the exact selector from HTML inspection *)
Definition extract_audio (p : Page) (pageText : jstring) : M unit :=
  try_catch
    (audio_from_link p ;;
     audio_from_pattern pageText ;;
     audio_from_status pageText ;;
     a <- read audioUsed ;;
     when (negb (truthy_str a))
          (assign (set_audioUsed (Some (lit "Audio not detected")))))
    (fun _ => assign (set_audioUsed (Some (lit "Audio extraction failed")))).

(** Strategy 1: Use exact H1 selector from HTML inspection *)
Definition caption_from_h1 (p : Page) : M unit :=
  try_catch
    (h1Element <- await (querySelector p h1Caption) ;;
     match h1Element with
     | Some el =>
         captionText <- await (textContent el) ;;
         match captionText with
         | Some (c0 :: t) =>
             when (negb (is_empty (trim (c0 :: t))))
                  (assign (set_description (Some (trim (c0 :: t)))) ;;
                   assign (set_title (Some (trim (c0 :: t)))))
         | _ => ret tt
         end
     | None => ret tt
     end)
    (fun _ => ret tt).

(** [text !== reelData.username] *)
Definition differs (t : jstring) (u : option jstring) : bool :=
  match u with
  | Some x => negb (eqb t x)
  | None => true
  end.

(** Strategy 2: Fallback to other caption selectors *)
Definition caption_from_selectors (p : Page) : M unit :=
  d <- read description ;;
  when (negb (truthy_str d))
    (for_of captionSelectors (fun selector =>
       try_catch
         (elements <- await (querySelectorAll p selector) ;;
          for_of elements (fun element =>
            text <- await (textContent element) ;;
            u <- read username ;;
            match text with
            | Some (t0 :: ts) =>
                let t := t0 :: ts in
                if (10 <? List.length (trim t))
                   && negb (includes t (lit "likes"))
                   && negb (includes t (lit "views"))
                   && negb (includes t (lit "comments"))
                   && negb (includes t (lit "Follow"))
                   && negb (includes t [c_bullet])
                   && negb (includes t (lit "The Black Eyed Peas"))
                   && negb (includes t (lit "Sign"))
                   && negb (includes t (lit "Log"))
                   && differs t u
                then
                  assign (set_description (Some (trim t))) ;;
                  assign (set_title (Some (trim t))) ;;
                  break
                else continue
            | _ => continue
            end) ;;
          d' <- read description ;;
          if truthy_str d' then break else continue)
         (fun _ => continue))).

(** Strategy 3: Look for caption patterns in page text (with emojis) *)
Definition caption_from_text (pageText : jstring) : M unit :=
  d <- read description ;;
  when (negb (truthy_str d))
    (for_of (split c_lf pageText) (fun line =>
       let cleanLine := trim line in
       u <- read username ;;
       if (10 <? List.length cleanLine) && (List.length cleanLine <? 200)
          && negb (includes cleanLine (lit "likes"))
          && negb (includes cleanLine (lit "views"))
          && negb (includes cleanLine (lit "comments"))
          && negb (includes cleanLine (lit "Follow"))
          && negb (includes cleanLine [c_bullet])
          && negb (includes cleanLine (lit "The Black Eyed Peas"))
          && differs cleanLine u
          && (includes cleanLine emoji_joystick
              || includes cleanLine emoji_robot
              || includes cleanLine emoji_camera
              || includes cleanLine emoji_heart
              || includes (toLowerCase cleanLine) (lit "rock"))
       then
         assign (set_description (Some cleanLine)) ;;
         assign (set_title (Some cleanLine)) ;;
         break
       else continue)).

(** Extract caption/description using exact H1 selector from inspection *)
Definition extract_caption (p : Page) (pageText : jstring) : M unit :=
  try_catch
    (caption_from_h1 p ;;
     caption_from_selectors p ;;
     caption_from_text pageText)
    (fun _ => ret tt).

Definition reel_path : jstring := lit "instagram.com/reel/".

(** Check if we're blocked or redirected *)
Definition check_redirect (p : Page) : M unit :=
  let currentUrl := page_url p in
  when (negb (includes currentUrl reel_path))
       (throw (JsError (lit "Redirected away from reel: " ++ currentUrl))).

(** Wait for video element instead of article; fall back to [body] *)
Definition wait_for_content (p : Page) : M unit :=
  try_catch
    (await (waitForSelector p (quoted ["video, [role="; "dialog"; "]"]%string)))
    (fun _ => await (waitForSelector p (lit "body"))).

(** [async requestHandler({ page, request })] *)
Definition requestHandler (ctx : Context) : M unit :=
  let p := page ctx in
  try_catch
    (await (goto p) ;;
     wait_for_content p ;;
     check_redirect p ;;
     pageText <- await (body_text p) ;;
     extract_username p ;;
     extract_metrics p pageText ;;
     extract_audio p pageText ;;
     extract_caption p pageText ;;
     pushData ctx)
    (fun error =>
       assign (set_error (Some (error_message error))) ;;
       pushData ctx).

End Optimized.

(* ===================================================================== *)
(** * The start of the actor *)
(* ===================================================================== *)

(** The three files start alike: the input is read, its [url] is checked
    against the pattern of a reel address, and the crawler is handed the
    one request. *)
Module Startup.

(** [interface Input] *)
Record Input : Type := mkInput { input_url : jstring }.

(** [/^https?:\/\/www\.instagram\.com\/reel\/.+$/], without its [^] *)
Definition reel_url_re : regex :=
  (str (lit "http") +++ Opt (chr (ch "s"))
   +++ str (lit "://www.instagram.com/reel/")
   +++ Plus (Sym dot) +++ Eos)%re.

(** [s.match(/^.../)]: without the [m] flag a pattern that starts with [^]
    matches at the start of the string or not at all. *)
Definition match_start (r : regex) (s : jstring) : option (jstring * caps) :=
  match_here r s.

(** [if (!input) throw ...; const { url } = input; if (!url.match(...)) throw ...]:
    the address to request, or the error the script stops with. *)
Definition validate (input : option Input) : Exc jstring :=
  match input with
  | None => inl (JsError (lit "Input is missing!"))
  | Some i =>
      let url := input_url i in
      match match_start reel_url_re url with
      | Some _ => inr url
      | None => inl (JsError (lit "Invalid Instagram reel URL provided"))
      end
  end.

(** [const input = await Actor.getInput<Input>()] and the checks: what
    [crawler.addRequests([{ url }])] is given. *)
Definition start (getInput : Exc (option Input)) : Exc jstring :=
  match getInput with
  | inl e => inl e
  | inr input => validate input
  end.

End Startup.

(* ===================================================================== *)
(** * Vocabulary of the properties *)
(* ===================================================================== *)

(** [x] is a non-negative integer. *)
Definition is_count (x : number) : Prop :=
  exists n : N, to_Z x = Some (Z.of_N n).

(** [x] is zero, a positive finite number or [+Infinity]. *)
Definition non_negative (x : number) : Prop :=
  match x with
  | S754_zero false | S754_infinity false | S754_finite false _ _ => True
  | _ => False
  end.

(** [n] is a value a number holds exactly. *)
Definition exact (n : N) : Prop := to_Z (of_N n) = Some (Z.of_N n).

(** [preserves I c]: running [c] from a state in [I] ends in a state in
    [I], whether [c] returns or throws. *)
Definition preserves {A} (I : State -> Prop) (c : M A) : Prop :=
  forall st, I st -> I (snd (c st)).

(** [no_throw c]: [c] always returns. *)
Definition no_throw {A} (c : M A) : Prop :=
  forall st, exists a, fst (c st) = inr a.

(** No step before the final push hands anything to the dataset. *)
Definition nothing_pushed (st : State) : Prop := pushed st = [].

(** Before the push no step writes [error]. *)
Definition no_error (st : State) : Prop := error (reelData st) = None.

(** ** Literals of the numeric normalizer *)

(** What [parseMetric] removes first: commas and white space. *)
Definition strip (s : jstring) : jstring :=
  remove_all (fun c => (c =? c_comma)%N || is_space c) s.

(** The magnitude suffix of a literal. *)
Inductive suffix : Type := NoSuffix | Thousand | Million | Billion.

(** Its letter, in upper or in lower case. *)
Definition suffix_text (u : suffix) (lower : bool) : jstring :=
  match u, lower with
  | NoSuffix, _ => []
  | Thousand, false => lit "K"
  | Thousand, true => lit "k"
  | Million, false => lit "M"
  | Million, true => lit "m"
  | Billion, false => lit "B"
  | Billion, true => lit "b"
  end.

(** The multiplication it stands for; no suffix, no multiplication. *)
Definition scale (u : suffix) (x : number) : number :=
  match u with
  | NoSuffix => x
  | Thousand => mul x (of_N 1000)
  | Million => mul x (of_N 1000000)
  | Billion => mul x (of_N 1000000000)
  end.

(** The fraction of a literal: nothing, or a point and digits. *)
Definition fraction (fp : jstring) : jstring :=
  match fp with
  | [] => []
  | _ => c_dot :: fp
  end.

(** The decimal digits of a number, most significant first. *)
Fixpoint uint_digits (d : Decimal.uint) : jstring :=
  match d with
  | Decimal.Nil => []
  | Decimal.D0 d => 48%N :: uint_digits d
  | Decimal.D1 d => 49%N :: uint_digits d
  | Decimal.D2 d => 50%N :: uint_digits d
  | Decimal.D3 d => 51%N :: uint_digits d
  | Decimal.D4 d => 52%N :: uint_digits d
  | Decimal.D5 d => 53%N :: uint_digits d
  | Decimal.D6 d => 54%N :: uint_digits d
  | Decimal.D7 d => 55%N :: uint_digits d
  | Decimal.D8 d => 56%N :: uint_digits d
  | Decimal.D9 d => 57%N :: uint_digits d
  end.

(** [n] in plain digits, as in "42000". *)
Definition plain (n : N) : jstring := uint_digits (N.to_uint n).

(** A comma after every third digit of a reversed run of digits. *)
Fixpoint group3 (l : jstring) : jstring :=
  match l with
  | a :: b :: c :: ((_ :: _) as t) => a :: b :: c :: c_comma :: group3 t
  | _ => l
  end.

(** [n] in comma-grouped digits, as in "42,000". *)
Definition grouped (n : N) : jstring := rev (group3 (rev (plain n))).

(** What follows the numeral of a literal: nothing, or a unit that is no
    digit and no separator. *)
Definition ends_numeral (rest : jstring) : Prop :=
  match rest with
  | [] => True
  | a :: _ => is_digit a = false /\ one_of (lit ".,") a = false
  end.

(** ** The shape of the three handlers *)

(** Every handler runs its extraction, pushes the record, and on an
    exception writes [error] and pushes the record. *)
Definition finish (ctx : Context) (extract : M unit) : M unit :=
  try_catch
    (extract ;; pushData ctx)
    (fun error =>
       assign (set_error (Some (error_message error))) ;;
       pushData ctx).

(** What each handler does before the push. *)
Definition MainTs_extract (p : Page) : M unit :=
  try_catch (await (waitForNavigation p)) (fun _ => ret tt) ;;
  await (waitForTimeout p) ;;
  MainTs.extract_username p ;;
  MainTs.extract_audio p ;;
  MainTs.extract_metrics p ;;
  MainTs.extract_caption p.

Definition Enhanced_extract (p : Page) : M unit :=
  await (goto p) ;;
  try_catch (await (waitForSelector p (lit "article"))) (fun _ => ret tt) ;;
  Enhanced.check_redirect p ;;
  Enhanced.internal_api p ;;
  Enhanced.extract_username p ;;
  Enhanced.extract_audio p ;;
  Enhanced.extract_metrics p ;;
  Enhanced.extract_caption p.

Definition Optimized_extract (p : Page) : M unit :=
  await (goto p) ;;
  Optimized.wait_for_content p ;;
  Optimized.check_redirect p ;;
  pageText <- await (body_text p) ;;
  Optimized.extract_username p ;;
  Optimized.extract_metrics p pageText ;;
  Optimized.extract_audio p pageText ;;
  Optimized.extract_caption p pageText.

(** The dataset accepts whatever it is handed. *)
Definition accepts_all (ctx : Context) : Prop :=
  forall d, pushData_outcome ctx d = inr tt.

(** The records an invocation pushed. *)
Definition emitted (h : Context -> M unit) (ctx : Context) : list ReelData :=
  pushed (snd (run_handler (h ctx) (request_url ctx))).

(** ** Weakest preconditions *)

(** [wp c Q E st]: run from [st], [c] returns a value and a state in [Q], or
    throws an exception and leaves a state in [E]. *)
Definition wp {A} (c : M A) (Q : A -> State -> Prop) (E : exn -> State -> Prop)
  (st : State) : Prop :=
  match c st with
  | (inr a, st') => Q a st'
  | (inl e, st') => E e st'
  end.

(** ** Navigation *)

(** The second file's page loaded: [goto] returned, and one of the two
    waits did. *)
Definition Optimized_loaded (p : Page) : Prop :=
  goto p = inr tt /\
  (waitForSelector p (quoted ["video, [role="; "dialog"; "]"]%string) = inr tt \/
   waitForSelector p (lit "body") = inr tt).

(** The message of the redirect check. *)
Definition redirected (p : Page) : jstring :=
  lit "Redirected away from reel: " ++ page_url p.

(** No engagement metric is resolved. *)
Definition no_metric (d : ReelData) : Prop :=
  likes d = None /\ views d = None /\ comments d = None.

(** ** Audio *)

Definition audio_not_detected : jstring := lit "Audio not detected".

Definition audio_extraction_failed : jstring := lit "Audio extraction failed".

(** [audioUsed] holds a non-empty string. *)
Definition audio_present (st : State) : Prop :=
  truthy_str (audioUsed (reelData st)) = true.

(** [audioUsed] was not assigned. *)
Definition audio_unset (st : State) : Prop := audioUsed (reelData st) = None.

(** The text a selector gives a strategy that wants more than [min] code
    units of it, none of them needed to be other than white space: the
    first element's text, when the lookup neither throws nor comes back
    empty-handed. *)
Definition selected_text (p : Page) (sel : jstring) (min : nat) : option jstring :=
  match querySelector p sel with
  | inr (Some el) =>
      match textContent el with
      | inr (Some t) =>
          if negb (is_empty t) && negb (is_empty (trim t)) && (min <? List.length t)
          then Some (trim t) else None
      | _ => None
      end
  | _ => None
  end.

(** A lookup that answers without throwing. *)
Definition answers (p : Page) (sel : jstring) : Prop :=
  match querySelector p sel with
  | inr (Some el) => match textContent el with inr _ => True | inl _ => False end
  | inr None => True
  | inl _ => False
  end.

(** The filter of the second file's "Artist • Song" strategy. *)
Definition clean_audio (m : jstring) : bool :=
  negb (includes m (lit "Sign")) && negb (includes m (lit "Log"))
  && negb (includes m (lit "Follow")) && negb (includes m (lit "Verified"))
  && (List.length m <? 100).

(** No audio strategy of the second file matches in the page. *)
Definition Optimized_no_audio (p : Page) (pageText : jstring) : Prop :=
  selected_text p Optimized.audioLink 0 = None /\
  match match_all Optimized.cleanAudioPattern pageText with
  | Some l => Forall (fun m => clean_audio m = false) l
  | None => True
  end /\
  Forall (fun pat => match0 pat pageText = None) Optimized.audioPatterns.

(** No audio strategy of the first file gives a text: no pattern matches
    in the page text, and no selector gives an element with a text the step
    takes, whether its lookup answers or throws. *)
Definition Enhanced_no_audio (p : Page) (allText : jstring) : Prop :=
  Forall (fun pat => match0 pat allText = None) Enhanced.audioPatterns /\
  Forall (fun sel => selected_text p sel 3 = None) Enhanced.audioSelectors.

(** The [try] block of each audio step. *)
Definition Enhanced_audio_attempt (p : Page) : M unit :=
  allText <- await (body_text p) ;;
  for_of Enhanced.audioPatterns (fun pat =>
    match match0 pat allText with
    | Some m0 => assign (set_audioUsed (Some (trim m0))) ;; break
    | None => continue
    end) ;;
  a1 <- read audioUsed ;;
  when (negb (truthy_str a1))
    (for_of Enhanced.audioSelectors (fun selector =>
       audioElement <- await (querySelector p selector) ;;
       match audioElement with
       | Some el =>
           audio <- await (textContent el) ;;
           match audio with
           | Some au =>
               if negb (is_empty au) && negb (is_empty (trim au))
                  && (3 <? List.length au)
               then assign (set_audioUsed (Some (trim au))) ;; break
               else continue
           | None => continue
           end
       | None => continue
       end)) ;;
  a2 <- read audioUsed ;;
  when (negb (truthy_str a2))
    (assign (set_audioUsed (Some (lit "Audio not detected")))).

Definition Optimized_audio_attempt (p : Page) (pageText : jstring) : M unit :=
  Optimized.audio_from_link p ;;
  Optimized.audio_from_pattern pageText ;;
  Optimized.audio_from_status pageText ;;
  a <- read audioUsed ;;
  when (negb (truthy_str a))
       (assign (set_audioUsed (Some (lit "Audio not detected")))).

(** [audioUsed] holds [v]. *)
Definition audio_is (v : jstring) (st : State) : Prop :=
  audioUsed (reelData st) = Some v.

(** ** The three versions *)

Inductive version : Type :=
| Main       (* src/main.ts *)
| First      (* unnamed/part_000, first file *)
| Second.    (* unnamed/part_000, second file *)

Definition handler (v : version) : Context -> M unit :=
  match v with
  | Main => MainTs.requestHandler
  | First => Enhanced.requestHandler
  | Second => Optimized.requestHandler
  end.

Definition extraction (v : version) : Page -> M unit :=
  match v with
  | Main => MainTs_extract
  | First => Enhanced_extract
  | Second => Optimized_extract
  end.

(** No audio strategy of a file of [part_000] matches. *)
Definition no_audio (v : version) (p : Page) (text : jstring) : Prop :=
  match v with
  | Main => False
  | First => Enhanced_no_audio p text
  | Second => Optimized_no_audio p text
  end.

(** ** Engagement metrics *)

(** What the normalizer answers: a non-negative integer, or [+Infinity]
    for a numeral beyond the range of a number. *)
Definition counted (x : number) : Prop :=
  is_count x \/ x = S754_infinity false.

Definition metric_ok (o : option number) : Prop :=
  match o with
  | Some x => counted x
  | None => True
  end.

Definition metrics_ok (d : ReelData) : Prop :=
  metric_ok (likes d) /\ metric_ok (views d) /\ metric_ok (comments d).

(** The counts of the data embedded in the page, when there is any, are
    counts. *)
Definition media_ok (p : Page) : Prop :=
  forall m, shared_media p = inr (Some m) ->
    metric_ok (edge_media_preview_like_count m) /\
    metric_ok (video_view_count m) /\
    metric_ok (edge_media_to_comment_count m).

(** ** Caption and title *)

(** The title a caption gives: its first line, trimmed, when that is at
    most 100 long and, with [floor], more than 3. *)
Definition title_of (floor : bool) (caption : jstring) : option jstring :=
  let firstLine := trim (first_line caption) in
  if (List.length firstLine <=? 100)
     && (if floor then 3 <? List.length firstLine else true)
  then Some firstLine else None.

(** No caption was accepted. *)
Definition uncaptioned (st : State) : Prop :=
  truthy_str (description (reelData st)) = false /\ title (reelData st) = None.

Definition captionless (st : State) : Prop :=
  description (reelData st) = None /\ title (reelData st) = None.

(** [main.ts]: no caption, or the text of the first element of a caption
    selector, with the title its first line gives. *)
Definition MainTs_caption (p : Page) (d : ReelData) : Prop :=
  (description d = None /\ title d = None) \/
  exists sel el caption,
    In sel MainTs.captionSelectors /\
    querySelector p sel = inr (Some el) /\
    textContent el = inr (Some caption) /\
    (10 < List.length caption)%nat /\
    description d = Some (trim caption) /\
    title d = title_of false caption.

(** First file of [part_000]: no caption, the caption of the embedded
    data, or the text of an element of a caption selector. *)
Definition Enhanced_caption (p : Page) (d : ReelData) : Prop :=
  (truthy_str (description d) = false /\ title d = None) \/
  (exists m caption,
     shared_media p = inr (Some m) /\ caption_text m = Some caption /\
     caption <> [] /\
     description d = Some caption /\ title d = title_of false caption) \/
  (exists sel els el caption,
     In sel Enhanced.captionSelectors /\
     querySelectorAll p sel = inr els /\ In el els /\
     textContent el = inr (Some caption) /\
     (10 < List.length (trim caption))%nat /\
     description d = Some (trim caption) /\ title d = title_of true caption).

(** What each version makes of the title. *)
Definition caption_rule (v : version) (p : Page) (d : ReelData) : Prop :=
  match v with
  | Main => MainTs_caption p d
  | First => Enhanced_caption p d
  | Second => title d = description d
  end.

(** ** Username *)








(** ** Properties of patterns *)

(** Every match of the pattern sets group [i]. *)
Inductive binds (i : nat) : regex -> Prop :=
| B_grp r : binds i (Grp i r)
| B_in j r : binds i r -> binds i (Grp j r)
| B_cat_l r1 r2 : binds i r1 -> binds i (Cat r1 r2)
| B_cat_r r1 r2 : binds i r2 -> binds i (Cat r1 r2)
| B_alt r1 r2 : binds i r1 -> binds i r2 -> binds i (Alt r1 r2).

(** Every match of the pattern holds a code unit of the class [q]. *)
Inductive holds (q : char -> bool) : regex -> Prop :=
| H_sym (p : char -> bool) : (forall c, p c = true -> q c = true) -> holds q (Sym p)
| H_cat_l r1 r2 : holds q r1 -> holds q (Cat r1 r2)
| H_cat_r r1 r2 : holds q r2 -> holds q (Cat r1 r2)
| H_alt r1 r2 : holds q r1 -> holds q r2 -> holds q (Alt r1 r2)
| H_grp i r : holds q r -> holds q (Grp i r).

(** The code units a match of the pattern can hold. *)
Fixpoint alphabet (r : regex) (c : char) : bool :=
  match r with
  | Eps | Eos => false
  | Sym p => p c
  | Cat r1 r2 | Alt r1 r2 => alphabet r1 c || alphabet r2 c
  | Star _ r1 | Grp _ r1 => alphabet r1 c
  end.

(** [capture i c] finds a text. *)
Definition bound (i : nat) (c : caps) : Prop := capture i c <> None.

(** The captures [c'] are [c] and more. *)
Definition extends (c c' : caps) : Prop := exists d, c' = d ++ c.

(** The pattern has no capturing group. *)
Fixpoint groupless (r : regex) : bool :=
  match r with
  | Eps | Eos | Sym _ => true
  | Cat r1 r2 | Alt r1 r2 => groupless r1 && groupless r2
  | Star _ r1 => groupless r1
  | Grp _ _ => false
  end.

(** ** Partial success *)

(** The page loads, as far as the extraction of a version needs. *)
Definition loads (v : version) (p : Page) : Prop :=
  match v with
  | Main => waitForTimeout p = inr tt
  | First => goto p = inr tt /\ includes (page_url p) Enhanced.reel_path = true
  | Second => Optimized_loaded p /\ includes (page_url p) Optimized.reel_path = true
  end.

(** The text of the document is [text]; for the first file of [part_000],
    which reads them first, the document embeds no data. *)
Definition shows (v : version) (p : Page) (text : jstring) : Prop :=
  match v with
  | Main => body_textContent p = inr (Some text)
  | First => body_text p = inr text /\ shared_media p = inr None
  | Second => body_text p = inr text
  end.

(** No comment button of [main.ts] holds a comments pattern. *)
Definition MainTs_no_comments (p : Page) : Prop :=
  forall els el t,
    querySelectorAll p MainTs.commentButtons = inr els -> In el els ->
    textContent el = inr t -> exec_opt MainTs.comments_re t = None.

(** The comments link of the second file, if there is one, holds no count. *)
Definition Optimized_no_comments_link (p : Page) : Prop :=
  forall el t,
    querySelector p Optimized.commentsLink = inr (Some el) ->
    textContent el = inr (Some t) -> Normalizer.count_in t = None.

(** The text holds a likes pattern of the version. *)
Definition likes_pattern (v : version) (text : jstring) : Prop :=
  match v with
  | Main => exec MainTs.likes_re text <> None
  | First => exists pat, In pat Enhanced.likes_patterns /\ match0 pat text <> None
  | Second => exists pat, In pat Optimized.likesPatterns /\ match0 pat text <> None
  end.

(** The text holds no views pattern of the version. *)
Definition no_views_pattern (v : version) (text : jstring) : Prop :=
  match v with
  | Main => exec MainTs.views_re text = None
  | First => Forall (fun pat => match0 pat text = None) Enhanced.views_patterns
  | Second => match0 Optimized.views_pattern text = None
  end.

(** No label of a button or link of the first file that holds "comment"
    holds a count. *)
Definition Enhanced_no_comment_label (p : Page) : Prop :=
  forall els el l,
    querySelectorAll p (lit "button, a") = inr els -> In el els ->
    ariaLabel el = inr (Some l) -> includes l (lit "comment") = true ->
    Normalizer.count_in l = None.

(** The document holds no comments pattern of the version. *)
Definition no_comments_pattern (v : version) (p : Page) (text : jstring) : Prop :=
  match v with
  | Main => MainTs_no_comments p
  | First => Forall (fun pat => match0 pat text = None) Enhanced.comments_patterns /\
             Enhanced_no_comment_label p
  | Second => match0 Optimized.comments_pattern text = None /\
              Optimized_no_comments_link p
  end.

(** Neither views nor comments are resolved. *)
Definition unviewed (st : State) : Prop :=
  views (reelData st) = None /\ comments (reelData st) = None.

(* ===================================================================== *)
(** * Vocabulary of the properties of the start and of the outcomes *)
(* ===================================================================== *)

(** ** Reel addresses *)

(** [u] is [http] or [https], the host [www.instagram.com], the path
    [/reel/] and at least one more code unit, none of them a line
    terminator. *)
Definition reel_address (u : jstring) : Prop :=
  exists scheme rest,
    (scheme = lit "http" \/ scheme = lit "https") /\
    u = scheme ++ lit "://www.instagram.com/reel/" ++ rest /\
    rest <> [] /\
    forallb (fun c => negb (is_line_terminator c)) rest = true.

(** ** Fatal failures *)

(** The failure that ends the extraction of a version, when there is one:
    a wait or a navigation that throws outside every inner [try], the
    redirect check, and in the second file the reading of the page text. *)
Definition load_failure (v : version) (p : Page) : option exn :=
  match v with
  | Main =>
      match waitForTimeout p with
      | inl e => Some e
      | inr _ => None
      end
  | First =>
      match goto p with
      | inl e => Some e
      | inr _ =>
          if includes (page_url p) Enhanced.reel_path then None
          else Some (JsError (redirected p))
      end
  | Second =>
      match goto p with
      | inl e => Some e
      | inr _ =>
          match waitForSelector p (quoted ["video, [role="; "dialog"; "]"]%string),
                waitForSelector p (lit "body") with
          | inl _, inl e => Some e
          | _, _ =>
              if includes (page_url p) Optimized.reel_path then
                match body_textContent p with
                | inl e => Some e
                | inr _ => None
                end
              else Some (JsError (redirected p))
          end
      end
  end.

(** The record a handler starts from, with [error] written. *)
Definition error_record (u : jstring) (e : exn) : ReelData :=
  set_error (Some (error_message e)) (new_reelData u).

(** ** The normalizer of [main.ts] *)

(** What is left of a string without its commas. *)
Definition uncomma (s : jstring) : jstring := remove_all (N.eqb c_comma) s.

(** The multiplication a suffix stands for in [main.ts], where [B] stands
    for none. *)
Definition MainTs_scale (u : suffix) (x : number) : number :=
  match u with
  | Thousand => mul x (of_N 1000)
  | Million => mul x (of_N 1000000)
  | NoSuffix | Billion => x
  end.

(** ** Captions *)

(** The words the first file of [part_000] refuses in the text of a
    caption element. *)
Definition Enhanced_caption_text (c : jstring) : Prop :=
  (10 < List.length c)%nat /\
  includes c (lit "likes") = false /\ includes c (lit "views") = false.

(** ** What a pattern can start with *)

(** The pattern can match the empty text. *)
Fixpoint nullable (r : regex) : bool :=
  match r with
  | Eps | Eos | Star _ _ => true
  | Sym _ => false
  | Cat r1 r2 => nullable r1 && nullable r2
  | Alt r1 r2 => nullable r1 || nullable r2
  | Grp _ r1 => nullable r1
  end.

(** A text the pattern matches, when it is not empty, can start with
    [c]. *)
Fixpoint opening (r : regex) (c : char) : bool :=
  match r with
  | Eps | Eos => false
  | Sym p => p c
  | Cat r1 r2 => opening r1 c || (nullable r1 && opening r2 c)
  | Alt r1 r2 => opening r1 c || opening r2 c
  | Star _ r1 | Grp _ r1 => opening r1 c
  end.

(** What the caption selectors and the text scan of the second file
    refuse. *)
Definition Optimized_caption_text (c : jstring) : Prop :=
  (10 < List.length c)%nat /\
  includes c (lit "likes") = false /\ includes c (lit "views") = false /\
  includes c (lit "comments") = false /\ includes c (lit "Follow") = false /\
  includes c [c_bullet] = false /\
  includes c (lit "The Black Eyed Peas") = false.

(** ** The audio of [main.ts] *)

(** One turn of the audio loop of [main.ts]. *)
Definition MainTs_audio_turn (p : Page) (selector : jstring) : M bool :=
  audioElement <- await (querySelector p selector) ;;
  match audioElement with
  | Some el =>
      audio <- await (textContent el) ;;
      match audio with
      | Some a =>
          if negb (is_empty a) && negb (is_empty (trim a))
          then assign (set_audioUsed (Some (trim a))) ;; break
          else continue
      | None => continue
      end
  | None => continue
  end.

(** ** Selectors that are not CSS *)

(** What a browser does with [:contains(...)], a pseudo-class of jQuery
    and not of CSS: [page.$] throws on a selector that holds it. *)
Definition refuses_contains (p : Page) : Prop :=
  forall sel, includes sel (lit ":contains(") = true ->
    exists e, querySelector p sel = inl e.

(** ** What the likes strategies read in a text *)

(** The count of the first pattern that gives one. *)
Fixpoint first_count (pats : list pattern) (count : pattern -> option number)
  : option number :=
  match pats with
  | [] => None
  | pat :: t =>
      match count pat with
      | Some n => Some n
      | None => first_count t count
      end
  end.

(** The likes the large-number strategy of the second file leaves: the
    number of the last match that holds "like". *)
Definition Optimized_large_likes (text : jstring) : option number :=
  match match_all Optimized.largeNumberPattern text with
  | Some ms =>
      fold_left (fun l m =>
                   if includes m (lit "like") then
                     match Optimized.large_count_in m with
                     | Some n => Some n
                     | None => l
                     end
                   else l) ms None
  | None => None
  end.

(** The likes a version reads in the text of the page: in [main.ts] the
    number before the first "like"; in the first file of [part_000] the
    count in the first match of the first pattern that gives one; in the
    second file the large number, unless it is falsy and a pattern gives a
    count. *)
Definition text_likes (v : version) (text : jstring) : option number :=
  match v with
  | Main =>
      match exec MainTs.likes_re text with
      | Some m => Some (MainTs.parseMetric (group_or_empty 1 (Some m)))
      | None => None
      end
  | First =>
      first_count Enhanced.likes_patterns
        (fun pat => match match0 pat text with
                    | Some m0 => Normalizer.count_in m0
                    | None => None
                    end)
  | Second =>
      let l := Optimized_large_likes text in
      if truthy_num l then l
      else match first_count Optimized.likesPatterns
                   (fun pat => Optimized.count_of_first pat text) with
           | Some n => Some n
           | None => l
           end
  end.

(** The record holds the likes [n], unless, in the first file of
    [part_000], [n] is falsy and a label gave others; it holds no views and
    no comments. *)
Definition likes_alone (v : version) (n : number) (d : ReelData) : Prop :=
  (v <> First \/ truthy_num (Some n) = true -> likes d = Some n) /\
  likes d <> None /\ views d = None /\ comments d = None.

(* ===================================================================== *)
(** * Pages, requests and records for examples *)
(* ===================================================================== *)

(** An element with a text and, for a link, its resolved [href]. *)
Definition element (t : jstring) (h : option jstring) : Element :=
  mkElement (inr (Some t)) (inr h) (inr None).

(** The elements a document answers to each selector that matches. *)
Definition dom : Type := list (jstring * list Element).

Fixpoint select (sel : jstring) (d : dom) : list Element :=
  match d with
  | [] => []
  | (k, v) :: t => if JsString.eqb k sel then v else select sel t
  end.

(** A page that loaded at [u], with body text [t] and document [d], no
    embedded data, and no call that throws. *)
Definition static_page (u t : jstring) (d : dom) : Page :=
  mkPage (inr tt) (inr tt) (inr tt) (fun _ => inr tt) u (inr (Some t))
         (inr None) (fun sel => inr (select sel d)).

(** A dataset that accepts every record. *)
Definition accepting : ReelData -> Exc unit := fun _ => inr tt.

(** The reel the examples request. *)
Definition reel_url : jstring := lit "https://www.instagram.com/reel/ABC123/".

(** A page with no element, and the context that requests it. *)
Definition bare_page (text : jstring) : Page := static_page reel_url text [].

Definition bare (text : jstring) : Context :=
  mkContext reel_url (bare_page text) accepting.

(** A page on which the lookup of [sel] throws and nothing else is found. *)
Definition failing_lookup (sel text : jstring) : Page :=
  mkPage (inr tt) (inr tt) (inr tt) (fun _ => inr tt) reel_url (inr (Some text))
         (inr None)
         (fun s => if JsString.eqb s sel then inl (JsError (lit "lookup failed"))
                   else inr []).

(** A page whose body text cannot be read. *)
Definition unreadable_page : Page :=
  mkPage (inr tt) (inr tt) (inr tt) (fun _ => inr tt) reel_url
         (inl (JsError (lit "evaluation failed"))) (inr None) (fun _ => inr []).

(** A page whose embedded data hold the given counts. *)
Definition page_with_media (m : Media) : Page :=
  mkPage (inr tt) (inr tt) (inr tt) (fun _ => inr tt) reel_url (inr (Some []))
         (inr (Some m)) (fun _ => inr []).

(** [n] thousands groups after a one: "1,000,000" for [n = 2]. *)
Fixpoint thousands (n : nat) : jstring :=
  match n with
  | O => []
  | S k => (lit ",000" ++ thousands k)%list
  end.

(** Embedded data with a negative and a fractional count. *)
Definition odd_media : Media :=
  mkMedia None (Some (of_decimal true 5 0)) (Some (of_decimal false 5 (-1))) None None.

(** A one and 103 groups of three zeros: 10^309, beyond every number. *)
Definition huge_count : jstring := (lit "1" ++ thousands 103)%list.

(** The caption of the specification's example, and pages that show it. *)
Definition two_lines : jstring :=
  (lit "Hello world" ++ [c_lf] ++ lit "rest of caption")%list.

Definition page_with (sel caption : jstring) : Page :=
  static_page reel_url (lit "a reel") [(sel, [element caption None])].

Definition showing (sel caption : jstring) : Context :=
  mkContext reel_url (page_with sel caption) accepting.

(** A caption whose first line is 120 long. *)
Definition long_line : jstring := repeat 97%N 120.

Definition long_caption : jstring := (long_line ++ [c_lf] ++ lit "the rest")%list.

(** A caption whose first line is 2 long. *)
Definition short_caption : jstring := (lit "Hi" ++ [c_lf] ++ lit "and the rest of it")%list.

(** A page with one link under [sel]. *)
Definition page_with_link (sel t h : jstring) : Page :=
  static_page reel_url (lit "a reel") [(sel, [element t (Some h)])].

Definition linking (sel t h : jstring) : Context :=
  mkContext reel_url (page_with_link sel t h) accepting.


(** A page that shows likes and nothing else. *)
Definition liked_text : jstring := lit "Liked the reel? 42,000 likes so far".

Definition liked : Context := bare liked_text.

(** A reel request that lands on the login page. *)
Definition login_url : jstring := lit "https://www.instagram.com/accounts/login/".

Definition bounced : Context :=
  mkContext reel_url (static_page login_url (lit "Log in 1,234 likes") []) accepting.

(** A reel whose page shows no audio. *)
Definition silent_text : jstring := lit "a reel with no sound credit".

Definition silent : Context := bare silent_text.

Definition silent_record : ReelData :=
  hd (new_reelData []) (emitted Optimized.requestHandler silent).

(** The state a handler starts from. *)
Definition fresh : State := mkState (new_reelData reel_url) [].

(** The record of the specification's caption example. *)
Definition two_lines_record : ReelData :=
  hd (new_reelData []) (emitted (handler Main) (showing (lit "h1") two_lines)).

(** A page with one profile link, and its record. *)
Definition profile_context : Context :=
  linking Optimized.profileLinks (lit "maykonreplay")
          (lit "https://www.instagram.com/maykonreplay/").

Definition profile_record : ReelData :=
  hd (new_reelData []) (emitted (handler Second) profile_context).

(** ** Pages that fail *)

(** A page the browser cannot reach: every wait and the navigation throw
    [e]. *)
Definition unreachable_page (e : exn) : Page :=
  mkPage (inl e) (inl e) (inl e) (fun _ => inl e) reel_url (inr (Some []))
         (inr None) (fun _ => inr []).

Definition unreachable (e : exn) : Context :=
  mkContext reel_url (unreachable_page e) accepting.

(** A page that loads and on which every lookup and every evaluation
    throws. *)
Definition hostile_page : Page :=
  mkPage (inr tt) (inl Thrown) (inr tt) (fun _ => inr tt) reel_url
         (inl Thrown) (inl Thrown) (fun _ => inl Thrown).

(** A dataset that rejects every record. *)
Definition rejecting : ReelData -> Exc unit :=
  fun _ => inl (JsError (lit "dataset unavailable")).

(** ** Pages for the strategies *)

(** A reel whose audio link names a song, on a page whose text speaks of
    the original audio. *)
Definition sung : Context :=
  mkContext reel_url
    (static_page reel_url (lit "Original audio")
       [(Optimized.audioLink, [element (lit " Artist - Song ") None])])
    accepting.

Definition sung_record : ReelData :=
  hd (new_reelData []) (emitted (handler Second) sung).

(** Embedded data with a name, a count of likes and a caption. *)
Definition some_media : Media :=
  mkMedia (Some (lit "natgeo")) (Some (of_N 7)) None None
          (Some (lit "A day at the reef")).

(** A page that embeds them, and whose text and links say otherwise. *)
Definition embedding : Context :=
  mkContext reel_url
    (mkPage (inr tt) (inr tt) (inr tt) (fun _ => inr tt) reel_url
            (inr (Some (lit "9,999 likes 5 views")))
            (inr (Some some_media))
            (fun _ => inr [element (lit "someone else")
                                   (Some (lit "https://www.instagram.com/other/"))]))
    accepting.

Definition embedding_record : ReelData :=
  hd (new_reelData []) (emitted (handler First) embedding).

(** A reel whose exact heading holds the caption. *)
Definition headed : Context := showing Optimized.h1Caption (lit " 1,200 likes and more ").

Definition headed_record : ReelData :=
  hd (new_reelData []) (emitted (handler Second) headed).

(** A reel whose caption is under a plain heading. *)
Definition plainly_headed : Context := showing (lit "h1") (lit " A day at the reef ").

Definition plainly_headed_record : ReelData :=
  hd (new_reelData []) (emitted (handler Second) plainly_headed).

(** A page of [main.ts] with an empty audio label and an audio link. *)
Definition labelled : Context :=
  mkContext reel_url
    (static_page reel_url (lit "a reel")
       [(quoted ["[aria-label*="; "Audio"; "]"]%string, [element (lit "  ") None]);
        (quoted ["a[href*="; "/audio/"; "]"]%string, [element (lit " Song ") None])])
    accepting.

(** ** A browser *)

(** A page without elements on which, as in a browser, the lookup of a
    selector that holds [:contains(] throws. *)
Definition browser_page (text : jstring) : Page :=
  mkPage (inr tt) (inr tt) (inr tt) (fun _ => inr tt) reel_url (inr (Some text))
         (inr None)
         (fun sel => if includes sel (lit ":contains(")
                     then inl (JsError (lit "not a valid selector"))
                     else inr []).

Definition browsed : Context := mkContext reel_url (browser_page silent_text) accepting.

Definition browsed_record : ReelData :=
  hd (new_reelData []) (emitted (handler First) browsed).

(** ** A dataset that refuses *)

(** The page that shows likes, with a dataset that rejects every record. *)
Definition refused : Context := mkContext reel_url (page liked) rejecting.

(** ** A comments link without the word *)

(** A page whose text holds likes and a bare number, the text of its
    comments link. *)
Definition linked_text : jstring := lit "42,000 likes 12".

Definition linked : Context :=
  mkContext reel_url
    (static_page reel_url linked_text
       [(Optimized.commentsLink, [element (lit "12") None])])
    accepting.

(* ===================================================================== *)
(** * Reasoning about handlers *)
(* ===================================================================== *)

Section Preserves.

Variable I : State -> Prop.

Lemma preserves_ret A (a : A) : preserves I (ret a).
Proof. intros st H; exact H. Qed.

Lemma preserves_throw A (e : exn) : preserves I (@throw A e).
Proof. intros st H; exact H. Qed.

Lemma preserves_await A (x : Exc A) : preserves I (await x).
Proof. intros st H; exact H. Qed.

Lemma preserves_read A (f : ReelData -> A) : preserves I (read f).
Proof. intros st H; exact H. Qed.

Lemma preserves_bind A B (c : M A) (f : A -> M B) :
  preserves I c -> (forall a, preserves I (f a)) -> preserves I (bind c f).
Proof.
  intros Hc Hf st H. unfold bind. specialize (Hc st H).
  destruct (c st) as [[e|a] st']; simpl in *; [exact Hc | apply Hf, Hc].
Qed.

Lemma preserves_try_catch A (c : M A) (h : exn -> M A) :
  preserves I c -> (forall e, preserves I (h e)) -> preserves I (try_catch c h).
Proof.
  intros Hc Hh st H. unfold try_catch. specialize (Hc st H).
  destruct (c st) as [[e|a] st']; simpl in *; [apply Hh, Hc | exact Hc].
Qed.

Lemma preserves_when (b : bool) (c : M unit) :
  preserves I c -> preserves I (when b c).
Proof. destruct b; simpl; [trivial | intros _; apply preserves_ret]. Qed.

Lemma preserves_for_of A (l : list A) (body : A -> M bool) :
  (forall x, preserves I (body x)) -> preserves I (for_of l body).
Proof.
  intros Hb. induction l as [|x t IH]; simpl.
  - apply preserves_ret.
  - apply preserves_bind; [apply Hb|]. intros [|]; [apply preserves_ret | exact IH].
Qed.

Lemma preserves_assign (f : ReelData -> ReelData) :
  (forall d ps, I (mkState d ps) -> I (mkState (f d) ps)) ->
  preserves I (assign f).
Proof. intros Hf [d ps] H. apply Hf, H. Qed.

End Preserves.

Lemma no_throw_try_catch A (c : M A) (h : exn -> M A) :
  (forall e, no_throw (h e)) -> no_throw (try_catch c h).
Proof.
  intros Hh st. unfold try_catch.
  destruct (c st) as [[e|a] st']; [apply Hh | exists a; reflexivity].
Qed.

Lemma no_throw_ret A (a : A) : no_throw (ret a).
Proof. intros st; exists a; reflexivity. Qed.

Lemma no_throw_assign f : no_throw (assign f).
Proof. intros st; exists tt; reflexivity. Qed.

Lemma no_throw_read A (f : ReelData -> A) : no_throw (read f).
Proof. intros st; eexists; reflexivity. Qed.

Lemma no_throw_bind A B (c : M A) (f : A -> M B) :
  no_throw c -> (forall a, no_throw (f a)) -> no_throw (bind c f).
Proof.
  intros Hc Hf st. unfold bind. destruct (Hc st) as [a Ha].
  destruct (c st) as [[e|a'] st']; simpl in Ha; [discriminate|]. apply Hf.
Qed.

Lemma no_throw_when (b : bool) (c : M unit) : no_throw c -> no_throw (when b c).
Proof. destruct b; simpl; [trivial | intros _; apply no_throw_ret]. Qed.

Lemma no_throw_for_of A (l : list A) (body : A -> M bool) :
  (forall x, no_throw (body x)) -> no_throw (for_of l body).
Proof.
  intros Hb. induction l as [|x t IH]; simpl.
  - apply no_throw_ret.
  - apply no_throw_bind; [apply Hb|]. intros [|]; [apply no_throw_ret | exact IH].
Qed.

(** The steps of the handlers, to unfold. *)
Create HintDb steps.
#[global] Hint Unfold
  MainTs.extract_username MainTs.extract_audio MainTs.extract_metrics
  MainTs.extract_caption
  Enhanced.internal_api Enhanced.extract_username Enhanced.extract_audio
  Enhanced.scan_patterns Enhanced.scan_buttons Enhanced.extract_metrics
  Enhanced.extract_caption Enhanced.check_redirect
  Optimized.username_from_links Optimized.username_from_header
  Optimized.extract_username Optimized.large_numbers
  Optimized.likes_from_patterns Optimized.views_from_pattern
  Optimized.comments_from_link Optimized.comments_from_pattern
  Optimized.extract_metrics Optimized.audio_from_link
  Optimized.audio_from_pattern Optimized.audio_from_status
  Optimized.extract_audio Optimized.caption_from_h1
  Optimized.caption_from_selectors Optimized.caption_from_text
  Optimized.extract_caption Optimized.check_redirect
  Optimized.wait_for_content group_arg break continue : steps.

(** [preserves] through a handler step: the rules above, case analysis at
    every branch, and [tac] at every assignment. *)
Ltac preserves_with tac :=
  autounfold with steps; cbv zeta;
  repeat first
    [ apply preserves_ret
    | apply preserves_throw
    | apply preserves_await
    | apply preserves_read
    | apply preserves_when
    | apply preserves_bind; [| intro]
    | apply preserves_try_catch; [| intro]
    | apply preserves_for_of; intro
    | apply preserves_assign; tac
    | match goal with
      | |- preserves _ (match ?x with _ => _ end) => destruct x
      end ].

Ltac field_kept := intros ? ? ?; simpl in *; assumption.

Lemma MainTs_extract_pushes_nothing p : preserves nothing_pushed (MainTs_extract p).
Proof. unfold MainTs_extract. preserves_with field_kept. Qed.

Lemma Enhanced_extract_pushes_nothing p : preserves nothing_pushed (Enhanced_extract p).
Proof. unfold Enhanced_extract. preserves_with field_kept. Qed.

Lemma Optimized_extract_pushes_nothing p : preserves nothing_pushed (Optimized_extract p).
Proof. unfold Optimized_extract. preserves_with field_kept. Qed.


Lemma MainTs_extract_no_error p : preserves no_error (MainTs_extract p).
Proof. unfold MainTs_extract. preserves_with field_kept. Qed.

Lemma Enhanced_extract_no_error p : preserves no_error (Enhanced_extract p).
Proof. unfold Enhanced_extract. preserves_with field_kept. Qed.

Lemma Optimized_extract_no_error p : preserves no_error (Optimized_extract p).
Proof. unfold Optimized_extract. preserves_with field_kept. Qed.

(** ** The handlers have the common shape *)

Ltac run_steps :=
  repeat match goal with
         | |- context [match ?c ?s with _ => _ end] =>
             destruct (c s) as [[?|?] ?]
         end.

Lemma try_catch_ext A (b1 b2 : M A) (h : exn -> M A) st :
  b1 st = b2 st -> try_catch b1 h st = try_catch b2 h st.
Proof. intros E. unfold try_catch. now rewrite E. Qed.

Lemma MainTs_shape ctx st :
  MainTs.requestHandler ctx st = finish ctx (MainTs_extract (page ctx)) st.
Proof.
  unfold MainTs.requestHandler, finish, MainTs_extract. cbv zeta.
  apply try_catch_ext. unfold bind. run_steps; reflexivity.
Qed.

Lemma Enhanced_shape ctx st :
  Enhanced.requestHandler ctx st = finish ctx (Enhanced_extract (page ctx)) st.
Proof.
  unfold Enhanced.requestHandler, finish, Enhanced_extract. cbv zeta.
  apply try_catch_ext. unfold bind. run_steps; reflexivity.
Qed.

Lemma Optimized_shape ctx st :
  Optimized.requestHandler ctx st = finish ctx (Optimized_extract (page ctx)) st.
Proof.
  unfold Optimized.requestHandler, finish, Optimized_extract. cbv zeta.
  apply try_catch_ext. unfold bind. run_steps; reflexivity.
Qed.

(** ** What [finish] pushes *)

Lemma finish_returned ctx extract st0 st1 :
  extract st0 = (inr tt, st1) ->
  pushData_outcome ctx (reelData st1) = inr tt ->
  finish ctx extract st0
  = (inr tt, mkState (reelData st1) (pushed st1 ++ [reelData st1])).
Proof.
  intros E A. unfold finish, try_catch, bind, pushData. now rewrite E, A.
Qed.

Lemma finish_thrown ctx extract st0 st1 e :
  extract st0 = (inl e, st1) ->
  let d := set_error (Some (error_message e)) (reelData st1) in
  finish ctx extract st0
  = (pushData_outcome ctx d, mkState d (pushed st1 ++ [d])).
Proof.
  intros E. unfold finish, try_catch, bind, pushData, assign. now rewrite E.
Qed.

Lemma finish_rejected ctx extract st0 st1 e :
  extract st0 = (inr tt, st1) ->
  pushData_outcome ctx (reelData st1) = inl e ->
  let d := set_error (Some (error_message e)) (reelData st1) in
  finish ctx extract st0
  = (pushData_outcome ctx d, mkState d (pushed st1 ++ [reelData st1; d])).
Proof.
  intros E A. unfold finish, try_catch, bind, pushData, assign. rewrite E, A.
  cbn. now rewrite <- app_assoc.
Qed.

(** A record pushed without [error] is the record the extraction left. *)
Lemma finish_emitted ctx extract u d :
  preserves nothing_pushed extract -> preserves no_error extract ->
  In d (pushed (snd (run_handler (finish ctx extract) u))) ->
  error d = None ->
  exists st1, extract (mkState (new_reelData u) []) = (inr tt, st1) /\
              d = reelData st1.
Proof.
  intros Hp He Hin Hd. unfold run_handler in Hin.
  set (st0 := mkState (new_reelData u) []) in *.
  pose proof (Hp st0 eq_refl) as P1. pose proof (He st0 eq_refl) as E1.
  destruct (extract st0) as [[e|[]] st1] eqn:E; simpl in P1, E1.
  - rewrite (finish_thrown ctx _ _ E) in Hin. cbn in Hin. rewrite P1 in Hin.
    destruct Hin as [<-|[]]. discriminate.
  - exists st1. split; [reflexivity|].
    destruct (pushData_outcome ctx (reelData st1)) as [e|[]] eqn:A.
    + rewrite (finish_rejected ctx _ _ E A) in Hin. cbn in Hin. rewrite P1 in Hin.
      destruct Hin as [<-|[<-|[]]]; [reflexivity | discriminate].
    + rewrite (finish_returned ctx _ _ E A) in Hin. cbn in Hin. rewrite P1 in Hin.
      destruct Hin as [<-|[]]. reflexivity.
Qed.

(** With a dataset that accepts, exactly one record is pushed. *)
Lemma finish_once ctx extract u :
  preserves nothing_pushed extract -> accepts_all ctx ->
  exists d, run_handler (finish ctx extract) u = (inr tt, mkState d [d]).
Proof.
  intros Hp Ha. unfold run_handler.
  set (st0 := mkState (new_reelData u) []).
  pose proof (Hp st0 eq_refl) as P1.
  destruct (extract st0) as [[e|[]] st1] eqn:E; simpl in P1.
  - rewrite (finish_thrown ctx _ _ E). cbv zeta. rewrite Ha, P1.
    eexists. reflexivity.
  - rewrite (finish_returned ctx _ _ E (Ha _)), P1. eexists. reflexivity.
Qed.

(* ===================================================================== *)
(** * Weakest preconditions of the handler language *)
(* ===================================================================== *)

Section WP.

Context {A : Type}.
Variable Q : A -> State -> Prop.
Variable E : exn -> State -> Prop.

Lemma wp_ret (a : A) st : Q a st -> wp (ret a) Q E st.
Proof. exact (fun H => H). Qed.

Lemma wp_throw (e : exn) st : E e st -> wp (@throw A e) Q E st.
Proof. exact (fun H => H). Qed.

Lemma wp_await (x : Exc A) st :
  match x with inr a => Q a st | inl e => E e st end -> wp (await x) Q E st.
Proof. unfold wp, await. destruct x; exact (fun H => H). Qed.

Lemma wp_read (f : ReelData -> A) st : Q (f (reelData st)) st -> wp (read f) Q E st.
Proof. exact (fun H => H). Qed.

Lemma wp_bind B (c : M B) (f : B -> M A) st :
  wp c (fun b st' => wp (f b) Q E st') E st -> wp (bind c f) Q E st.
Proof. unfold wp, bind. destruct (c st) as [[e|b] st']; exact (fun H => H). Qed.

Lemma wp_try_catch (c : M A) (h : exn -> M A) st :
  wp c Q (fun e st' => wp (h e) Q E st') st -> wp (try_catch c h) Q E st.
Proof. unfold wp, try_catch. destruct (c st) as [[e|a] st']; exact (fun H => H). Qed.

Lemma wp_weaken (c : M A) (Q' : A -> State -> Prop) (E' : exn -> State -> Prop) st :
  wp c Q' E' st ->
  (forall a st', Q' a st' -> Q a st') -> (forall e st', E' e st' -> E e st') ->
  wp c Q E st.
Proof. unfold wp. destruct (c st) as [[e|a] st']; auto. Qed.

End WP.

Lemma wp_assign (f : ReelData -> ReelData) Q E st :
  Q tt (mkState (f (reelData st)) (pushed st)) -> wp (assign f) Q E st.
Proof. exact (fun H => H). Qed.

Lemma wp_when (b : bool) (c : M unit) Q E st :
  (if b then wp c Q E st else Q tt st) -> wp (when b c) Q E st.
Proof. destruct b; exact (fun H => H). Qed.

(** A loop with an invariant [J] that holds as long as the loop goes on;
    a [break] must establish the postcondition, and so must the end of the
    list. *)
Lemma wp_for_of A (l : list A) (body : A -> M bool) (J : State -> Prop) Q E :
  (forall x st, In x l -> J st ->
     wp (body x) (fun b st' => if b then Q tt st' else J st') E st) ->
  (forall st, J st -> Q tt st) ->
  forall st, J st -> wp (for_of l body) Q E st.
Proof.
  intros Hb Hend. induction l as [|x t IH]; intros st HJ.
  - apply Hend, HJ.
  - cbn [for_of]. apply wp_bind.
    eapply wp_weaken; [apply (Hb x st (or_introl eq_refl) HJ) | | auto].
    intros [|] st' H; [exact H|]. apply IH; [|exact H].
    intros y st0 Hy. apply Hb. now right.
Qed.

(** What [wp] says of a finished run. *)
Lemma wp_returned A (c : M A) Q E st a st' :
  wp c Q E st -> c st = (inr a, st') -> Q a st'.
Proof. unfold wp. intros H Hc. now rewrite Hc in H. Qed.

Lemma wp_thrown A (c : M A) Q E st e st' :
  wp c Q E st -> c st = (inl e, st') -> E e st'.
Proof. unfold wp. intros H Hc. now rewrite Hc in H. Qed.

Lemma wp_state A (c : M A) (I : State -> Prop) st :
  wp c (fun _ => I) (fun _ => I) st -> I (snd (c st)).
Proof. unfold wp. destruct (c st) as [[e|a] st']; exact (fun H => H). Qed.

(** An invariant of every step is a postcondition of both kinds. *)
Lemma preserves_wp A (c : M A) (I : State -> Prop) st :
  preserves I c -> I st -> wp c (fun _ => I) (fun _ => I) st.
Proof.
  intros Hc HI. unfold wp. specialize (Hc st HI).
  destruct (c st) as [[e|a] st']; exact Hc.
Qed.

(** One step of a weakest-precondition computation, by the shape of the
    program. *)
Ltac wp_step :=
  cbv beta;
  lazymatch goal with
  | |- wp (ret _) _ _ _ => apply wp_ret
  | |- wp break _ _ _ => apply wp_ret
  | |- wp continue _ _ _ => apply wp_ret
  | |- wp (throw _) _ _ _ => apply wp_throw
  | |- wp (await _) _ _ _ => apply wp_await
  | |- wp (read _) _ _ _ => apply wp_read
  | |- wp (assign _) _ _ _ => apply wp_assign
  | |- wp (bind _ _) _ _ _ => apply wp_bind
  | |- wp (try_catch _ _) _ _ _ => apply wp_try_catch
  | |- wp (when _ _) _ _ _ => apply wp_when
  | |- wp (match ?x with _ => _ end) _ _ _ => destruct x eqn:?
  | |- match ?x with _ => _ end => destruct x eqn:?
  end.

(** A step whose outcome does not matter. *)
Lemma wp_any A (c : M A) (Q : A -> State -> Prop) (E : exn -> State -> Prop) st :
  (forall a st', Q a st') -> (forall e st', E e st') -> wp c Q E st.
Proof. intros HQ HE. unfold wp. destruct (c st) as [[e|a] st']; auto. Qed.

(** A step that keeps an invariant, then the rest. *)
Lemma wp_bind_inv A B (c : M A) (f : A -> M B) (I : State -> Prop) Q E st :
  preserves I c -> I st ->
  (forall a st', I st' -> wp (f a) Q E st') ->
  (forall e st', I st' -> E e st') ->
  wp (bind c f) Q E st.
Proof.
  intros Hc HI Hf HE. apply wp_bind.
  eapply wp_weaken; [apply (preserves_wp st Hc HI) | |]; cbv beta; auto.
Qed.

(* ===================================================================== *)
(** * The matcher and the declarative reading agree *)
(* ===================================================================== *)

Section MatcherFacts.

Variable R : Type.

Lemma or_else_some (a b : option R) x :
  or_else a b = Some x -> a = Some x \/ (a = None /\ b = Some x).
Proof. destruct a; simpl; intros H; [left; exact H | right; auto]. Qed.

(** What [matches] leaves is a suffix of what it was given. *)
Lemma matches_suffix r s s' : matches r s s' -> exists w, s = w ++ s'.
Proof.
  induction 1.
  - exists []; reflexivity.
  - exists [x]; reflexivity.
  - destruct IHmatches1 as [w1 ->]. destruct IHmatches2 as [w2 ->].
    exists (w1 ++ w2). now rewrite app_assoc.
  - assumption.
  - assumption.
  - exists []; reflexivity.
  - destruct IHmatches1 as [w1 ->]. destruct IHmatches2 as [w2 ->].
    exists (w1 ++ w2). now rewrite app_assoc.
  - assumption.
  - exists []; reflexivity.
Qed.

Lemma matches_length r s s' : matches r s s' -> (List.length s' <= List.length s)%nat.
Proof.
  intros H. destruct (matches_suffix H) as [w ->]. rewrite length_app. lia.
Qed.

(** The matched text is the prefix the match consumed. *)
Lemma consumed_prefix (w s' : jstring) :
  firstn (List.length (w ++ s') - List.length s') (w ++ s') = w.
Proof.
  rewrite length_app, Nat.add_sub. rewrite firstn_app, Nat.sub_diag.
  simpl. rewrite firstn_all. apply app_nil_r.
Qed.


Lemma extends_refl c : extends c c.
Proof. exists []; reflexivity. Qed.

Lemma extends_trans c1 c2 c3 : extends c1 c2 -> extends c2 c3 -> extends c1 c3.
Proof. intros [d1 ->] [d2 ->]. exists (d2 ++ d1). now rewrite app_assoc. Qed.

Lemma extends_cons p c c' : extends c c' -> extends c (p :: c').
Proof. intros [d ->]. exists (p :: d). reflexivity. Qed.

(** Soundness of the iterations, given soundness of the body. *)
Lemma star_loop_sound g r (mr : jstring -> caps -> cont R -> option R) (k : cont R) :
  (forall s c k' x, mr s c k' = Some x ->
     exists s' c', matches r s s' /\ extends c c' /\ k' s' c' = Some x) ->
  forall n s c x, star_loop g mr k n s c = Some x ->
    exists s' c', matches (Star g r) s s' /\ extends c c' /\ k s' c' = Some x.
Proof.
  intros Hmr. induction n as [|n IH]; intros s c x H.
  - simpl in H. destruct g; simpl in H;
      [| destruct (or_else_some _ _ H) as [H1|[_ H1]]; [|discriminate]];
      exists s, c; repeat split; auto using M_star_done, extends_refl.
  - cbn [star_loop] in H.
    assert (Hagain : forall y,
      mr s c (fun s' c' => if (List.length s' <? List.length s)%nat
                           then star_loop g mr k n s' c' else None) = Some y ->
      exists s' c', matches (Star g r) s s' /\ extends c c' /\ k s' c' = Some y).
    { intros y Hy. destruct (Hmr _ _ _ _ Hy) as (s1 & c1 & M1 & E1 & K1).
      destruct (Nat.ltb_spec (List.length s1) (List.length s)) as [L|L]; [|discriminate].
      destruct (IH _ _ _ K1) as (s2 & c2 & M2 & E2 & K2).
      exists s2, c2. repeat split; eauto using M_star_more, extends_trans. }
    destruct g; destruct (or_else_some _ _ H) as [H1|[_ H1]]; auto;
      exists s, c; repeat split; auto using M_star_done, extends_refl.
Qed.

(** Soundness: a successful run is a match, followed by a successful
    continuation on captures that extend the given ones. *)
Lemma run_sound r : forall s c (k : cont R) x,
  run r s c k = Some x ->
  exists s' c', matches r s s' /\ extends c c' /\ k s' c' = Some x.
Proof.
  induction r as [|p|r1 IH1 r2 IH2|r1 IH1 r2 IH2|g r IH|i r IH|]; intros s c k x H; simpl in H.
  - exists s, c. auto using M_eps, extends_refl.
  - destruct s as [|a s]; [discriminate|]. destruct (p a) eqn:Hp; [|discriminate].
    exists s, c. auto using M_sym, extends_refl.
  - destruct (IH1 _ _ _ _ H) as (s1 & c1 & M1 & E1 & K1).
    destruct (IH2 _ _ _ _ K1) as (s2 & c2 & M2 & E2 & K2).
    exists s2, c2. eauto using M_cat, extends_trans.
  - destruct (or_else_some _ _ H) as [H1|[_ H1]].
    + destruct (IH1 _ _ _ _ H1) as (s1 & c1 & M1 & E1 & K1). eauto 6 using M_alt_l.
    + destruct (IH2 _ _ _ _ H1) as (s1 & c1 & M1 & E1 & K1). eauto 6 using M_alt_r.
  - eapply star_loop_sound; eauto.
  - destruct (IH _ _ _ _ H) as (s1 & c1 & M1 & E1 & K1).
    eexists s1, _. repeat split; [apply M_grp, M1 | | exact K1].
    apply extends_cons, E1.
  - destruct s; [|discriminate]. exists [], c. auto using M_eos, extends_refl.
Qed.

(** Completeness: when some match leads to a continuation that accepts,
    the run succeeds (on that match or on one tried before it). *)
Lemma run_complete r s s' :
  matches r s s' ->
  forall (k : cont R), (forall c', k s' c' <> None) ->
  (forall c, run r s c k <> None) /\
  (forall g r0, r = Star g r0 -> forall n c, (List.length s <= n)%nat ->
     star_loop g (run (R:=R) r0) k n s c <> None).
Proof.
  induction 1; intros k Hk.
  - split; [intros c; simpl; apply Hk | discriminate].
  - split; [intros c; simpl; rewrite H; apply Hk | discriminate].
  - split; [|discriminate]. intros c. simpl.
    apply IHmatches1. intros c'. apply IHmatches2, Hk.
  - split; [|discriminate]. intros c. simpl.
    pose proof (proj1 (IHmatches k Hk) c).
    destruct (run r1 s c k); simpl; congruence.
  - split; [|discriminate]. intros c. simpl.
    destruct (run r1 s c k); simpl; [congruence|].
    apply (proj1 (IHmatches k Hk)).
  - assert (G : forall n c, star_loop g (run (R:=R) r) k n s c <> None).
    { intros n c. specialize (Hk c).
      destruct n; cbn [star_loop]; destruct g; unfold or_else;
        repeat match goal with
               | |- context [match ?a with Some _ => _ | None => _ end] =>
                   destruct a eqn:?
               end; congruence. }
    split; [intros c; simpl; apply G|].
    intros g0 r0 E n c _. injection E as -> ->. apply G.
  - assert (G : forall n c, (List.length s <= n)%nat ->
                star_loop g (run (R:=R) r) k n s c <> None).
    { intros n c Hn. destruct n as [|n]; [lia|]. cbn [star_loop].
      assert (A : run r s c (fun s' c' =>
                    if (List.length s' <? List.length s)%nat
                    then star_loop g (run (R:=R) r) k n s' c' else None) <> None).
      { apply IHmatches1. intros c'.
        destruct (Nat.ltb_spec (List.length s1) (List.length s)); [|lia].
        apply (proj2 (IHmatches2 k Hk) g r eq_refl). lia. }
      destruct g.
      - destruct (run r s c _); simpl; congruence.
      - destruct (k s c); simpl; [congruence | exact A]. }
    split; [intros c; simpl; apply G; lia|].
    intros g0 r0 E n c Hn. injection E as -> ->. apply G, Hn.
  - split; [|discriminate]. intros c. simpl.
    apply IHmatches. intros c'. apply Hk.
  - split; [intros c; simpl; apply Hk | discriminate].
Qed.

End MatcherFacts.

(** [match_here] finds a match exactly when there is one. *)
Lemma match_here_sound r s s' c :
  match_here r s = Some (s', c) -> matches r s s'.
Proof.
  intros H. destruct (run_sound _ _ _ _ H) as (s1 & c1 & M1 & _ & K).
  now injection K as -> ->.
Qed.

Lemma match_here_complete r s s' :
  matches r s s' -> match_here r s <> None.
Proof.
  intros H. apply (proj1 (run_complete (R:=jstring * caps) H
                            (fun s' c' => Some (s', c')) ltac:(discriminate))).
Qed.

(** [exec]: the result is a match at some place of the input, and its text
    is what the match consumed. *)
Lemma consumed_rest r s s' :
  matches r s s' -> firstn (List.length s - List.length s') s ++ s' = s.
Proof.
  intros H. destruct (matches_suffix H) as [w ->]. now rewrite consumed_prefix.
Qed.

Lemma exec_from_sound r : forall s i m,
  exec_from i r s = Some m ->
  exists pre, s = pre ++ text m ++ rest m /\ matches r (text m ++ rest m) (rest m).
Proof.
  assert (Here : forall s s' c i,
            match_here r s = Some (s', c) ->
            let m := mkResult i (firstn (List.length s - List.length s') s) c s' in
            exists pre, s = pre ++ text m ++ rest m /\
                        matches r (text m ++ rest m) (rest m)).
  { intros s s' c i E. apply match_here_sound in E. simpl.
    exists []. simpl. rewrite (consumed_rest E). auto. }
  induction s as [|a s IH]; intros i m H; cbn [exec_from] in H.
  - destruct (match_here r []) as [[s' c]|] eqn:E; [|discriminate].
    injection H as <-. exact (Here _ _ _ _ E).
  - destruct (match_here r (a :: s)) as [[s' c]|] eqn:E.
    + injection H as <-. exact (Here _ _ _ _ E).
    + destruct (IH _ _ H) as (pre & -> & M). exists (a :: pre). auto.
Qed.

Lemma exec_sound r s m :
  exec r s = Some m ->
  exists pre, s = pre ++ text m ++ rest m /\ matches r (text m ++ rest m) (rest m).
Proof. apply exec_from_sound. Qed.

Lemma exec_from_complete r : forall pre s0 s' i,
  matches r s0 s' -> exec_from i r (pre ++ s0) <> None.
Proof.
  induction pre as [|a pre IH]; intros s0 s' i M.
  - simpl. pose proof (match_here_complete M) as H.
    destruct s0; simpl; destruct (match_here r _) as [[? ?]|]; congruence.
  - simpl. destruct (match_here r (a :: pre ++ s0)) as [[? ?]|]; [discriminate|].
    eapply IH, M.
Qed.

Lemma exec_complete r pre s0 s' :
  matches r s0 s' -> exec r (pre ++ s0) <> None.
Proof. apply exec_from_complete. Qed.

(** The first text of a [g]-flagged match is the text [exec] finds. *)
Lemma match_all_head r s :
  option_map (hd []) (match_all r s) = option_map text (exec r s).
Proof.
  unfold match_all. cbn [all_from]. destruct (exec r s); reflexivity.
Qed.

Lemma match_all_none r s : match_all r s = None <-> exec r s = None.
Proof.
  unfold match_all. cbn [all_from]. destruct (exec r s); split; congruence.
Qed.

(** Every text of a [g]-flagged match is a match at some place of the
    input. *)
Lemma all_from_sound r : forall n s t,
  In t (all_from n r s) ->
  exists pre post, s = pre ++ t ++ post /\ matches r (t ++ post) post.
Proof.
  induction n as [|n IH]; intros s t H; simpl in H; [contradiction|].
  destruct (exec r s) as [m|] eqn:E; [|contradiction].
  destruct (exec_sound _ _ E) as (pre & Hs & M).
  destruct H as [<-|H]; [eauto|].
  assert (W : forall s1, In t (all_from n r s1) ->
              (exists q, rest m = q ++ s1) ->
              exists pre post, s = pre ++ t ++ post /\ matches r (t ++ post) post).
  { intros s1 H1 [q Hq]. destruct (IH _ _ H1) as (p1 & post & -> & M1).
    exists (pre ++ text m ++ q ++ p1), post. split; [|exact M1].
    rewrite Hs, Hq. now rewrite <- !app_assoc. }
  destruct (text m).
  - destruct (rest m) as [|a s1] eqn:Er; [contradiction|].
    apply (W s1 H). exists [a]. reflexivity.
  - apply (W (rest m) H). exists []. reflexivity.
Qed.

Lemma match_all_sound r s l t :
  match_all r s = Some l -> In t l ->
  exists pre post, s = pre ++ t ++ post /\ matches r (t ++ post) post.
Proof.
  unfold match_all. intros H Ht.
  destruct (all_from _ r s) eqn:E; [discriminate|]. injection H as <-.
  rewrite <- E in Ht. eapply all_from_sound, Ht.
Qed.

(** ** Groups that every match sets *)

Lemma bound_extends i c c' : bound i c -> extends c c' -> bound i c'.
Proof.
  unfold bound, capture. intros H [d ->].
  induction d as [|[j g] d IH]; [exact H|].
  cbn [app find fst]. destruct (Nat.eqb j i); [discriminate | exact IH].
Qed.

Lemma bound_cons i j g c : bound i c -> bound i ((j, g) :: c).
Proof. intros H. apply (bound_extends H). exists [(j, g)]. reflexivity. Qed.

Lemma bound_here i g c : bound i ((i, g) :: c).
Proof. unfold bound, capture. cbn [find fst]. rewrite Nat.eqb_refl. discriminate. Qed.

Section Binds.

Variable R : Type.

Lemma run_binds i r :
  binds i r ->
  forall s c (k : cont R) x, run r s c k = Some x ->
    exists s' c', bound i c' /\ k s' c' = Some x.
Proof.
  induction 1 as [r|j r _ IH|r1 r2 _ IH|r1 r2 _ IH|r1 r2 _ IH1 _ IH2];
    intros s c k x Hx; cbn [run] in Hx.
  - destruct (run_sound _ _ _ _ Hx) as (s' & c' & _ & _ & K).
    eexists _, _. split; [apply bound_here | exact K].
  - destruct (IH _ _ _ _ Hx) as (s' & c' & B & K).
    eexists _, _. split; [apply bound_cons, B | exact K].
  - destruct (IH _ _ _ _ Hx) as (s1 & c1 & B & K).
    destruct (run_sound _ _ _ _ K) as (s2 & c2 & _ & E & K2).
    exists s2, c2. split; [exact (bound_extends B E) | exact K2].
  - destruct (run_sound _ _ _ _ Hx) as (s1 & c1 & _ & _ & K).
    exact (IH _ _ _ _ K).
  - apply or_else_some in Hx. destruct Hx as [Hx|[_ Hx]];
      [exact (IH1 _ _ _ _ Hx) | exact (IH2 _ _ _ _ Hx)].
Qed.

End Binds.

Lemma match_here_binds i r s s' c :
  binds i r -> match_here r s = Some (s', c) -> bound i c.
Proof.
  intros B H. destruct (@run_binds _ i r B _ _ _ _ H) as (s1 & c1 & B1 & K).
  now injection K as _ <-.
Qed.

Lemma exec_from_binds i r : binds i r ->
  forall s n m, exec_from n r s = Some m -> bound i (groups m).
Proof.
  intros B. induction s as [|a s IH]; intros n m H; cbn [exec_from] in H.
  - destruct (match_here r []) as [[s' c]|] eqn:E; [|discriminate].
    injection H as <-. eapply match_here_binds; eassumption.
  - destruct (match_here r (a :: s)) as [[s' c]|] eqn:E.
    + injection H as <-. eapply match_here_binds; eassumption.
    + eapply IH; eassumption.
Qed.

(** [match[i]] is a string when every match of the pattern sets group [i]. *)
Lemma exec_binds i r s m :
  binds (S i) r -> exec r s = Some m -> exists g, group (S i) m = Some g.
Proof.
  intros B H. assert (Hb : bound (S i) (groups m))
    by (eapply exec_from_binds; eassumption).
  unfold bound in Hb. cbn [group].
  destruct (capture (S i) (groups m)) as [g|]; [eauto | congruence].
Qed.

(** ** Code units that every match holds *)

Lemma matches_holds q r s s' :
  holds q r -> matches r s s' ->
  exists w, s = w ++ s' /\ existsb q w = true.
Proof.
  intros H. revert s s'.
  induction H as [p Hp|r1 r2 _ IH|r1 r2 _ IH|r1 r2 _ IH1 _ IH2|i r _ IH];
    intros s s' M; inversion M; subst.
  - exists [x]. split; [reflexivity|]. cbn. now rewrite (Hp x) by assumption.
  - match goal with H1 : matches r1 _ _, H2 : matches r2 _ _ |- _ =>
      destruct (IH _ _ H1) as (w & -> & Hw);
      destruct (matches_suffix H2) as [w2 ->]
    end.
    exists (w ++ w2). split; [now rewrite app_assoc|].
    rewrite existsb_app, Hw. reflexivity.
  - match goal with H1 : matches r1 _ _, H2 : matches r2 _ _ |- _ =>
      destruct (IH _ _ H2) as (w & -> & Hw);
      destruct (matches_suffix H1) as [w1 ->]
    end.
    exists (w1 ++ w). split; [now rewrite app_assoc|].
    rewrite existsb_app, Hw. apply orb_true_r.
  - eauto.
  - eauto.
  - eauto.
Qed.

Lemma forallb_weaken (p q : char -> bool) l :
  (forall a, p a = true -> q a = true) -> forallb p l = true -> forallb q l = true.
Proof.
  intros H. rewrite !forallb_forall. intros Hp x Hx. apply H, Hp, Hx.
Qed.

(** The code units of a match are in the alphabet of the pattern. *)
Lemma matches_alphabet r s s' :
  matches r s s' -> exists w, s = w ++ s' /\ forallb (alphabet r) w = true.
Proof.
  induction 1.
  - exists []. split; reflexivity.
  - exists [x]. split; [reflexivity|]. cbn. now rewrite H.
  - destruct IHmatches1 as (w1 & -> & F1). destruct IHmatches2 as (w2 & -> & F2).
    exists (w1 ++ w2). split; [now rewrite app_assoc|].
    rewrite forallb_app. cbn [alphabet].
    apply andb_true_intro. split.
    + eapply forallb_weaken; [|exact F1]. intros a Ha. now rewrite Ha.
    + eapply forallb_weaken; [|exact F2]. intros a Ha. rewrite Ha. apply orb_true_r.
  - destruct IHmatches as (w & -> & Hw). exists w. split; [reflexivity|].
    cbn [alphabet]. eapply forallb_weaken; [|exact Hw]. intros a Ha. now rewrite Ha.
  - destruct IHmatches as (w & -> & Hw). exists w. split; [reflexivity|].
    cbn [alphabet]. eapply forallb_weaken; [|exact Hw]. intros a Ha. rewrite Ha.
    apply orb_true_r.
  - exists []. split; reflexivity.
  - destruct IHmatches1 as (w1 & -> & F1). destruct IHmatches2 as (w2 & -> & F2).
    exists (w1 ++ w2). split; [now rewrite app_assoc|].
    rewrite forallb_app. apply andb_true_intro. split; [exact F1 | exact F2].
  - destruct IHmatches as (w & -> & Hw). exists w. split; [reflexivity | exact Hw].
  - exists []. split; reflexivity.
Qed.

(** ** The text of a leading group *)

Section Groupless.

Variable R : Type.

Lemma star_loop_groupless g r (mr : jstring -> caps -> cont R -> option R)
  (k : cont R) :
  (forall s c k' x, mr s c k' = Some x ->
     exists s', matches r s s' /\ k' s' c = Some x) ->
  forall n s c x, star_loop g mr k n s c = Some x ->
    exists s', matches (Star g r) s s' /\ k s' c = Some x.
Proof.
  intros Hmr. induction n as [|n IH]; intros s c x H.
  - simpl in H. destruct g; simpl in H;
      [| destruct (or_else_some _ _ H) as [H1|[_ H1]]; [|discriminate]];
      exists s; split; auto using M_star_done.
  - cbn [star_loop] in H.
    assert (Hagain : forall y,
      mr s c (fun s' c' => if (List.length s' <? List.length s)%nat
                           then star_loop g mr k n s' c' else None) = Some y ->
      exists s', matches (Star g r) s s' /\ k s' c = Some y).
    { intros y Hy. destruct (Hmr _ _ _ _ Hy) as (s1 & M1 & K1).
      destruct (Nat.ltb_spec (List.length s1) (List.length s)) as [L|L]; [|discriminate].
      destruct (IH _ _ _ K1) as (s2 & M2 & K2).
      exists s2. split; eauto using M_star_more. }
    destruct g; destruct (or_else_some _ _ H) as [H1|[_ H1]]; auto;
      exists s; split; auto using M_star_done.
Qed.

(** A pattern without groups leaves the captures as they are. *)
Lemma run_groupless r : groupless r = true ->
  forall s c (k : cont R) x, run r s c k = Some x ->
    exists s', matches r s s' /\ k s' c = Some x.
Proof.
  induction r as [|p|r1 IH1 r2 IH2|r1 IH1 r2 IH2|g r IH|i r IH|];
    cbn [groupless]; intros G s c k x H; simpl in H.
  - exists s. auto using M_eps.
  - destruct s as [|a s]; [discriminate|]. destruct (p a) eqn:Hp; [|discriminate].
    exists s. auto using M_sym.
  - apply andb_prop in G. destruct G as [G1 G2].
    destruct (IH1 G1 _ _ _ _ H) as (s1 & M1 & K1).
    destruct (IH2 G2 _ _ _ _ K1) as (s2 & M2 & K2).
    exists s2. eauto using M_cat.
  - apply andb_prop in G. destruct G as [G1 G2].
    destruct (or_else_some _ _ H) as [H1|[_ H1]].
    + destruct (IH1 G1 _ _ _ _ H1) as (s1 & M1 & K1). eauto using M_alt_l.
    + destruct (IH2 G2 _ _ _ _ H1) as (s1 & M1 & K1). eauto using M_alt_r.
  - eapply star_loop_groupless; eauto.
  - discriminate.
  - destruct s; [|discriminate]. exists []. auto using M_eos.
Qed.

End Groupless.

(** The group of a pattern [(r1) r2], with no other group, holds what [r1]
    matched. *)
Lemma match_here_leading i r1 r2 s s' c :
  groupless r1 = true -> groupless r2 = true ->
  match_here (Cat (Grp i r1) r2) s = Some (s', c) ->
  exists g s1, s = g ++ s1 /\ matches r1 (g ++ s1) s1 /\ capture i c = Some g.
Proof.
  intros G1 G2 H. unfold match_here in H. cbn [run] in H.
  destruct (@run_groupless _ r1 G1 _ _ _ _ H) as (s1 & M1 & K1).
  destruct (@run_groupless _ r2 G2 _ _ _ _ K1) as (s2 & M2 & K2).
  injection K2 as _ <-.
  exists (firstn (List.length s - List.length s1) s), s1.
  rewrite (consumed_rest M1). repeat split; [exact M1|].
  unfold capture. cbn [find fst]. rewrite Nat.eqb_refl. reflexivity.
Qed.

Lemma exec_from_leading i r1 r2 :
  groupless r1 = true -> groupless r2 = true ->
  forall s n m, exec_from n (Cat (Grp (S i) r1) r2) s = Some m ->
    exists g s1, matches r1 (g ++ s1) s1 /\ group (S i) m = Some g.
Proof.
  intros G1 G2. induction s as [|a s IH]; intros n m H; cbn [exec_from] in H.
  - destruct (match_here _ []) as [[s' c]|] eqn:E; [|discriminate].
    injection H as <-.
    destruct (@match_here_leading _ _ _ _ _ _ G1 G2 E) as (g & s1 & _ & M & C). eauto.
  - destruct (match_here _ (a :: s)) as [[s' c]|] eqn:E.
    + injection H as <-.
      destruct (@match_here_leading _ _ _ _ _ _ G1 G2 E) as (g & s1 & _ & M & C). eauto.
    + eapply IH; eassumption.
Qed.

(* ===================================================================== *)
(** * Numbers: signs, integers and rounding *)
(* ===================================================================== *)

Lemma Math_round_integral x z : to_Z x = Some z -> Math_round x = x.
Proof.
  destruct x as [s|s| |s m e]; simpl; try reflexivity.
  destruct (0 <=? e)%Z; [reflexivity|].
  destruct (Zpos m mod 2 ^ (- e) =? 0)%Z; [reflexivity | discriminate].
Qed.

Section Rounding.

Local Open Scope Z_scope.

Lemma shr_1_nonneg mrs : 0 <= shr_m mrs -> 0 <= shr_m (shr_1 mrs).
Proof.
  destruct mrs as [m r s]. simpl.
  destruct m as [|p|p]; simpl; intros H; try lia; destruct p; simpl; lia.
Qed.

Lemma iter_pos_invariant A (f : A -> A) (P : A -> Prop) :
  (forall x, P x -> P (f x)) -> forall p x, P x -> P (iter_pos f p x).
Proof.
  intros Hf. induction p as [p IH|p IH|]; intros x Hx; simpl; auto.
Qed.

Lemma shr_nonneg mrs e n : 0 <= shr_m mrs -> 0 <= shr_m (fst (shr mrs e n)).
Proof.
  intros H. destruct n; simpl; auto.
  apply (iter_pos_invariant shr_1 (fun r => 0 <= shr_m r) shr_1_nonneg), H.
Qed.

Lemma shr_exponent mrs e n : e <= snd (shr mrs e n).
Proof. destruct n; simpl; lia. Qed.

Lemma shr_record_of_loc_m m l : shr_m (shr_record_of_loc m l) = m.
Proof. destruct l as [|[| |]]; reflexivity. Qed.

Lemma shr_fexp_nonneg m e l :
  0 <= m -> 0 <= shr_m (fst (shr_fexp prec emax m e l)).
Proof.
  intros H. unfold shr_fexp. apply shr_nonneg. now rewrite shr_record_of_loc_m.
Qed.

Lemma shr_fexp_exponent m e l : e <= snd (shr_fexp prec emax m e l).
Proof. unfold shr_fexp. apply shr_exponent. Qed.

Lemma round_nearest_even_nonneg m l : 0 <= m -> 0 <= round_nearest_even m l.
Proof.
  intros H. destruct l as [|[| |]]; simpl; try lia. destruct (Z.even m); lia.
Qed.

(** Rounding a non-negative mantissa gives a zero, a finite number or an
    infinity of the given sign, with an exponent not below the given one. *)
Lemma binary_round_aux_class sx mx ex lx :
  0 <= mx ->
  match binary_round_aux prec emax sx mx ex lx with
  | S754_zero s | S754_infinity s => s = sx
  | S754_finite s _ e => s = sx /\ ex <= e
  | S754_nan => False
  end.
Proof.
  intros H. unfold binary_round_aux.
  pose proof (shr_fexp_nonneg ex lx H) as H1.
  pose proof (shr_fexp_exponent mx ex lx) as E1.
  destruct (shr_fexp prec emax mx ex lx) as [mrs' e']. simpl in H1, E1.
  pose proof (round_nearest_even_nonneg (loc_of_shr_record mrs') H1) as H2.
  pose proof (shr_fexp_nonneg e' loc_Exact H2) as H3.
  pose proof (shr_fexp_exponent (round_nearest_even (shr_m mrs') (loc_of_shr_record mrs'))
                e' loc_Exact) as E2.
  destruct (shr_fexp prec emax _ e' loc_Exact) as [mrs'' e'']. simpl in H3, E2.
  destruct (shr_m mrs'') as [|p|p]; [reflexivity | | lia].
  destruct (e'' <=? emax - prec); [split; [reflexivity | lia] | reflexivity].
Qed.

Lemma div_eucl_nonneg a b : 0 <= a -> 0 < b -> 0 <= fst (Z.div_eucl a b).
Proof.
  intros Ha Hb. pose proof (Z.div_pos a b Ha Hb) as H. unfold Z.div in H.
  destruct (Z.div_eucl a b); exact H.
Qed.

Lemma round_ratio_class neg n d :
  match round_ratio neg n d with
  | S754_zero s | S754_infinity s | S754_finite s _ _ => s = neg
  | S754_nan => False
  end.
Proof.
  unfold round_ratio, SFdiv_core_binary.
  set (e' := Z.min _ _). set (m' := match (0 - 0 - e') with Z0 => _ | _ => _ end).
  assert (Hm : 0 <= m').
  { subst m'. destruct (0 - 0 - e'); try lia. apply Z.shiftl_nonneg. lia. }
  pose proof (div_eucl_nonneg (b:=Zpos d) Hm ltac:(lia)) as Hq.
  destruct (Z.div_eucl m' (Zpos d)) as [q r]. simpl in Hq.
  pose proof (binary_round_aux_class neg e' (new_location (Zpos d) r) (mx:=q) Hq) as C.
  destruct (binary_round_aux _ _ _ _ _ _); intuition.
Qed.

Lemma of_decimal_non_negative d e : non_negative (of_decimal false d e).
Proof.
  unfold of_decimal. destruct d as [|p]; [exact I|].
  destruct e as [|e|e];
    match goal with
    | |- non_negative (round_ratio ?s ?n ?d) =>
        pose proof (round_ratio_class s n d) as C;
        destruct (round_ratio s n d) as [[|]|[|]| |[|] ? ?]; simpl; auto; discriminate
    end.
Qed.

(** The product of a non-negative number and a positive finite one. *)
Lemma mul_non_negative x m e :
  non_negative x -> non_negative (mul x (S754_finite false m e)).
Proof.
  destruct x as [[|]|[|]| |[|] mx ex]; simpl; intros H; try contradiction; auto.
  pose proof (binary_round_aux_class false (ex + e) loc_Exact
                (mx := Zpos (mx * m)) ltac:(lia)) as C.
  destruct (binary_round_aux _ _ _ _ _ _) as [[|]|[|]| |[|] ? ?]; simpl; intuition discriminate.
Qed.

(** Doubling a positive adds a binary digit. *)
Lemma digits2_iter_xO p d :
  Zpos (digits2_pos (Pos.iter xO p d)) = Zpos (digits2_pos p) + Zpos d.
Proof.
  induction d using Pos.peano_ind.
  - simpl. lia.
  - rewrite Pos.iter_succ. simpl. lia.
Qed.

Lemma Zpos_iter_xO p d : Zpos (Pos.iter xO p d) = Zpos p * 2 ^ Zpos d.
Proof.
  induction d using Pos.peano_ind.
  - simpl. lia.
  - rewrite Pos.iter_succ, Pos2Z.inj_succ, Z.pow_succ_r by lia.
    rewrite Pos2Z.inj_xO, IHd. lia.
Qed.

(** A number of at most 53 binary digits is an integer: the number
    [binary_normalize] makes of a positive integer is that integer, or an
    integer again when it had to be rounded, or [+Infinity]. *)
Lemma binary_normalize_integral (r : positive) :
  let x := binary_normalize prec emax (Zpos r) 0 false in
  x = S754_infinity false \/ exists n : N, to_Z x = Some (Z.of_N n).
Proof.
  simpl. unfold binary_round, shl_align.
  set (k := fexp prec emax (Zpos (digits2_pos r) + 0)).
  destruct (k - 0) as [|d|d] eqn:Ek.
  - (* the mantissa is kept and may be rounded: the exponent stays >= 0 *)
    pose proof (binary_round_aux_class false 0 loc_Exact (mx := Zpos r) ltac:(lia)) as C.
    destruct (binary_round_aux _ _ _ _ _ _) as [[|]|[|]| |[|] m e]; simpl;
      try (intuition discriminate); try contradiction; auto.
    + right. exists 0%N. reflexivity.
    + right. destruct C as [_ He]. apply Z.leb_le in He. rewrite He.
      exists (Npos m * 2 ^ Z.to_N e)%N.
      f_equal. rewrite N2Z.inj_mul, N2Z.inj_pow, Z2N.id by (apply Z.leb_le; exact He).
      reflexivity.
  - pose proof (binary_round_aux_class false 0 loc_Exact (mx := Zpos r) ltac:(lia)) as C.
    destruct (binary_round_aux _ _ _ _ _ _) as [[|]|[|]| |[|] m e]; simpl;
      try (intuition discriminate); try contradiction; auto.
    + right. exists 0%N. reflexivity.
    + right. destruct C as [_ He]. apply Z.leb_le in He. rewrite He.
      exists (Npos m * 2 ^ Z.to_N e)%N.
      f_equal. rewrite N2Z.inj_mul, N2Z.inj_pow, Z2N.id by (apply Z.leb_le; exact He).
      reflexivity.
  - (* the mantissa is shifted left to 53 digits: nothing is rounded *)
    right. exists (Npos r).
    assert (Hk : k = Zneg d) by lia.
    unfold binary_round_aux, shr_fexp.
    change (PosDef.Pos.iter xO r d) with (Pos.iter xO r d).
    cbn [Zdigits2]. rewrite digits2_iter_xO.
    replace (Zpos (digits2_pos r) + Zpos d + k) with (Zpos (digits2_pos r) + 0) by lia.
    fold k. rewrite Z.sub_diag. cbn [shr shr_record_of_loc fst snd shr_m loc_of_shr_record round_nearest_even].
    cbn [Zdigits2]. rewrite digits2_iter_xO.
    replace (Zpos (digits2_pos r) + Zpos d + k) with (Zpos (digits2_pos r) + 0) by lia.
    fold k. rewrite Z.sub_diag. cbn [shr shr_record_of_loc fst snd shr_m].
    assert (Hle : (k <=? emax - prec) = true).
    { apply Z.leb_le. rewrite Hk. unfold emax, prec. lia. }
    rewrite Hle. unfold to_Z.
    assert (Hneg : (0 <=? k) = false) by (apply Z.leb_gt; lia).
    rewrite Hneg, Hk. cbn [Z.opp].
    rewrite Zpos_iter_xO, Z.mod_mul, Z.eqb_refl, Z.div_mul by lia.
    reflexivity.
Qed.

End Rounding.

(** [Math.round] of a non-negative number is a non-negative integer, or
    [+Infinity]. *)
Lemma Math_round_count x :
  non_negative x -> is_count (Math_round x) \/ Math_round x = S754_infinity false.
Proof.
  destruct x as [[|]|[|]| |[|] m e]; intros H; try contradiction; auto.
  - left. exists 0%N. reflexivity.
  - unfold Math_round. destruct (0 <=? e)%Z eqn:He.
    + left. unfold is_count, to_Z. rewrite He.
      exists (Npos m * 2 ^ Z.to_N e)%N. f_equal.
      rewrite N2Z.inj_mul, N2Z.inj_pow, Z2N.id by (apply Z.leb_le; exact He).
      reflexivity.
    + cbv zeta. destruct (Zpos m mod 2 ^ (- e) =? 0)%Z eqn:Hm.
      * left. unfold is_count, to_Z. rewrite He, Hm.
        exists (Z.to_N (Zpos m / 2 ^ (- e))). f_equal. rewrite Z2N.id; [reflexivity|].
        apply Z.div_pos; [lia|]. apply Z.pow_pos_nonneg; lia.
      * set (r := ((2 * Zpos m + 2 ^ (- e)) / (2 * 2 ^ (- e)))%Z).
        assert (Hr : (0 <= r)%Z).
        { apply Z.div_pos; pose proof (Z.pow_pos_nonneg 2 (- e)); lia. }
        destruct (r =? 0)%Z eqn:Hr0.
        -- left. exists 0%N. reflexivity.
        -- destruct r as [|p|p]; [discriminate | | lia].
           destruct (binary_normalize_integral p) as [Hi|Hi]; [right|left]; exact Hi.
Qed.

(* ===================================================================== *)
(** * Integers below 2^53 are numbers *)
(* ===================================================================== *)

Section Exact.

Local Open Scope Z_scope.

Lemma digits2_size p : digits2_pos p = Pos.size p.
Proof. induction p; simpl; congruence. Qed.

Lemma digits2_small p : Zpos p < 2 ^ 53 -> Zpos (digits2_pos p) <= 53.
Proof.
  intros H. rewrite digits2_size.
  pose proof (Pos.size_le p) as L.
  assert (L' : 2 ^ Zpos (Pos.size p) <= 2 * Zpos p).
  { apply Pos2Z.pos_le_pos in L. rewrite Pos2Z.inj_pow, Pos2Z.inj_xO in L.
    exact L. }
  destruct (Z.le_gt_cases (Zpos (Pos.size p)) 53) as [?|G]; [assumption|].
  assert (2 ^ 54 <= 2 ^ Zpos (Pos.size p)) by (apply Z.pow_le_mono_r; lia).
  change (2 ^ 54) with (2 * 2 ^ 53) in *. lia.
Qed.

Lemma shiftl_iter_xO p d : Z.shiftl (Zpos p) (Zpos d) = Zpos (Pos.iter xO p d).
Proof. rewrite Z.shiftl_mul_pow2 by lia. now rewrite Zpos_iter_xO. Qed.

Lemma iter_xO_even p d : exists q, Pos.iter xO p d = xO q /\ Zpos q * 2 = Zpos p * 2 ^ Zpos d
                                   /\ Zpos (digits2_pos q) + 1 = Zpos (digits2_pos p) + Zpos d.
Proof.
  destruct (Pos.eq_dec d 1) as [->|Hd].
  - exists p. simpl. repeat split; lia.
  - destruct (Pos.succ_pred_or d) as [?|E]; [contradiction|].
    rewrite <- E, Pos.iter_succ. exists (Pos.iter xO p (Pos.pred d)).
    repeat split.
    + rewrite Zpos_iter_xO, Pos2Z.inj_succ, Z.pow_succ_r by lia. lia.
    + rewrite digits2_iter_xO. lia.
Qed.

(** An integer of at most 53 binary digits is a number, exactly. *)
Lemma round_ratio_exact p :
  Zpos (digits2_pos p) <= 53 ->
  to_Z (round_ratio false p 1) = Some (Zpos p).
Proof.
  intros HD. unfold round_ratio, SFdiv_core_binary.
  cbn [Zdigits2 digits2_pos].
  set (D := Zpos (digits2_pos p)) in *.
  assert (HD1 : 1 <= D) by (subst D; lia).
  assert (He : Z.min (fexp prec emax (D + 0 - (1 + 0))) (0 - 0) = D - 54).
  { unfold fexp, SpecFloat.emin, prec, emax. lia. }
  rewrite He.
  destruct (0 - 0 - (D - 54)) as [|s|s] eqn:Es; try lia.
  change (IntDef.Z.shiftl (Zpos p) (Zpos s)) with (Z.shiftl (Zpos p) (Zpos s)).
  rewrite shiftl_iter_xO.
  destruct (iter_xO_even p s) as (q & Eq & Vq & Dq). rewrite Eq.
  change (Z.div_eucl (Zpos q~0) 1) with (Z.div_eucl (Zpos q~0) 1).
  assert (Hdiv : Z.div_eucl (Zpos q~0) 1 = (Zpos q~0, 0)).
  { pose proof (Z.div_eucl_eq (Zpos q~0) 1 ltac:(lia)) as E.
    pose proof (Z.mod_pos_bound (Zpos q~0) 1 ltac:(lia)) as B.
    unfold Z.modulo in B. destruct (Z.div_eucl (Zpos q~0) 1) as [a b].
    f_equal; lia. }
  rewrite Hdiv.
  change (new_location 1 0) with loc_Exact.
  unfold binary_round_aux, shr_fexp. cbn [Zdigits2 digits2_pos shr_record_of_loc].
  fold D in Dq.
  assert (F1 : fexp prec emax (Zpos (Pos.succ (digits2_pos q)) + (D - 54)) - (D - 54) = 1).
  { unfold fexp, SpecFloat.emin, prec, emax. lia. }
  rewrite F1. cbn [shr iter_pos shr_1 orb fst snd shr_m loc_of_shr_record round_nearest_even].
  cbn [Zdigits2].
  assert (F2 : fexp prec emax (Zpos (digits2_pos q) + (D - 54 + 1)) - (D - 54 + 1) = 0).
  { unfold fexp, SpecFloat.emin, prec, emax. lia. }
  rewrite F2. cbn [shr fst snd shr_m].
  assert (Hle : (D - 54 + 1 <=? emax - prec) = true)
    by (apply Z.leb_le; unfold emax, prec; lia).
  rewrite Hle. unfold to_Z.
  assert (Vs : Zpos s = 54 - D) by lia.
  destruct (Z.eq_dec D 53) as [E53|N53].
  - rewrite E53. cbn [Z.leb Z.sub Z.add Z.compare Z.opp Z.pos_sub Z.succ_double Z.pred_double Z.double].
    rewrite E53 in Vs. assert (s = 1%positive) by lia. subst s.
    change (2 ^ Zpos 1) with 2 in Vq. f_equal.
    change ((54 - 53 + 1 - 54 + 1)) with 0 in *. simpl.
    rewrite Pos.mul_1_r. f_equal. lia.
  - assert (Hneg : (0 <=? D - 54 + 1) = false) by (apply Z.leb_gt; lia).
    rewrite Hneg.
    replace (- (D - 54 + 1)) with (Zpos s - 1) by lia.
    assert (Hq : Zpos q = Zpos p * 2 ^ (Zpos s - 1)).
    { replace (Zpos s) with (Z.succ (Zpos s - 1)) in Vq by lia.
      rewrite Z.pow_succ_r in Vq by lia. lia. }
    rewrite Hq, Z.mod_mul, Z.eqb_refl, Z.div_mul by (apply Z.pow_nonzero; lia).
    reflexivity.
Qed.

End Exact.

(** Every integer below 2^53 is a number. *)
Lemma exact_below_2_53 (n : N) : (n < 2 ^ 53)%N -> exact n.
Proof.
  intros H. unfold exact, of_N, of_decimal. destruct n as [|p]; [reflexivity|].
  apply round_ratio_exact, digits2_small.
  change (2 ^ 53)%Z with (Z.of_N (2 ^ 53)). lia.
Qed.

(* ===================================================================== *)
(** * Integral numbers are exact *)
(* ===================================================================== *)

Section Integral.

Local Open Scope Z_scope.

Lemma iter_pos_iter A (f : A -> A) : forall n x, iter_pos f n x = Pos.iter f x n.
Proof.
  induction n as [n IH|n IH|]; intros x; cbn [iter_pos Pos.iter].
  - rewrite !IH, <- !(Pos.iter_swap n _ f). reflexivity.
  - rewrite !IH. reflexivity.
  - reflexivity.
Qed.

(** Shifting out zeros loses nothing. *)
Lemma shr_zeros k : forall m,
  Pos.iter shr_1 {| shr_m := Zpos (Pos.iter xO m k); shr_r := false; shr_s := false |} k
  = {| shr_m := Zpos m; shr_r := false; shr_s := false |}.
Proof.
  induction k as [|k IH] using Pos.peano_ind; intros m.
  - reflexivity.
  - rewrite (Pos.iter_succ k _ xO), (Pos.iter_succ k _ shr_1),
      <- (Pos.iter_swap k _ shr_1).
    cbn [shr_1 orb]. apply IH.
Qed.

(** A mantissa of 53 digits with a positive exponent is a number, exactly. *)
Lemma round_ratio_shifted m k :
  Zpos (digits2_pos m) = 53 -> Zpos k <= 971 ->
  round_ratio false (Pos.iter xO m k) 1 = S754_finite false m (Zpos k).
Proof.
  intros Hm Hk. unfold round_ratio, SFdiv_core_binary.
  cbn [Zdigits2 digits2_pos]. rewrite digits2_iter_xO, Hm.
  assert (He : Z.min (fexp prec emax (53 + Zpos k + 0 - (1 + 0))) (0 - 0) = 0).
  { unfold fexp, SpecFloat.emin, prec, emax. lia. }
  rewrite He. cbn [Z.sub Z.opp Z.add].
  assert (Hdiv : Z.div_eucl (Zpos (Pos.iter xO m k)) 1 = (Zpos (Pos.iter xO m k), 0)).
  { pose proof (Z.div_eucl_eq (Zpos (Pos.iter xO m k)) 1 ltac:(lia)) as E.
    pose proof (Z.mod_pos_bound (Zpos (Pos.iter xO m k)) 1 ltac:(lia)) as B.
    unfold Z.modulo in B. destruct (Z.div_eucl (Zpos (Pos.iter xO m k)) 1) as [a b].
    f_equal; lia. }
  rewrite Hdiv. change (new_location 1 0) with loc_Exact.
  unfold binary_round_aux, shr_fexp. cbn [Zdigits2 shr_record_of_loc].
  rewrite digits2_iter_xO, Hm.
  assert (F1 : fexp prec emax (53 + Zpos k + 0) - 0 = Zpos k).
  { unfold fexp, SpecFloat.emin, prec, emax. lia. }
  rewrite F1. cbn [shr]. rewrite iter_pos_iter, shr_zeros.
  cbn [fst snd shr_m loc_of_shr_record round_nearest_even Zdigits2 Z.add].
  rewrite Pos2Z.inj_add, Hm.
  assert (F2 : fexp prec emax (53 + Zpos k) - Zpos k = 0).
  { unfold fexp, SpecFloat.emin, prec, emax. lia. }
  rewrite F2. cbn [shr fst snd shr_m shr_record_of_loc].
  assert (Hle : (Zpos k <=? emax - prec) = true)
    by (apply Z.leb_le; unfold emax, prec; lia).
  rewrite Hle. reflexivity.
Qed.

End Integral.

(** The non-negative integer a binary64 number holds is exact. *)
Lemma integral_number_exact (x : number) (n : N) :
  valid_binary prec emax x = true -> to_Z x = Some (Z.of_N n) -> exact n.
Proof.
  destruct x as [s|s| |s m e]; intros Hb Hz; try discriminate Hz.
  { injection Hz as Hz. assert (n = 0%N) by lia. subst n. reflexivity. }
  unfold valid_binary, bounded, canonical_mantissa in Hb.
  apply andb_prop in Hb. destruct Hb as [Hc He].
  apply Z.eqb_eq in Hc. apply Z.leb_le in He.
  unfold fexp, SpecFloat.emin, prec, emax in Hc, He.
  change IntDef.Z.max with Z.max in Hc.
  assert (Hm : (Zpos m < 2 ^ Zpos (digits2_pos m))%Z).
  { pose proof (Pos.size_gt m) as G. rewrite <- digits2_size in G.
    apply Pos2Z.pos_lt_pos in G. now rewrite Pos2Z.inj_pow in G. }
  unfold to_Z in Hz.
  destruct (0 <=? e)%Z eqn:E0.
  - apply Z.leb_le in E0.
    assert (Hp : (0 < Zpos m * 2 ^ e)%Z)
      by (apply Z.mul_pos_pos; [lia | apply Z.pow_pos_nonneg; lia]).
    set (v := (Zpos m * 2 ^ e)%Z) in *.
    destruct s; injection Hz as Hz; [lia|]. subst v.
    assert (Hd : Zpos (digits2_pos m) = 53%Z) by lia.
    rewrite Hd in Hm.
    destruct e as [|k|k]; [| |lia].
    + apply exact_below_2_53.
      change (2 ^ 53)%N with (Z.to_N (2 ^ 53)). lia.
    + unfold exact, of_N, of_decimal.
      destruct n as [|p]; [lia|].
      assert (Ep : p = Pos.iter xO m k).
      { apply Pos2Z.inj. rewrite Zpos_iter_xO. cbn [Z.of_N] in Hz. lia. }
      rewrite Ep, (@round_ratio_shifted m k Hd ltac:(lia)).
      cbn [to_Z Z.leb Z.compare]. cbn [Z.of_N]. now rewrite Zpos_iter_xO.
  - apply Z.leb_gt in E0.
    destruct (Zpos m mod 2 ^ (- e) =? 0)%Z; [|discriminate].
    assert (Hq : (0 <= Zpos m / 2 ^ (- e) <= Zpos m)%Z).
    { assert (1 <= 2 ^ (- e))%Z
        by (pose proof (Z.pow_pos_nonneg 2 (- e) ltac:(lia) ltac:(lia)); lia).
      split; [apply Z.div_pos; lia|].
      apply Z.div_le_upper_bound; [lia | nia]. }
    assert (2 ^ Zpos (digits2_pos m) <= 2 ^ 53)%Z
      by (apply Z.pow_le_mono_r; lia).
    assert (Hn : (Z.of_N n < 2 ^ 53)%Z).
    { set (v := (Zpos m / 2 ^ (- e))%Z) in *. destruct s; injection Hz as Hz; lia. }
    apply exact_below_2_53.
    change (2 ^ 53)%N with (Z.to_N (2 ^ 53)). lia.
Qed.

(* ===================================================================== *)
(** * Strings: digits, trimming and inclusion *)
(* ===================================================================== *)

(** Decide the comparisons on a code unit that stand in the goal. *)
Ltac char_cases :=
  repeat match goal with
         | |- context [(?a =? ?b)%N] => destruct (N.eqb_spec a b); try lia
         | |- context [(?a <=? ?b)%N] => destruct (N.leb_spec a b); try lia
         end;
  simpl; try reflexivity; try discriminate; try lia.

Lemma is_digit_range c : is_digit c = true -> (48 <= c <= 57)%N.
Proof.
  unfold is_digit. intros H. apply andb_true_iff in H. destruct H as [H1 H2].
  apply N.leb_le in H1, H2. lia.
Qed.

Lemma digit_not_space c : is_digit c = true -> is_space c = false.
Proof.
  intros H. apply is_digit_range in H.
  unfold is_space, is_line_terminator. char_cases.
Qed.

Lemma digit_upper c : is_digit c = true -> upper1 c = c.
Proof. intros H. apply is_digit_range in H. unfold upper1. char_cases. Qed.

Lemma digit_not c x :
  is_digit c = true -> (x < 48 \/ 57 < x)%N -> (c =? x)%N = false.
Proof. intros H Hx. apply is_digit_range in H. char_cases. Qed.

Lemma span_digits_all ds rest :
  forallb is_digit ds = true ->
  match rest with [] => True | c :: _ => is_digit c = false end ->
  span_digits (ds ++ rest) = (ds, rest).
Proof.
  intros Hd Hr. induction ds as [|a ds IH]; simpl.
  - destruct rest as [|c t]; [reflexivity|]. simpl. now rewrite Hr.
  - simpl in Hd. apply andb_true_iff in Hd. destruct Hd as [Ha Hd].
    rewrite Ha, (IH Hd). reflexivity.
Qed.

Lemma forallb_digit_upper ds : forallb is_digit ds = true -> toUpperCase ds = ds.
Proof.
  induction ds as [|a ds IH]; simpl; [reflexivity|]. intros H.
  apply andb_true_iff in H. destruct H as [Ha Hd].
  now rewrite (digit_upper _ Ha), (IH Hd).
Qed.

(** [includes] of a one-unit string is membership. *)
Lemma includes_single s x : includes s [x] = existsb (N.eqb x) s.
Proof.
  induction s as [|a s IH]; simpl; [reflexivity|].
  rewrite IH. now rewrite andb_true_r.
Qed.

Lemma existsb_digits_none ds x :
  forallb is_digit ds = true -> (x < 48 \/ 57 < x)%N -> existsb (N.eqb x) ds = false.
Proof.
  intros Hd Hx. induction ds as [|a ds IH]; simpl; [reflexivity|].
  simpl in Hd. apply andb_true_iff in Hd. destruct Hd as [Ha Hd].
  rewrite (IH Hd), N.eqb_sym, (digit_not _ Ha Hx). reflexivity.
Qed.

(** Filtering keeps a string that holds nothing to remove. *)
Lemma remove_all_none (p : char -> bool) s :
  forallb (fun c => negb (p c)) s = true -> remove_all p s = s.
Proof.
  unfold remove_all. induction s as [|a s IH]; simpl; [reflexivity|].
  intros H. apply andb_true_iff in H. destruct H as [Ha Hs].
  now rewrite Ha, (IH Hs).
Qed.

Lemma remove_all_idem (p : char -> bool) s :
  remove_all p (remove_all p s) = remove_all p s.
Proof.
  apply remove_all_none. unfold remove_all.
  apply forallb_forall. intros x Hx. apply filter_In in Hx. tauto.
Qed.

Lemma replace_first_absent a b s :
  existsb (N.eqb a) s = false -> replace_first a b s = s.
Proof.
  induction s as [|c s IH]; simpl; [reflexivity|]. intros H.
  apply orb_false_iff in H. destruct H as [Hc Hs].
  rewrite N.eqb_sym, Hc, (IH Hs). reflexivity.
Qed.

(** Trimming yields a piece of the string. *)
Lemma trimStart_suffix s : exists w, s = w ++ trimStart s.
Proof.
  induction s as [|a s [w IH]]; simpl.
  - exists []; reflexivity.
  - destruct (is_space a); [exists (a :: w); simpl; congruence | exists []; reflexivity].
Qed.

Lemma trim_piece s : exists a b, s = a ++ trim s ++ b.
Proof.
  unfold trim, trimEnd. destruct (trimStart_suffix s) as [a Ha].
  destruct (trimStart_suffix (rev (trimStart s))) as [b Hb].
  exists a, (rev b). rewrite Ha at 1. f_equal.
  rewrite <- rev_app_distr, <- Hb. now rewrite rev_involutive.
Qed.


Lemma starts_with_app p s t : starts_with p s = true -> starts_with p (s ++ t) = true.
Proof.
  revert s. induction p as [|a p IH]; intros s H; [reflexivity|].
  destruct s as [|b s]; [discriminate|]. simpl in *.
  apply andb_true_iff in H. destruct H as [H1 H2]. now rewrite H1, (IH _ H2).
Qed.

Lemma includes_app_l s t p : includes s p = true -> includes (s ++ t) p = true.
Proof.
  induction s as [|a s IH]; simpl; intros H.
  - rewrite orb_false_r in H. destruct p; [|discriminate].
    destruct t; reflexivity.
  - apply orb_true_iff in H. destruct H as [H|H].
    + destruct p as [|b p]; [reflexivity|]. simpl in H.
      apply andb_true_iff in H. destruct H as [H1 H2].
      simpl. now rewrite H1, (starts_with_app _ _ t H2).
    + rewrite (IH H). apply orb_true_r.
Qed.

Lemma includes_app_r s t p : includes t p = true -> includes (s ++ t) p = true.
Proof.
  induction s as [|a s IH]; simpl; intros H; [exact H|].
  rewrite (IH H). apply orb_true_r.
Qed.

(** What a piece includes, the whole string includes. *)
Lemma includes_piece a s b p : includes s p = true -> includes (a ++ s ++ b) p = true.
Proof. intros H. apply includes_app_r, includes_app_l, H. Qed.

Lemma includes_trim s p : includes (trim s) p = true -> includes s p = true.
Proof.
  intros H. destruct (trim_piece s) as (a & b & E). rewrite E.
  apply includes_piece, H.
Qed.

Lemma not_includes_trim s p : includes s p = false -> includes (trim s) p = false.
Proof.
  intros H. destruct (includes (trim s) p) eqn:E; [|reflexivity].
  apply includes_trim in E. congruence.
Qed.

Lemma eqb_eq a b : JsString.eqb a b = true <-> a = b.
Proof.
  unfold JsString.eqb. destruct (list_eq_dec N.eq_dec a b); split; congruence.
Qed.

(* ===================================================================== *)
(** * The numeric normalizer *)
(* ===================================================================== *)

(** ** Reading a match *)

Lemma matches_sym_inv p s s' :
  matches (Sym p) s s' -> exists x, s = x :: s' /\ p x = true.
Proof. inversion 1; subst; eauto. Qed.

Lemma matches_cat_inv r1 r2 s s' :
  matches (Cat r1 r2) s s' -> exists s1, matches r1 s s1 /\ matches r2 s1 s'.
Proof. inversion 1; subst; eauto. Qed.

Lemma matches_alt_inv r1 r2 s s' :
  matches (Alt r1 r2) s s' -> matches r1 s s' \/ matches r2 s s'.
Proof. inversion 1; subst; auto. Qed.

Lemma matches_eps_inv s s' : matches Eps s s' -> s = s'.
Proof. inversion 1; subst; auto. Qed.

Lemma matches_grp_inv i r s s' : matches (Grp i r) s s' -> matches r s s'.
Proof. inversion 1; subst; auto. Qed.

Lemma matches_star_sym g p s s' :
  matches (Star g (Sym p)) s s' -> exists w, s = w ++ s' /\ forallb p w = true.
Proof.
  intros H. remember (Star g (Sym p)) as r eqn:E.
  induction H; try discriminate; injection E as -> ->.
  - exists []. auto.
  - destruct (matches_sym_inv H) as (x & -> & Hx).
    destruct (IHmatches2 eq_refl) as (w & -> & Hw).
    exists (x :: w). simpl. now rewrite Hx, Hw.
Qed.

Lemma matches_plus_sym p s s' :
  matches (Plus (Sym p)) s s' ->
  exists x w, s = x :: w ++ s' /\ p x = true /\ forallb p w = true.
Proof.
  intros H. apply matches_cat_inv in H. destruct H as (s1 & H1 & H2).
  destruct (matches_sym_inv H1) as (x & -> & Hx).
  destruct (matches_star_sym H2) as (w & -> & Hw). eauto.
Qed.

(** The text of a pattern that is one group is the text of the group. *)
Lemma match_here_grp i r s s' c :
  match_here (Grp i r) s = Some (s', c) ->
  capture i c = Some (firstn (List.length s - List.length s') s).
Proof.
  unfold match_here. simpl. intros H.
  destruct (run_sound _ _ _ _ H) as (s1 & c1 & _ & _ & K).
  injection K as <- <-. unfold capture. simpl. now rewrite Nat.eqb_refl.
Qed.

Lemma exec_from_grp i r : forall s j m,
  exec_from j (Grp (S i) r) s = Some m -> group (S i) m = Some (text m).
Proof.
  induction s as [|a s IH]; intros j m H; cbn [exec_from] in H.
  - destruct (match_here _ []) as [[s' c]|] eqn:E; [|discriminate].
    injection H as <-. apply (match_here_grp _ _ _ E).
  - destruct (match_here _ (a :: s)) as [[s' c]|] eqn:E.
    + injection H as <-. apply (match_here_grp _ _ _ E).
    + eapply IH, H.
Qed.

Lemma group_or_empty_grp i r s :
  group_or_empty (S i) (exec (Grp (S i) r) s) =
  match exec (Grp (S i) r) s with Some m => text m | None => [] end.
Proof.
  unfold group_or_empty. destruct (exec _ s) as [m|] eqn:E; [|reflexivity].
  now rewrite (exec_from_grp _ _ _ _ E).
Qed.

(** ** A greedy run of one class takes all it can *)

Lemma run_sym_cons R (p : char -> bool) a s c (k : cont R) :
  run (Sym p) (a :: s) c k = if p a then k s c else None.
Proof. reflexivity. Qed.

Lemma run_sym_nil R (p : char -> bool) c (k : cont R) : run (Sym p) [] c k = None.
Proof. reflexivity. Qed.

Lemma star_greedy R (p : char -> bool) (k : cont R) x : forall w rest c n,
  forallb p w = true ->
  match rest with [] => True | a :: _ => p a = false end ->
  k rest c = Some x ->
  (List.length (w ++ rest) <= n)%nat ->
  star_loop true (run (Sym p)) k n (w ++ rest) c = Some x.
Proof.
  induction w as [|a w IH]; intros rest c n Hw Hr Hk Hn.
  - simpl app. destruct n; cbn [star_loop]; [simpl; exact Hk|].
    destruct rest as [|b rest];
      [rewrite run_sym_nil | rewrite run_sym_cons, Hr]; simpl; exact Hk.
  - simpl in Hw. apply andb_true_iff in Hw. destruct Hw as [Ha Hw].
    destruct n as [|n]; [simpl in Hn; lia|].
    cbn [star_loop app]. rewrite run_sym_cons, Ha.
    assert (L : (List.length (w ++ rest) <? List.length (a :: w ++ rest))%nat = true)
      by (apply Nat.ltb_lt; simpl; lia).
    rewrite L. rewrite (IH rest c n Hw Hr Hk) by (simpl in Hn; lia).
    reflexivity.
Qed.

Lemma run_star_greedy R (p : char -> bool) (k : cont R) x w rest c :
  forallb p w = true ->
  match rest with [] => True | a :: _ => p a = false end ->
  k rest c = Some x ->
  run (Star true (Sym p)) (w ++ rest) c k = Some x.
Proof. intros. cbn [run]. apply star_greedy; auto. Qed.

Lemma run_plus_greedy R (p : char -> bool) (k : cont R) x a w rest c :
  p a = true -> forallb p w = true ->
  match rest with [] => True | b :: _ => p b = false end ->
  k rest c = Some x ->
  run (Plus (Sym p)) (a :: w ++ rest) c k = Some x.
Proof.
  intros Ha Hw Hr Hk. unfold Plus.
  change (run (Cat (Sym p) (Star true (Sym p))) (a :: w ++ rest) c k)
    with (run (Sym p) (a :: w ++ rest) c
            (fun s' c' => run (Star true (Sym p)) s' c' k)).
  rewrite run_sym_cons, Ha. apply run_star_greedy; auto.
Qed.

(** ** The numeral [parseMetric] takes out of a literal *)


Lemma one_of_dot : one_of (lit ".,") c_dot = true.
Proof. reflexivity. Qed.

Lemma match_here_numeral ip fp rest :
  ip <> [] -> forallb is_digit ip = true -> forallb is_digit fp = true ->
  ends_numeral rest ->
  let s := ip ++ fraction fp ++ rest in
  match_here Normalizer.numeric_re s =
  Some (rest, [(1%nat, firstn (List.length s - List.length rest) s)]).
Proof.
  intros Hne Hip Hfp Hrest s.
  destruct ip as [|a ip]; [congruence|].
  simpl in Hip. apply andb_true_iff in Hip. destruct Hip as [Ha Hip].
  unfold match_here, Normalizer.numeric_re. cbn [run].
  subst s. cbn [app]. fold (Plus (Sym digit)).
  set (s := a :: ip ++ fraction fp ++ rest).
  set (K := fun (s' : jstring) (c' : caps) =>
              Some (s', (1%nat, firstn (List.length s - List.length s') s) :: c')).
  assert (Hd : digit = is_digit) by reflexivity.
  apply run_plus_greedy; rewrite ?Hd; auto.
  - destruct fp as [|f fp]; simpl.
    + destruct rest; [exact I | apply Hrest].
    + unfold c_dot. reflexivity.
  - unfold Opt. cbn [run]. destruct fp as [|f fp]; cbn [fraction app].
    + (* no fraction: the separator is not there *)
      destruct rest as [|b rest]; cbn [run or_else]; [reflexivity|].
      destruct Hrest as [_ Hb]. rewrite Hb. reflexivity.
    + simpl in Hfp. apply andb_true_iff in Hfp. destruct Hfp as [Hf Hfp].
      cbn [run]. rewrite one_of_dot.
      fold (Plus (Sym digit)).
      erewrite run_plus_greedy;
        [ reflexivity | exact Hf | exact Hfp
        | destruct rest; [exact I | apply Hrest] | reflexivity ].
Qed.

Lemma exec_from_here r s s' c i :
  match_here r s = Some (s', c) ->
  exec_from i r s = Some (mkResult i (firstn (List.length s - List.length s') s) c s').
Proof. intros H. destruct s; cbn [exec_from]; rewrite H; reflexivity. Qed.

Lemma exec_numeral ip fp rest :
  ip <> [] -> forallb is_digit ip = true -> forallb is_digit fp = true ->
  ends_numeral rest ->
  group_or_empty 1 (exec Normalizer.numeric_re (ip ++ fraction fp ++ rest))
  = ip ++ fraction fp.
Proof.
  intros Hne Hip Hfp Hrest.
  pose proof (@match_here_numeral ip fp rest Hne Hip Hfp Hrest) as H. cbv zeta in H.
  unfold exec. rewrite (exec_from_here _ _ 0 H).
  unfold group_or_empty, group, capture. cbn [groups find fst Nat.eqb option_map snd].
  replace (ip ++ fraction fp ++ rest) with ((ip ++ fraction fp) ++ rest)
    by now rewrite app_assoc.
  apply consumed_prefix.
Qed.

(** ** [parseFloat] on a numeral *)

Lemma fraction_digits fp :
  match fraction fp with [] => True | c :: _ => is_digit c = false end.
Proof. destruct fp; simpl; auto. Qed.

Lemma parseFloat_numeral ip fp :
  ip <> [] -> forallb is_digit ip = true -> forallb is_digit fp = true ->
  parseFloat (ip ++ fraction fp)
  = of_decimal false (digits_value (ip ++ fp)) (- Z.of_nat (List.length fp)).
Proof.
  intros Hne Hip Hfp. unfold parseFloat.
  destruct ip as [|a ip]; [congruence|].
  pose proof Hip as Hall. simpl in Hip. apply andb_true_iff in Hip.
  destruct Hip as [Ha Hip].
  cbn [app trimStart]. rewrite (digit_not_space _ Ha).
  unfold take_sign.
  rewrite (digit_not (x:=45) a Ha), (digit_not (x:=43) a Ha) by lia.
  assert (I0 : starts_with (lit "Infinity") (a :: ip ++ fraction fp) = false).
  { change (lit "Infinity") with (73%N :: lit "nfinity"). cbn [starts_with].
    rewrite N.eqb_sym, (digit_not (x:=73) a Ha) by lia. reflexivity. }
  rewrite I0.
  change (a :: ip ++ fraction fp) with ((a :: ip) ++ fraction fp).
  rewrite (span_digits_all (a :: ip) (fraction fp) Hall (fraction_digits fp)).
  destruct fp as [|f fp].
  - cbn [fraction]. rewrite !app_nil_r. reflexivity.
  - cbn [fraction]. rewrite N.eqb_refl.
    rewrite <- (app_nil_r (f :: fp)) at 1.
    rewrite (span_digits_all (f :: fp) [] Hfp I).
    cbn [app]. cbn [exponent_part]. rewrite Z.sub_0_l. reflexivity.
Qed.

Lemma existsb_numeral (p : char -> bool) ip fp :
  existsb p ip = false -> existsb p fp = false -> p c_dot = false ->
  existsb p (ip ++ fraction fp) = false.
Proof.
  intros Hip Hfp Hd. rewrite existsb_app, Hip.
  destruct fp as [|f fp]; [reflexivity|].
  change (fraction (f :: fp)) with (c_dot :: f :: fp).
  change (existsb p (c_dot :: f :: fp)) with (p c_dot || existsb p (f :: fp)).
  now rewrite Hd, Hfp.
Qed.

Lemma numeral_no_comma ip fp :
  forallb is_digit ip = true -> forallb is_digit fp = true ->
  existsb (N.eqb c_comma) (ip ++ fraction fp) = false.
Proof.
  intros Hip Hfp.
  apply existsb_numeral; try apply existsb_digits_none; auto;
    unfold c_comma; try lia; reflexivity.
Qed.

Lemma numeral_upper ip fp :
  forallb is_digit ip = true -> forallb is_digit fp = true ->
  toUpperCase (ip ++ fraction fp) = ip ++ fraction fp.
Proof.
  intros Hip Hfp. unfold toUpperCase. rewrite map_app.
  fold (toUpperCase ip). rewrite (forallb_digit_upper ip Hip). f_equal.
  destruct fp as [|f fp]; [reflexivity|].
  change (map upper1 (fraction (f :: fp)))
    with (c_dot :: toUpperCase (f :: fp)).
  now rewrite (forallb_digit_upper (f :: fp) Hfp).
Qed.

Lemma numeral_letter ip fp x :
  forallb is_digit ip = true -> forallb is_digit fp = true ->
  (57 < x)%N -> existsb (N.eqb x) (ip ++ fraction fp) = false.
Proof.
  intros Hip Hfp Hx.
  apply existsb_numeral; try apply existsb_digits_none; auto; try lia.
  unfold c_dot. destruct (N.eqb_spec x 46); [lia | reflexivity].
Qed.

Lemma suffix_upper u lower : toUpperCase (suffix_text u lower) = suffix_text u false.
Proof. destruct u, lower; reflexivity. Qed.

Lemma suffix_ends_numeral u : ends_numeral (suffix_text u false).
Proof. destruct u; simpl; auto. Qed.

(** The normalizer on a literal: the numeral is parsed, scaled by the
    suffix, and rounded. *)
Lemma parseMetric_of_literal s ip fp u lower :
  strip s = ip ++ fraction fp ++ suffix_text u lower ->
  ip <> [] -> forallb is_digit ip = true -> forallb is_digit fp = true ->
  Normalizer.parseMetric s
  = Math_round (scale u (of_decimal false (digits_value (ip ++ fp))
                                    (- Z.of_nat (List.length fp)))).
Proof.
  intros Hs Hne Hip Hfp. unfold Normalizer.parseMetric.
  destruct s as [|c0 s0] eqn:Es.
  { exfalso. simpl in Hs. destruct ip; [congruence | discriminate]. }
  assert (Hclean : toUpperCase (strip (c0 :: s0))
                   = ip ++ fraction fp ++ suffix_text u false).
  { rewrite Hs, app_assoc. unfold toUpperCase. rewrite map_app.
    fold (toUpperCase (ip ++ fraction fp)) (toUpperCase (suffix_text u lower)).
    now rewrite (@numeral_upper ip fp Hip Hfp), suffix_upper, <- app_assoc. }
  cbn [is_empty]. fold (strip (c0 :: s0)). rewrite !Hclean.
  rewrite (@exec_numeral ip fp _ Hne Hip Hfp (suffix_ends_numeral u)).
  assert (Hnum : match ip ++ fraction fp with [] => lit "0" | g => g end = ip ++ fraction fp).
  { destruct ip; [congruence | reflexivity]. }
  rewrite Hnum.
  rewrite (@replace_first_absent c_comma c_dot _ (@numeral_no_comma ip fp Hip Hfp)).
  rewrite (@parseFloat_numeral ip fp Hne Hip Hfp).
  change (lit "B") with [66%N]. change (lit "M") with [77%N].
  change (lit "K") with [75%N]. rewrite !includes_single.
  rewrite app_assoc, !existsb_app.
  assert (L : forall x, (57 < x)%N ->
             existsb (N.eqb x) ip || existsb (N.eqb x) (fraction fp) = false).
  { intros x Hx. rewrite <- existsb_app. now apply numeral_letter. }
  rewrite !L by (vm_compute; reflexivity).
  destruct u; reflexivity.
Qed.

(** ** The normalizer on any string *)

Lemma replace_first_app a b p s :
  existsb (N.eqb a) p = false -> replace_first a b (p ++ s) = p ++ replace_first a b s.
Proof.
  induction p as [|c p IH]; simpl; [reflexivity|]. intros H.
  apply orb_false_iff in H. destruct H as [Hc Hp].
  rewrite N.eqb_sym, Hc, (IH Hp). reflexivity.
Qed.

(** The numeral the pattern finds: digits, and maybe a separator and more
    digits. *)
Lemma numeric_re_shape t m :
  exec Normalizer.numeric_re t = Some m ->
  exists ip fp sep,
    ip <> [] /\ forallb is_digit ip = true /\ forallb is_digit fp = true /\
    one_of (lit ".,") sep = true /\
    text m = ip ++ match fp with [] => [] | _ => sep :: fp end.
Proof.
  intros E. destruct (exec_sound _ _ E) as (pre & _ & M).
  unfold Normalizer.numeric_re in M.
  apply matches_grp_inv, matches_cat_inv in M. destruct M as (s1 & M1 & M2).
  destruct (matches_plus_sym M1) as (x & w & Hx & Px & Pw). unfold digit in *.
  apply matches_alt_inv in M2. destruct M2 as [M2|M2].
  - apply matches_cat_inv in M2. destruct M2 as (s2 & Ms & Md).
    destruct (matches_sym_inv Ms) as (c & -> & Pc).
    destruct (matches_plus_sym Md) as (y & v & -> & Py & Pv).
    exists (x :: w), (y :: v), c. repeat split; try discriminate; auto.
    + cbn [forallb]. now rewrite Px, Pw.
    + cbn [forallb]. now rewrite Py, Pv.
    + apply (app_inv_tail (rest m)). rewrite Hx.
      simpl. rewrite <- !app_assoc. reflexivity.
  - apply matches_eps_inv in M2. subst s1.
    exists (x :: w), [], c_dot. repeat split; try discriminate; auto.
    + cbn [forallb]. now rewrite Px, Pw.
    + apply (app_inv_tail (rest m)). rewrite Hx, app_nil_r. reflexivity.
Qed.

(** The numeric part [parseMetric] hands to [parseFloat] is a numeral. *)
Lemma numericPart_value t :
  let numericPart :=
    match group_or_empty 1 (exec Normalizer.numeric_re t) with
    | [] => lit "0"
    | g => g
    end in
  non_negative (parseFloat (replace_first c_comma c_dot numericPart)).
Proof.
  cbv zeta. unfold Normalizer.numeric_re at 1. rewrite group_or_empty_grp.
  fold Normalizer.numeric_re.
  destruct (exec Normalizer.numeric_re t) as [m|] eqn:E; [|exact I].
  destruct (numeric_re_shape _ E) as (ip & fp & sep & Hne & Hip & Hfp & Hsep & Ht).
  rewrite Ht.
  assert (Hg : match ip ++ match fp with [] => [] | _ :: _ => sep :: fp end with
               | [] => lit "0" | g => g end
               = ip ++ match fp with [] => [] | _ :: _ => sep :: fp end).
  { destruct ip; [congruence | reflexivity]. }
  rewrite Hg.
  assert (Hr : replace_first c_comma c_dot
                 (ip ++ match fp with [] => [] | _ :: _ => sep :: fp end)
               = ip ++ fraction fp).
  { rewrite replace_first_app
      by (apply existsb_digits_none; auto; unfold c_comma; lia).
    f_equal. destruct fp as [|f fp]; [reflexivity|].
    change (replace_first c_comma c_dot (sep :: f :: fp))
      with (if (sep =? c_comma)%N then c_dot :: f :: fp
            else sep :: replace_first c_comma c_dot (f :: fp)).
    cbn [fraction].
    destruct (N.eqb_spec sep c_comma) as [->|Hc]; [reflexivity|].
    assert (sep = c_dot) as ->.
    { unfold one_of in Hsep. simpl in Hsep. rewrite orb_false_r in Hsep.
      apply orb_true_iff in Hsep.
      destruct Hsep as [H|H]; apply N.eqb_eq in H; [exact H | contradiction]. }
    f_equal. apply replace_first_absent.
    apply existsb_digits_none; auto; unfold c_comma; lia. }
  rewrite Hr, (@parseFloat_numeral ip fp Hne Hip Hfp).
  apply of_decimal_non_negative.
Qed.

Lemma of_N_thousand : of_N 1000 = S754_finite false 8796093022208000 (-43).
Proof. vm_compute. reflexivity. Qed.

Lemma of_N_million : of_N 1000000 = S754_finite false 8589934592000000 (-33).
Proof. vm_compute. reflexivity. Qed.

Lemma of_N_billion : of_N 1000000000 = S754_finite false 8388608000000000 (-23).
Proof. vm_compute. reflexivity. Qed.

(** Whatever the string, the normalizer answers a non-negative integer, or
    [+Infinity] when the numeral is too large for a number. *)
Lemma parseMetric_count s :
  is_count (Normalizer.parseMetric s) \/
  Normalizer.parseMetric s = S754_infinity false.
Proof.
  unfold Normalizer.parseMetric. destruct s as [|c0 s0].
  - left. exists 0%N. reflexivity.
  - cbn [is_empty]. cbv zeta.
    set (t := toUpperCase _).
    pose proof (numericPart_value t) as Hx. cbv zeta in Hx.
    set (x := parseFloat _) in *.
    rewrite of_N_thousand, of_N_million, of_N_billion.
    repeat match goal with
           | |- context [if ?b then _ else _] => destruct b
           end;
      apply Math_round_count; try apply mul_non_negative; exact Hx.
Qed.

(** ** Digits and their value *)

Lemma digits_value_acc d a :
  fold_left (fun acc c => 10 * acc + (c - 48))%N (uint_digits d) (Npos a)
  = Npos (Pos.of_uint_acc d a).
Proof.
  revert a. induction d; intros a; cbn [uint_digits fold_left Pos.of_uint_acc];
    [reflexivity | rewrite <- IHd; f_equal; lia ..].
Qed.

Lemma digits_value_uint d : digits_value (uint_digits d) = N.of_uint d.
Proof.
  unfold digits_value, N.of_uint.
  induction d; cbn [uint_digits fold_left Pos.of_uint];
    [reflexivity | exact IHd | rewrite <- digits_value_acc; f_equal ..].
Qed.

Lemma digits_value_plain n : digits_value (plain n) = n.
Proof. unfold plain. rewrite digits_value_uint. apply DecimalN.Unsigned.of_to. Qed.

Lemma uint_digits_digits d : forallb is_digit (uint_digits d) = true.
Proof. induction d; simpl; auto. Qed.

Lemma plain_digits n : forallb is_digit (plain n) = true.
Proof. apply uint_digits_digits. Qed.

Lemma plain_nonempty n : plain n <> [].
Proof.
  intros E. pose proof (digits_value_plain n) as H. rewrite E in H.
  simpl in H. subst n. discriminate.
Qed.

(** Grouping adds commas and nothing else. *)
Lemma remove_group3 (p : char -> bool) :
  p c_comma = true ->
  forall n l, (List.length l <= n)%nat ->
    forallb (fun c => negb (p c)) l = true ->
    remove_all p (group3 l) = l.
Proof.
  intros Hc. induction n as [|n IH]; intros l Hn Hl.
  - destruct l; [reflexivity | simpl in Hn; lia].
  - destruct l as [|a [|b [|c [|d t]]]]; try (apply remove_all_none; exact Hl).
    change (group3 (a :: b :: c :: d :: t))
      with (a :: b :: c :: c_comma :: group3 (d :: t)).
    cbn [forallb] in Hl.
    apply andb_true_iff in Hl. destruct Hl as [Ha Hl].
    apply andb_true_iff in Hl. destruct Hl as [Hb Hl].
    apply andb_true_iff in Hl. destruct Hl as [Hc' Hl].
    unfold remove_all. cbn [filter]. rewrite Ha, Hb, Hc', Hc. cbn [negb].
    fold (remove_all p (group3 (d :: t))).
    rewrite (IH (d :: t)); [reflexivity | simpl in *; lia | exact Hl].
Qed.

Lemma remove_grouped (p : char -> bool) n :
  p c_comma = true ->
  forallb (fun c => negb (p c)) (plain n) = true ->
  remove_all p (grouped n) = plain n.
Proof.
  intros Hc Hp. unfold grouped, remove_all. rewrite filter_rev.
  fold (remove_all p (group3 (rev (plain n)))).
  rewrite (@remove_group3 p Hc (List.length (rev (plain n)))); auto.
  - apply rev_involutive.
  - rewrite forallb_forall in *. intros x Hx. apply Hp, in_rev, Hx.
Qed.

Lemma digits_no (p : char -> bool) ds :
  (forall c, is_digit c = true -> p c = false) ->
  forallb is_digit ds = true -> forallb (fun c => negb (p c)) ds = true.
Proof.
  intros Hp Hd. rewrite forallb_forall in *. intros x Hx.
  now rewrite (Hp x (Hd x Hx)).
Qed.

Lemma strip_plain n : strip (plain n) = plain n.
Proof.
  apply remove_all_none, digits_no; [|apply plain_digits].
  intros c Hc. rewrite (digit_not_space c Hc), (digit_not (x:=c_comma) c Hc);
    [reflexivity | unfold c_comma; lia].
Qed.

Lemma strip_grouped n : strip (grouped n) = plain n.
Proof.
  apply remove_grouped; [reflexivity|]. apply digits_no; [|apply plain_digits].
  intros c Hc. rewrite (digit_not_space c Hc), (digit_not (x:=c_comma) c Hc);
    [reflexivity | unfold c_comma; lia].
Qed.

(** The normalizer of [part_000] on the digits of [n], plain or grouped. *)
Lemma Normalizer_parse_digits s n :
  strip s = plain n -> Normalizer.parseMetric s = Math_round (of_N n).
Proof.
  intros Hs.
  rewrite (@parseMetric_of_literal s (plain n) [] NoSuffix false).
  - cbn [scale List.length]. rewrite app_nil_r, digits_value_plain. reflexivity.
  - now rewrite Hs, !app_nil_r.
  - apply plain_nonempty.
  - apply plain_digits.
  - reflexivity.
Qed.

(** The normalizer of [main.ts] on the digits of [n], plain or grouped. *)
Lemma MainTs_parse_digits s n :
  remove_all (N.eqb c_comma) s = plain n ->
  MainTs.parseMetric s = Math_round (of_N n).
Proof.
  intros Hs. unfold MainTs.parseMetric. rewrite Hs.
  rewrite (forallb_digit_upper _ (plain_digits n)).
  pose proof (@parseFloat_numeral (plain n) [] (plain_nonempty n)
                (plain_digits n) eq_refl) as Hp.
  cbn [fraction List.length] in Hp. rewrite !app_nil_r in Hp.
  rewrite Hp, digits_value_plain.
  change (lit "K") with [75%N]. change (lit "M") with [77%N].
  rewrite !includes_single.
  rewrite !(existsb_digits_none _ (plain_digits n)) by lia.
  reflexivity.
Qed.

(* ===================================================================== *)
(** * The numeric normalizer: literals and round trip *)
(* ===================================================================== *)

(** C1, as amended. The [parseMetric] of [part_000], on a literal (digits,
    an optional fraction, an optional suffix [K], [M] or [B] in either
    case, with commas and white space anywhere), parses the numeral
    without its commas and white space, multiplies it by 1,000, 1,000,000
    or 1,000,000,000 as the suffix says (by nothing without a suffix) and
    rounds to the nearest integer; and it maps the empty string to 0. *)
Theorem normalizer_on_literals (s ip fp : jstring) (u : suffix) (lower : bool) :
  strip s = ip ++ fraction fp ++ suffix_text u lower ->
  ip <> [] -> forallb is_digit ip = true -> forallb is_digit fp = true ->
  Normalizer.parseMetric s
  = Math_round (scale u (of_decimal false (digits_value (ip ++ fp))
                                    (- Z.of_nat (List.length fp)))) /\
  Normalizer.parseMetric [] = of_N 0.
Proof.
  intros Hs Hne Hip Hfp. split; [|reflexivity].
  exact (@parseMetric_of_literal s ip fp u lower Hs Hne Hip Hfp).
Qed.

(** The examples of the specification, through the theorem. *)
Lemma normalizer_on_literals_witness :
  to_Z (Normalizer.parseMetric (lit "1.2K")) = Some 1200%Z /\
  to_Z (Normalizer.parseMetric (lit "817,242")) = Some 817242%Z /\
  to_Z (Normalizer.parseMetric (lit "2.5M")) = Some 2500000%Z /\
  to_Z (Normalizer.parseMetric (lit " 3 b ")) = Some 3000000000%Z /\
  to_Z (Normalizer.parseMetric (lit "")) = Some 0%Z.
Proof.
  split.
  { rewrite (proj1 (@normalizer_on_literals (lit "1.2K") (lit "1") (lit "2")
                      Thousand false eq_refl ltac:(discriminate) eq_refl eq_refl)).
    vm_compute. reflexivity. }
  split.
  { rewrite (proj1 (@normalizer_on_literals (lit "817,242") (lit "817242") []
                      NoSuffix false eq_refl ltac:(discriminate) eq_refl eq_refl)).
    vm_compute. reflexivity. }
  split.
  { rewrite (proj1 (@normalizer_on_literals (lit "2.5M") (lit "2") (lit "5")
                      Million false eq_refl ltac:(discriminate) eq_refl eq_refl)).
    vm_compute. reflexivity. }
  split.
  { rewrite (proj1 (@normalizer_on_literals (lit " 3 b ") (lit "3") []
                      Billion true eq_refl ltac:(discriminate) eq_refl eq_refl)).
    vm_compute. reflexivity. }
  exact (f_equal to_Z
           (proj2 (@normalizer_on_literals (lit "7") (lit "7") []
                     NoSuffix false eq_refl ltac:(discriminate) eq_refl eq_refl))).
Defined.

(** C1 fails on the [parseMetric] of [main.ts]: the empty string gives NaN,
    [B] is no multiplier, and white space is not removed, so that the
    numeral stops at it while the suffix is still found. *)
Lemma main_ts_normalizer_differs :
  MainTs.parseMetric (lit "") = NaN /\
  to_Z (MainTs.parseMetric (lit "3B")) = Some 3%Z /\
  to_Z (MainTs.parseMetric (lit "1 2K")) = Some 1000%Z.
Proof. repeat split; vm_compute; reflexivity. Qed.

(** C9. For every number that holds a non-negative integer [n], the digits
    of [n], plain as in "42000" or comma-grouped as in "42,000", are parsed
    back to [n] by the normalizer of [part_000] and by the one of
    [main.ts]. (The integers below 2^53 are all held by a number; above,
    only those a binary64 value can hold are.) *)
Theorem normalizer_round_trip (x : number) (n : N) :
  valid_binary prec emax x = true -> to_Z x = Some (Z.of_N n) ->
  to_Z (Normalizer.parseMetric (plain n)) = Some (Z.of_N n) /\
  to_Z (Normalizer.parseMetric (grouped n)) = Some (Z.of_N n) /\
  to_Z (MainTs.parseMetric (plain n)) = Some (Z.of_N n) /\
  to_Z (MainTs.parseMetric (grouped n)) = Some (Z.of_N n).
Proof.
  intros Hx Hzx. pose proof (@integral_number_exact x n Hx Hzx) as Hn.
  unfold exact in Hn.
  assert (Hr : to_Z (Math_round (of_N n)) = Some (Z.of_N n))
    by (rewrite (Math_round_integral _ Hn); exact Hn).
  assert (Hc : forall c, N.eqb c_comma c = true -> is_digit c = false).
  { intros c Hc. apply N.eqb_eq in Hc. subst c. reflexivity. }
  repeat split.
  - now rewrite (@Normalizer_parse_digits _ n (strip_plain n)).
  - now rewrite (@Normalizer_parse_digits _ n (strip_grouped n)).
  - rewrite (@MainTs_parse_digits (plain n) n); [exact Hr|].
    apply remove_all_none, digits_no; [|apply plain_digits].
    intros c Hd. destruct (N.eqb c_comma c) eqn:E; [|reflexivity].
    rewrite (Hc c E) in Hd. discriminate.
  - rewrite (@MainTs_parse_digits (grouped n) n); [exact Hr|].
    apply remove_grouped; [reflexivity|].
    apply digits_no; [|apply plain_digits].
    intros c Hd. destruct (N.eqb c_comma c) eqn:E; [|reflexivity].
    rewrite (Hc c E) in Hd. discriminate.
Qed.

Lemma normalizer_round_trip_witness :
  valid_binary prec emax (of_N 42000) = true /\
  to_Z (of_N 42000) = Some 42000%Z /\
  plain 42000 = lit "42000" /\ grouped 42000 = lit "42,000" /\
  to_Z (Normalizer.parseMetric (lit "42000")) = Some 42000%Z /\
  to_Z (Normalizer.parseMetric (lit "42,000")) = Some 42000%Z /\
  to_Z (MainTs.parseMetric (lit "42000")) = Some 42000%Z /\
  to_Z (MainTs.parseMetric (lit "42,000")) = Some 42000%Z.
Proof.
  assert (Hv : valid_binary prec emax (of_N 42000) = true) by (vm_compute; reflexivity).
  assert (Hz : to_Z (of_N 42000) = Some (Z.of_N 42000)) by (vm_compute; reflexivity).
  split; [exact Hv|]. split; [exact Hz|]. split; [reflexivity|]. split; [reflexivity|].
  exact (@normalizer_round_trip (of_N 42000) 42000%N Hv Hz).
Defined.

(* ===================================================================== *)
(** * The shape of an invocation; the redirect check *)
(* ===================================================================== *)

Lemma handler_shape v ctx st :
  handler v ctx st = finish ctx (extraction v (page ctx)) st.
Proof.
  destruct v; [apply MainTs_shape | apply Enhanced_shape | apply Optimized_shape].
Qed.

Lemma extraction_pushes_nothing v p : preserves nothing_pushed (extraction v p).
Proof.
  destruct v; [apply MainTs_extract_pushes_nothing
              | apply Enhanced_extract_pushes_nothing
              | apply Optimized_extract_pushes_nothing].
Qed.

Lemma extraction_no_error v p : preserves no_error (extraction v p).
Proof.
  destruct v; [apply MainTs_extract_no_error | apply Enhanced_extract_no_error
              | apply Optimized_extract_no_error].
Qed.

(** A record a handler pushed without [error] is the record its extraction
    left when it returned. *)
Lemma emitted_without_error v ctx d :
  In d (emitted (handler v) ctx) -> error d = None ->
  exists st1,
    extraction v (page ctx) (mkState (new_reelData (request_url ctx)) [])
    = (inr tt, st1) /\ d = reelData st1.
Proof.
  unfold emitted, run_handler. intros Hin Hd.
  rewrite handler_shape in Hin.
  eapply finish_emitted; eauto using extraction_pushes_nothing, extraction_no_error.
Qed.

(** The extraction of the second file stops at the redirect check. *)
Lemma Optimized_redirect_throws p st :
  includes (page_url p) Optimized.reel_path = false ->
  exists e, Optimized_extract p st = (inl e, st) /\
            (Optimized_loaded p -> e = JsError (redirected p)).
Proof.
  intros Hu. unfold Optimized_extract, Optimized_loaded, Optimized.wait_for_content,
    Optimized.check_redirect, bind, try_catch, await, when, throw.
  cbv zeta. rewrite Hu. cbn [negb].
  destruct (goto p) as [e|[]].
  { exists e. split; [reflexivity|]. intros [H _]; discriminate. }
  destruct (waitForSelector p (quoted _)) as [e1|[]].
  - destruct (waitForSelector p (lit "body")) as [e2|[]].
    + exists e2. split; [reflexivity|]. intros [_ [H|H]]; discriminate.
    + eexists. split; reflexivity.
  - eexists. split; reflexivity.
Qed.

Lemma Enhanced_redirect_throws p st :
  includes (page_url p) Enhanced.reel_path = false ->
  exists e, Enhanced_extract p st = (inl e, st) /\
            (goto p = inr tt -> e = JsError (redirected p)).
Proof.
  intros Hu. unfold Enhanced_extract, Enhanced.check_redirect, bind, try_catch,
    await, when, throw.
  cbv zeta. rewrite Hu. cbn [negb].
  destruct (goto p) as [e|[]].
  { exists e. split; [reflexivity|]. discriminate. }
  destruct (waitForSelector p (lit "article")) as [e1|[]];
    eexists; split; reflexivity.
Qed.

(** C5. When the landing URL does not hold the reel path, the handler of
    either file of [part_000] pushes exactly one record, with [error] set
    and no metric resolved; when the page did load, the message is the one
    of the redirect check. *)
Theorem redirect_aborts_extraction (ctx : Context) :
  includes (page_url (page ctx)) (lit "instagram.com/reel/") = false ->
  (exists d, emitted Optimized.requestHandler ctx = [d] /\
             error d <> None /\ no_metric d /\
             (Optimized_loaded (page ctx) ->
              error d = Some (redirected (page ctx)))) /\
  (exists d, emitted Enhanced.requestHandler ctx = [d] /\
             error d <> None /\ no_metric d /\
             (goto (page ctx) = inr tt ->
              error d = Some (redirected (page ctx)))).
Proof.
  intros Hu. unfold emitted, run_handler.
  rewrite Optimized_shape, Enhanced_shape. split.
  - destruct (Optimized_redirect_throws (page ctx)
                (mkState (new_reelData (request_url ctx)) []) Hu) as (e & He & Hm).
    rewrite (finish_thrown ctx _ _ He). cbv zeta. cbn.
    eexists. split; [reflexivity|]. repeat split; try discriminate.
    intros L. now rewrite (Hm L).
  - destruct (Enhanced_redirect_throws (page ctx)
                (mkState (new_reelData (request_url ctx)) []) Hu) as (e & He & Hm).
    rewrite (finish_thrown ctx _ _ He). cbv zeta. cbn.
    eexists. split; [reflexivity|]. repeat split; try discriminate.
    intros L. now rewrite (Hm L).
Qed.


Lemma redirect_aborts_extraction_witness :
  includes (page_url (page bounced)) (lit "instagram.com/reel/") = false /\
  Optimized_loaded (page bounced) /\
  exists d, emitted Optimized.requestHandler bounced = [d] /\
            error d = Some (redirected (page bounced)) /\ no_metric d.
Proof.
  assert (Hu : includes (page_url (page bounced)) (lit "instagram.com/reel/") = false)
    by (vm_compute; reflexivity).
  assert (Hl : Optimized_loaded (page bounced))
    by (split; [reflexivity | left; reflexivity]).
  destruct (proj1 (redirect_aborts_extraction bounced Hu)) as (d & Hd & _ & Hm & He).
  split; [exact Hu|]. split; [exact Hl|].
  exists d. split; [exact Hd|]. split; [exact (He Hl) | exact Hm].
Defined.

(* ===================================================================== *)
(** * The audio step *)
(* ===================================================================== *)

(** ** The step and its [try] block *)

Lemma Enhanced_audio_step p st :
  Enhanced.extract_audio p st
  = if truthy_str (audioUsed (reelData st)) then (inr tt, st)
    else try_catch (Enhanced_audio_attempt p)
           (fun _ => assign (set_audioUsed (Some audio_extraction_failed))) st.
Proof.
  unfold Enhanced.extract_audio, bind, read, when. cbn [fst snd].
  destruct (truthy_str (audioUsed (reelData st))); reflexivity.
Qed.

Lemma Optimized_audio_step p text st :
  Optimized.extract_audio p text st
  = try_catch (Optimized_audio_attempt p text)
      (fun _ => assign (set_audioUsed (Some audio_extraction_failed))) st.
Proof. reflexivity. Qed.

(** ** The second file's [try] block never throws *)

Lemma no_throw_wp A (c : M A) :
  (forall st, wp c (fun _ _ => True) (fun _ _ => False) st) -> no_throw c.
Proof.
  intros H st. specialize (H st). unfold wp in H.
  destruct (c st) as [[e|a] st']; [contradiction | eexists; reflexivity].
Qed.

Lemma wp_no_throw A (c : M A) st :
  no_throw c -> wp c (fun _ _ => True) (fun _ _ => False) st.
Proof.
  intros H. destruct (H st) as [a Ha]. unfold wp.
  destruct (c st) as [[e|a'] st']; [discriminate | exact I].
Qed.

Lemma Optimized_audio_from_link_returns p : no_throw (Optimized.audio_from_link p).
Proof. apply no_throw_try_catch. intros e. apply no_throw_ret. Qed.

Lemma Optimized_audio_from_pattern_returns text :
  no_throw (Optimized.audio_from_pattern text).
Proof.
  unfold Optimized.audio_from_pattern.
  apply no_throw_bind; [apply no_throw_read | intros a].
  apply no_throw_when. destruct (match_all _ _); [|apply no_throw_ret].
  apply no_throw_for_of. intros m.
  destruct (_ && _); [|apply no_throw_ret].
  apply no_throw_bind; [apply no_throw_assign | intros; apply no_throw_ret].
Qed.

Lemma Optimized_audio_from_status_returns text :
  no_throw (Optimized.audio_from_status text).
Proof.
  unfold Optimized.audio_from_status.
  apply no_throw_bind; [apply no_throw_read | intros a].
  apply no_throw_when, no_throw_for_of. intros pat.
  destruct (match0 _ _); [|apply no_throw_ret].
  apply no_throw_bind; [apply no_throw_assign | intros; apply no_throw_ret].
Qed.

Lemma Optimized_audio_attempt_returns p text :
  no_throw (Optimized_audio_attempt p text).
Proof.
  unfold Optimized_audio_attempt.
  apply no_throw_bind; [apply Optimized_audio_from_link_returns | intros _].
  apply no_throw_bind; [apply Optimized_audio_from_pattern_returns | intros _].
  apply no_throw_bind; [apply Optimized_audio_from_status_returns | intros _].
  apply no_throw_bind; [apply no_throw_read | intros a].
  apply no_throw_when, no_throw_assign.
Qed.

(** ** After the step, [audioUsed] is present *)

Lemma Enhanced_audio_sets p st :
  wp (Enhanced.extract_audio p) (fun _ => audio_present) (fun _ _ => False) st.
Proof.
  unfold wp. rewrite Enhanced_audio_step.
  destruct (truthy_str (audioUsed (reelData st))) eqn:T; [exact T|].
  change (wp (try_catch (Enhanced_audio_attempt p)
                (fun _ => assign (set_audioUsed (Some audio_extraction_failed))))
             (fun _ => audio_present) (fun _ _ => False) st).
  apply wp_try_catch. unfold Enhanced_audio_attempt.
  apply wp_bind, wp_any; [intros allText st1 | reflexivity].
  apply wp_bind, wp_any; [intros [] st2 | reflexivity].
  apply wp_bind, wp_read.
  apply wp_bind, wp_any; [intros [] st3 | reflexivity].
  apply wp_bind, wp_read. apply wp_when.
  destruct (truthy_str (audioUsed (reelData st3))) eqn:T3; [exact T3 | reflexivity].
Qed.

Lemma Optimized_audio_sets p text st :
  wp (Optimized.extract_audio p text) (fun _ => audio_present) (fun _ _ => False) st.
Proof.
  unfold Optimized.extract_audio. apply wp_try_catch.
  apply wp_bind, wp_any; [intros [] st1 | reflexivity].
  apply wp_bind, wp_any; [intros [] st2 | reflexivity].
  apply wp_bind, wp_any; [intros [] st3 | reflexivity].
  apply wp_bind, wp_read. apply wp_when.
  destruct (truthy_str (audioUsed (reelData st3))) eqn:T3; [exact T3 | reflexivity].
Qed.

Lemma Enhanced_metrics_keeps_audio p : preserves audio_present (Enhanced.extract_metrics p).
Proof. preserves_with field_kept. Qed.

Lemma Enhanced_caption_keeps_audio p : preserves audio_present (Enhanced.extract_caption p).
Proof. preserves_with field_kept. Qed.

Lemma Optimized_caption_keeps_audio p text :
  preserves audio_present (Optimized.extract_caption p text).
Proof. preserves_with field_kept. Qed.

(** When the extraction returns, [audioUsed] is present. *)
Lemma Enhanced_extract_audio_present p st :
  wp (Enhanced_extract p) (fun _ => audio_present) (fun _ _ => True) st.
Proof.
  unfold Enhanced_extract.
  do 5 (apply wp_bind, wp_any; [intros ? ? | constructor]).
  apply wp_bind.
  eapply wp_weaken; [apply Enhanced_audio_sets | | contradiction].
  cbv beta. intros [] st1 H1.
  eapply wp_bind_inv; [apply Enhanced_metrics_keeps_audio | exact H1 | | auto].
  intros [] st2 H2.
  eapply wp_weaken; [apply (preserves_wp st2 (Enhanced_caption_keeps_audio p) H2) | |];
    cbv beta; auto.
Qed.

Lemma Optimized_extract_audio_present p st :
  wp (Optimized_extract p) (fun _ => audio_present) (fun _ _ => True) st.
Proof.
  unfold Optimized_extract.
  do 6 (apply wp_bind, wp_any; [intros ? ? | constructor]).
  apply wp_bind.
  eapply wp_weaken; [apply Optimized_audio_sets | | contradiction].
  cbv beta. intros [] st1 H1.
  eapply wp_weaken; [apply (preserves_wp st1 (Optimized_caption_keeps_audio p _) H1) | |];
    cbv beta; auto.
Qed.

(** ** When nothing matches, the sentinel *)

(** A loop whose every iteration goes on without a change. *)
Lemma for_of_skip A (l : list A) (body : A -> M bool) st :
  (forall x, In x l -> body x st = (inr false, st)) ->
  for_of l body st = (inr tt, st).
Proof.
  induction l as [|x t IH]; intros H; [reflexivity|].
  cbn [for_of]. unfold bind. rewrite (H x (or_introl eq_refl)).
  apply IH. intros y Hy. apply H. now right.
Qed.

Lemma for_of_app_skip A (l1 l2 : list A) (body : A -> M bool) st :
  (forall x, In x l1 -> body x st = (inr false, st)) ->
  for_of (l1 ++ l2) body st = for_of l2 body st.
Proof.
  induction l1 as [|x t IH]; intros H; [reflexivity|].
  cbn [app for_of]. unfold bind at 1. rewrite (H x (or_introl eq_refl)).
  apply IH. intros y Hy. apply H. now right.
Qed.

Lemma Optimized_link_silent p st :
  selected_text p Optimized.audioLink 0 = None ->
  Optimized.audio_from_link p st = (inr tt, st).
Proof.
  unfold selected_text, Optimized.audio_from_link, try_catch, bind, await, when.
  destruct (querySelector p Optimized.audioLink) as [e|[el|]]; try reflexivity.
  destruct (textContent el) as [e|[[|a0 t]|]]; try reflexivity.
  cbn [is_empty negb andb]. cbn [List.length Nat.ltb Nat.leb].
  rewrite andb_true_r.
  destruct (negb (is_empty (trim (a0 :: t)))); [discriminate | reflexivity].
Qed.

Lemma Optimized_pattern_silent text st :
  audio_unset st ->
  match match_all Optimized.cleanAudioPattern text with
  | Some l => Forall (fun m => clean_audio m = false) l
  | None => True
  end ->
  Optimized.audio_from_pattern text st = (inr tt, st).
Proof.
  intros Hu Hl. unfold Optimized.audio_from_pattern, bind, read, when.
  cbn [fst snd]. rewrite Hu. cbn [truthy_str negb].
  destruct (match_all Optimized.cleanAudioPattern text) as [l|]; [|reflexivity].
  apply for_of_skip. intros m Hm. rewrite Forall_forall in Hl.
  specialize (Hl m Hm). unfold clean_audio in Hl. rewrite Hl. reflexivity.
Qed.

Lemma Optimized_status_silent text st :
  audio_unset st ->
  Forall (fun pat => match0 pat text = None) Optimized.audioPatterns ->
  Optimized.audio_from_status text st = (inr tt, st).
Proof.
  intros Hu Hl. unfold Optimized.audio_from_status, bind, read, when.
  cbn [fst snd]. rewrite Hu. cbn [truthy_str negb].
  apply for_of_skip. intros pat Hp. rewrite Forall_forall in Hl.
  now rewrite (Hl pat Hp).
Qed.

Lemma Optimized_audio_sentinel p text st :
  audio_unset st -> Optimized_no_audio p text ->
  Optimized.extract_audio p text st
  = (inr tt, mkState (set_audioUsed (Some audio_not_detected) (reelData st))
                     (pushed st)).
Proof.
  intros Hu (H1 & H2 & H3). unfold Optimized.extract_audio, try_catch, bind.
  rewrite (@Optimized_link_silent p st H1).
  rewrite (@Optimized_pattern_silent text st Hu H2).
  rewrite (@Optimized_status_silent text st Hu H3).
  unfold read, when. cbn [fst snd]. rewrite Hu. reflexivity.
Qed.

Lemma Enhanced_selector_silent p sel st :
  answers p sel -> selected_text p sel 3 = None ->
  (audioElement <- await (querySelector p sel) ;;
   match audioElement with
   | Some el =>
       audio <- await (textContent el) ;;
       match audio with
       | Some au =>
           if negb (is_empty au) && negb (is_empty (trim au))
              && (3 <? List.length au)
           then assign (set_audioUsed (Some (trim au))) ;; break
           else continue
       | None => continue
       end
   | None => continue
   end) st = (inr false, st).
Proof.
  unfold answers, selected_text, bind, await.
  destruct (querySelector p sel) as [e|[el|]]; try contradiction; try reflexivity.
  destruct (textContent el) as [e|[au|]]; try contradiction; try reflexivity.
  intros _ H. destruct (_ && _); [discriminate | reflexivity].
Qed.

(** A lookup answers or throws. *)
Lemma answers_dec p sel : answers p sel \/ ~ answers p sel.
Proof.
  unfold answers. destruct (querySelector p sel) as [e|[el|]]; auto.
  destruct (textContent el); auto.
Qed.

(** The first lookup of a list that throws. *)
Lemma first_refusal p (l : list jstring) :
  Exists (fun sel => ~ answers p sel) l ->
  exists before sel after,
    l = before ++ sel :: after /\ Forall (answers p) before /\ ~ answers p sel.
Proof.
  induction l as [|a t IH]; intros H; [inversion H|].
  destruct (answers_dec p a) as [Ha|Ha].
  - assert (Ht : Exists (fun sel => ~ answers p sel) t).
    { inversion H; subst; [contradiction | assumption]. }
    destruct (IH Ht) as (before & sel & after & -> & Hb & Hs).
    exists (a :: before), sel, after.
    split; [reflexivity|]. split; [constructor; assumption | exact Hs].
  - exists [], a, t. split; [reflexivity|]. split; [constructor | exact Ha].
Qed.

Lemma Enhanced_selector_throws p sel st :
  ~ answers p sel ->
  exists e,
    (audioElement <- await (querySelector p sel) ;;
     match audioElement with
     | Some el =>
         audio <- await (textContent el) ;;
         match audio with
         | Some au =>
             if negb (is_empty au) && negb (is_empty (trim au))
                && (3 <? List.length au)
             then assign (set_audioUsed (Some (trim au))) ;; break
             else continue
         | None => continue
         end
     | None => continue
     end) st = (inl e, st).
Proof.
  unfold answers, bind, await.
  destruct (querySelector p sel) as [e|[el|]].
  - intros _. exists e. reflexivity.
  - destruct (textContent el) as [e|au].
    + intros _. exists e. reflexivity.
    + intros H. destruct (H I).
  - intros H. destruct (H I).
Qed.

(** The audio step of the first file when no strategy gives a text: the
    fallback when every lookup answers, the handler of the [try] block
    when one throws. *)
Lemma Enhanced_audio_sentinel p allText st :
  audio_unset st -> body_text p = inr allText -> Enhanced_no_audio p allText ->
  Forall (answers p) Enhanced.audioSelectors ->
  Enhanced.extract_audio p st
  = (inr tt, mkState (set_audioUsed (Some audio_not_detected) (reelData st))
                     (pushed st)).
Proof.
  intros Hu Ht (H1 & H2) Ha. rewrite Enhanced_audio_step, Hu. cbn [truthy_str].
  unfold try_catch, Enhanced_audio_attempt. unfold bind at 1. rewrite Ht.
  unfold await at 1. cbv beta iota.
  unfold bind at 1. rewrite for_of_skip.
  2:{ intros pat Hp. rewrite Forall_forall in H1. now rewrite (H1 pat Hp). }
  unfold bind at 1. unfold read at 1. cbn [fst snd]. rewrite Hu.
  cbn [truthy_str negb when].
  unfold bind at 1. rewrite for_of_skip.
  2:{ intros sel Hs. rewrite Forall_forall in H2, Ha.
      apply Enhanced_selector_silent; [exact (Ha sel Hs) | exact (H2 sel Hs)]. }
  unfold bind, read, when. cbn [fst snd]. rewrite Hu. reflexivity.
Qed.

Lemma Enhanced_audio_failed p allText st :
  audio_unset st -> body_text p = inr allText -> Enhanced_no_audio p allText ->
  Exists (fun sel => ~ answers p sel) Enhanced.audioSelectors ->
  Enhanced.extract_audio p st
  = (inr tt, mkState (set_audioUsed (Some audio_extraction_failed) (reelData st))
                     (pushed st)).
Proof.
  intros Hu Ht (H1 & H2) Hx.
  destruct (@first_refusal p _ Hx) as (before & sel & after & Hs & Hb & Hn).
  rewrite Enhanced_audio_step, Hu. cbn [truthy_str].
  unfold try_catch, Enhanced_audio_attempt. unfold bind at 1. rewrite Ht.
  unfold await at 1. cbv beta iota.
  unfold bind at 1. rewrite for_of_skip.
  2:{ intros pat Hp. rewrite Forall_forall in H1. now rewrite (H1 pat Hp). }
  unfold bind at 1. unfold read at 1. cbn [fst snd]. rewrite Hu.
  cbn [truthy_str negb when].
  rewrite Hs in H2 |- *.
  unfold bind at 1. rewrite for_of_app_skip.
  2:{ intros x Hin. rewrite Forall_forall in H2, Hb.
      apply Enhanced_selector_silent;
        [exact (Hb x Hin) | apply H2, in_or_app; left; exact Hin]. }
  cbn [for_of]. unfold bind at 1.
  destruct (@Enhanced_selector_throws p sel st Hn) as [e He]. rewrite He.
  reflexivity.
Qed.

(** In a browser a lookup of the audio step of the first file throws. *)
Lemma Enhanced_contains_refused p :
  refuses_contains p -> Exists (fun sel => ~ answers p sel) Enhanced.audioSelectors.
Proof.
  intros Hr. unfold Enhanced.audioSelectors.
  do 4 apply Exists_cons_tl. apply Exists_cons_hd.
  destruct (Hr (quoted ["span:contains("; "Original audio"; ")"]%string)
               ltac:(vm_compute; reflexivity)) as [e He].
  unfold answers. rewrite He. intros [].
Qed.

Lemma Optimized_username_keeps_audio_unset p :
  preserves audio_unset (Optimized.extract_username p).
Proof. preserves_with field_kept. Qed.

Lemma Optimized_metrics_keeps_audio_unset p text :
  preserves audio_unset (Optimized.extract_metrics p text).
Proof. preserves_with field_kept. Qed.

Lemma Optimized_caption_keeps_audio_is v p text :
  preserves (audio_is v) (Optimized.extract_caption p text).
Proof. preserves_with field_kept. Qed.

Lemma Enhanced_api_keeps_audio_unset p : preserves audio_unset (Enhanced.internal_api p).
Proof. preserves_with field_kept. Qed.

Lemma Enhanced_username_keeps_audio_unset p :
  preserves audio_unset (Enhanced.extract_username p).
Proof. preserves_with field_kept. Qed.

Lemma Enhanced_metrics_keeps_audio_is v p :
  preserves (audio_is v) (Enhanced.extract_metrics p).
Proof. preserves_with field_kept. Qed.

Lemma Enhanced_caption_keeps_audio_is v p :
  preserves (audio_is v) (Enhanced.extract_caption p).
Proof. preserves_with field_kept. Qed.

(** A step with a known outcome. *)
Lemma wp_known A (c : M A) Q E st a st' :
  c st = (inr a, st') -> Q a st' -> wp c Q E st.
Proof. intros Hc H. unfold wp. now rewrite Hc. Qed.

(** Steps that only wait or check keep every property of the record. *)
Lemma preserves_await_try (I : State -> Prop) (x y : Exc unit) :
  preserves I (try_catch (await x) (fun _ => await y)).
Proof. apply preserves_try_catch; [|intros]; apply preserves_await. Qed.

Lemma Optimized_extract_sentinel p text st :
  audio_unset st -> body_text p = inr text -> Optimized_no_audio p text ->
  wp (Optimized_extract p) (fun _ => audio_is audio_not_detected) (fun _ _ => True) st.
Proof.
  intros Hu Ht Hn. unfold Optimized_extract.
  eapply wp_bind_inv; [apply preserves_await | exact Hu | | auto]. intros [] st1 H1.
  eapply wp_bind_inv;
    [unfold Optimized.wait_for_content; apply preserves_await_try | exact H1 | | auto].
  intros [] st2 H2.
  eapply wp_bind_inv;
    [unfold Optimized.check_redirect; cbv zeta; apply preserves_when, preserves_throw
    | exact H2 | | auto].
  intros [] st3 H3.
  apply wp_bind, wp_await. rewrite Ht.
  eapply wp_bind_inv; [apply Optimized_username_keeps_audio_unset | exact H3 | | auto].
  intros [] st4 H4.
  eapply wp_bind_inv; [apply Optimized_metrics_keeps_audio_unset | exact H4 | | auto].
  intros [] st5 H5.
  apply wp_bind. eapply wp_known; [apply (@Optimized_audio_sentinel p text st5 H5 Hn)|].
  eapply wp_weaken;
    [apply (preserves_wp _ (@Optimized_caption_keeps_audio_is audio_not_detected p text))
    | |]; cbv beta; auto.
  reflexivity.
Qed.

(** The extraction of the first file, when its audio step has a known
    outcome on a record without audio. *)
Lemma Enhanced_extract_sentinel p (a : jstring) st :
  audio_unset st ->
  (forall st', audio_unset st' ->
     Enhanced.extract_audio p st'
     = (inr tt, mkState (set_audioUsed (Some a) (reelData st')) (pushed st'))) ->
  wp (Enhanced_extract p) (fun _ => audio_is a) (fun _ _ => True) st.
Proof.
  intros Hu Hn. unfold Enhanced_extract.
  eapply wp_bind_inv; [apply preserves_await | exact Hu | | auto]. intros [] st1 H1.
  eapply wp_bind_inv;
    [apply preserves_try_catch; [apply preserves_await | intros; apply preserves_ret]
    | exact H1 | | auto].
  intros [] st2 H2.
  eapply wp_bind_inv;
    [unfold Enhanced.check_redirect; cbv zeta; apply preserves_when, preserves_throw
    | exact H2 | | auto].
  intros [] st3 H3.
  eapply wp_bind_inv; [apply Enhanced_api_keeps_audio_unset | exact H3 | | auto].
  intros [] st4 H4.
  eapply wp_bind_inv; [apply Enhanced_username_keeps_audio_unset | exact H4 | | auto].
  intros [] st5 H5.
  apply wp_bind. eapply wp_known; [apply (Hn st5 H5)|].
  eapply wp_bind_inv;
    [apply (@Enhanced_metrics_keeps_audio_is a p) | reflexivity | | auto].
  intros [] st6 H6.
  eapply wp_weaken;
    [apply (preserves_wp _ (@Enhanced_caption_keeps_audio_is a p) H6)
    | |]; cbv beta; auto.
Qed.

(** ** The sentinels of the audio step *)

(** C2, as amended. In every record a handler of [part_000] pushes without
    [error], [audioUsed] holds a non-empty string. When no audio strategy
    gives a text, the second file writes "Audio not detected". The first
    file writes it only when every lookup of its selectors answers; when
    one throws it writes "Audio extraction failed", and that is what it
    writes in a browser, where the lookup of its [span:contains(...)]
    selectors throws. *)
Theorem audio_never_absent (v : version) (ctx : Context) (d : ReelData) :
  v <> Main ->
  In d (emitted (handler v) ctx) -> error d = None ->
  truthy_str (audioUsed d) = true /\
  (forall text, body_text (page ctx) = inr text -> no_audio v (page ctx) text ->
     match v with
     | First =>
         (Forall (answers (page ctx)) Enhanced.audioSelectors ->
          audioUsed d = Some audio_not_detected) /\
         (Exists (fun sel => ~ answers (page ctx) sel) Enhanced.audioSelectors ->
          audioUsed d = Some audio_extraction_failed) /\
         (refuses_contains (page ctx) ->
          audioUsed d = Some audio_extraction_failed)
     | _ => audioUsed d = Some audio_not_detected
     end).
Proof.
  intros Hv Hin Hd.
  destruct (@emitted_without_error v ctx d Hin Hd) as (st1 & Hr & ->).
  destruct v; [congruence | |]; cbn [extraction] in Hr; split.
  - exact (@wp_returned _ _ _ _ _ _ _ (Enhanced_extract_audio_present _ _) Hr).
  - intros text Ht Hn.
    assert (Hf : Exists (fun sel => ~ answers (page ctx) sel) Enhanced.audioSelectors ->
                 audioUsed (reelData st1) = Some audio_extraction_failed).
    { intros Hx.
      refine (@wp_returned _ _ (fun _ => audio_is audio_extraction_failed) _ _ _ _ _ Hr).
      apply Enhanced_extract_sentinel; [reflexivity|].
      intros st' Hu. exact (@Enhanced_audio_failed _ text st' Hu Ht Hn Hx). }
    split; [|split; [exact Hf|]].
    + intros Ha.
      refine (@wp_returned _ _ (fun _ => audio_is audio_not_detected) _ _ _ _ _ Hr).
      apply Enhanced_extract_sentinel; [reflexivity|].
      intros st' Hu. exact (@Enhanced_audio_sentinel _ text st' Hu Ht Hn Ha).
    + intros Hb. apply Hf, Enhanced_contains_refused, Hb.
  - exact (@wp_returned _ _ _ _ _ _ _ (Optimized_extract_audio_present _ _) Hr).
  - intros text Ht Hn.
    refine (@wp_returned _ _ (fun _ => audio_is audio_not_detected) _ _ _ _ _ Hr).
    apply Optimized_extract_sentinel with (text := text); [reflexivity | exact Ht | exact Hn].
Qed.

(** C2 fails on [main.ts]: on a page with no audio element the record is
    pushed without [error] and without [audioUsed]. *)
Lemma main_ts_leaves_audio_absent :
  map (fun d => (error d, audioUsed d))
      (emitted MainTs.requestHandler (bare (lit "a reel with no audio")))
  = [(None, None)].
Proof. vm_compute. reflexivity. Qed.

Lemma try_catch_no_throw A (c : M A) (h : exn -> M A) st :
  no_throw c -> try_catch c h st = c st.
Proof.
  intros H. unfold try_catch. destruct (H st) as [a Ha].
  destruct (c st) as [[e|a'] st']; [discriminate | reflexivity].
Qed.

(** C10, as amended. In the first file of [part_000], when the [try] block
    of the audio step throws, the step returns and [audioUsed] is "Audio
    extraction failed". In the second file the block never throws (the
    lookup that can throw has a handler of its own, after which the other
    strategies run), so the step is its [try] block and the handler that
    writes "Audio extraction failed" is never entered. *)
Theorem audio_exception_is_contained (p : Page) (st st1 : State) (e : exn) :
  truthy_str (audioUsed (reelData st)) = false ->
  Enhanced_audio_attempt p st = (inl e, st1) ->
  Enhanced.extract_audio p st
  = (inr tt, mkState (set_audioUsed (Some audio_extraction_failed) (reelData st1))
                     (pushed st1)) /\
  (forall text st2,
     Optimized.extract_audio p text st2 = Optimized_audio_attempt p text st2 /\
     exists st3, Optimized_audio_attempt p text st2 = (inr tt, st3)).
Proof.
  intros Hu Ht. split.
  - rewrite Enhanced_audio_step, Hu. unfold try_catch. rewrite Ht. reflexivity.
  - intros text st2. rewrite Optimized_audio_step.
    pose proof (Optimized_audio_attempt_returns p text) as N. split.
    + apply try_catch_no_throw, N.
    + destruct (N st2) as [[] H].
      destruct (Optimized_audio_attempt p text st2) as [r st3]. simpl in H.
      subst r. eauto.
Qed.

(** C10 fails on the second file: the audio-link lookup throws inside the
    audio step, and the record is pushed without [error], with the sentinel
    of a step in which nothing matched. *)
Lemma second_file_swallows_audio_exception :
  querySelector (failing_lookup Optimized.audioLink (lit "a reel")) Optimized.audioLink
  = inl (JsError (lit "lookup failed")) /\
  map (fun d => (error d, audioUsed d))
      (emitted Optimized.requestHandler
         (mkContext reel_url (failing_lookup Optimized.audioLink (lit "a reel"))
                    accepting))
  = [(None, Some audio_not_detected)].
Proof. split; vm_compute; reflexivity. Qed.


Lemma audio_never_absent_witness :
  (In silent_record (emitted (handler Second) silent) /\
   error silent_record = None /\
   no_audio Second (page silent) silent_text /\
   truthy_str (audioUsed silent_record) = true /\
   audioUsed silent_record = Some audio_not_detected) /\
  (In browsed_record (emitted (handler First) browsed) /\
   error browsed_record = None /\
   no_audio First (page browsed) silent_text /\
   refuses_contains (page browsed) /\
   truthy_str (audioUsed browsed_record) = true /\
   audioUsed browsed_record = Some audio_extraction_failed).
Proof.
  split.
  - assert (Hin : In silent_record (emitted (handler Second) silent))
      by (left; vm_compute; reflexivity).
    assert (Hd : error silent_record = None) by (vm_compute; reflexivity).
    assert (Hn : no_audio Second (page silent) silent_text).
    { split; [vm_compute; reflexivity|]. split; [vm_compute; exact I|].
      unfold Optimized.audioPatterns.
      repeat (apply Forall_cons; [vm_compute; reflexivity|]). apply Forall_nil. }
    destruct (@audio_never_absent Second silent silent_record
                ltac:(discriminate) Hin Hd) as [H1 H2].
    split; [exact Hin|]. split; [exact Hd|]. split; [exact Hn|]. split; [exact H1|].
    apply (H2 silent_text); [vm_compute; reflexivity | exact Hn].
  - assert (Hin : In browsed_record (emitted (handler First) browsed))
      by (left; vm_compute; reflexivity).
    assert (Hd : error browsed_record = None) by (vm_compute; reflexivity).
    assert (Hn : no_audio First (page browsed) silent_text).
    { split.
      - unfold Enhanced.audioPatterns.
        repeat (apply Forall_cons; [vm_compute; reflexivity|]). apply Forall_nil.
      - unfold Enhanced.audioSelectors.
        repeat (apply Forall_cons; [vm_compute; reflexivity|]). apply Forall_nil. }
    assert (Hb : refuses_contains (page browsed)).
    { intros sel Hs. exists (JsError (lit "not a valid selector")).
      unfold querySelector, browsed, browser_page. cbn [page querySelectorAll].
      rewrite Hs. reflexivity. }
    destruct (@audio_never_absent First browsed browsed_record
                ltac:(discriminate) Hin Hd) as [H1 H2].
    split; [exact Hin|]. split; [exact Hd|]. split; [exact Hn|]. split; [exact Hb|].
    split; [exact H1|].
    exact (proj2 (proj2 (H2 silent_text ltac:(vm_compute; reflexivity) Hn)) Hb).
Defined.


Lemma audio_exception_is_contained_witness :
  truthy_str (audioUsed (reelData fresh)) = false /\
  Enhanced_audio_attempt unreadable_page fresh
  = (inl (JsError (lit "evaluation failed")), fresh) /\
  Enhanced.extract_audio unreadable_page fresh
  = (inr tt, mkState (set_audioUsed (Some audio_extraction_failed) (reelData fresh))
                     (pushed fresh)).
Proof.
  assert (Hu : truthy_str (audioUsed (reelData fresh)) = false) by reflexivity.
  assert (Ht : Enhanced_audio_attempt unreadable_page fresh
               = (inl (JsError (lit "evaluation failed")), fresh))
    by (vm_compute; reflexivity).
  split; [exact Hu|]. split; [exact Ht|].
  exact (proj1 (@audio_exception_is_contained unreadable_page fresh fresh _ Hu Ht)).
Defined.

(* ===================================================================== *)
(** * The metrics of a record are counts *)
(* ===================================================================== *)

Lemma preserves_bind_await (I : State -> Prop) A B (x : Exc A) (f : A -> M B) :
  (forall a, x = inr a -> preserves I (f a)) -> preserves I (bind (await x) f).
Proof.
  intros Hf st H. unfold bind, await. destruct x as [e|a]; [exact H|].
  apply (Hf a eq_refl), H.
Qed.

(** [preserves] through a handler step, keeping at every branch the
    equation that chose it. *)
Ltac preserves_eqn tac :=
  autounfold with steps; cbv zeta;
  repeat first
    [ apply preserves_ret
    | apply preserves_throw
    | apply preserves_await
    | apply preserves_read
    | apply preserves_when
    | apply preserves_bind_await; intros ? ?
    | apply preserves_bind; [| intro]
    | apply preserves_try_catch; [| intro]
    | apply preserves_for_of; intro
    | apply preserves_assign; tac
    | match goal with
      | |- preserves _ (match ?x with _ => _ end) => destruct x eqn:?
      end ].

Lemma count_in_counted t n : Normalizer.count_in t = Some n -> counted n.
Proof.
  unfold Normalizer.count_in. destruct (exec Normalizer.count_re t); [|discriminate].
  intros [= <-]. apply parseMetric_count.
Qed.

Lemma large_count_in_counted t n : Optimized.large_count_in t = Some n -> counted n.
Proof.
  unfold Optimized.large_count_in.
  destruct (exec (Grp 1 Optimized.large_count) t); [|discriminate].
  intros [= <-]. apply parseMetric_count.
Qed.

Lemma count_of_first_counted pat t n :
  Optimized.count_of_first pat t = Some n -> counted n.
Proof.
  unfold Optimized.count_of_first. destruct (match0 pat t) as [[|x m]|]; try discriminate.
  apply count_in_counted.
Qed.

(** *** The counts of [main.ts] *)

Lemma preserves_bind_group (I : State -> Prop) i m B (f : jstring -> M B) :
  (forall g, group i m = Some g -> preserves I (f g)) ->
  preserves I (bind (group_arg i m) f).
Proof.
  intros Hf st H. unfold bind, group_arg.
  destruct (group i m) as [g|] eqn:E; [|exact H]. apply (Hf g eq_refl), H.
Qed.

(** A numeral that starts with a digit is read as a non-negative number. *)
Lemma parseFloat_digit d t : is_digit d = true -> non_negative (parseFloat (d :: t)).
Proof.
  intros Hd. unfold parseFloat. cbn [trimStart].
  rewrite (digit_not_space d Hd). unfold take_sign.
  rewrite (digit_not (x:=45) d Hd), (digit_not (x:=43) d Hd) by lia.
  change (starts_with (lit "Infinity") (d :: t))
    with ((73 =? d)%N && starts_with (lit "nfinity") t).
  rewrite N.eqb_sym, (digit_not (x:=73) d Hd) by lia. cbn [andb].
  cbn [span_digits]. rewrite Hd.
  destruct (span_digits t) as [ip s1].
  destruct (match s1 with
            | c :: t0 => if (c =? c_dot)%N then span_digits t0 else ([], s1)
            | [] => ([], s1)
            end) as [fp s2].
  cbn [app]. apply of_decimal_non_negative.
Qed.

Lemma MainTs_parseMetric_counted d t :
  is_digit d = true -> counted (MainTs.parseMetric (d :: t)).
Proof.
  intros Hd. unfold MainTs.parseMetric. cbv zeta.
  assert (Hc : toUpperCase (remove_all (N.eqb c_comma) (d :: t))
               = d :: toUpperCase (remove_all (N.eqb c_comma) t)).
  { unfold remove_all. cbn [filter].
    rewrite N.eqb_sym, (digit_not (x:=c_comma) d Hd) by (unfold c_comma; lia).
    cbn [negb]. unfold toUpperCase. cbn [map]. now rewrite (digit_upper d Hd). }
  rewrite Hc.
  pose proof (@parseFloat_digit d (toUpperCase (remove_all (N.eqb c_comma) t)) Hd) as Hx.
  set (x := parseFloat _) in *.
  rewrite of_N_thousand, of_N_million.
  repeat match goal with
         | |- context [if ?b then _ else _] => destruct b
         end;
    apply Math_round_count; try apply mul_non_negative; exact Hx.
Qed.

(** The count pattern of [main.ts] starts with a digit. *)
Lemma MainTs_count_digit g post :
  matches MainTs.count_re (g ++ post) post ->
  exists d t, g = d :: t /\ is_digit d = true.
Proof.
  intros M. unfold MainTs.count_re in M.
  apply matches_cat_inv in M. destruct M as (s1 & M1 & M2).
  unfold Quant in M1. cbn [Nat.sub Rep] in M1.
  apply matches_cat_inv in M1. destruct M1 as (s0 & Md & M1).
  apply matches_sym_inv in Md. destruct Md as (d & Hs & Hd).
  pose proof (matches_length M1) as L1. pose proof (matches_length M2) as L2.
  destruct g as [|d' t].
  - exfalso. cbn [app] in Hs. subst post. simpl in *. lia.
  - cbn [app] in Hs. injection Hs as -> _. eauto.
Qed.

Lemma MainTs_metric_counted re t m g :
  In re [MainTs.likes_re; MainTs.views_re; MainTs.comments_re] ->
  exec_opt re t = Some m -> group 1 m = Some g ->
  counted (MainTs.parseMetric g).
Proof.
  intros Hre He Hg. destruct t as [text|]; [|discriminate]. cbn [exec_opt] in He.
  assert (H : exists g' s1, matches MainTs.count_re (g' ++ s1) s1 /\
                            group 1 m = Some g').
  { destruct Hre as [<-|[<-|[<-|[]]]];
      eapply exec_from_leading; try exact He; reflexivity. }
  destruct H as (g' & s1 & M & Hg'). rewrite Hg in Hg'. injection Hg' as <-.
  destruct (@MainTs_count_digit _ _ M) as (d & t & -> & Hd).
  apply MainTs_parseMetric_counted, Hd.
Qed.

Ltac metric_kept :=
  intros ? ? (? & ? & ?);
  try match goal with
      | Hm : media_ok ?p, H : shared_media ?p = inr (Some ?m) |- _ =>
          destruct (Hm m H) as (? & ? & ?)
      end;
  unfold metrics_ok; cbn [reelData likes views comments set_likes set_views
    set_comments set_username set_audioUsed set_title set_description set_error
    metric_ok];
  repeat split; try assumption;
  first [ eapply count_in_counted; eassumption
        | eapply large_count_in_counted; eassumption
        | eapply count_of_first_counted; eassumption
        | eapply MainTs_metric_counted; [ | eassumption | eassumption];
          simpl; tauto ].

Lemma MainTs_extract_counts p :
  preserves (fun st => metrics_ok (reelData st)) (MainTs_extract p).
Proof.
  unfold MainTs_extract, MainTs.extract_username, MainTs.extract_audio,
    MainTs.extract_metrics, MainTs.extract_caption, break, continue.
  repeat first
    [ apply preserves_ret
    | apply preserves_throw
    | apply preserves_await
    | apply preserves_read
    | apply preserves_when
    | apply preserves_bind_group; intros ? ?
    | apply preserves_bind_await; intros ? ?
    | apply preserves_bind; [| intro]
    | apply preserves_try_catch; [| intro]
    | apply preserves_for_of; intro
    | apply preserves_assign; metric_kept
    | match goal with
      | |- preserves _ (match ?x with _ => _ end) => destruct x eqn:?
      end ].
Qed.

Lemma Enhanced_extract_counts p :
  media_ok p -> preserves (fun st => metrics_ok (reelData st)) (Enhanced_extract p).
Proof. intros Hm. unfold Enhanced_extract. preserves_eqn metric_kept. Qed.

Lemma Optimized_extract_counts p :
  preserves (fun st => metrics_ok (reelData st)) (Optimized_extract p).
Proof. unfold Optimized_extract. preserves_eqn metric_kept. Qed.

(** Every record [finish] pushes is the record the extraction left, with or
    without [error]. *)
Lemma finish_pushed (I : ReelData -> Prop) ctx extract u d :
  preserves nothing_pushed extract ->
  I (reelData (snd (extract (mkState (new_reelData u) [])))) ->
  (forall e r, I r -> I (set_error e r)) ->
  In d (pushed (snd (run_handler (finish ctx extract) u))) -> I d.
Proof.
  intros Hp I1 He Hin. unfold run_handler in Hin.
  set (st0 := mkState (new_reelData u) []) in *.
  pose proof (Hp st0 eq_refl) as P1.
  destruct (extract st0) as [[e|[]] st1] eqn:E; simpl in P1, I1.
  - rewrite (finish_thrown ctx _ _ E) in Hin. cbn in Hin. rewrite P1 in Hin.
    destruct Hin as [<-|[]]. apply He, I1.
  - destruct (pushData_outcome ctx (reelData st1)) as [e|[]] eqn:A.
    + rewrite (finish_rejected ctx _ _ E A) in Hin. cbn in Hin. rewrite P1 in Hin.
      destruct Hin as [<-|[<-|[]]]; [exact I1 | apply He, I1].
    + rewrite (finish_returned ctx _ _ E A) in Hin. cbn in Hin. rewrite P1 in Hin.
      destruct Hin as [<-|[]]. exact I1.
Qed.

(** The same for the handler of each version. *)
Lemma handler_pushed (I : ReelData -> Prop) v ctx d :
  I (reelData (snd (extraction v (page ctx)
                      (mkState (new_reelData (request_url ctx)) [])))) ->
  (forall e r, I r -> I (set_error e r)) ->
  In d (emitted (handler v) ctx) -> I d.
Proof.
  intros I1 He Hin. unfold emitted, run_handler in Hin.
  rewrite handler_shape in Hin.
  exact (@finish_pushed I ctx _ (request_url ctx) d
           (extraction_pushes_nothing v (page ctx)) I1 He Hin).
Qed.

(** C8, as amended. In every record a handler pushes, in each of the
    three versions, each of [likes], [views] and [comments], when present,
    is a non-negative integer or [+Infinity] (the value of a numeral too
    large for a number), provided, in the first file of [part_000], that
    the counts of the data embedded in the page are such: these are copied
    as they come. *)
Theorem metrics_are_counts (v : version) (ctx : Context) (d : ReelData) :
  (v = First -> media_ok (page ctx)) ->
  In d (emitted (handler v) ctx) -> metrics_ok d.
Proof.
  intros Hm. apply handler_pushed; [|intros e r H; exact H].
  assert (H0 : metrics_ok (new_reelData (request_url ctx))) by (repeat split).
  destruct v; cbn [extraction].
  - exact (@MainTs_extract_counts (page ctx) (mkState _ _) H0).
  - exact (@Enhanced_extract_counts (page ctx) (Hm eq_refl) (mkState _ _) H0).
  - exact (@Optimized_extract_counts (page ctx) (mkState _ _) H0).
Qed.

(** C8 fails on the first file: the counts of the embedded data are copied
    unchecked, here a negative one and a fraction; and a numeral beyond the
    range of a number goes through the normalizer to [+Infinity], which is
    no integer. *)
Lemma embedded_counts_are_copied :
  map (fun d => (error d, likes d, views d))
      (emitted Enhanced.requestHandler
         (mkContext reel_url (page_with_media odd_media) accepting))
  = [(None, Some (of_decimal true 5 0), Some (of_decimal false 5 (-1)))] /\
  to_Z (of_decimal true 5 0) = Some (-5)%Z /\
  to_Z (of_decimal false 5 (-1)) = None /\
  map (fun d => (error d, likes d))
      (emitted Optimized.requestHandler (bare (huge_count ++ lit " likes")))
  = [(None, Some (S754_infinity false))].
Proof. repeat split; vm_compute; reflexivity. Qed.

Lemma metrics_are_counts_witness :
  media_ok (page (bare (lit "1.2K likes 3,400 views"))) /\
  map (fun d => (option_map to_Z (likes d), option_map to_Z (views d), comments d))
      (emitted (handler First) (bare (lit "1.2K likes 3,400 views")))
  = [(Some (Some 1200%Z), Some (Some 3400%Z), None)] /\
  Forall metrics_ok (emitted (handler First) (bare (lit "1.2K likes 3,400 views"))).
Proof.
  assert (Hm : media_ok (page (bare (lit "1.2K likes 3,400 views"))))
    by (intros m H; discriminate H).
  split; [exact Hm|]. split; [vm_compute; reflexivity|].
  apply Forall_forall. intros d Hd.
  exact (@metrics_are_counts First _ d (fun _ => Hm) Hd).
Defined.

(* ===================================================================== *)
(** * Caption and title *)
(* ===================================================================== *)

Ltac wp_go := repeat (cbv beta iota zeta; wp_step).

(** The caption step of [main.ts], from a record without caption. *)
Lemma MainTs_caption_step p st :
  captionless st ->
  wp (MainTs.extract_caption p)
     (fun _ st' => MainTs_caption p (reelData st')) (fun _ _ => False) st.
Proof.
  intros HJ. unfold MainTs.extract_caption.
  apply wp_try_catch.
  apply wp_for_of with (J := captionless);
    [ | intros st0 H0; left; exact H0 | exact HJ].
  intros sel st0 Hsel [Hd0 Ht0].
  wp_go; try (left; split; assumption); try (split; assumption);
    match goal with
    | H : _ && (10 <? List.length ?c) = true |- _ =>
        apply andb_prop in H; destruct H as [_ H]; apply Nat.ltb_lt in H;
        right; exists sel, e, c
    end;
    repeat (split; [first [assumption | reflexivity]|]);
    cbn [reelData title set_title set_description]; unfold title_of;
    match goal with H : (_ <=? 100) = _ |- _ => rewrite H end;
    [reflexivity | exact Ht0].
Qed.


Ltac caption_kept :=
  intros ? ? ?;
  unfold captionless, uncaptioned, Enhanced_caption, MainTs_caption in *;
  simpl in *; assumption.

Lemma MainTs_extract_caption_rule p st :
  captionless st -> MainTs_caption p (reelData (snd (MainTs_extract p st))).
Proof.
  intros HJ.
  apply (@wp_state _ (MainTs_extract p) (fun st' => MainTs_caption p (reelData st'))).
  unfold MainTs_extract.
  assert (HE : forall (e : exn) st', captionless st' -> MainTs_caption p (reelData st'))
    by (intros e st' H; left; exact H).
  eapply wp_bind_inv; [ | exact HJ | | exact HE].
  { apply preserves_try_catch; [apply preserves_await | intros; apply preserves_ret]. }
  intros [] st1 H1.
  eapply wp_bind_inv; [apply preserves_await | exact H1 | | exact HE]. intros [] st2 H2.
  eapply wp_bind_inv; [ | exact H2 | | exact HE].
  { preserves_with caption_kept. }
  intros [] st3 H3.
  eapply wp_bind_inv; [ | exact H3 | | exact HE].
  { preserves_with caption_kept. }
  intros [] st4 H4.
  eapply wp_bind_inv; [ | exact H4 | | exact HE].
  { preserves_with caption_kept. }
  intros [] st5 H5.
  eapply wp_weaken; [apply MainTs_caption_step, H5 | auto | intros e st' []].
Qed.

(** The embedded data of the first file, from a record without caption. *)
Lemma Enhanced_api_step p st :
  captionless st ->
  wp (Enhanced.internal_api p)
     (fun _ st' => Enhanced_caption p (reelData st')) (fun _ _ => False) st.
Proof.
  intros [Hd Ht]. unfold Enhanced.internal_api. wp_go;
    unfold Enhanced_caption;
    cbn [reelData pushed description title set_username set_likes set_views
         set_comments set_description set_title] in *;
    first
      [ left; split;
        [ first [ rewrite Hd
                | match goal with H : caption_text _ = _ |- _ => rewrite H end ];
          reflexivity
        | exact Ht ]
      | right; left; eexists _, _;
        split; [eassumption|]; split; [eassumption|]; split; [discriminate|];
        split; [eassumption|];
        unfold title_of;
        match goal with H : (_ <=? 100) = _ |- _ => rewrite H end;
        first [reflexivity | exact Ht] ].
Qed.

(** A record with a caption has a description. *)
Lemma Enhanced_caption_falsy p st :
  Enhanced_caption p (reelData st) ->
  truthy_str (description (reelData st)) = false -> uncaptioned st.
Proof.
  intros [H|[H|H]] Hf; [exact H | exfalso | exfalso].
  - destruct H as (m & c & _ & _ & Hc & Hd & _). rewrite Hd in Hf.
    destruct c; [congruence | discriminate].
  - destruct H as (sel & els & el & c & _ & _ & _ & _ & Hl & Hd & _).
    rewrite Hd in Hf. destruct (trim c); [simpl in Hl; lia | discriminate].
Qed.

(** The caption step of the first file. *)
Lemma Enhanced_caption_step p st :
  Enhanced_caption p (reelData st) ->
  wp (Enhanced.extract_caption p)
     (fun _ st' => Enhanced_caption p (reelData st')) (fun _ _ => False) st.
Proof.
  intros HI. unfold Enhanced.extract_caption.
  apply wp_bind, wp_read, wp_when.
  destruct (truthy_str (description (reelData st))) eqn:Etr; cbn [negb]; [exact HI|].
  pose proof (@Enhanced_caption_falsy p st HI Etr) as HJ.
  apply wp_try_catch.
  apply wp_for_of with (J := uncaptioned);
    [ | intros st0 H0; left; exact H0 | exact HJ].
  intros sel st0 Hsel HJ0.
  apply wp_bind, wp_await.
  destruct (querySelectorAll p sel) as [e|els] eqn:Eq.
  { apply wp_ret. left. exact HJ0. }
  apply wp_bind.
  apply wp_for_of with (J := uncaptioned); [ | | exact HJ0].
  - intros el st1 Hel [Hd1 Ht1]. wp_go; try (left; split; assumption);
      try (split; assumption);
      match goal with
      | H : (10 <? List.length (trim ?c)) && _ && _ = true |- _ =>
          apply andb_prop in H; destruct H as [H _];
          apply andb_prop in H; destruct H as [H _]; apply Nat.ltb_lt in H;
          assert (Hc : truthy_str (Some (trim c)) = true)
            by (destruct (trim c); [simpl in H; lia | reflexivity])
      end;
      cbn [reelData pushed description title set_description set_title] in *;
      try congruence;
      right; right; exists sel, els, el;
      match goal with
      | H : textContent el = inr (Some ?c) |- _ => exists c
      end;
      (split; [exact Hsel|]); (split; [exact Eq|]); (split; [exact Hel|]);
      (split; [assumption|]); (split; [assumption|]); (split; [reflexivity|]);
      unfold title_of; cbv zeta;
      match goal with H : (_ <=? 100) && _ = _ |- _ => rewrite H end;
      first [reflexivity | exact Ht1].
  - intros st1 [Hd1 Ht1]. wp_go; [congruence | split; assumption].
Qed.

Lemma Enhanced_extract_caption_rule p st :
  captionless st -> Enhanced_caption p (reelData (snd (Enhanced_extract p st))).
Proof.
  intros HJ.
  apply (@wp_state _ (Enhanced_extract p) (fun st' => Enhanced_caption p (reelData st'))).
  unfold Enhanced_extract.
  assert (HE : forall (e : exn) st', captionless st' -> Enhanced_caption p (reelData st')).
  { intros e st' [Hd Ht]. left. split; [rewrite Hd; reflexivity | exact Ht]. }
  set (I := fun st' => Enhanced_caption p (reelData st')).
  eapply wp_bind_inv; [apply preserves_await | exact HJ | | exact HE].
  intros [] st1 H1.
  eapply wp_bind_inv; [ | exact H1 | | exact HE].
  { apply preserves_try_catch; [apply preserves_await | intros; apply preserves_ret]. }
  intros [] st2 H2.
  eapply wp_bind_inv; [ | exact H2 | | exact HE].
  { preserves_with caption_kept. }
  intros [] st3 H3.
  apply wp_bind.
  eapply wp_weaken; [apply Enhanced_api_step, H3 | | intros e st' []].
  intros [] st4 H4. cbv beta.
  eapply wp_bind_inv with (I := I); [ | exact H4 | | auto].
  { preserves_with caption_kept. }
  intros [] st5 H5.
  eapply wp_bind_inv with (I := I); [ | exact H5 | | auto].
  { preserves_with caption_kept. }
  intros [] st6 H6.
  eapply wp_bind_inv with (I := I); [ | exact H6 | | auto].
  { preserves_with caption_kept. }
  intros [] st7 H7.
  eapply wp_weaken; [apply Enhanced_caption_step, H7 | auto | intros e st' []].
Qed.

(** In the second file the title is the description, whichever strategy
    found the caption. *)
Lemma preserves_assign2 (I : State -> Prop) (f g : ReelData -> ReelData) :
  (forall d ps, I (mkState d ps) -> I (mkState (g (f d)) ps)) ->
  preserves I (assign f ;; assign g).
Proof. intros H [d ps] Hd. apply H, Hd. Qed.

Lemma preserves_assign2_then (I : State -> Prop) A (f g : ReelData -> ReelData)
  (c : M A) :
  (forall d ps, I (mkState d ps) -> I (mkState (g (f d)) ps)) ->
  preserves I c ->
  preserves I (assign f ;; assign g ;; c).
Proof. intros H Hc [d ps] Hd. apply Hc. apply H, Hd. Qed.

Ltac preserves_pairs tac :=
  autounfold with steps; cbv zeta;
  repeat first
    [ apply preserves_ret
    | apply preserves_throw
    | apply preserves_await
    | apply preserves_read
    | apply preserves_when
    | apply preserves_assign2; tac
    | apply preserves_assign2_then; [tac|]
    | apply preserves_bind; [| intro]
    | apply preserves_try_catch; [| intro]
    | apply preserves_for_of; intro
    | apply preserves_assign; tac
    | match goal with
      | |- preserves _ (match ?x with _ => _ end) => destruct x
      end ].

Lemma Optimized_title_is_description p :
  preserves (fun st => title (reelData st) = description (reelData st))
            (Optimized_extract p).
Proof.
  unfold Optimized_extract.
  preserves_pairs ltac:(intros ? ? ?; simpl in *; first [assumption | reflexivity]).
Qed.

(** C3, as amended. Every record a handler pushes obeys the title rule of
    its version. In [main.ts] the title is the first line, trimmed, of the
    text accepted as caption if and only if that line is at most 100 long,
    with no lower bound. In the first file of [part_000] the same holds of
    a caption of the embedded data, and a caption from a selector gives a
    title if and only if its first line is at most 100 and more than 3
    long; in both, the description is the whole caption. In the second
    file the title is the whole description, whatever its length. *)
Theorem title_follows_caption (v : version) (ctx : Context) (d : ReelData) :
  In d (emitted (handler v) ctx) -> caption_rule v (page ctx) d.
Proof.
  apply handler_pushed.
  - destruct v; cbn [extraction caption_rule].
    + apply MainTs_extract_caption_rule. split; reflexivity.
    + apply Enhanced_extract_caption_rule. split; reflexivity.
    + apply (@Optimized_title_is_description (page ctx)). reflexivity.
  - intros e r H. destruct v; exact H.
Qed.

(** C3 fails on the second file, in its H1 strategy as in the others: the
    title is the whole caption, both lines of it, and a first line of 120
    is no obstacle. It fails on [main.ts] for the lower bound: a first line
    of 2 becomes the title. *)
Lemma second_file_title_is_whole_caption :
  map (fun d => (error d, title d, description d))
      (emitted Optimized.requestHandler (showing Optimized.h1Caption two_lines))
  = [(None, Some two_lines, Some two_lines)] /\
  map (fun d => (error d, title d))
      (emitted Optimized.requestHandler (showing Optimized.h1Caption long_caption))
  = [(None, Some long_caption)] /\
  List.length (first_line long_caption) = 120%nat /\
  map (fun d => (error d, title d))
      (emitted MainTs.requestHandler (showing (lit "h1") short_caption))
  = [(None, Some (lit "Hi"))].
Proof. repeat split; vm_compute; reflexivity. Qed.


Lemma title_follows_caption_witness :
  In two_lines_record (emitted (handler Main) (showing (lit "h1") two_lines)) /\
  title two_lines_record = Some (lit "Hello world") /\
  description two_lines_record = Some two_lines /\
  map (fun d => (title d, description d))
      (emitted (handler First)
         (showing (lit "article span") long_caption))
  = [(None, Some long_caption)] /\
  caption_rule Main (page (showing (lit "h1") two_lines)) two_lines_record.
Proof.
  assert (Hin : In two_lines_record
                   (emitted (handler Main) (showing (lit "h1") two_lines)))
    by (left; vm_compute; reflexivity).
  split; [exact Hin|]. split; [vm_compute; reflexivity|].
  split; [vm_compute; reflexivity|]. split; [vm_compute; reflexivity|].
  exact (@title_follows_caption Main _ two_lines_record Hin).
Defined.

(* ===================================================================== *)
(** * Username *)
(* ===================================================================== *)












(** *** First file of [part_000] *)









(* ===================================================================== *)
(** * Partial success: likes without views and comments *)
(* ===================================================================== *)

(** A step that returns and keeps an invariant. *)
Lemma wp_total A (c : M A) (I : State -> Prop) st :
  no_throw c -> preserves I c -> I st ->
  wp c (fun _ => I) (fun _ _ => False) st.
Proof.
  intros Hn Hp HI. unfold wp. specialize (Hp st HI). destruct (Hn st) as [a Ha].
  destruct (c st) as [[e|a'] st']; [discriminate | exact Hp].
Qed.

Lemma wp_bind_total A B (c : M A) (f : A -> M B) (I : State -> Prop) Q E st :
  no_throw c -> preserves I c -> I st ->
  (forall a st', I st' -> wp (f a) Q E st') ->
  wp (bind c f) Q E st.
Proof.
  intros Hn Hp HI Hf. apply wp_bind.
  eapply wp_weaken; [apply (@wp_total _ c I st Hn Hp HI) | | intros e st0 []].
  cbv beta. auto.
Qed.

Lemma likes_alone_intro v n d :
  likes d = Some n -> views d = None -> comments d = None -> likes_alone v n d.
Proof.
  intros H1 H2 H3. split; [intros _; exact H1|].
  split; [congruence|]. split; assumption.
Qed.

(** A pattern that gives a count makes the scan give one. *)
Lemma first_count_found (pats : list pattern) (count : pattern -> option number) :
  (exists pat, In pat pats /\ count pat <> None) ->
  exists n, first_count pats count = Some n.
Proof.
  induction pats as [|a l IH]; intros (pat & Hin & Hp); [destruct Hin|].
  cbn [first_count]. destruct (count a) as [n|] eqn:Ea; [eauto|].
  destruct Hin as [->|Hin]; [congruence|]. apply IH. eauto.
Qed.

Ltac returns :=
  autounfold with steps;
  first [ apply no_throw_try_catch; intros; first [apply no_throw_ret | apply no_throw_assign] ].

(** ** [main.ts] *)

Lemma MainTs_likes_binds : binds 1 MainTs.likes_re.
Proof. apply B_cat_l, B_grp. Qed.

(** The metrics step of [main.ts] on a text with a likes pattern only. *)
Lemma MainTs_metrics_step p text n st :
  body_textContent p = inr (Some text) ->
  text_likes Main text = Some n -> exec MainTs.views_re text = None ->
  MainTs_no_comments p ->
  views (reelData st) = None -> comments (reelData st) = None ->
  wp (MainTs.extract_metrics p)
     (fun _ st' => likes_alone Main n (reelData st')) (fun _ _ => False) st.
Proof.
  intros Ht Hl Hv Hc Hv0 Hc0. unfold MainTs.extract_metrics.
  cbn [text_likes] in Hl.
  destruct (exec MainTs.likes_re text) as [m|] eqn:El; [|discriminate].
  destruct (@exec_binds _ _ _ _ MainTs_likes_binds El) as [g Hg].
  cbn [group_or_empty] in Hl. rewrite Hg in Hl. injection Hl as <-.
  apply wp_try_catch, wp_bind, wp_await. rewrite Ht.
  cbn [exec_opt]. rewrite El, Hv. unfold group_arg. rewrite Hg.
  assert (HL : forall ps, likes_alone Main (MainTs.parseMetric g)
            (reelData (mkState (set_likes (Some (MainTs.parseMetric g)) (reelData st)) ps))).
  { intros ps. apply likes_alone_intro; [reflexivity | assumption | assumption]. }
  wp_go; [apply HL|].
  apply wp_for_of with (J := fun st' => likes_alone Main (MainTs.parseMetric g) (reelData st'));
    [ | auto | apply HL].
  intros el st1 Hel H1. wp_go; try exact H1.
  all: exfalso.
  all: match goal with
       | Hq : querySelectorAll _ _ = inr ?els, Ht : textContent ?x = inr ?t |- _ =>
           pose proof (Hc els x t Hq Hel Ht) as Hno
       end; congruence.
Qed.

Ltac unviewed_kept :=
  intros ? ? ?; unfold unviewed, likes_alone in *; simpl in *; assumption.

Lemma MainTs_extract_likes_only p text n st :
  loads Main p -> shows Main p text ->
  text_likes Main text = Some n -> no_views_pattern Main text ->
  no_comments_pattern Main p text ->
  unviewed st ->
  wp (MainTs_extract p) (fun _ st' => likes_alone Main n (reelData st'))
     (fun _ _ => False) st.
Proof.
  cbn [loads shows no_views_pattern no_comments_pattern].
  intros Hload Ht Hl Hv Hc H0. unfold MainTs_extract.
  eapply wp_bind_total with (I := unviewed); [ | | exact H0 | ].
  { apply no_throw_try_catch. intros e. apply no_throw_ret. }
  { apply preserves_try_catch; [apply preserves_await | intros; apply preserves_ret]. }
  intros [] st1 H1.
  apply wp_bind, wp_await. rewrite Hload.
  eapply wp_bind_total with (I := unviewed); [ | | exact H1 | ].
  { returns. }
  { preserves_with unviewed_kept. }
  intros [] st2 H2.
  eapply wp_bind_total with (I := unviewed); [ | | exact H2 | ].
  { returns. }
  { preserves_with unviewed_kept. }
  intros [] st3 [Hv3 Hc3].
  apply wp_bind.
  eapply wp_weaken;
    [apply (@MainTs_metrics_step p text n st3 Ht Hl Hv Hc Hv3 Hc3) | | intros e st' []].
  intros [] st4 H4. cbv beta.
  apply wp_total with (I := fun st' => likes_alone Main n (reelData st')); [ | | exact H4].
  { returns. }
  { preserves_with unviewed_kept. }
Qed.

(** ** Second file of [part_000] *)

(** A digit is a count, wherever it stands. *)
Lemma count_on_digit d b : is_digit d = true -> matches Normalizer.count_re (d :: b) b.
Proof.
  intros Hd. unfold Normalizer.count_re, Normalizer.count. apply M_grp.
  apply M_cat with b.
  { unfold Quant. cbn [Nat.sub Rep Upto]. apply M_cat with b;
      [apply M_sym; exact Hd | apply M_alt_r, M_eps]. }
  apply M_cat with b; [apply M_star_done|].
  apply M_cat with b; apply M_alt_r, M_eps.
Qed.

Lemma count_in_found t : existsb is_digit t = true -> Normalizer.count_in t <> None.
Proof.
  intros H. apply existsb_exists in H. destruct H as (d & Hin & Hd).
  apply in_split in Hin. destruct Hin as (a & b & ->).
  unfold Normalizer.count_in.
  pose proof (@exec_complete _ a _ _ (@count_on_digit d b Hd)) as He.
  destruct (exec Normalizer.count_re (a ++ d :: b)); [discriminate | congruence].
Qed.

(** The first match of a [g]-flagged pattern. *)
Lemma match0_global r s m0 :
  match0 (mkPattern r true) s = Some m0 ->
  exists pre post, s = pre ++ m0 ++ post /\ matches r (m0 ++ post) post.
Proof.
  unfold match0. cbn [pat_global pat_re]. rewrite match_all_head.
  destruct (exec r s) as [m|] eqn:E; [|discriminate]. intros [= <-].
  destruct (@exec_sound _ _ _ E) as (pre & Hs & Hm). eauto.
Qed.

Lemma match0_global_none r pre s0 s' :
  matches r s0 s' -> match0 (mkPattern r true) (pre ++ s0) <> None.
Proof.
  intros M. unfold match0. cbn [pat_global pat_re]. rewrite match_all_head.
  pose proof (@exec_complete _ pre _ _ M) as He.
  destruct (exec r (pre ++ s0)); [discriminate | congruence].
Qed.

(** What a match holds is in its text. *)
Lemma match_text_holds q r m0 post :
  holds q r -> matches r (m0 ++ post) post -> existsb q m0 = true.
Proof.
  intros H M. destruct (@matches_holds q r _ _ H M) as (w & E & Hw).
  apply app_inv_tail in E. now subst.
Qed.

Ltac holds_digit :=
  lazymatch goal with
  | |- holds _ ?r =>
      let r' := eval hnf in r in change r with r'
  end;
  first [ apply H_sym; intros c Hc; exact Hc
        | apply H_grp; holds_digit
        | apply H_cat_l; holds_digit
        | apply H_cat_r; holds_digit
        | apply H_alt; holds_digit ].

Lemma likesPatterns_hold_digit pat :
  In pat Optimized.likesPatterns ->
  pat_global pat = true /\ holds is_digit (pat_re pat).
Proof.
  intros [<-|[<-|[]]]; (split; [reflexivity|]); cbn [pat_re]; holds_digit.
Qed.

(** A likes pattern in the text gives a count. *)
Lemma likes_found text :
  likes_pattern Second text ->
  exists pat, In pat Optimized.likesPatterns /\
              Optimized.count_of_first pat text <> None.
Proof.
  intros (pat & Hin & Hm). exists pat. split; [exact Hin|].
  destruct (@likesPatterns_hold_digit pat Hin) as [Hg Hh].
  destruct pat as [r g]. cbn [pat_global pat_re] in *. subst g.
  unfold Optimized.count_of_first.
  destruct (match0 (mkPattern r true) text) as [m0|] eqn:E; [|congruence].
  destruct (@match0_global _ _ _ E) as (pre & post & _ & M).
  pose proof (@match_text_holds _ _ _ _ Hh M) as Hd.
  destruct m0 as [|x t]; [discriminate|].
  apply count_in_found, Hd.
Qed.

(** *** The large-number strategy finds no views and no comments *)

Lemma includes_head s c p : includes s (c :: p) = true -> In c s.
Proof.
  induction s as [|b s IH]; cbn [includes starts_with]; [discriminate|].
  intros H. apply orb_prop in H. destruct H as [H|H].
  - apply andb_prop in H. destruct H as [H _]. apply N.eqb_eq in H. left. now subst.
  - right. exact (IH H).
Qed.

(** A text whose code units are all in a class that misses the first unit
    of [p] does not include [p]. *)
Lemma alphabet_excludes (q : char -> bool) s c p :
  forallb q s = true -> q c = false -> includes s (c :: p) = false.
Proof.
  intros Hs Hc. destruct (includes s (c :: p)) eqn:E; [|reflexivity].
  apply includes_head in E. rewrite forallb_forall in Hs.
  rewrite (Hs c E) in Hc. discriminate.
Qed.

Lemma match_text_alphabet r m0 post :
  matches r (m0 ++ post) post -> forallb (alphabet r) m0 = true.
Proof.
  intros M. destruct (matches_alphabet M) as (w & E & Hw).
  apply app_inv_tail in E. now subst.
Qed.

Lemma matches_star_mono g r r' :
  (forall s s', matches r s s' -> matches r' s s') ->
  forall s s', matches (Star g r) s s' -> matches (Star g r') s s'.
Proof.
  intros Hm s s' H. remember (Star g r) as R eqn:ER.
  induction H; try discriminate; injection ER as -> ->.
  - apply M_star_done.
  - eapply M_star_more; [apply Hm; eassumption | assumption | now apply IHmatches2].
Qed.

(** [,\d{3}] is a case of [[,.]\d{3}]. *)
Lemma comma_group_in_count s s' :
  matches (chr c_comma +++ Quant 3 3 (Sym digit))%re s s' ->
  matches (Sym (one_of (lit ",.")) +++ Quant 3 3 (Sym digit))%re s s'.
Proof.
  intros H. apply matches_cat_inv in H. destruct H as (s1 & H1 & H2).
  apply M_cat with s1; [|exact H2].
  apply matches_sym_inv in H1. destruct H1 as (x & -> & Hx).
  apply M_sym. apply N.eqb_eq in Hx. subst x. reflexivity.
Qed.

(** [\d{1,3}(?:,\d{3})+] is a case of the count pattern. *)
Lemma large_in_count s s' :
  matches Optimized.large_count s s' -> matches Optimized.count s s'.
Proof.
  unfold Optimized.large_count, Optimized.count, Normalizer.count. intros H.
  apply matches_cat_inv in H. destruct H as (s1 & H1 & H2).
  apply M_cat with s1; [exact H1|].
  apply M_cat with s'; [|apply M_cat with s'; apply M_alt_r, M_eps].
  unfold Plus in H2. apply matches_cat_inv in H2. destruct H2 as (s2 & H2 & H3).
  eapply M_star_more.
  - apply comma_group_in_count, H2.
  - apply matches_cat_inv in H2. destruct H2 as (s3 & Hc & Hq).
    apply matches_sym_inv in Hc. destruct Hc as (x & -> & _).
    pose proof (matches_length Hq). simpl. lia.
  - revert H3. apply matches_star_mono. exact comma_group_in_count.
Qed.

(** A large number with a likes keyword holds neither "view" nor
    "comment"; one with another keyword is a views or comments pattern. *)
Lemma large_numbers_silent text ms m :
  match0 Optimized.views_pattern text = None ->
  match0 Optimized.comments_pattern text = None ->
  match_all Optimized.largeNumberPattern text = Some ms -> In m ms ->
  includes m (lit "view") = false /\ includes m (lit "comment") = false.
Proof.
  intros Hv Hc Hms Hin.
  destruct (@match_all_sound _ _ _ _ Hms Hin) as (pre & post & Ht & M).
  unfold Optimized.largeNumberPattern in M.
  apply matches_cat_inv in M. destruct M as (s1 & Mg & M).
  apply matches_cat_inv in M. destruct M as (s2 & Mw & M).
  apply matches_grp_inv in Mg.
  apply matches_alt_inv in M. destruct M as [M|M]; [|exfalso].
  - assert (ML : matches (Grp 1 Optimized.large_count +++ Optimized.ws
                          +++ Optimized.plural "like")%re (m ++ post) post).
    { apply M_cat with s1; [apply M_grp, Mg|]. apply M_cat with s2; assumption. }
    apply match_text_alphabet in ML.
    split; eapply alphabet_excludes; try exact ML; vm_compute; reflexivity.
  - apply matches_alt_inv in M. destruct M as [M|M].
    + apply (@match0_global_none (pat_re Optimized.views_pattern) pre (m ++ post) post);
        [|rewrite <- Ht; exact Hv].
      cbn [Optimized.views_pattern pat_re].
      apply M_cat with s1; [apply M_grp, large_in_count, Mg|].
      apply M_cat with s2; [exact Mw|]. apply M_alt_l, M.
    + apply (@match0_global_none (pat_re Optimized.comments_pattern) pre (m ++ post) post);
        [|rewrite <- Ht; exact Hc].
      cbn [Optimized.comments_pattern pat_re].
      apply M_cat with (m ++ post); [apply M_alt_r, M_eps|].
      apply M_cat with s1; [apply M_grp, large_in_count, Mg|].
      apply M_cat with s2; [exact Mw | exact M].
Qed.

(** *** The metrics step *)

(** The large-number loop on matches that hold neither "view" nor
    "comment": the likes are those of the last match that holds "like". *)
Lemma Optimized_large_loop (ms : list jstring) :
  forall st,
  (forall m, In m ms ->
     includes m (lit "view") = false /\ includes m (lit "comment") = false) ->
  unviewed st ->
  wp (for_of ms (fun m =>
        when (includes m (lit "like"))
          (match Optimized.large_count_in m with
           | Some n => assign (set_likes (Some n))
           | None => ret tt
           end) ;;
        when (includes m (lit "view"))
          (match Optimized.large_count_in m with
           | Some n => assign (set_views (Some n))
           | None => ret tt
           end) ;;
        when (includes m (lit "comment"))
          (match Optimized.large_count_in m with
           | Some n => assign (set_comments (Some n))
           | None => ret tt
           end) ;;
        continue))
     (fun _ st' =>
        unviewed st' /\
        likes (reelData st')
        = fold_left (fun l m =>
                       if includes m (lit "like") then
                         match Optimized.large_count_in m with
                         | Some n => Some n
                         | None => l
                         end
                       else l) ms (likes (reelData st)))
     (fun _ _ => False) st.
Proof.
  induction ms as [|m t IH]; intros st Hs H0; [split; [exact H0 | reflexivity]|].
  destruct (Hs m (or_introl eq_refl)) as [Fv Fc].
  assert (Ht : forall x, In x t ->
            includes x (lit "view") = false /\ includes x (lit "comment") = false)
    by (intros x Hx; apply Hs; now right).
  cbn [for_of fold_left]. apply wp_bind. rewrite Fv, Fc.
  destruct (includes m (lit "like")); [destruct (Optimized.large_count_in m) as [n|]|];
    cbn [when]; wp_go.
  - eapply wp_weaken; [apply (IH _ Ht) | intros a st' H; exact H | intros e st' []].
    exact H0.
  - exact (IH _ Ht H0).
  - exact (IH _ Ht H0).
Qed.

Lemma Optimized_large_step text st :
  match0 Optimized.views_pattern text = None ->
  match0 Optimized.comments_pattern text = None ->
  unviewed st -> likes (reelData st) = None ->
  wp (Optimized.large_numbers text)
     (fun _ st' => unviewed st' /\ likes (reelData st') = Optimized_large_likes text)
     (fun _ _ => False) st.
Proof.
  intros Hv Hc H0 Hl. unfold Optimized.large_numbers, Optimized_large_likes.
  destruct (match_all Optimized.largeNumberPattern text) as [ms|] eqn:Ems;
    [|split; assumption].
  rewrite <- Hl. apply Optimized_large_loop; [|exact H0].
  intros m Hm. exact (@large_numbers_silent text ms m Hv Hc Ems Hm).
Qed.

(** The first pattern that gives a count sets the likes. *)
Lemma likes_scan (l : list pattern) text st :
  for_of l (fun pat =>
    match Optimized.count_of_first pat text with
    | Some n => assign (set_likes (Some n)) ;; break
    | None => continue
    end) st
  = (inr tt,
     match first_count l (fun pat => Optimized.count_of_first pat text) with
     | Some n => mkState (set_likes (Some n) (reelData st)) (pushed st)
     | None => st
     end).
Proof.
  induction l as [|a l IH]; [reflexivity|].
  cbn [for_of first_count]. unfold bind at 1.
  destruct (Optimized.count_of_first a text) as [n|] eqn:Ea; [reflexivity|].
  cbn. exact IH.
Qed.

Lemma Optimized_likes_step text n st :
  text_likes Second text = Some n -> unviewed st ->
  likes (reelData st) = Optimized_large_likes text ->
  wp (Optimized.likes_from_patterns text)
     (fun _ st' => likes_alone Second n (reelData st')) (fun _ _ => False) st.
Proof.
  intros Hn [Hv Hc] Hl. unfold Optimized.likes_from_patterns.
  apply wp_bind, wp_read, wp_when.
  cbn [text_likes] in Hn. cbv zeta in Hn. rewrite Hl.
  destruct (truthy_num (Optimized_large_likes text)) eqn:Etr; cbn [negb].
  - apply likes_alone_intro; [now rewrite Hl | exact Hv | exact Hc].
  - eapply wp_known; [apply likes_scan|].
    destruct (first_count Optimized.likesPatterns _) as [k|].
    + injection Hn as <-. apply likes_alone_intro; [reflexivity | exact Hv | exact Hc].
    + apply likes_alone_intro; [now rewrite Hl | exact Hv | exact Hc].
Qed.

Lemma Optimized_views_silent text st :
  match0 Optimized.views_pattern text = None ->
  Optimized.views_from_pattern text st = (inr tt, st).
Proof.
  intros Hv. unfold Optimized.views_from_pattern, Optimized.count_of_first, bind, read.
  rewrite Hv. destruct (negb _); reflexivity.
Qed.

Lemma Optimized_comments_silent text st :
  match0 Optimized.comments_pattern text = None ->
  Optimized.comments_from_pattern text st = (inr tt, st).
Proof.
  intros Hc. unfold Optimized.comments_from_pattern, Optimized.count_of_first, bind, read.
  rewrite Hc. destruct (negb _); reflexivity.
Qed.

Lemma Optimized_comments_link_silent p st :
  Optimized_no_comments_link p ->
  Optimized.comments_from_link p st = (inr tt, st).
Proof.
  intros Hn. unfold Optimized.comments_from_link, bind, read, when.
  destruct (negb _); [|reflexivity].
  unfold try_catch, await, bind.
  destruct (querySelector p Optimized.commentsLink) as [e|[el|]] eqn:Eq;
    try reflexivity.
  destruct (textContent el) as [e|[[|c0 cs]|]] eqn:Et; try reflexivity.
  rewrite (Hn el (c0 :: cs) Eq Et). reflexivity.
Qed.

Lemma Optimized_metrics_step p text n st :
  text_likes Second text = Some n -> no_views_pattern Second text ->
  no_comments_pattern Second p text -> unviewed st -> likes (reelData st) = None ->
  wp (Optimized.extract_metrics p text)
     (fun _ st' => likes_alone Second n (reelData st')) (fun _ _ => False) st.
Proof.
  cbn [no_views_pattern no_comments_pattern]. intros Hl Hv [Hc Hk] H0 L0.
  unfold Optimized.extract_metrics.
  apply wp_try_catch, wp_bind.
  eapply wp_weaken; [apply (@Optimized_large_step text st Hv Hc H0 L0) | | intros e st' []].
  intros [] st1 [H1 L1]. cbv beta. apply wp_bind.
  eapply wp_weaken; [apply (@Optimized_likes_step text n st1 Hl H1 L1) | | intros e st' []].
  intros [] st2 H2. cbv beta. apply wp_bind.
  eapply wp_known; [apply Optimized_views_silent, Hv|]. apply wp_bind.
  eapply wp_known; [apply Optimized_comments_link_silent, Hk|].
  eapply wp_known; [apply Optimized_comments_silent, Hc|]. exact H2.
Qed.

Lemma Optimized_extract_likes_only p text n st :
  loads Second p -> shows Second p text ->
  text_likes Second text = Some n -> no_views_pattern Second text ->
  no_comments_pattern Second p text ->
  unviewed st -> likes (reelData st) = None ->
  wp (Optimized_extract p) (fun _ st' => likes_alone Second n (reelData st'))
     (fun _ _ => False) st.
Proof.
  cbn [loads shows]. intros [[Hg Hw] Hu] Ht Hl Hv Hc H0 L0. unfold Optimized_extract.
  apply wp_bind, wp_await. rewrite Hg.
  apply wp_bind.
  apply wp_known with (a := tt) (st' := st).
  { unfold Optimized.wait_for_content, try_catch, await.
    destruct (waitForSelector p (quoted _)) as [e|[]]; [|reflexivity].
    destruct Hw as [Hw|Hw]; [discriminate | rewrite Hw; reflexivity]. }
  apply wp_bind.
  apply wp_known with (a := tt) (st' := st).
  { unfold Optimized.check_redirect. cbv zeta. rewrite Hu. reflexivity. }
  apply wp_bind, wp_await. rewrite Ht.
  set (J := fun st' => unviewed st' /\ likes (reelData st') = None).
  eapply wp_bind_total with (I := J); [ | | split; assumption | ].
  { returns. }
  { preserves_with ltac:(intros ? ? ?; unfold unviewed in *; simpl in *; assumption). }
  intros [] st1 [H1 L1].
  apply wp_bind.
  eapply wp_weaken;
    [apply (@Optimized_metrics_step p text n st1 Hl Hv Hc H1 L1) | | intros e st' []].
  intros [] st2 H2. cbv beta.
  eapply wp_bind_total with (I := fun st' => likes_alone Second n (reelData st'));
    [ | | exact H2 | ].
  { returns. }
  { preserves_with unviewed_kept. }
  intros [] st3 H3.
  apply wp_total with (I := fun st' => likes_alone Second n (reelData st')); [ | | exact H3].
  { returns. }
  { preserves_with unviewed_kept. }
Qed.

(** ** First file of [part_000] *)

Lemma Enhanced_likes_hold_digit pat :
  In pat Enhanced.likes_patterns ->
  pat_global pat = true /\ holds is_digit (pat_re pat).
Proof.
  intros [<-|[<-|[<-|[]]]]; (split; [reflexivity|]); cbn [pat_re]; holds_digit.
Qed.

(** The first pattern whose first match holds a count sets the metric. *)
Lemma Enhanced_scan (pats : list pattern) text set st :
  Enhanced.scan_patterns pats text set st
  = (inr tt,
     match first_count pats
             (fun pat => match match0 pat text with
                         | Some m0 => Normalizer.count_in m0
                         | None => None
                         end) with
     | Some n => mkState (set (Some n) (reelData st)) (pushed st)
     | None => st
     end).
Proof.
  unfold Enhanced.scan_patterns.
  induction pats as [|a l IH]; [reflexivity|].
  cbn [for_of first_count]. unfold bind at 1.
  destruct (match0 a text) as [m0|]; [destruct (Normalizer.count_in m0) as [n|]|];
    [reflexivity | cbn; exact IH | cbn; exact IH].
Qed.

Lemma Enhanced_scan_silent (pats : list pattern) text set st :
  Forall (fun pat => match0 pat text = None) pats ->
  Enhanced.scan_patterns pats text set st = (inr tt, st).
Proof.
  intros H. unfold Enhanced.scan_patterns. apply for_of_skip.
  intros pat Hin. rewrite Forall_forall in H. rewrite (H pat Hin). reflexivity.
Qed.

(** A label sets the likes only when they are falsy. *)
Lemma likes_alone_relabelled n k d :
  likes_alone First n d -> truthy_num (likes d) = false ->
  likes_alone First n (set_likes (Some k) d).
Proof.
  intros (H1 & H2 & H3 & H4) Hf. split; [|split; [discriminate | split; assumption]].
  intros [Hc|Ht]; [congruence|].
  rewrite (H1 (or_intror Ht)), Ht in Hf. discriminate.
Qed.

Lemma Enhanced_buttons_step p n st :
  Enhanced_no_comment_label p -> likes_alone First n (reelData st) ->
  wp (Enhanced.scan_buttons p)
     (fun _ st' => likes_alone First n (reelData st'))
     (fun _ st' => likes_alone First n (reelData st')) st.
Proof.
  intros Hn H0. unfold Enhanced.scan_buttons.
  apply wp_bind, wp_await.
  destruct (querySelectorAll p (lit "button, a")) as [e|els] eqn:Eq; [exact H0|].
  apply wp_for_of with (J := fun st' => likes_alone First n (reelData st'));
    [ | auto | exact H0].
  intros el st1 Hel H1. apply wp_bind, wp_await.
  destruct (ariaLabel el) as [e|[[|l0 ls]|]] eqn:El; try exact H1.
  set (lbl := l0 :: ls) in *.
  cbv zeta. fold lbl.
  destruct (includes lbl (lit "comment")) eqn:Ec.
  - rewrite (Hn els el lbl Eq Hel El Ec). wp_go; exact H1.
  - cbn [andb when]. wp_go; try exact H1.
    all: match goal with
         | H : _ && negb (truthy_num _) = true |- _ =>
             apply andb_prop in H; destruct H as [_ H]; apply negb_true_iff in H;
             exact (@likes_alone_relabelled n _ _ H1 H)
         end.
Qed.

Lemma Enhanced_metrics_step p text n st :
  body_text p = inr text ->
  text_likes First text = Some n -> no_views_pattern First text ->
  no_comments_pattern First p text -> unviewed st ->
  likes (reelData st) = None ->
  wp (Enhanced.extract_metrics p)
     (fun _ st' => likes_alone First n (reelData st')) (fun _ _ => False) st.
Proof.
  cbn [text_likes no_views_pattern no_comments_pattern].
  intros Ht Hl Hv [Hc Hb] [Hv0 Hc0] Hl0. unfold Enhanced.extract_metrics.
  apply wp_bind, wp_read, wp_bind, wp_read, wp_bind, wp_read. cbv beta.
  rewrite Hl0. cbn [truthy_num negb orb when].
  apply wp_try_catch, wp_bind, wp_await. rewrite Ht.
  apply wp_bind, wp_read. rewrite Hl0. cbn [truthy_num negb when].
  apply wp_bind. eapply wp_known; [apply Enhanced_scan|]. rewrite Hl.
  assert (H1 : likes_alone First n
            (reelData (mkState (set_likes (Some n) (reelData st)) (pushed st)))).
  { apply likes_alone_intro; [reflexivity | assumption | assumption]. }
  apply wp_bind, wp_read. cbn [reelData views set_likes]. rewrite Hv0.
  cbn [truthy_num negb when]. apply wp_bind.
  eapply wp_known; [apply Enhanced_scan_silent, Hv|].
  apply wp_bind, wp_read. cbn [reelData comments set_likes]. rewrite Hc0.
  cbn [truthy_num negb when]. apply wp_bind.
  eapply wp_known; [apply Enhanced_scan_silent, Hc|].
  apply wp_bind, wp_read, wp_bind, wp_read. cbv beta.
  cbn [reelData comments set_likes]. rewrite Hc0.
  cbn [truthy_num negb]. rewrite orb_true_r. cbn [when].
  eapply wp_weaken; [apply (@Enhanced_buttons_step p n _ Hb H1) | auto | auto].
Qed.

Lemma Enhanced_extract_likes_only p text n st :
  loads First p -> shows First p text ->
  text_likes First text = Some n -> no_views_pattern First text ->
  no_comments_pattern First p text ->
  unviewed st -> likes (reelData st) = None ->
  wp (Enhanced_extract p) (fun _ st' => likes_alone First n (reelData st'))
     (fun _ _ => False) st.
Proof.
  cbn [loads shows]. intros [Hg Hu] [Ht Hm] Hl Hv Hc H0 Hl0.
  unfold Enhanced_extract.
  apply wp_bind, wp_await. rewrite Hg.
  set (J := fun st' => unviewed st' /\ likes (reelData st') = None).
  eapply wp_bind_total with (I := J); [ | | split; assumption | ].
  { apply no_throw_try_catch. intros e. apply no_throw_ret. }
  { apply preserves_try_catch; [apply preserves_await | intros; apply preserves_ret]. }
  intros [] st1 H1.
  apply wp_bind.
  apply wp_known with (a := tt) (st' := st1).
  { unfold Enhanced.check_redirect. cbv zeta. rewrite Hu. reflexivity. }
  apply wp_bind.
  apply wp_known with (a := tt) (st' := st1).
  { unfold Enhanced.internal_api, try_catch, bind, await. rewrite Hm. reflexivity. }
  eapply wp_bind_total with (I := J); [ | | exact H1 | ].
  { unfold Enhanced.extract_username. apply no_throw_bind; [apply no_throw_read|].
    intros u. apply no_throw_when, no_throw_try_catch. intros e. apply no_throw_ret. }
  { preserves_with ltac:(intros ? ? ?; unfold unviewed in *; simpl in *; assumption). }
  intros [] st2 H2.
  eapply wp_bind_total with (I := J); [ | | exact H2 | ].
  { unfold Enhanced.extract_audio. apply no_throw_bind; [apply no_throw_read|].
    intros u. apply no_throw_when, no_throw_try_catch. intros e. apply no_throw_assign. }
  { preserves_with ltac:(intros ? ? ?; unfold unviewed in *; simpl in *; assumption). }
  intros [] st3 [H3 L3].
  apply wp_bind.
  eapply wp_weaken;
    [apply (@Enhanced_metrics_step p text n st3 Ht Hl Hv Hc H3 L3) | | intros e st' []].
  intros [] st4 H4. cbv beta.
  apply wp_total with (I := fun st' => likes_alone First n (reelData st')); [ | | exact H4].
  { unfold Enhanced.extract_caption. apply no_throw_bind; [apply no_throw_read|].
    intros u. apply no_throw_when, no_throw_try_catch. intros e. apply no_throw_ret. }
  { preserves_with unviewed_kept. }
Qed.

(** ** The three versions *)

(** A text with a likes pattern of a version gives it likes. *)
Lemma text_likes_found v text :
  likes_pattern v text -> exists n, text_likes v text = Some n.
Proof.
  destruct v; cbn [likes_pattern text_likes].
  - intros H. destruct (exec MainTs.likes_re text); [eauto | congruence].
  - intros (pat & Hin & Hm). apply first_count_found. exists pat. split; [exact Hin|].
    destruct (@Enhanced_likes_hold_digit pat Hin) as [Hg Hh].
    destruct pat as [r g]. cbn [pat_global pat_re] in *. subst g.
    destruct (match0 (mkPattern r true) text) as [m0|] eqn:E; [|congruence].
    destruct (@match0_global _ _ _ E) as (pre & post & _ & M).
    exact (@count_in_found m0 (@match_text_holds _ _ _ _ Hh M)).
  - intros H. cbv zeta.
    destruct (truthy_num (Optimized_large_likes text)) eqn:Etr.
    + destruct (Optimized_large_likes text); [eauto | discriminate].
    + destruct (@first_count_found Optimized.likesPatterns
                  (fun pat => Optimized.count_of_first pat text)
                  (@likes_found text H)) as [n Hn].
      rewrite Hn. eauto.
Qed.

(** C6, as amended. On a page that loads and whose text holds a likes
    pattern of the version and no views pattern, and when nothing else in
    the document gives a count of comments (no comments pattern in the
    text and, by version, in the comment buttons; no count in a label
    that holds "comment"; no count in the comments link) nor, in the first
    file of [part_000], embedded data, the first record the handler pushes
    is without [error], without [views] and [comments], and its [likes]
    are the count the version reads in the text; in the first file a label
    can replace that count when it is 0. On a dataset that accepts it,
    that record is the only one. *)
Theorem likes_without_views_and_comments (v : version) (ctx : Context)
  (text : jstring) :
  loads v (page ctx) -> shows v (page ctx) text ->
  likes_pattern v text -> no_views_pattern v text ->
  no_comments_pattern v (page ctx) text ->
  exists d n,
    hd_error (emitted (handler v) ctx) = Some d /\
    text_likes v text = Some n /\ likes_alone v n d /\ error d = None /\
    (accepts_all ctx -> emitted (handler v) ctx = [d]).
Proof.
  intros Hload Ht Hl Hnv Hnc.
  destruct (@text_likes_found v text Hl) as [n Hn].
  set (st0 := mkState (new_reelData (request_url ctx)) []).
  assert (W : wp (extraction v (page ctx))
                (fun _ st' => likes_alone v n (reelData st')) (fun _ _ => False) st0).
  { destruct v; cbn [extraction].
    - apply (@MainTs_extract_likes_only (page ctx) text n st0); try assumption.
      split; reflexivity.
    - apply (@Enhanced_extract_likes_only (page ctx) text n st0); try assumption;
        [split; reflexivity | reflexivity].
    - apply (@Optimized_extract_likes_only (page ctx) text n st0); try assumption;
        [split; reflexivity | reflexivity]. }
  pose proof (@extraction_pushes_nothing v (page ctx) st0 eq_refl) as P1.
  pose proof (@extraction_no_error v (page ctx) st0 eq_refl) as E1.
  unfold wp in W.
  destruct (extraction v (page ctx) st0) as [[e|[]] st1] eqn:Ex; [destruct W|].
  cbn [snd] in P1, E1.
  exists (reelData st1), n. unfold emitted, run_handler. rewrite handler_shape.
  fold st0.
  destruct (pushData_outcome ctx (reelData st1)) as [e|[]] eqn:A.
  - rewrite (@finish_rejected ctx _ st0 st1 e Ex A). cbv zeta.
    cbn [snd pushed]. rewrite P1.
    split; [reflexivity|]. split; [exact Hn|]. split; [exact W|].
    split; [exact E1|]. intros Ha. rewrite (Ha _) in A. discriminate.
  - rewrite (@finish_returned ctx _ st0 st1 Ex A).
    cbn [snd pushed]. rewrite P1.
    split; [reflexivity|]. split; [exact Hn|]. split; [exact W|].
    split; [exact E1|]. reflexivity.
Qed.

(** C6 fails on the second file: the text holds a likes pattern and no
    comments pattern, and the record has comments, the bare number that is
    the text of the comments link. *)
Lemma comments_link_counts_without_pattern :
  loads Second (page linked) /\ shows Second (page linked) linked_text /\
  likes_pattern Second linked_text /\ no_views_pattern Second linked_text /\
  match0 Optimized.comments_pattern linked_text = None /\
  map (fun d => (error d, option_map to_Z (likes d), views d,
                 option_map to_Z (comments d)))
      (emitted (handler Second) linked)
  = [(None, Some (Some 42000%Z), None, Some (Some 12%Z))].
Proof.
  split; [split; [split; [reflexivity | left; reflexivity] | vm_compute; reflexivity]|].
  split; [reflexivity|].
  split; [eexists; split; [left; reflexivity | vm_compute; discriminate]|].
  repeat split; vm_compute; reflexivity.
Qed.

Lemma likes_without_views_and_comments_witness :
  (loads Second (page liked) /\ shows Second (page liked) liked_text /\
   likes_pattern Second liked_text /\ no_views_pattern Second liked_text /\
   no_comments_pattern Second (page liked) liked_text) /\
  Forall (fun v =>
            exists d, emitted (handler v) liked = [d] /\
                      likes d = Some (of_N 42000) /\ views d = None /\
                      comments d = None /\ error d = None)
         [Main; First; Second].
Proof.
  assert (H1 : loads Second (page liked)).
  { split; [split; [reflexivity | left; reflexivity] | vm_compute; reflexivity]. }
  assert (H2 : shows Second (page liked) liked_text) by reflexivity.
  assert (H3 : likes_pattern Second liked_text).
  { eexists. split; [left; reflexivity|]. vm_compute. discriminate. }
  assert (H4 : no_views_pattern Second liked_text) by (vm_compute; reflexivity).
  assert (H5 : no_comments_pattern Second (page liked) liked_text).
  { split; [vm_compute; reflexivity|]. intros el t H. vm_compute in H. discriminate H. }
  assert (Ha : accepts_all liked) by (intros d; reflexivity).
  assert (K : forall v,
            (exists d n, hd_error (emitted (handler v) liked) = Some d /\
               text_likes v liked_text = Some n /\ likes_alone v n d /\
               error d = None /\
               (accepts_all liked -> emitted (handler v) liked = [d])) ->
            exists d, emitted (handler v) liked = [d] /\
                      likes d = Some (of_N 42000) /\ views d = None /\
                      comments d = None /\ error d = None).
  { intros v (d & n & _ & Hn & (Hl & _ & Hv & Hc) & He & Hone).
    exists d. split; [exact (Hone Ha)|]. split; [|repeat split; assumption].
    assert (En : n = of_N 42000)
      by (destruct v; vm_compute in Hn; injection Hn as <-; vm_compute; reflexivity).
    subst n. apply Hl. right. vm_compute. reflexivity. }
  split; [exact (conj H1 (conj H2 (conj H3 (conj H4 H5))))|].
  repeat apply Forall_cons; [ | | | apply Forall_nil]; apply K.
  - apply (@likes_without_views_and_comments Main liked liked_text);
      [reflexivity | reflexivity | vm_compute; discriminate
      | vm_compute; reflexivity | ].
    intros els el t H. vm_compute in H. injection H as <-. intros [].
  - apply (@likes_without_views_and_comments First liked liked_text);
      [split; [reflexivity | vm_compute; reflexivity]
      | split; reflexivity
      | eexists; split; [left; reflexivity | vm_compute; discriminate]
      | unfold no_views_pattern, Enhanced.views_patterns;
        repeat (apply Forall_cons; [vm_compute; reflexivity|]); apply Forall_nil
      | split ].
    + unfold Enhanced.comments_patterns.
      repeat (apply Forall_cons; [vm_compute; reflexivity|]). apply Forall_nil.
    + intros els el l H. vm_compute in H. injection H as <-. intros [].
  - exact (@likes_without_views_and_comments Second liked liked_text
             H1 H2 H3 H4 H5).
Defined.

(* ===================================================================== *)
(** * The check of the input *)
(* ===================================================================== *)

Lemma matches_chr_inv a s s' : matches (chr a) s s' -> s = a :: s'.
Proof.
  intros M. apply matches_sym_inv in M. destruct M as (x & -> & Hx).
  apply N.eqb_eq in Hx. now subst.
Qed.

Lemma matches_str_inv l : forall s s', matches (str l) s s' -> s = l ++ s'.
Proof.
  induction l as [|a l IH]; intros s s' M; cbn [str] in M.
  - now apply matches_eps_inv in M.
  - apply matches_cat_inv in M. destruct M as (s1 & Ma & Ml).
    apply matches_chr_inv in Ma. apply IH in Ml. now subst.
Qed.

Lemma matches_str l s : matches (str l) (l ++ s) s.
Proof.
  induction l as [|a l IH]; cbn [str app]; [apply M_eps|].
  apply M_cat with (l ++ s); [apply M_sym, N.eqb_refl | exact IH].
Qed.

Lemma matches_eos_inv s s' : matches Eos s s' -> s = [] /\ s' = [].
Proof. intros M. inversion M. split; reflexivity. Qed.

Lemma matches_star_sym_all g (p : char -> bool) w s :
  forallb p w = true -> matches (Star g (Sym p)) (w ++ s) s.
Proof.
  induction w as [|x w IH]; cbn [forallb app]; intros H; [apply M_star_done|].
  apply andb_prop in H. destruct H as [Hx Hw].
  apply M_star_more with (w ++ s); [apply M_sym, Hx | simpl; lia | exact (IH Hw)].
Qed.

Lemma matches_plus_sym_all (p : char -> bool) x w s :
  p x = true -> forallb p w = true -> matches (Plus (Sym p)) (x :: w ++ s) s.
Proof.
  intros Hx Hw. apply M_cat with (w ++ s); [apply M_sym, Hx|].
  now apply matches_star_sym_all.
Qed.

(** What the pattern of the check matches is a reel address, to its end. *)
Lemma reel_url_re_sound u s' : matches Startup.reel_url_re u s' -> reel_address u.
Proof.
  unfold Startup.reel_url_re. intros M.
  apply matches_cat_inv in M. destruct M as (s1 & M1 & M).
  apply matches_cat_inv in M. destruct M as (s2 & M2 & M).
  apply matches_cat_inv in M. destruct M as (s3 & M3 & M).
  apply matches_cat_inv in M. destruct M as (s4 & M4 & M5).
  apply matches_str_inv in M1. apply matches_str_inv in M3.
  apply matches_plus_sym in M4. destruct M4 as (x & w & -> & Hx & Hw).
  apply matches_eos_inv in M5. destruct M5 as [-> ->].
  rewrite app_nil_r in M3.
  assert (Hr : forallb (fun c => negb (is_line_terminator c)) (x :: w) = true).
  { cbn [forallb]. apply andb_true_intro. split; [exact Hx | exact Hw]. }
  apply matches_alt_inv in M2. destruct M2 as [M2|M2].
  - apply matches_chr_inv in M2. exists (lit "https"), (x :: w).
    split; [now right|]. split; [|split; [discriminate | exact Hr]].
    subst u s1 s2. reflexivity.
  - apply matches_eps_inv in M2. exists (lit "http"), (x :: w).
    split; [now left|]. split; [|split; [discriminate | exact Hr]].
    subst u s1 s2. reflexivity.
Qed.

Lemma reel_url_re_complete u : reel_address u -> matches Startup.reel_url_re u [].
Proof.
  intros (scheme & rest & Hs & -> & Hne & Hr).
  destruct rest as [|x w]; [congruence|]. cbn [forallb] in Hr.
  apply andb_prop in Hr. destruct Hr as [Hx Hw].
  set (tail := (lit "://www.instagram.com/reel/" ++ x :: w)%list).
  unfold Startup.reel_url_re.
  assert (T : matches (str (lit "://www.instagram.com/reel/")
                       +++ Plus (Sym dot) +++ Eos)%re tail []).
  { apply M_cat with (x :: w); [apply matches_str|].
    apply M_cat with []; [|apply M_eos].
    rewrite <- (app_nil_r w). now apply matches_plus_sym_all. }
  destruct Hs as [->| ->].
  - apply M_cat with tail; [apply (matches_str (lit "http"))|].
    apply M_cat with tail; [apply M_alt_r, M_eps | exact T].
  - apply M_cat with (ch "s" :: tail); [apply (matches_str (lit "http"))|].
    apply M_cat with tail; [apply M_alt_l, M_sym, N.eqb_refl | exact T].
Qed.

Lemma match_start_reel_address u :
  Startup.match_start Startup.reel_url_re u <> None <-> reel_address u.
Proof.
  unfold Startup.match_start. split.
  - destruct (match_here Startup.reel_url_re u) as [[s' c]|] eqn:E; [|congruence].
    intros _. eapply reel_url_re_sound, match_here_sound, E.
  - intros H. eapply match_here_complete, reel_url_re_complete, H.
Qed.

(** A reel address holds the reel path the redirect check looks for. *)
Lemma reel_address_path u :
  reel_address u -> includes u (lit "instagram.com/reel/") = true.
Proof.
  intros (scheme & rest & Hs & -> & _).
  apply includes_app_r.
  change (lit "://www.instagram.com/reel/")
    with (lit "://www." ++ lit "instagram.com/reel/")%list.
  rewrite <- app_assoc. apply includes_app_r, includes_app_l.
  vm_compute. reflexivity.
Qed.

(** X1. The check of the input answers the request address exactly when
    the input is there and its [url] is a reel address: [http] or [https],
    the host [www.instagram.com], the path [/reel/] and at least one more
    code unit, with no line terminator; a missing input and any other
    [url] stop the script, each with its own message. *)
Theorem input_validation (input : option Startup.Input) :
  match Startup.validate input with
  | inr u =>
      exists i, input = Some i /\ Startup.input_url i = u /\ reel_address u
  | inl e =>
      (input = None /\ e = JsError (lit "Input is missing!")) \/
      (exists i, input = Some i /\ ~ reel_address (Startup.input_url i) /\
                 e = JsError (lit "Invalid Instagram reel URL provided"))
  end.
Proof.
  destruct input as [i|]; cbn [Startup.validate]; [|left; split; reflexivity].
  cbv zeta.
  pose proof (match_start_reel_address (Startup.input_url i)) as H.
  destruct (Startup.match_start Startup.reel_url_re (Startup.input_url i)).
  - exists i. split; [reflexivity|]. split; [reflexivity|].
    apply H. discriminate.
  - right. exists i. split; [reflexivity|]. split; [|reflexivity].
    intros R. apply H in R. congruence.
Qed.

Lemma start_reel_address g u : Startup.start g = inr u -> reel_address u.
Proof.
  unfold Startup.start. destruct g as [e|input]; [discriminate|].
  destruct input as [i|]; cbn [Startup.validate]; [|discriminate]. cbv zeta.
  destruct (Startup.match_start Startup.reel_url_re (Startup.input_url i)) eqn:E;
    [|discriminate].
  intros [= <-]. apply match_start_reel_address. congruence.
Qed.

(** X2. An address the start of the actor lets through passes the
    redirect check of both files of [part_000] when the page is still at
    that address: the check returns and changes nothing. *)
Theorem validated_address_passes_redirect_check
  (getInput : Exc (option Startup.Input)) (u : jstring) (p : Page) (st : State) :
  Startup.start getInput = inr u -> page_url p = u ->
  Enhanced.check_redirect p st = (inr tt, st) /\
  Optimized.check_redirect p st = (inr tt, st).
Proof.
  intros Hs Hp. apply start_reel_address, reel_address_path in Hs.
  unfold Enhanced.check_redirect, Optimized.check_redirect,
    Enhanced.reel_path, Optimized.reel_path.
  cbv zeta. rewrite Hp, Hs. split; reflexivity.
Qed.

Lemma validated_address_passes_redirect_check_witness :
  Startup.start (inr (Some (Startup.mkInput reel_url))) = inr reel_url /\
  Enhanced.check_redirect (bare_page []) fresh = (inr tt, fresh) /\
  Optimized.check_redirect (bare_page []) fresh = (inr tt, fresh).
Proof.
  assert (Hs : Startup.start (inr (Some (Startup.mkInput reel_url))) = inr reel_url)
    by (vm_compute; reflexivity).
  split; [exact Hs|].
  exact (@validated_address_passes_redirect_check _ reel_url (bare_page []) fresh
           Hs eq_refl).
Defined.

(* ===================================================================== *)
(** * The outcomes of an invocation *)
(* ===================================================================== *)

Lemma bind_returned A B (c : M A) (f : A -> M B) st a st' :
  c st = (inr a, st') -> bind c f st = f a st'.
Proof. intros H. unfold bind. now rewrite H. Qed.

Lemma bind_thrown A B (c : M A) (f : A -> M B) st e st' :
  c st = (inl e, st') -> bind c f st = (inl e, st').
Proof. intros H. unfold bind. now rewrite H. Qed.

Lemma no_throw_returns A (c : M A) st :
  no_throw c -> exists a st', c st = (inr a, st').
Proof.
  intros H. destruct (H st) as [a Ha].
  destruct (c st) as [[e|a'] st']; [discriminate|]. simpl in Ha.
  injection Ha as ->. eauto.
Qed.

(** ** The request address *)

Lemma extraction_keeps_url v p u :
  preserves (fun st => url (reelData st) = u) (extraction v p).
Proof.
  destruct v; cbn [extraction];
    [unfold MainTs_extract | unfold Enhanced_extract | unfold Optimized_extract];
    preserves_with field_kept.
Qed.

(** X3. Every record a handler pushes, in each of the three versions,
    with or without [error], carries the address of the request in [url]:
    no step writes that field. *)
Theorem record_keeps_request_url (v : version) (ctx : Context) (d : ReelData) :
  In d (emitted (handler v) ctx) -> url d = request_url ctx.
Proof.
  apply (@handler_pushed (fun r => url r = request_url ctx)).
  - exact (@extraction_keeps_url v (page ctx) (request_url ctx)
             (mkState (new_reelData (request_url ctx)) []) eq_refl).
  - intros e r H. exact H.
Qed.

Lemma record_keeps_request_url_witness :
  In profile_record (emitted (handler Second) profile_context) /\
  url profile_record = reel_url.
Proof.
  assert (Hin : In profile_record (emitted (handler Second) profile_context))
    by (left; vm_compute; reflexivity).
  split; [exact Hin|].
  exact (@record_keeps_request_url Second profile_context profile_record Hin).
Defined.

(** ** Fatal failures and contained ones *)

Lemma MainTs_steps_return p :
  no_throw (MainTs.extract_username p ;; MainTs.extract_audio p ;;
            MainTs.extract_metrics p ;; MainTs.extract_caption p).
Proof. repeat (apply no_throw_bind; [|intros _]); returns. Qed.

Lemma Enhanced_guarded_returns A (f : ReelData -> A) (g : A -> bool)
  (c : M unit) (h : exn -> M unit) :
  (forall e, no_throw (h e)) ->
  no_throw (a <- read f ;; when (g a) (try_catch c h)).
Proof.
  intros Hh. apply no_throw_bind; [apply no_throw_read | intros a].
  apply no_throw_when, no_throw_try_catch, Hh.
Qed.

Lemma Enhanced_steps_return p :
  no_throw (Enhanced.internal_api p ;; Enhanced.extract_username p ;;
            Enhanced.extract_audio p ;; Enhanced.extract_metrics p ;;
            Enhanced.extract_caption p).
Proof.
  apply no_throw_bind; [returns | intros _].
  apply no_throw_bind;
    [apply Enhanced_guarded_returns; intros; apply no_throw_ret | intros _].
  apply no_throw_bind;
    [apply Enhanced_guarded_returns; intros; apply no_throw_assign | intros _].
  apply no_throw_bind.
  - unfold Enhanced.extract_metrics.
    do 3 (apply no_throw_bind; [apply no_throw_read | intros ?]).
    apply no_throw_when, no_throw_try_catch. intros. apply no_throw_ret.
  - intros _. apply Enhanced_guarded_returns; intros; apply no_throw_ret.
Qed.

Lemma Optimized_steps_return p text :
  no_throw (Optimized.extract_username p ;; Optimized.extract_metrics p text ;;
            Optimized.extract_audio p text ;; Optimized.extract_caption p text).
Proof. repeat (apply no_throw_bind; [|intros _]); returns. Qed.

Lemma tolerated_wait (x : Exc unit) st :
  try_catch (await x) (fun _ => ret tt) st = (inr tt, st).
Proof. unfold try_catch, await, ret. now destruct x as [e|[]]. Qed.

(** A fatal failure ends the extraction where it started. *)
Lemma extraction_fails v p st e :
  load_failure v p = Some e -> extraction v p st = (inl e, st).
Proof.
  destruct v; cbn [load_failure extraction].
  - unfold MainTs_extract. intros H.
    rewrite (@bind_returned _ _ _ _ st tt st (tolerated_wait _ st)).
    apply bind_thrown. unfold await.
    destruct (waitForTimeout p) as [e'|[]]; [now injection H as -> | discriminate].
  - unfold Enhanced_extract. intros H.
    destruct (goto p) as [e'|[]] eqn:G.
    { injection H as ->. apply bind_thrown. unfold await. rewrite ?G; reflexivity. }
    rewrite (@bind_returned _ _ _ _ st tt st) by (unfold await; rewrite ?G; reflexivity).
    rewrite (@bind_returned _ _ _ _ st tt st (tolerated_wait _ st)).
    apply bind_thrown. unfold Enhanced.check_redirect. cbv zeta.
    destruct (includes (page_url p) Enhanced.reel_path); [discriminate|].
    injection H as <-. reflexivity.
  - unfold Optimized_extract. intros H.
    destruct (goto p) as [e'|[]] eqn:G.
    { injection H as ->. apply bind_thrown. unfold await. rewrite ?G; reflexivity. }
    rewrite (@bind_returned _ _ _ _ st tt st) by (unfold await; rewrite ?G; reflexivity).
    unfold Optimized.wait_for_content.
    destruct (waitForSelector p (quoted _)) as [e1|[]] eqn:W1;
      [destruct (waitForSelector p (lit "body")) as [e2|[]] eqn:W2|].
    { injection H as ->. apply bind_thrown.
      unfold try_catch, await. rewrite ?W1, ?W2; reflexivity. }
    all: rewrite (@bind_returned _ _ _ _ st tt st)
      by (unfold try_catch, await; rewrite ?W1, ?W2; reflexivity).
    all: unfold Optimized.check_redirect; cbv zeta.
    all: destruct (includes (page_url p) Optimized.reel_path);
      [|injection H as <-; apply bind_thrown; reflexivity].
    all: rewrite (@bind_returned _ _ _ _ st tt st) by reflexivity.
    all: apply bind_thrown; unfold await, body_text.
    all: destruct (body_textContent p) as [e3|[t|]]; try discriminate.
    all: now injection H as ->.
Qed.

(** Without one the extraction returns, whatever the lookups and the
    evaluations of its steps do. *)
Lemma extraction_returns v p st :
  load_failure v p = None -> exists st1, extraction v p st = (inr tt, st1).
Proof.
  destruct v; cbn [load_failure extraction].
  - unfold MainTs_extract. intros H.
    rewrite (@bind_returned _ _ _ _ st tt st (tolerated_wait _ st)).
    destruct (waitForTimeout p) as [e'|[]] eqn:T; [discriminate|].
    rewrite (@bind_returned _ _ _ _ st tt st) by (unfold await; rewrite ?T; reflexivity).
    destruct (@no_throw_returns _ _ st (MainTs_steps_return p)) as ([] & st1 & R).
    eauto.
  - unfold Enhanced_extract. intros H.
    destruct (goto p) as [e'|[]] eqn:G; [discriminate|].
    rewrite (@bind_returned _ _ _ _ st tt st) by (unfold await; rewrite ?G; reflexivity).
    rewrite (@bind_returned _ _ _ _ st tt st (tolerated_wait _ st)).
    destruct (includes (page_url p) Enhanced.reel_path) eqn:U; [|discriminate].
    rewrite (@bind_returned _ _ _ _ st tt st)
      by (unfold Enhanced.check_redirect; cbv zeta; rewrite ?U; reflexivity).
    destruct (@no_throw_returns _ _ st (Enhanced_steps_return p)) as ([] & st1 & R).
    eauto.
  - unfold Optimized_extract. intros H.
    destruct (goto p) as [e'|[]] eqn:G; [discriminate|].
    rewrite (@bind_returned _ _ _ _ st tt st) by (unfold await; rewrite ?G; reflexivity).
    assert (W : Optimized.wait_for_content p st = (inr tt, st) /\
                (if includes (page_url p) Optimized.reel_path
                 then match body_textContent p with
                      | inl e => Some e
                      | inr _ => None
                      end
                 else Some (JsError (redirected p))) = None).
    { unfold Optimized.wait_for_content, try_catch, await.
      destruct (waitForSelector p (quoted _)) as [e1|[]];
        [destruct (waitForSelector p (lit "body")) as [e2|[]]|];
        try discriminate; split; (reflexivity || exact H). }
    destruct W as [W H']. rewrite (@bind_returned _ _ _ _ st tt st W).
    destruct (includes (page_url p) Optimized.reel_path) eqn:U; [|discriminate].
    rewrite (@bind_returned _ _ _ _ st tt st)
      by (unfold Optimized.check_redirect; cbv zeta; rewrite ?U; reflexivity).
    assert (B : exists text, body_text p = inr text).
    { unfold body_text. destruct (body_textContent p) as [e3|[t|]];
        [discriminate | eauto | eauto]. }
    destruct B as [text B].
    rewrite (@bind_returned _ _ _ _ st text st) by (unfold await; rewrite ?B; reflexivity).
    destruct (@no_throw_returns _ _ st (Optimized_steps_return p text))
      as ([] & st1 & R).
    eauto.
Qed.

(** ** One push, or two *)

(** What an invocation does, by what the page and the dataset do: after a
    fatal failure the [catch] block pushes the error record; otherwise the
    [try] block pushes the record of the extraction, and when that push
    throws the [catch] block pushes the record again, with the message of
    the push as [error]. *)
Lemma handler_cases (v : version) (ctx : Context) :
  match load_failure v (page ctx) with
  | Some e0 =>
      let d := error_record (request_url ctx) e0 in
      run_handler (handler v ctx) (request_url ctx)
      = (pushData_outcome ctx d, mkState d [d])
  | None =>
      exists d, error d = None /\
        match pushData_outcome ctx d with
        | inr _ =>
            run_handler (handler v ctx) (request_url ctx) = (inr tt, mkState d [d])
        | inl e =>
            let d' := set_error (Some (error_message e)) d in
            run_handler (handler v ctx) (request_url ctx)
            = (pushData_outcome ctx d', mkState d' [d; d'])
        end
  end.
Proof.
  unfold run_handler. rewrite handler_shape.
  set (st0 := mkState (new_reelData (request_url ctx)) []).
  destruct (load_failure v (page ctx)) as [e0|] eqn:F.
  - rewrite (@finish_thrown ctx _ _ _ e0 (@extraction_fails v (page ctx) st0 e0 F)).
    reflexivity.
  - destruct (@extraction_returns v (page ctx) st0 F) as [st1 E].
    pose proof (@extraction_pushes_nothing v (page ctx) st0 eq_refl) as P1.
    pose proof (@extraction_no_error v (page ctx) st0 eq_refl) as E1.
    rewrite E in P1, E1. cbn [snd] in P1, E1.
    exists (reelData st1). split; [exact E1|].
    destruct (pushData_outcome ctx (reelData st1)) as [e|[]] eqn:A.
    + rewrite (@finish_rejected ctx _ st0 st1 e E A). cbv zeta. rewrite P1.
      reflexivity.
    + rewrite (@finish_returned ctx _ st0 st1 E A). rewrite P1. reflexivity.
Qed.

(** C7, as amended. An invocation of a handler, in each of the three
    versions, calls [pushData] once or twice, never less and never more.
    It calls it twice exactly when the page loaded and the dataset refused
    the record the [try] block pushed: the [catch] block then pushes the
    record again. After a fatal failure, and on a dataset that accepts
    what it is handed, it calls it once; on such a dataset the invocation
    returns. *)
Theorem one_record_per_invocation (v : version) (ctx : Context) :
  exists d,
    hd_error (emitted (handler v) ctx) = Some d /\
    (List.length (emitted (handler v) ctx) <= 2)%nat /\
    (List.length (emitted (handler v) ctx) = 2%nat <->
     load_failure v (page ctx) = None /\
     exists e, pushData_outcome ctx d = inl e) /\
    (accepts_all ctx ->
     run_handler (handler v ctx) (request_url ctx) = (inr tt, mkState d [d])).
Proof.
  pose proof (handler_cases v ctx) as H. unfold emitted.
  destruct (load_failure v (page ctx)) as [e0|] eqn:F.
  - cbv zeta in H. rewrite H. cbn [snd pushed hd_error List.length].
    eexists. split; [reflexivity|]. split; [lia|]. split.
    + split; [discriminate | intros [Hc _]; discriminate].
    + intros Ha. now rewrite (Ha _).
  - destruct H as (d & He & H). exists d.
    destruct (pushData_outcome ctx d) as [e|[]] eqn:A.
    + cbv zeta in H. rewrite H. cbn [snd pushed hd_error List.length].
      split; [reflexivity|]. split; [lia|]. split.
      * split; [intros _; split; [reflexivity | eauto] | reflexivity].
      * intros Ha. rewrite (Ha d) in A. discriminate.
    + rewrite H. cbn [snd pushed hd_error List.length].
      split; [reflexivity|]. split; [lia|]. split.
      * split; [discriminate | intros [_ [e Hc]]; discriminate].
      * reflexivity.
Qed.

Lemma one_record_per_invocation_witness :
  (exists d, emitted (handler Second) bounced = [d] /\
             run_handler (handler Second bounced) (request_url bounced)
             = (inr tt, mkState d [d])) /\
  List.length (emitted (handler Main) liked) = 1%nat /\
  List.length (emitted (handler Main) refused) = 2%nat.
Proof.
  split; [|split].
  - destruct (one_record_per_invocation Second bounced) as (d & _ & _ & _ & H).
    specialize (H (fun _ => eq_refl)). exists d. split; [|exact H].
    unfold emitted. now rewrite H.
  - destruct (one_record_per_invocation Main liked) as (d & _ & _ & _ & H).
    specialize (H (fun _ => eq_refl)). unfold emitted. now rewrite H.
  - destruct (one_record_per_invocation Main refused) as (d & Hd & _ & H & _).
    apply H. split; [reflexivity|]. exists (JsError (lit "dataset unavailable")).
    reflexivity.
Defined.

(** C7 fails when the dataset refuses the record: each of the three
    handlers hands it over a second time, now with an [error], and the
    invocation ends with the exception of that second push. *)
Lemma refused_record_is_pushed_twice :
  map (fun v => map error (emitted (handler v) refused)) [Main; First; Second]
  = [[None; Some (lit "dataset unavailable")];
     [None; Some (lit "dataset unavailable")];
     [None; Some (lit "dataset unavailable")]] /\
  map (fun v => fst (run_handler (handler v refused) (request_url refused)))
      [Main; First; Second]
  = [inl (JsError (lit "dataset unavailable"));
     inl (JsError (lit "dataset unavailable"));
     inl (JsError (lit "dataset unavailable"))].
Proof. split; vm_compute; reflexivity. Qed.

(** X4. The records of an invocation and its end, by what the dataset does
    with the first record [d] a handler pushes. When the dataset accepts
    [d], it is the only record and the invocation returns. When it refuses
    [d]: if [d] is without [error] (the extraction finished), [d] is
    pushed again with the message of the refusal as its [error], and the
    invocation ends as that second push does; if [d] has an [error] (it
    was pushed by the [catch] block), it is the only record and the
    invocation throws what the push threw. *)
Theorem push_outcomes (v : version) (ctx : Context) :
  exists d,
    hd_error (emitted (handler v) ctx) = Some d /\
    match pushData_outcome ctx d with
    | inr _ =>
        emitted (handler v) ctx = [d] /\
        fst (run_handler (handler v ctx) (request_url ctx)) = inr tt
    | inl e =>
        (error d = None ->
         emitted (handler v) ctx = [d; set_error (Some (error_message e)) d] /\
         fst (run_handler (handler v ctx) (request_url ctx))
         = pushData_outcome ctx (set_error (Some (error_message e)) d)) /\
        (error d <> None ->
         emitted (handler v) ctx = [d] /\
         fst (run_handler (handler v ctx) (request_url ctx)) = inl e)
    end.
Proof.
  pose proof (handler_cases v ctx) as H. unfold emitted.
  destruct (load_failure v (page ctx)) as [e0|] eqn:F.
  - cbv zeta in H. rewrite H. cbn [fst snd pushed hd_error].
    eexists. split; [reflexivity|].
    destruct (pushData_outcome ctx (error_record (request_url ctx) e0)) as [e|[]].
    + split; [discriminate | intros _; split; reflexivity].
    + split; reflexivity.
  - destruct H as (d & He & H). exists d.
    destruct (pushData_outcome ctx d) as [e|[]] eqn:A.
    + cbv zeta in H. rewrite H. cbn [fst snd pushed hd_error].
      split; [reflexivity|]. split; [intros _; split; reflexivity|].
      intros Hc. destruct (Hc He).
    + rewrite H. cbn [fst snd pushed hd_error]. repeat split.
Qed.

(** X5. When the page fails to load (a wait or a navigation throws
    outside every inner [try], the landing address misses the reel path,
    or, in the second file of [part_000], the page text cannot be read), a
    handler pushes one record, and that record holds the request address,
    the message of the failure ("Unknown error occurred" when what was
    thrown is no [Error]) and nothing else. *)
Theorem fatal_failure_gives_bare_record (v : version) (ctx : Context) (e : exn) :
  load_failure v (page ctx) = Some e ->
  emitted (handler v) ctx = [error_record (request_url ctx) e].
Proof.
  intros H. unfold emitted, run_handler. rewrite handler_shape.
  rewrite (@finish_thrown ctx _ _ _ e (@extraction_fails v (page ctx) _ e H)).
  reflexivity.
Qed.

Lemma fatal_failure_gives_bare_record_witness :
  load_failure Main (page (unreachable Thrown)) = Some Thrown /\
  emitted (handler Main) (unreachable Thrown)
  = [mkReelData None None None None None None None reel_url
       (Some (lit "Unknown error occurred"))].
Proof.
  assert (H : load_failure Main (page (unreachable Thrown)) = Some Thrown)
    by reflexivity.
  split; [exact H|].
  exact (@fatal_failure_gives_bare_record Main (unreachable Thrown) Thrown H).
Defined.

(** X6. The first record a handler pushes is without [error] exactly when
    the page loaded: once the waits, the navigation, the redirect check
    and, in the second file of [part_000], the reading of the page text are
    through, no lookup or evaluation that throws in a step of the
    extraction makes the record an error record. *)
Theorem page_failures_are_contained (v : version) (ctx : Context) :
  load_failure v (page ctx) = None <->
  exists d l, emitted (handler v) ctx = d :: l /\ error d = None.
Proof.
  split.
  - intros H. unfold emitted, run_handler. rewrite handler_shape.
    set (st0 := mkState (new_reelData (request_url ctx)) []).
    destruct (@extraction_returns v (page ctx) st0 H) as [st1 E].
    pose proof (@extraction_pushes_nothing v (page ctx) st0 eq_refl) as P1.
    pose proof (@extraction_no_error v (page ctx) st0 eq_refl) as E1.
    rewrite E in P1, E1. cbn [snd] in P1, E1.
    destruct (pushData_outcome ctx (reelData st1)) as [e|[]] eqn:A.
    + rewrite (@finish_rejected ctx _ st0 st1 e E A). cbv zeta. cbn [snd pushed].
      rewrite P1. eexists. eexists. split; [reflexivity | exact E1].
    + rewrite (@finish_returned ctx _ st0 st1 E A). cbn [snd pushed].
      rewrite P1. eexists. eexists. split; [reflexivity | exact E1].
  - intros (d & l & Hd & He).
    destruct (load_failure v (page ctx)) as [e|] eqn:F; [exfalso | reflexivity].
    unfold emitted, run_handler in Hd. rewrite handler_shape in Hd.
    rewrite (@finish_thrown ctx _ _ _ e (@extraction_fails v (page ctx) _ e F)) in Hd.
    cbv zeta in Hd. cbn [snd pushed app] in Hd. injection Hd as <- _.
    discriminate He.
Qed.

Lemma page_failures_are_contained_witness :
  load_failure Second
    (page (mkContext reel_url (failing_lookup Optimized.audioLink (lit "a reel"))
                     rejecting)) = None /\
  (forall v, v <> Second ->
     load_failure v (page (mkContext reel_url hostile_page accepting)) = None) /\
  exists d l,
    emitted (handler First) (mkContext reel_url hostile_page accepting) = d :: l /\
    error d = None.
Proof.
  split; [reflexivity|]. split.
  { intros [| |] H; [reflexivity | reflexivity | congruence]. }
  exact (proj1 (@page_failures_are_contained First
                  (mkContext reel_url hostile_page accepting)) eq_refl).
Defined.

(* ===================================================================== *)
(** * The two normalizers off the literals *)
(* ===================================================================== *)

(** ** Strings without a digit *)

Lemma upper1_digit c : is_digit (upper1 c) = is_digit c.
Proof.
  unfold is_digit, upper1.
  destruct (N.leb_spec 97 c) as [L1|L1]; [destruct (N.leb_spec c 122) as [L2|L2]|];
    cbn [andb]; try reflexivity.
  destruct (N.leb_spec 48 (c - 32)), (N.leb_spec (c - 32) 57),
    (N.leb_spec 48 c), (N.leb_spec c 57); cbn [andb]; try reflexivity; lia.
Qed.

Lemma upper1_not_n c : (110 =? upper1 c)%N = false.
Proof.
  unfold upper1.
  destruct (N.leb_spec 97 c) as [L1|L1]; [destruct (N.leb_spec c 122) as [L2|L2]|];
    cbn [andb]; apply N.eqb_neq; lia.
Qed.

Lemma no_digit_upper s : existsb is_digit (toUpperCase s) = existsb is_digit s.
Proof.
  induction s as [|c s IH]; [reflexivity|].
  unfold toUpperCase in *. cbn [map existsb]. now rewrite upper1_digit, IH.
Qed.

Lemma no_n_upper s : existsb (N.eqb 110) (toUpperCase s) = false.
Proof.
  induction s as [|c s IH]; [reflexivity|].
  unfold toUpperCase in *. cbn [map existsb]. now rewrite upper1_not_n, IH.
Qed.

Lemma existsb_remove_all (q p : char -> bool) s :
  existsb q s = false -> existsb q (remove_all p s) = false.
Proof.
  unfold remove_all. induction s as [|c s IH]; [reflexivity|].
  cbn [existsb filter]. intros H. apply orb_false_iff in H. destruct H as [Hc Hs].
  destruct (negb (p c)); [cbn [existsb]; now rewrite Hc, IH | now apply IH].
Qed.

Lemma existsb_suffix (q : char -> bool) w s :
  existsb q (w ++ s) = false -> existsb q s = false.
Proof. rewrite existsb_app. intros H. now apply orb_false_iff in H. Qed.

(** The numeral pattern finds nothing where there is no digit. *)
Lemma no_digit_numeric t :
  existsb is_digit t = false -> exec Normalizer.numeric_re t = None.
Proof.
  intros H. destruct (exec Normalizer.numeric_re t) as [m|] eqn:E; [exfalso|reflexivity].
  destruct (exec_sound _ _ E) as (pre & Ht & M).
  assert (Hh : holds is_digit Normalizer.numeric_re) by holds_digit.
  pose proof (@match_text_holds _ _ _ _ Hh M) as Hd.
  rewrite Ht, !existsb_app, Hd, orb_true_r in H. discriminate.
Qed.

Lemma starts_with_prefix p : forall s, starts_with p s = true -> exists r, s = p ++ r.
Proof.
  induction p as [|a p IH]; intros s H; [exists s; reflexivity|].
  destruct s as [|b s]; [discriminate|]. cbn [starts_with] in H.
  apply andb_prop in H. destruct H as [Hab Hp]. apply N.eqb_eq in Hab. subst b.
  destruct (IH s Hp) as [r ->]. exists r. reflexivity.
Qed.

Lemma span_digits_none s :
  existsb is_digit s = false -> span_digits s = ([], s).
Proof.
  destruct s as [|c s]; [reflexivity|]. cbn [existsb span_digits].
  intros H. apply orb_false_iff in H. destruct H as [-> _]. reflexivity.
Qed.

(** [parseFloat] finds no number in a string with no digit and no [n]. *)
Lemma parseFloat_no_digit t :
  existsb is_digit t = false -> existsb (N.eqb 110) t = false ->
  parseFloat t = NaN.
Proof.
  intros Hd Hn. unfold parseFloat.
  destruct (trimStart_suffix t) as [w Hw]. rewrite Hw in Hd, Hn.
  apply existsb_suffix in Hd. apply existsb_suffix in Hn.
  set (t1 := trimStart t) in *. clearbody t1. clear Hw w t.
  assert (S0 : exists w, t1 = w ++ snd (take_sign t1)).
  { unfold take_sign. destruct t1 as [|c t1]; [exists []; reflexivity|].
    destruct (c =? 45)%N; [exists [c]; reflexivity|].
    destruct (c =? 43)%N; [exists [c] | exists []]; reflexivity. }
  destruct S0 as [w Hw]. rewrite Hw in Hd, Hn.
  apply existsb_suffix in Hd. apply existsb_suffix in Hn.
  destruct (take_sign t1) as [neg s0]. cbn [snd] in *. clear Hw w.
  destruct (starts_with (lit "Infinity") s0) eqn:I0.
  { exfalso. apply starts_with_prefix in I0. destruct I0 as [r ->].
    vm_compute in Hn. discriminate. }
  rewrite (span_digits_none _ Hd).
  destruct s0 as [|c s1]; [reflexivity|].
  cbn [existsb] in Hd. apply orb_false_iff in Hd. destruct Hd as [_ Hd].
  destruct (c =? c_dot)%N; [|reflexivity].
  now rewrite (span_digits_none _ Hd).
Qed.

(** X7. A string with no decimal digit in it has no count: the
    normalizer of [part_000] answers 0 for it, whatever else it holds, and
    the normalizer of [main.ts] answers NaN. *)
Theorem normalizers_without_a_digit (s : jstring) :
  existsb is_digit s = false ->
  Normalizer.parseMetric s = of_N 0 /\ MainTs.parseMetric s = NaN.
Proof.
  intros H. split.
  - unfold Normalizer.parseMetric. destruct s as [|c0 s0]; [reflexivity|].
    cbn [is_empty]. cbv zeta. set (t := toUpperCase _).
    assert (Ht : existsb is_digit t = false).
    { unfold t. rewrite no_digit_upper. now apply existsb_remove_all. }
    rewrite (no_digit_numeric _ Ht). cbn [group_or_empty].
    destruct (includes t (lit "B")); [vm_compute; reflexivity|].
    destruct (includes t (lit "M")); [vm_compute; reflexivity|].
    destruct (includes t (lit "K")); vm_compute; reflexivity.
  - unfold MainTs.parseMetric. cbv zeta. set (t := toUpperCase _).
    assert (Ht : parseFloat t = NaN).
    { apply parseFloat_no_digit; unfold t; [|apply no_n_upper].
      rewrite no_digit_upper. now apply existsb_remove_all. }
    rewrite Ht.
    destruct (includes t (lit "K")); [reflexivity|].
    destruct (includes t (lit "M")); reflexivity.
Qed.

Lemma normalizers_without_a_digit_witness :
  existsb is_digit (lit "Infinity") = false /\
  Normalizer.parseMetric (lit "Infinity") = of_N 0 /\
  MainTs.parseMetric (lit "Infinity") = NaN.
Proof.
  split; [reflexivity|].
  exact (@normalizers_without_a_digit (lit "Infinity") eq_refl).
Defined.

(** ** Commas, white space and letter case *)

(** X8. The normalizer of [part_000] reads a string through what it
    keeps of it: two strings that are the same once commas and white
    space are removed and letters are in upper case have the same value,
    wherever the commas and the white space stood. *)
Theorem normalizer_ignores_separators (s s' : jstring) :
  toUpperCase (strip s) = toUpperCase (strip s') ->
  Normalizer.parseMetric s = Normalizer.parseMetric s'.
Proof.
  intros H. unfold Normalizer.parseMetric.
  fold (strip s) (strip s'). rewrite <- H.
  destruct s as [|c s], s' as [|c' s']; cbn [is_empty].
  - reflexivity.
  - vm_compute. reflexivity.
  - rewrite H. vm_compute. reflexivity.
  - reflexivity.
Qed.

Lemma normalizer_ignores_separators_witness :
  toUpperCase (strip (lit "1,2 k")) = toUpperCase (strip (lit "12K")) /\
  Normalizer.parseMetric (lit "1,2 k") = Normalizer.parseMetric (lit "12K") /\
  to_Z (Normalizer.parseMetric (lit "12K")) = Some 12000%Z.
Proof.
  split; [reflexivity|]. split; [|vm_compute; reflexivity].
  exact (@normalizer_ignores_separators (lit "1,2 k") (lit "12K") eq_refl).
Defined.

(** ** The normalizer of [main.ts] on literals *)

Lemma suffix_no_digit u :
  match suffix_text u false with [] => True | c :: _ => is_digit c = false end.
Proof. destruct u; simpl; auto. Qed.

Lemma parseFloat_literal ip fp u :
  ip <> [] -> forallb is_digit ip = true -> forallb is_digit fp = true ->
  parseFloat (ip ++ fraction fp ++ suffix_text u false)
  = of_decimal false (digits_value (ip ++ fp)) (- Z.of_nat (List.length fp)).
Proof.
  intros Hne Hip Hfp. unfold parseFloat.
  destruct ip as [|a ip]; [congruence|].
  pose proof Hip as Hall. simpl in Hip. apply andb_true_iff in Hip.
  destruct Hip as [Ha Hip].
  cbn [app trimStart]. rewrite (digit_not_space _ Ha).
  unfold take_sign.
  rewrite (digit_not (x:=45) a Ha), (digit_not (x:=43) a Ha) by lia.
  assert (I0 : starts_with (lit "Infinity")
                 (a :: ip ++ fraction fp ++ suffix_text u false) = false).
  { change (lit "Infinity") with (73%N :: lit "nfinity"). cbn [starts_with].
    rewrite N.eqb_sym, (digit_not (x:=73) a Ha) by lia. reflexivity. }
  rewrite I0.
  change (a :: ip ++ fraction fp ++ suffix_text u false)
    with ((a :: ip) ++ (fraction fp ++ suffix_text u false)).
  assert (Hr : match fraction fp ++ suffix_text u false with
               | [] => True
               | c :: _ => is_digit c = false
               end).
  { destruct fp; [exact (suffix_no_digit u) | reflexivity]. }
  rewrite (span_digits_all (a :: ip) _ Hall Hr).
  destruct fp as [|f fp].
  - cbn [fraction app]. destruct u; reflexivity.
  - cbn [fraction app]. rewrite N.eqb_refl.
    change (f :: fp ++ suffix_text u false) with ((f :: fp) ++ suffix_text u false).
    rewrite (span_digits_all (f :: fp) _ Hfp (suffix_no_digit u)).
    destruct u; cbn [suffix_text exponent_part]; rewrite ?Z.sub_0_l; reflexivity.
Qed.

(** The normalizer of [main.ts] on a literal. *)
Lemma MainTs_parseMetric_literal (s ip fp : jstring) (u : suffix) (lower : bool) :
  uncomma s = ip ++ fraction fp ++ suffix_text u lower ->
  ip <> [] -> forallb is_digit ip = true -> forallb is_digit fp = true ->
  MainTs.parseMetric s
  = Math_round (MainTs_scale u (of_decimal false (digits_value (ip ++ fp))
                                           (- Z.of_nat (List.length fp)))).
Proof.
  intros Hs Hne Hip Hfp. unfold MainTs.parseMetric. cbv zeta.
  fold (uncomma s).
  assert (Hclean : toUpperCase (uncomma s) = ip ++ fraction fp ++ suffix_text u false).
  { rewrite Hs, app_assoc. unfold toUpperCase. rewrite map_app.
    fold (toUpperCase (ip ++ fraction fp)) (toUpperCase (suffix_text u lower)).
    now rewrite (@numeral_upper ip fp Hip Hfp), suffix_upper, <- app_assoc. }
  rewrite !Hclean, (@parseFloat_literal ip fp u Hne Hip Hfp).
  change (lit "M") with [77%N]. change (lit "K") with [75%N].
  rewrite !includes_single, app_assoc, !existsb_app.
  assert (L : forall x, (57 < x)%N ->
             existsb (N.eqb x) ip || existsb (N.eqb x) (fraction fp) = false).
  { intros x Hx. rewrite <- existsb_app. now apply numeral_letter. }
  rewrite !L by (vm_compute; reflexivity).
  destruct u; reflexivity.
Qed.


(** X9. The [parseMetric] of [main.ts], on a literal (digits, an optional
    fraction, an optional suffix in either case, with commas anywhere),
    parses the numeral without its commas, multiplies it by 1,000 for [K]
    and by 1,000,000 for [M], and rounds to the nearest integer; the
    suffix [B] is no multiplier there, and the numeral is rounded as it
    stands. *)
Theorem main_ts_normalizer_on_literals (s ip fp : jstring) (u : suffix) (lower : bool) :
  uncomma s = ip ++ fraction fp ++ suffix_text u lower ->
  ip <> [] -> forallb is_digit ip = true -> forallb is_digit fp = true ->
  MainTs.parseMetric s
  = Math_round (MainTs_scale u (of_decimal false (digits_value (ip ++ fp))
                                           (- Z.of_nat (List.length fp)))).
Proof. exact (@MainTs_parseMetric_literal s ip fp u lower). Qed.

Lemma main_ts_normalizer_on_literals_witness :
  to_Z (MainTs.parseMetric (lit "1.2k")) = Some 1200%Z /\
  to_Z (MainTs.parseMetric (lit "2,500,000")) = Some 2500000%Z /\
  to_Z (MainTs.parseMetric (lit "2.5B")) = Some 3%Z.
Proof.
  split.
  { rewrite (@main_ts_normalizer_on_literals (lit "1.2k") (lit "1") (lit "2")
               Thousand true eq_refl ltac:(discriminate) eq_refl eq_refl).
    vm_compute. reflexivity. }
  split.
  { rewrite (@main_ts_normalizer_on_literals (lit "2,500,000") (lit "2500000") []
               NoSuffix false eq_refl ltac:(discriminate) eq_refl eq_refl).
    vm_compute. reflexivity. }
  rewrite (@main_ts_normalizer_on_literals (lit "2.5B") (lit "2") (lit "5")
             Billion false eq_refl ltac:(discriminate) eq_refl eq_refl).
  vm_compute. reflexivity.
Defined.

(* ===================================================================== *)
(** * The handle in the address of a link *)
(* ===================================================================== *)

(** ** The text of a group that is not leading *)

Section Inner.

Variable R : Type.

Lemma run_grp_capture i r1 s c (k : cont R) x :
  groupless r1 = true -> run (Grp i r1) s c k = Some x ->
  exists g s1, s = g ++ s1 /\ matches r1 (g ++ s1) s1 /\ k s1 ((i, g) :: c) = Some x.
Proof.
  intros G H. cbn [run] in H.
  destruct (@run_groupless _ r1 G _ _ _ _ H) as (s1 & M1 & K1).
  exists (firstn (List.length s - List.length s1) s), s1.
  rewrite (consumed_rest M1). repeat split; assumption.
Qed.

Lemma run_str l s c (k : cont R) : run (str l) (l ++ s) c k = k s c.
Proof.
  revert k. induction l as [|a l IH]; intros k; [reflexivity|].
  cbn [str app run]. unfold chr. cbn [run]. rewrite N.eqb_refl. apply IH.
Qed.

End Inner.

(** The group of a pattern [r0 (r1) r2], with no other group, holds what
    [r1] matched after [r0]. *)
Lemma match_here_inner i r0 r1 r2 s s' c :
  groupless r0 = true -> groupless r1 = true -> groupless r2 = true ->
  match_here (Cat r0 (Cat (Grp i r1) r2)) s = Some (s', c) ->
  exists g s1, matches r0 s (g ++ s1) /\ matches r1 (g ++ s1) s1 /\
               matches r2 s1 s' /\ capture i c = Some g.
Proof.
  intros G0 G1 G2 H. unfold match_here in H.
  change (run (Cat r0 (Cat (Grp i r1) r2)) s [] (fun s' c' => Some (s', c')))
    with (run r0 s [] (fun s0 c0 =>
            run (Grp i r1) s0 c0 (fun s1 c1 =>
              run r2 s1 c1 (fun s' c' => Some (s', c'))))) in H.
  destruct (@run_groupless _ r0 G0 _ _ _ _ H) as (s0 & M0 & K0).
  destruct (@run_grp_capture _ i r1 _ _ _ _ G1 K0) as (g & s1 & -> & M1 & K1).
  destruct (@run_groupless _ r2 G2 _ _ _ _ K1) as (s2 & M2 & K2).
  injection K2 as <- <-.
  exists g, s1. repeat split; try assumption.
  unfold capture. cbn [find fst]. rewrite Nat.eqb_refl. reflexivity.
Qed.

Lemma exec_from_inner i r0 r1 r2 :
  groupless r0 = true -> groupless r1 = true -> groupless r2 = true ->
  forall s n m, exec_from n (Cat r0 (Cat (Grp (S i) r1) r2)) s = Some m ->
    exists pre t0 g s1,
      s = pre ++ t0 /\ matches r0 t0 (g ++ s1) /\ matches r1 (g ++ s1) s1 /\
      matches r2 s1 (rest m) /\ group (S i) m = Some g.
Proof.
  intros G0 G1 G2. induction s as [|a s IH]; intros n m H; cbn [exec_from] in H.
  - destruct (match_here _ []) as [[s' c]|] eqn:E; [|discriminate].
    injection H as <-.
    destruct (@match_here_inner _ _ _ _ _ _ _ G0 G1 G2 E) as (g & s1 & M0 & M1 & M2 & C).
    exists [], [], g, s1. repeat split; assumption.
  - destruct (match_here _ (a :: s)) as [[s' c]|] eqn:E.
    + injection H as <-.
      destruct (@match_here_inner _ _ _ _ _ _ _ G0 G1 G2 E)
        as (g & s1 & M0 & M1 & M2 & C).
      exists [], (a :: s), g, s1. repeat split; assumption.
    + destruct (IH _ _ H) as (pre & t0 & g & s1 & -> & M).
      exists (a :: pre), t0, g, s1. split; [reflexivity | exact M].
Qed.

(** ** The last segment of a path *)

Lemma split_unique (c : N) : forall a b x y,
  ~ In c a -> ~ In c b -> a ++ c :: x = b ++ c :: y -> a = b.
Proof.
  induction a as [|n a IH]; intros [|n' b] x y Ha Hb E; cbn [app] in E.
  - reflexivity.
  - injection E as -> _. exfalso. apply Hb. now left.
  - injection E as -> _. exfalso. apply Ha. now left.
  - injection E as -> E. f_equal. apply (IH b x y); [| | exact E].
    + intros H. apply Ha. now right.
    + intros H. apply Hb. now right.
Qed.

Lemma rev_nil_inv (l : jstring) : rev l = [] -> l = [].
Proof. intros H. apply (f_equal (@rev N)) in H. now rewrite rev_involutive in H. Qed.

Lemma last_segment (c : N) X Y u g t1 t2 :
  X ++ c :: u ++ t1 = Y ++ c :: g ++ t2 ->
  u <> [] -> g <> [] -> ~ In c u -> ~ In c g ->
  t1 = [] \/ t1 = [c] -> t2 = [] \/ t2 = [c] -> u = g.
Proof.
  intros E Hu Hg Cu Cg T1 T2. apply (f_equal (@rev N)) in E.
  rewrite !rev_app_distr in E. cbn [rev] in E. rewrite !rev_app_distr in E.
  rewrite <- !app_assoc in E. cbn [app] in E.
  assert (Ru : ~ In c (rev u)) by (intros H; apply Cu, in_rev, H).
  assert (Rg : ~ In c (rev g)) by (intros H; apply Cg, in_rev, H).
  assert (Fin : rev u = rev g -> u = g).
  { intros H. apply (f_equal (@rev N)) in H. now rewrite !rev_involutive in H. }
  destruct T1 as [-> | ->], T2 as [-> | ->]; cbn [rev app] in E.
  - apply Fin. exact (@split_unique c _ _ _ _ Ru Rg E).
  - exfalso. destruct (rev u) as [|n l] eqn:Eu; [apply Hu, rev_nil_inv, Eu|].
    cbn [app] in E. injection E as -> _. apply Ru. now left.
  - exfalso. destruct (rev g) as [|n l] eqn:Eg; [apply Hg, rev_nil_inv, Eg|].
    cbn [app] in E. injection E as <- _. apply Rg. now left.
  - injection E as E. apply Fin. exact (@split_unique c _ _ _ _ Ru Rg E).
Qed.

Lemma none_of_absent (l : jstring) (c : N) s :
  one_of l c = true -> forallb (none_of l) s = true -> ~ In c s.
Proof.
  intros Hc Hs Hin. rewrite forallb_forall in Hs. specialize (Hs c Hin).
  unfold none_of in Hs. rewrite Hc in Hs. discriminate.
Qed.

(** ** Second file of [part_000] *)

(** X10. In the second file of [part_000], the handle read from the
    address of a link is the last segment of its path: from an address
    that ends with [instagram.com/], a handle without [/], [?] and [#],
    and at most one closing [/], the handle is read back as it stands,
    whatever comes before the host name. *)
Theorem handle_of_profile_address (pre u tail : jstring) :
  u <> [] -> forallb (none_of (lit "/?#")) u = true ->
  tail = [] \/ tail = lit "/" ->
  Optimized.handle_of (pre ++ lit "instagram.com/" ++ u ++ tail) = u.
Proof.
  intros Hne Hu Ht. unfold Optimized.handle_of.
  set (h := (pre ++ lit "instagram.com/" ++ u ++ tail)%list).
  assert (Cu : ~ In 47%N u) by (eapply none_of_absent; [|exact Hu]; reflexivity).
  destruct (exec Optimized.profile_re h) as [m|] eqn:E.
  - unfold exec, Optimized.profile_re in E.
    apply exec_from_inner in E; [|reflexivity..].
    destruct E as (pre' & t0 & g & s1 & Hh & M0 & M1 & M2 & Hg).
    apply matches_str_inv in M0.
    destruct (matches_plus_sym M1) as (x & w & Hxw & Hx & Hw).
    change (x :: w ++ s1) with ((x :: w) ++ s1) in Hxw.
    apply app_inv_tail in Hxw. subst g.
    assert (Cg : ~ In 47%N (x :: w)).
    { eapply none_of_absent with (l := lit "/?#"); [reflexivity|].
      cbn [forallb]. now rewrite Hx, Hw. }
    apply matches_cat_inv in M2. destruct M2 as (s2 & Mo & Me).
    apply matches_eos_inv in Me. destruct Me as [-> _].
    assert (T1 : s1 = [] \/ s1 = [47%N]).
    { apply matches_alt_inv in Mo. destruct Mo as [Mo|Mo].
      - right. now apply matches_chr_inv in Mo.
      - left. now apply matches_eps_inv in Mo. }
    cbn [group_or_empty]. rewrite Hg. symmetry.
    apply (@last_segment 47%N (pre ++ lit "instagram.com") (pre' ++ lit "instagram.com")
             u (x :: w) tail s1); try assumption; try discriminate.
    rewrite <- !app_assoc.
    change (lit "instagram.com" ++ 47%N :: u ++ tail)%list
      with (lit "instagram.com/" ++ u ++ tail)%list.
    change (lit "instagram.com" ++ 47%N :: (x :: w) ++ s1)%list
      with (lit "instagram.com/" ++ (x :: w) ++ s1)%list.
    fold h. rewrite Hh, M0. reflexivity.
  - exfalso. revert E. apply exec_complete with (s' := []).
    unfold Optimized.profile_re.
    apply M_cat with (u ++ tail); [apply matches_str|].
    destruct u as [|x w]; [congruence|]. cbn [forallb] in Hu.
    apply andb_prop in Hu. destruct Hu as [Hx Hw].
    apply M_cat with tail; [apply M_grp, matches_plus_sym_all; assumption|].
    destruct Ht as [-> | ->].
    + apply M_cat with []; [apply M_alt_r, M_eps | apply M_eos].
    + apply M_cat with []; [apply M_alt_l, M_sym, N.eqb_refl | apply M_eos].
Qed.

Lemma handle_of_profile_address_witness :
  Optimized.handle_of (lit "https://instagram.com/maykonreplay/") = lit "maykonreplay" /\
  Optimized.handle_of (lit "http://m.instagram.com/nat.geo") = lit "nat.geo".
Proof.
  split.
  - exact (@handle_of_profile_address (lit "https://") (lit "maykonreplay") (lit "/")
             ltac:(discriminate) eq_refl (or_intror eq_refl)).
  - exact (@handle_of_profile_address (lit "http://m.")
             (lit "nat.geo") []
             ltac:(discriminate) eq_refl (or_introl eq_refl)).
Defined.

(** ** First file of [part_000] *)

Lemma exec_from_skip r pre :
  (forall c s, In c pre -> match_here r (c :: s) = None) ->
  forall s i, exec_from i r (pre ++ s) = exec_from (List.length pre + i) r s.
Proof.
  induction pre as [|a pre IH]; intros H s i; [reflexivity|].
  cbn [app exec_from]. rewrite (H a (pre ++ s) (or_introl eq_refl)).
  rewrite IH by (intros c s0 Hc; apply H; now right).
  cbn [List.length]. f_equal. lia.
Qed.

Lemma Enhanced_profile_miss c s :
  c <> 105%N -> match_here Enhanced.profile_re (c :: s) = None.
Proof.
  intros H. unfold match_here, Enhanced.profile_re.
  change (lit "instagram.com/") with (105%N :: lit "nstagram.com/").
  cbn [str run]. unfold chr. cbn [run].
  destruct (N.eqb_spec 105 c); [congruence | reflexivity].
Qed.

(** X11. In the first file of [part_000], the name read from the address
    of a link is the first segment of its path: from an address whose host
    name [instagram.com/] is the first place an [i] stands, the name is
    what follows the host name up to the next [/] or the end. *)
Theorem profile_name_is_first_segment (pre u rest : jstring) :
  existsb (N.eqb 105) pre = false ->
  u <> [] -> forallb (none_of (lit "/")) u = true ->
  match rest with [] => True | c :: _ => c = 47%N end ->
  group_or_empty 1 (exec Enhanced.profile_re
                      (pre ++ lit "instagram.com/" ++ u ++ rest)) = u.
Proof.
  intros Hpre Hne Hu Hr. unfold exec.
  rewrite exec_from_skip.
  2:{ intros c s Hc. apply Enhanced_profile_miss. intros ->.
      assert (existsb (N.eqb 105) pre = true)
        by (apply existsb_exists; exists 105%N; split; [exact Hc | reflexivity]).
      congruence. }
  destruct u as [|x w]; [congruence|]. cbn [forallb] in Hu.
  apply andb_prop in Hu. destruct Hu as [Hx Hw].
  assert (E : match_here Enhanced.profile_re
                (lit "instagram.com/" ++ (x :: w) ++ rest)
              = Some (rest, [(1%nat, x :: w)])).
  { unfold match_here, Enhanced.profile_re.
    cbn [run]. rewrite run_str.
    apply run_plus_greedy; [exact Hx | exact Hw | |].
    - destruct rest as [|c rest]; [exact I | subst c; reflexivity].
    - cbv beta. change (x :: w ++ rest) with ((x :: w) ++ rest).
      now rewrite consumed_prefix. }
  erewrite exec_from_here; [|exact E]. reflexivity.
Qed.

Lemma profile_name_is_first_segment_witness :
  group_or_empty 1 (exec Enhanced.profile_re
                      (lit "https://www.instagram.com/natgeo/reel/ABC123/"))
  = lit "natgeo" /\
  group_or_empty 1 (exec Enhanced.profile_re
                      (lit "https://www.instagram.com/reel/ABC123/"))
  = lit "reel".
Proof.
  split.
  - exact (@profile_name_is_first_segment (lit "https://www.") (lit "natgeo")
             (lit "/reel/ABC123/") eq_refl ltac:(discriminate) eq_refl eq_refl).
  - exact (@profile_name_is_first_segment (lit "https://www.") (lit "reel")
             (lit "/ABC123/") eq_refl ltac:(discriminate) eq_refl eq_refl).
Defined.

(* ===================================================================== *)
(** * Which strategy wins *)
(* ===================================================================== *)

(** ** Second file of [part_000]: the audio link *)

Lemma selected_text_nonempty p sel min a :
  selected_text p sel min = Some a -> truthy_str (Some a) = true.
Proof.
  unfold selected_text.
  destruct (querySelector p sel) as [e|[el|]]; try discriminate.
  destruct (textContent el) as [e|[t|]]; try discriminate.
  destruct (negb (is_empty t) && negb (is_empty (trim t)) && (min <? List.length t))
    eqn:E; [|discriminate].
  intros [= <-]. apply andb_prop in E. destruct E as [E _].
  apply andb_prop in E. destruct E as [_ E].
  destruct (trim t); [discriminate | reflexivity].
Qed.

(** The audio step when the audio link has a text. *)
Lemma Optimized_audio_link_found p text st a :
  selected_text p Optimized.audioLink 0 = Some a ->
  Optimized.extract_audio p text st
  = (inr tt, mkState (set_audioUsed (Some a) (reelData st)) (pushed st)).
Proof.
  intros H. unfold selected_text in H.
  unfold Optimized.extract_audio, Optimized.audio_from_link,
    Optimized.audio_from_pattern, Optimized.audio_from_status,
    try_catch, bind, await, read, when, assign.
  destruct (querySelector p Optimized.audioLink) as [e|[el|]]; try discriminate.
  destruct (textContent el) as [e|[[|a0 t]|]]; try discriminate.
  cbn [is_empty negb andb List.length Nat.ltb Nat.leb] in H.
  destruct (trim (a0 :: t)) as [|b r]; [discriminate|].
  cbn [is_empty negb] in H. injection H as <-. reflexivity.
Qed.

(** X12. In the second file of [part_000], the text of the audio link
    comes first: when the first element of the audio-link selector has a
    text that is not white space only, a record pushed without [error]
    holds that text, trimmed, as [audioUsed], whatever the page text
    says. *)
Theorem audio_link_takes_precedence (ctx : Context) (d : ReelData) (a : jstring) :
  In d (emitted (handler Second) ctx) -> error d = None ->
  selected_text (page ctx) Optimized.audioLink 0 = Some a ->
  audioUsed d = Some a.
Proof.
  intros Hin Hd Ha.
  destruct (@emitted_without_error Second ctx d Hin Hd) as (st1 & Hr & ->).
  cbn [extraction] in Hr.
  refine (@wp_returned _ _ (fun _ => audio_is a) (fun _ _ => True) _ _ _ _ Hr).
  unfold Optimized_extract.
  do 6 (apply wp_bind, wp_any; [intros ? ? | constructor]).
  apply wp_bind. eapply wp_known; [apply Optimized_audio_link_found, Ha|].
  eapply wp_weaken;
    [apply (preserves_wp _ (@Optimized_caption_keeps_audio_is a (page ctx) _))
    | |]; cbv beta; auto.
  reflexivity.
Qed.

(** ** First file of [part_000]: the embedded data *)

(** A read of a field an invariant fixes. *)
Lemma preserves_bind_read_inv (I : State -> Prop) A B (g : ReelData -> A) (a : A)
  (f : A -> M B) :
  (forall st, I st -> g (reelData st) = a) ->
  preserves I (f a) -> preserves I (bind (read g) f).
Proof.
  intros Hg Hf st H. unfold bind, read. rewrite (Hg st H). apply Hf, H.
Qed.

(** [preserves] through steps that write a field only after they read it
    falsy: [val] is what the invariant says of the field, [Hx] that it is
    truthy. *)
Ltac guarded val Hx :=
  autounfold with steps; cbv zeta;
  repeat first
    [ apply preserves_ret
    | apply preserves_throw
    | apply preserves_await
    | apply preserves_bind_read_inv with (a := val);
      [ intros ? HH; first [exact HH | exact (proj1 HH)]
      | cbv beta; rewrite ?Hx; cbn [negb andb orb]; rewrite ?andb_false_r;
        cbn [when] ]
    | apply preserves_read
    | apply preserves_when
    | apply preserves_bind; [| intro]
    | apply preserves_try_catch; [| intro]
    | apply preserves_for_of; intro
    | apply preserves_assign; field_kept
    | match goal with
      | |- preserves _ (match ?x with _ => _ end) => destruct x
      end ].

(** What follows the reading of the embedded data. *)
Lemma Enhanced_keeps_username p u :
  truthy_str (Some u) = true ->
  preserves (fun st => username (reelData st) = Some u)
    (Enhanced.extract_username p ;; Enhanced.extract_audio p ;;
     Enhanced.extract_metrics p ;; Enhanced.extract_caption p).
Proof.
  intros Hx. guarded (Some u) Hx.
Qed.

Lemma Enhanced_keeps_likes p x :
  truthy_num (Some x) = true ->
  preserves (fun st => likes (reelData st) = Some x)
    (Enhanced.extract_username p ;; Enhanced.extract_audio p ;;
     Enhanced.extract_metrics p ;; Enhanced.extract_caption p).
Proof. intros Hx. guarded (Some x) Hx. Qed.

Lemma Enhanced_keeps_views p x :
  truthy_num (Some x) = true ->
  preserves (fun st => views (reelData st) = Some x)
    (Enhanced.extract_username p ;; Enhanced.extract_audio p ;;
     Enhanced.extract_metrics p ;; Enhanced.extract_caption p).
Proof. intros Hx. guarded (Some x) Hx. Qed.

Lemma Enhanced_keeps_comments p x :
  truthy_num (Some x) = true ->
  preserves (fun st => comments (reelData st) = Some x)
    (Enhanced.extract_username p ;; Enhanced.extract_audio p ;;
     Enhanced.extract_metrics p ;; Enhanced.extract_caption p).
Proof. intros Hx. guarded (Some x) Hx. Qed.

Lemma Enhanced_keeps_caption p c t :
  truthy_str (Some c) = true ->
  preserves (fun st => description (reelData st) = Some c /\ title (reelData st) = t)
    (Enhanced.extract_username p ;; Enhanced.extract_audio p ;;
     Enhanced.extract_metrics p ;; Enhanced.extract_caption p).
Proof. intros Hx. guarded (Some c) Hx. Qed.

(** The reading of the embedded data, when there are some. *)
Lemma Enhanced_api_copies p m st :
  shared_media p = inr (Some m) ->
  exists st',
    Enhanced.internal_api p st = (inr tt, st') /\
    username (reelData st') = owner_username m /\
    likes (reelData st') = edge_media_preview_like_count m /\
    views (reelData st') = video_view_count m /\
    comments (reelData st') = edge_media_to_comment_count m /\
    description (reelData st') = caption_text m /\
    title (reelData st')
    = match caption_text m with
      | Some (x :: t) => match title_of false (x :: t) with
                         | Some l => Some l
                         | None => title (reelData st)
                         end
      | _ => title (reelData st)
      end.
Proof.
  intros H. unfold Enhanced.internal_api, try_catch, bind, await, read, assign, when.
  rewrite H. cbn [fst snd reelData pushed description set_description].
  unfold title_of. cbn [andb].
  destruct (caption_text m) as [[|x t]|]; cbv zeta;
    try (eexists; repeat split; reflexivity).
  rewrite andb_true_r.
  destruct (List.length (trim (first_line (x :: t))) <=? 100);
    eexists; repeat split; reflexivity.
Qed.

(** The extraction of the first file, when an invariant holds after the
    reading of the embedded data and the later steps keep it. *)
Lemma Enhanced_extract_after_api p (I : State -> Prop) st :
  (forall st0 st1, Enhanced.internal_api p st0 = (inr tt, st1) ->
                   pushed st0 = pushed st -> title (reelData st0) = title (reelData st) ->
                   I st1) ->
  preserves I (Enhanced.extract_username p ;; Enhanced.extract_audio p ;;
               Enhanced.extract_metrics p ;; Enhanced.extract_caption p) ->
  wp (Enhanced_extract p) (fun _ => I) (fun _ _ => True) st.
Proof.
  intros Hapi Hrest. unfold Enhanced_extract.
  set (J := fun st' => pushed st' = pushed st /\ title (reelData st') = title (reelData st)).
  assert (J0 : J st) by (split; reflexivity).
  eapply wp_bind_inv; [apply preserves_await | exact J0 | | auto]. intros [] st1 J1.
  eapply wp_bind_inv;
    [apply preserves_try_catch; [apply preserves_await | intros; apply preserves_ret]
    | exact J1 | | auto].
  intros [] st2 J2.
  eapply wp_bind_inv;
    [unfold Enhanced.check_redirect; cbv zeta; apply preserves_when, preserves_throw
    | exact J2 | | auto].
  intros [] st3 [J3 T3].
  apply wp_bind. unfold wp at 1.
  destruct (Enhanced.internal_api p st3) as [[e|[]] st4] eqn:A.
  { exfalso.
    assert (N : no_throw (Enhanced.internal_api p)) by returns.
    destruct (N st3) as [a Ha]. rewrite A in Ha. discriminate. }
  pose proof (Hapi st3 st4 A J3 T3) as I4.
  eapply wp_weaken; [apply (preserves_wp st4 Hrest I4) | |]; cbv beta; auto.
Qed.

(** X13. In the first file of [part_000], what the data embedded in the
    page give comes first: in a record pushed without [error], a name, a
    count or a caption of the embedded data that is truthy (a non-empty
    string, a number other than 0 and NaN) is the value of the field, and
    no selector or pattern of the later steps replaces it; the title is
    then the one the embedded caption gives. *)
Theorem embedded_data_take_precedence (ctx : Context) (m : Media) (d : ReelData) :
  shared_media (page ctx) = inr (Some m) ->
  In d (emitted (handler First) ctx) -> error d = None ->
  (truthy_str (owner_username m) = true -> username d = owner_username m) /\
  (truthy_num (edge_media_preview_like_count m) = true ->
   likes d = edge_media_preview_like_count m) /\
  (truthy_num (video_view_count m) = true -> views d = video_view_count m) /\
  (truthy_num (edge_media_to_comment_count m) = true ->
   comments d = edge_media_to_comment_count m) /\
  (forall c, caption_text m = Some c -> c <> [] ->
     description d = Some c /\ title d = title_of false c).
Proof.
  intros Hm Hin Hd.
  destruct (@emitted_without_error First ctx d Hin Hd) as (st1 & Hr & ->).
  cbn [extraction] in Hr.
  set (st0 := mkState (new_reelData (request_url ctx)) []) in *.
  assert (Hc : forall I : State -> Prop,
             (forall s0 s1, Enhanced.internal_api (page ctx) s0 = (inr tt, s1) ->
                            pushed s0 = pushed st0 ->
                            title (reelData s0) = title (reelData st0) -> I s1) ->
             preserves I (Enhanced.extract_username (page ctx) ;;
                          Enhanced.extract_audio (page ctx) ;;
                          Enhanced.extract_metrics (page ctx) ;;
                          Enhanced.extract_caption (page ctx)) ->
             I st1).
  { intros I H1 H2.
    exact (@wp_returned _ _ (fun _ => I) (fun _ _ => True) _ _ _
             (@Enhanced_extract_after_api (page ctx) I st0 H1 H2) Hr). }
  assert (Ha : forall s0 s1, Enhanced.internal_api (page ctx) s0 = (inr tt, s1) ->
             username (reelData s1) = owner_username m /\
             likes (reelData s1) = edge_media_preview_like_count m /\
             views (reelData s1) = video_view_count m /\
             comments (reelData s1) = edge_media_to_comment_count m /\
             description (reelData s1) = caption_text m /\
             title (reelData s1)
             = match caption_text m with
               | Some (x :: t) => match title_of false (x :: t) with
                                  | Some l => Some l
                                  | None => title (reelData s0)
                                  end
               | _ => title (reelData s0)
               end).
  { intros s0 s1 A. destruct (@Enhanced_api_copies (page ctx) m s0 Hm) as (s' & A' & H).
    rewrite A in A'. injection A' as <-. exact H. }
  split; [|split; [|split; [|split]]].
  - intros T. destruct (owner_username m) as [u|] eqn:E; [|discriminate].
    apply (Hc (fun st => username (reelData st) = Some u)).
    + intros s0 s1 A _ _. destruct (Ha s0 s1 A) as (H & _). exact H.
    + apply Enhanced_keeps_username, T.
  - intros T. destruct (edge_media_preview_like_count m) as [x|] eqn:E; [|discriminate].
    apply (Hc (fun st => likes (reelData st) = Some x)).
    + intros s0 s1 A _ _. destruct (Ha s0 s1 A) as (_ & H & _). exact H.
    + apply Enhanced_keeps_likes, T.
  - intros T. destruct (video_view_count m) as [x|] eqn:E; [|discriminate].
    apply (Hc (fun st => views (reelData st) = Some x)).
    + intros s0 s1 A _ _. destruct (Ha s0 s1 A) as (_ & _ & H & _). exact H.
    + apply Enhanced_keeps_views, T.
  - intros T. destruct (edge_media_to_comment_count m) as [x|] eqn:E; [|discriminate].
    apply (Hc (fun st => comments (reelData st) = Some x)).
    + intros s0 s1 A _ _. destruct (Ha s0 s1 A) as (_ & _ & _ & H & _). exact H.
    + apply Enhanced_keeps_comments, T.
  - intros c Ec Hne.
    apply (Hc (fun st => description (reelData st) = Some c /\
                         title (reelData st) = title_of false c)).
    + intros s0 s1 A _ T0. destruct (Ha s0 s1 A) as (_ & _ & _ & _ & H5 & H6).
      rewrite Ec in H5, H6. split; [exact H5|].
      destruct c as [|x t]; [congruence|]. rewrite H6, T0.
      destruct (title_of false (x :: t)); reflexivity.
    + apply Enhanced_keeps_caption. destruct c; [congruence | reflexivity].
Qed.

Lemma audio_link_takes_precedence_witness :
  In sung_record (emitted (handler Second) sung) /\
  error sung_record = None /\
  selected_text (page sung) Optimized.audioLink 0 = Some (lit "Artist - Song") /\
  audioUsed sung_record = Some (lit "Artist - Song").
Proof.
  assert (Hin : In sung_record (emitted (handler Second) sung))
    by (left; vm_compute; reflexivity).
  assert (Hd : error sung_record = None) by (vm_compute; reflexivity).
  assert (Ha : selected_text (page sung) Optimized.audioLink 0
               = Some (lit "Artist - Song")) by (vm_compute; reflexivity).
  split; [exact Hin|]. split; [exact Hd|]. split; [exact Ha|].
  exact (@audio_link_takes_precedence sung sung_record _ Hin Hd Ha).
Defined.

Lemma embedded_data_take_precedence_witness :
  shared_media (page embedding) = inr (Some some_media) /\
  In embedding_record (emitted (handler First) embedding) /\
  error embedding_record = None /\
  username embedding_record = Some (lit "natgeo") /\
  likes embedding_record = Some (of_N 7) /\
  views embedding_record = Some (of_N 5) /\
  description embedding_record = Some (lit "A day at the reef").
Proof.
  assert (Hm : shared_media (page embedding) = inr (Some some_media)) by reflexivity.
  assert (Hin : In embedding_record (emitted (handler First) embedding))
    by (left; vm_compute; reflexivity).
  assert (Hd : error embedding_record = None) by (vm_compute; reflexivity).
  destruct (@embedded_data_take_precedence embedding some_media embedding_record
              Hm Hin Hd) as (Hu & Hl & _ & _ & Hc).
  split; [exact Hm|]. split; [exact Hin|]. split; [exact Hd|].
  split; [exact (Hu eq_refl)|]. split; [exact (Hl eq_refl)|].
  split; [vm_compute; reflexivity|].
  exact (proj1 (Hc (lit "A day at the reef") eq_refl ltac:(discriminate))).
Defined.

(* ===================================================================== *)
(** * Plain numbers of more than three digits *)
(* ===================================================================== *)

(** ** What a match starts with *)

Lemma same_length_suffix (w s : jstring) :
  (List.length (w ++ s) <= List.length s)%nat -> w = [].
Proof.
  rewrite length_app. destruct w; [reflexivity | simpl; lia].
Qed.

(** A pattern that matches the empty text is [nullable]. *)
Lemma matches_nullable r s s' : matches r s s' -> s' = s -> nullable r = true.
Proof.
  induction 1 as [s|p x s Hp|r1 r2 s s1 s2 M1 IH1 M2 IH2|r1 r2 s s' M IH
                 |r1 r2 s s' M IH|g r s|g r s s1 s2 M1 IH1 L M2 IH2
                 |i r s s' M IH|];
    intros E; cbn [nullable]; try reflexivity.
  - exfalso. apply (f_equal (@List.length N)) in E. simpl in E. lia.
  - subst s2. destruct (matches_suffix M1) as [w1 E1].
    pose proof (matches_length M2) as L2. rewrite E1 in L2.
    apply same_length_suffix in L2. subst w1. cbn [app] in E1. subst s1.
    now rewrite IH1, IH2.
  - now rewrite IH.
  - rewrite IH by exact E. apply orb_true_r.
  - now apply IH.
Qed.

(** A match that is not empty starts with a code unit the pattern can
    open with. *)
Lemma matches_opening r s s' :
  matches r s s' -> s' = s \/ exists c t, s = c :: t /\ opening r c = true.
Proof.
  induction 1 as [s|p x s Hp|r1 r2 s s1 s2 M1 IH1 M2 IH2|r1 r2 s s' M IH
                 |r1 r2 s s' M IH|g r s|g r s s1 s2 M1 IH1 L M2 IH2
                 |i r s s' M IH|];
    cbn [opening].
  - now left.
  - right. exists x, s. split; [reflexivity | exact Hp].
  - destruct IH1 as [E1|(c & t & -> & O1)].
    + subst s1. pose proof (matches_nullable M1 eq_refl) as N1.
      destruct IH2 as [E2|(c & t & -> & O2)]; [now left|].
      right. exists c, t. split; [reflexivity|]. rewrite N1, O2. apply orb_true_r.
    + right. exists c, t. split; [reflexivity|]. now rewrite O1.
  - destruct IH as [E|(c & t & -> & O)]; [now left|].
    right. exists c, t. split; [reflexivity|]. now rewrite O.
  - destruct IH as [E|(c & t & -> & O)]; [now left|].
    right. exists c, t. split; [reflexivity|]. rewrite O. apply orb_true_r.
  - now left.
  - destruct IH1 as [E1|(c & t & -> & O1)]; [subst s1; lia|].
    right. exists c, t. split; [reflexivity | exact O1].
  - exact IH.
  - now left.
Qed.

(** A pattern that cannot open with the next code unit matches nothing of
    it, and only if it is [nullable]. *)
Lemma matches_blocked r c t s' :
  matches r (c :: t) s' -> opening r c = false ->
  s' = c :: t /\ nullable r = true.
Proof.
  intros M O. destruct (matches_opening M) as [E|(c' & t' & E & O')].
  - split; [exact E | exact (matches_nullable M E)].
  - injection E as <- <-. congruence.
Qed.

Lemma matches_upto_sym (p : char -> bool) n : forall s s',
  matches (Upto n (Sym p)) s s' ->
  exists w, s = w ++ s' /\ (List.length w <= n)%nat /\ forallb p w = true.
Proof.
  induction n as [|n IH]; intros s s' M; cbn [Upto] in M.
  - apply matches_eps_inv in M. subst. exists []. repeat split. simpl. lia.
  - apply matches_alt_inv in M. destruct M as [M|M].
    + apply matches_cat_inv in M. destruct M as (s1 & Mx & Mr).
      apply matches_sym_inv in Mx. destruct Mx as (x & -> & Hx).
      destruct (IH _ _ Mr) as (w & -> & Lw & Hw).
      exists (x :: w). repeat split; [simpl; lia | cbn [forallb]; now rewrite Hx, Hw].
    + apply matches_eps_inv in M. subst. exists []. repeat split. simpl. lia.
Qed.

(** ** The digits *)

Lemma digit_cases c :
  is_digit c = true ->
  In c [48; 49; 50; 51; 52; 53; 54; 55; 56; 57]%N.
Proof. intros H. apply is_digit_range in H. simpl. lia. Qed.

Ltac by_digit H :=
  apply digit_cases in H; simpl in H;
  repeat (destruct H as [H|H]; [subst; vm_compute; reflexivity|]);
  destruct H.

(** What follows the numeral of the likes pattern of [main.ts]:
    [\s*likes?] under the [i] flag. *)
Lemma MainTs_likes_word_blocked c : is_digit c = true ->
  opening (Star true (Sym space) +++ str_i (lit "like")
           +++ Opt (chr_i (ch "s")))%re c = false.
Proof. intros H. by_digit H. Qed.

(** What follows the first three digits of the count pattern of
    [main.ts]. *)
Lemma MainTs_count_tail_blocked c : is_digit c = true \/ c = 32%N ->
  opening (Star true (chr c_comma +++ Quant 3 3 (Sym digit))
           +++ Opt (chr c_dot +++ Plus (Sym digit))
           +++ Opt (Sym (one_of_i (lit "KM"))))%re c = false.
Proof. intros [H| ->]; [by_digit H | vm_compute; reflexivity]. Qed.

(** The count pattern on a text that starts with a digit: it takes one to
    three digits, and nothing more when a digit or a space comes next. *)
Lemma MainTs_count_digits s s1 :
  matches MainTs.count_re s s1 ->
  exists d w q, s = d :: w ++ q /\ (List.length w <= 2)%nat /\
                forallb is_digit (d :: w) = true /\
                matches (Star true (chr c_comma +++ Quant 3 3 (Sym digit))
                         +++ Opt (chr c_dot +++ Plus (Sym digit))
                         +++ Opt (Sym (one_of_i (lit "KM"))))%re q s1.
Proof.
  unfold MainTs.count_re. intros M.
  apply matches_cat_inv in M. destruct M as (q & Mq & Mt).
  unfold Quant in Mq. cbn [Nat.sub Rep] in Mq.
  apply matches_cat_inv in Mq. destruct Mq as (s0 & Md & Mu).
  apply matches_sym_inv in Md. destruct Md as (d & -> & Hd).
  apply matches_upto_sym in Mu. destruct Mu as (w & -> & Lw & Hw).
  exists d, w, q. repeat split; try assumption.
  cbn [forallb]. unfold digit in *. now rewrite Hd, Hw.
Qed.

(** Four digits in a row are not where a likes pattern starts. *)
Lemma MainTs_likes_four_digits d1 d2 d3 d4 t :
  forallb is_digit [d1; d2; d3; d4] = true ->
  match_here MainTs.likes_re (d1 :: d2 :: d3 :: d4 :: t) = None.
Proof.
  intros H. cbn [forallb] in H.
  apply andb_prop in H. destruct H as [H1 H].
  apply andb_prop in H. destruct H as [H2 H].
  apply andb_prop in H. destruct H as [H3 H].
  apply andb_prop in H. destruct H as [H4 _].
  destruct (match_here MainTs.likes_re (d1 :: d2 :: d3 :: d4 :: t)) as [[s' c]|] eqn:E;
    [exfalso | reflexivity].
  apply match_here_sound in E. unfold MainTs.likes_re in E.
  apply matches_cat_inv in E. destruct E as (s1 & Mg & Mw).
  apply matches_grp_inv, MainTs_count_digits in Mg.
  destruct Mg as (d & w & q & Es & Lw & _ & Mt).
  assert (Q : exists c q', q = c :: q' /\ is_digit c = true).
  { injection Es as _ Es.
    destruct w as [|x [|y [|z w]]]; cbn [app] in Es; [| | |simpl in Lw; lia].
    - subst q. eauto.
    - injection Es as _ <-. eauto.
    - injection Es as _ _ <-. eauto. }
  destruct Q as (c0 & q' & -> & Hc).
  apply matches_blocked in Mt; [|apply MainTs_count_tail_blocked; left; exact Hc].
    destruct Mt as [-> _].
  apply matches_blocked in Mw; [|apply MainTs_likes_word_blocked; exact Hc].
    destruct Mw as [_ N].
  discriminate N.
Qed.

Lemma MainTs_likes_many_digits d l R :
  is_digit d = true -> forallb is_digit l = true -> (3 <= List.length l)%nat ->
  match_here MainTs.likes_re (d :: l ++ R) = None.
Proof.
  intros Hd Hl L.
  destruct l as [|x [|y [|z l]]]; simpl in L; try lia.
  cbn [forallb] in Hl.
  apply andb_prop in Hl. destruct Hl as [Hx Hl].
  apply andb_prop in Hl. destruct Hl as [Hy Hl].
  apply andb_prop in Hl. destruct Hl as [Hz _].
  cbn [app]. apply MainTs_likes_four_digits.
  cbn [forallb]. now rewrite Hd, Hx, Hy, Hz.
Qed.

(** The group of a pattern [(r1) r2], with no other group, and what [r2]
    matched after it. *)
Lemma match_here_leading_rest i r1 r2 s s' c :
  groupless r1 = true -> groupless r2 = true ->
  match_here (Cat (Grp i r1) r2) s = Some (s', c) ->
  exists g s1, s = g ++ s1 /\ matches r1 (g ++ s1) s1 /\ matches r2 s1 s' /\
               capture i c = Some g.
Proof.
  intros G1 G2 H. unfold match_here in H.
  change (run (Cat (Grp i r1) r2) s [] (fun s' c' => Some (s', c')))
    with (run (Grp i r1) s [] (fun s1 c1 =>
            run r2 s1 c1 (fun s' c' => Some (s', c')))) in H.
  destruct (@run_grp_capture _ i r1 _ _ _ _ G1 H) as (g & s1 & -> & M1 & K1).
  destruct (@run_groupless _ r2 G2 _ _ _ _ K1) as (s2 & M2 & K2).
  injection K2 as <- <-.
  exists g, s1. repeat split; try assumption.
  unfold capture. cbn [find fst]. rewrite Nat.eqb_refl. reflexivity.
Qed.

(** The likes pattern where three digits and the word stand: its group is
    the three digits. *)
Lemma MainTs_likes_three_digits a b c post s' caps0 :
  forallb is_digit [a; b; c] = true ->
  match_here MainTs.likes_re ([a; b; c] ++ lit " likes" ++ post) = Some (s', caps0) ->
  capture 1 caps0 = Some [a; b; c].
Proof.
  intros H E. cbn [forallb] in H.
  apply andb_prop in H. destruct H as [Ha H].
  apply andb_prop in H. destruct H as [Hb H].
  apply andb_prop in H. destruct H as [Hc _].
  unfold MainTs.likes_re in E.
  apply match_here_leading_rest in E; [|reflexivity..].
  destruct E as (g & s1 & Es & Mg & Mw & Cg). rewrite Cg. f_equal.
  apply MainTs_count_digits in Mg.
  destruct Mg as (d & w & q & Eq & Lw & _ & Mt).
  rewrite <- Es in Eq.
  change ([a; b; c] ++ lit " likes" ++ post)%list
    with (a :: b :: c :: 32%N :: lit "likes" ++ post)%list in *.
  injection Eq as _ Eq.
  destruct w as [|x [|y [|z w]]]; cbn [app] in Eq; [| | |simpl in Lw; lia].
  - exfalso. subst q.
    apply matches_blocked in Mt; [|apply MainTs_count_tail_blocked; left; exact Hb].
    destruct Mt as [-> _].
    apply matches_blocked in Mw; [|apply MainTs_likes_word_blocked; exact Hb].
    destruct Mw as [_ N].
    discriminate N.
  - exfalso. injection Eq as _ <-.
    apply matches_blocked in Mt; [|apply MainTs_count_tail_blocked; left; exact Hc].
    destruct Mt as [-> _].
    apply matches_blocked in Mw; [|apply MainTs_likes_word_blocked; exact Hc].
    destruct Mw as [_ N].
    discriminate N.
  - injection Eq as _ _ <-.
    apply matches_blocked in Mt; [|apply MainTs_count_tail_blocked; right; reflexivity].
    destruct Mt as [-> _].
    change (a :: b :: c :: 32%N :: lit "likes" ++ post)%list
      with ([a; b; c] ++ 32%N :: lit "likes" ++ post)%list in Es.
    apply app_inv_tail in Es. now symmetry.
Qed.

Lemma matches_str_i l s : matches (str_i l) (l ++ s) s.
Proof.
  induction l as [|a l IH]; cbn [str_i app]; [apply M_eps|].
  apply M_cat with (l ++ s); [apply M_sym, N.eqb_refl | exact IH].
Qed.

(** The likes pattern matches where one to three digits and the word
    stand. *)
Lemma MainTs_likes_matches a b c post :
  forallb is_digit [a; b; c] = true ->
  matches MainTs.likes_re ([a; b; c] ++ lit " likes" ++ post) post.
Proof.
  intros H. cbn [forallb] in H.
  apply andb_prop in H. destruct H as [Ha H].
  apply andb_prop in H. destruct H as [Hb H].
  apply andb_prop in H. destruct H as [Hc _].
  unfold MainTs.likes_re.
  apply M_cat with (lit " likes" ++ post).
  { apply M_grp. unfold MainTs.count_re.
    apply M_cat with (lit " likes" ++ post).
    - unfold Quant. cbn [Nat.sub Rep Upto app].
      apply M_cat with (b :: c :: lit " likes" ++ post); [apply M_sym, Ha|].
      apply M_alt_l, M_cat with (c :: lit " likes" ++ post); [apply M_sym, Hb|].
      apply M_alt_l, M_cat with (lit " likes" ++ post); [apply M_sym, Hc|].
      apply M_eps.
    - apply M_cat with (lit " likes" ++ post); [apply M_star_done|].
      apply M_cat with (lit " likes" ++ post); apply M_alt_r, M_eps. }
  apply M_cat with (lit "likes" ++ post).
  { apply M_star_more with (lit "likes" ++ post);
      [apply M_sym; reflexivity | simpl; lia | apply M_star_done]. }
  apply M_cat with (lit "s" ++ post); [apply (matches_str_i (lit "like"))|].
  apply M_alt_l, M_sym. reflexivity.
Qed.

(** The leftmost likes pattern of a run of digits and the word: it starts
    at the last three digits. *)
Lemma MainTs_likes_exec ds a b c post :
  forallb is_digit ds = true -> forallb is_digit [a; b; c] = true ->
  forall i, exists m,
    exec_from i MainTs.likes_re (ds ++ [a; b; c] ++ lit " likes" ++ post) = Some m /\
    group 1 m = Some [a; b; c].
Proof.
  intros Hds Habc. induction ds as [|d ds IH]; intros i.
  - cbn [app exec_from].
    pose proof (@match_here_complete _ _ _ (@MainTs_likes_matches a b c post Habc)) as Hc.
    change (a :: b :: c :: lit " likes" ++ post)%list
      with ([a; b; c] ++ lit " likes" ++ post)%list.
    destruct (match_here MainTs.likes_re ([a; b; c] ++ lit " likes" ++ post))
      as [[s' c0]|] eqn:E; [|congruence].
    eexists. split; [reflexivity|]. cbn [group groups].
    exact (@MainTs_likes_three_digits a b c post _ _ Habc E).
  - cbn [forallb] in Hds. apply andb_prop in Hds. destruct Hds as [Hd Hds].
    set (T := (lit " likes" ++ post)%list) in *.
    rewrite app_assoc. cbn [app exec_from].
    rewrite MainTs_likes_many_digits.
    + rewrite <- app_assoc. apply IH, Hds.
    + exact Hd.
    + rewrite forallb_app, Hds. exact Habc.
    + rewrite length_app. simpl. lia.
Qed.

(** ** The value of three digits *)

Lemma three_digits_value a b c :
  forallb is_digit [a; b; c] = true -> (digits_value [a; b; c] < 1000)%N.
Proof.
  intros H. cbn [forallb] in H.
  apply andb_prop in H. destruct H as [Ha H].
  apply andb_prop in H. destruct H as [Hb H].
  apply andb_prop in H. destruct H as [Hc _].
  apply is_digit_range in Ha, Hb, Hc.
  unfold digits_value. cbn [fold_left]. lia.
Qed.

Lemma MainTs_parse_three a b c :
  forallb is_digit [a; b; c] = true ->
  MainTs.parseMetric [a; b; c] = of_N (digits_value [a; b; c]).
Proof.
  intros H.
  assert (U : uncomma [a; b; c] = [a; b; c] ++ fraction [] ++ suffix_text NoSuffix false).
  { unfold uncomma. rewrite remove_all_none; [reflexivity|].
    apply digits_no; [|exact H].
    intros x Hx. rewrite N.eqb_sym. apply digit_not; [exact Hx | unfold c_comma; lia]. }
  rewrite (@MainTs_parseMetric_literal _ _ _ _ _ U ltac:(discriminate) H eq_refl).
  cbn [MainTs_scale List.length Z.of_nat Z.opp]. rewrite app_nil_r.
  fold (of_N (digits_value [a; b; c])).
  apply Math_round_integral with (z := Z.of_N (digits_value [a; b; c])).
  apply exact_below_2_53.
  pose proof (@three_digits_value a b c H). lia.
Qed.

(** ** The likes of a record *)

(** [preserves] through the steps of [main.ts], where a group is handed to
    [parseMetric]. *)
Ltac preserves_main tac :=
  autounfold with steps; cbv zeta;
  repeat first
    [ apply preserves_ret
    | apply preserves_throw
    | apply preserves_await
    | apply preserves_read
    | apply preserves_when
    | apply preserves_bind_group; intros ? ?
    | apply preserves_bind; [| intro]
    | apply preserves_try_catch; [| intro]
    | apply preserves_for_of; intro
    | apply preserves_assign; tac
    | match goal with
      | |- preserves _ (match ?x with _ => _ end) => destruct x
      end ].

Lemma MainTs_metrics_likes p text m g st :
  body_textContent p = inr (Some text) ->
  exec MainTs.likes_re text = Some m -> group 1 m = Some g ->
  wp (MainTs.extract_metrics p)
     (fun _ st' => likes (reelData st') = Some (MainTs.parseMetric g))
     (fun _ _ => False) st.
Proof.
  intros Ht Hm Hg. unfold MainTs.extract_metrics.
  apply wp_try_catch, wp_bind, wp_await. rewrite Ht.
  cbn [exec_opt]. rewrite Hm. unfold group_arg at 1. rewrite Hg.
  apply wp_bind, wp_bind, wp_ret, wp_assign.
  set (L := fun st' : State => likes (reelData st') = Some (MainTs.parseMetric g)).
  eapply wp_weaken with (Q' := fun _ => L) (E' := fun _ => L).
  - apply preserves_wp; [|reflexivity].
    preserves_main field_kept.
  - auto.
  - intros e st' H. apply wp_ret. exact H.
Qed.

Lemma MainTs_extract_likes p text m g st :
  waitForTimeout p = inr tt ->
  body_textContent p = inr (Some text) ->
  exec MainTs.likes_re text = Some m -> group 1 m = Some g ->
  wp (MainTs_extract p)
     (fun _ st' => likes (reelData st') = Some (MainTs.parseMetric g))
     (fun _ _ => False) st.
Proof.
  intros Hload Ht Hm Hg. unfold MainTs_extract.
  set (T := fun _ : State => True).
  assert (PT : forall A (c : M A), preserves T c) by (intros A c s _; exact I).
  eapply wp_bind_total with (I := T); [ | apply PT | exact I | ].
  { apply no_throw_try_catch. intros e. apply no_throw_ret. }
  intros [] st1 _.
  apply wp_bind, wp_await. rewrite Hload.
  eapply wp_bind_total with (I := T); [returns | apply PT | exact I | ].
  intros [] st2 _.
  eapply wp_bind_total with (I := T); [returns | apply PT | exact I | ].
  intros [] st3 _.
  apply wp_bind.
  eapply wp_weaken;
    [apply (@MainTs_metrics_likes p text m g st3 Ht Hm Hg) | | intros e st' []].
  intros [] st4 H4. cbv beta.
  apply wp_total with (I := fun st' => likes (reelData st') = Some (MainTs.parseMetric g));
    [ | | exact H4].
  { returns. }
  { preserves_main field_kept. }
Qed.

(** X14. In [main.ts] only the last three digits of a plain number count:
    on a page that loads and whose text starts with a run of digits
    followed by [ likes], every record pushed has as [likes] the value of
    the last three digits of the run, whatever digits stand before them
    ("1234 likes" gives 234). *)
Theorem plain_number_is_cut_to_three_digits (ctx : Context) (ds : jstring)
  (a b c : N) (post : jstring) (d : ReelData) :
  waitForTimeout (page ctx) = inr tt ->
  body_textContent (page ctx)
  = inr (Some (ds ++ [a; b; c] ++ lit " likes" ++ post)) ->
  forallb is_digit ds = true -> forallb is_digit [a; b; c] = true ->
  In d (emitted (handler Main) ctx) ->
  likes d = Some (of_N (digits_value [a; b; c])).
Proof.
  intros Hload Ht Hds Habc.
  apply (@handler_pushed (fun r => likes r = Some (of_N (digits_value [a; b; c])))).
  - destruct (@MainTs_likes_exec ds a b c post Hds Habc 0) as (m & Hm & Hg).
    rewrite <- (@MainTs_parse_three a b c Habc). cbn [extraction].
    apply (@wp_state _ (MainTs_extract (page ctx))
             (fun st' => likes (reelData st') = Some (MainTs.parseMetric [a; b; c]))).
    eapply wp_weaken;
      [apply (@MainTs_extract_likes (page ctx) _ m [a; b; c] _ Hload Ht Hm Hg)
      | auto | intros e st' []].
  - intros e r H. exact H.
Qed.

Lemma plain_number_is_cut_to_three_digits_witness :
  map (fun d => option_map to_Z (likes d))
      (emitted (handler Main) (bare (lit "1234 likes")))
  = [Some (Some 234%Z)] /\
  Forall (fun d => likes d = Some (of_N 234))
         (emitted (handler Main) (bare (lit "1234 likes"))).
Proof.
  split; [vm_compute; reflexivity|].
  apply Forall_forall. intros d Hd.
  exact (@plain_number_is_cut_to_three_digits (bare (lit "1234 likes"))
           (lit "1") 50%N 51%N 52%N [] d eq_refl eq_refl eq_refl eq_refl Hd).
Defined.

(* ===================================================================== *)
(** * Captions and titles: lines, filters and the exact heading *)
(* ===================================================================== *)

(** ** The title is one short line *)

Lemma first_line_no_lf s : ~ In c_lf (first_line s).
Proof.
  unfold first_line. induction s as [|c t IH]; cbn [split hd]; [intros []|].
  destruct (N.eqb_spec c c_lf) as [->|Hc]; [intros []|].
  destruct (split c_lf t) as [|l ls]; cbn [hd] in *.
  - intros [H|[]]. congruence.
  - intros [H|H]; [congruence | exact (IH H)].
Qed.

Lemma trim_in c s : In c (trim s) -> In c s.
Proof.
  intros H. destruct (trim_piece s) as (a & b & E). rewrite E.
  apply in_or_app. right. apply in_or_app. now left.
Qed.

Lemma title_of_short floor caption t :
  title_of floor caption = Some t ->
  (List.length t <= 100)%nat /\ ~ In c_lf t.
Proof.
  unfold title_of. cbv zeta.
  destruct ((List.length (trim (first_line caption)) <=? 100)
            && (if floor then 3 <? List.length (trim (first_line caption)) else true))
    eqn:E; [|discriminate].
  intros [= <-]. apply andb_prop in E. destruct E as [E _].
  apply Nat.leb_le in E. split; [exact E|].
  intros H. apply trim_in in H. exact (first_line_no_lf _ H).
Qed.

(** X15. In [main.ts] and in the first file of [part_000], a title is one
    line of at most 100 code units, and it never stands without a
    description: in every record pushed, the [title], when present, holds
    no line feed and is at most 100 long, and [description] is present. *)
Theorem title_is_one_short_line (v : version) (ctx : Context) (d : ReelData)
  (t : jstring) :
  v <> Second -> In d (emitted (handler v) ctx) -> title d = Some t ->
  (List.length t <= 100)%nat /\ ~ In c_lf t /\ description d <> None.
Proof.
  intros Hv Hin. revert t.
  apply (@handler_pushed
           (fun r => forall t, title r = Some t ->
              (List.length t <= 100)%nat /\ ~ In c_lf t /\ description r <> None)
           v ctx d); [ | intros e r H; exact H | exact Hin].
  set (st0 := mkState (new_reelData (request_url ctx)) []).
  assert (H0 : captionless st0) by (split; reflexivity).
  destruct v; [| |congruence]; cbn [extraction]; intros t Ht.
  - destruct (@MainTs_extract_caption_rule (page ctx) st0 H0)
      as [[_ Hn]|(sel & el & cap & _ & _ & _ & _ & Hd & Hl)]; [congruence|].
    rewrite Hl in Ht. destruct (title_of_short _ _ Ht) as [L N].
    repeat split; [exact L | exact N | congruence].
  - destruct (@Enhanced_extract_caption_rule (page ctx) st0 H0)
      as [[_ Hn]|[(m & cap & _ & _ & _ & Hd & Hl)
                 |(sel & els & el & cap & _ & _ & _ & _ & _ & Hd & Hl)]];
      [congruence| |];
      rewrite Hl in Ht; destruct (title_of_short _ _ Ht) as [L N];
      (repeat split; [exact L | exact N | congruence]).
Qed.

Lemma title_is_one_short_line_witness :
  In two_lines_record (emitted (handler Main) (showing (lit "h1") two_lines)) /\
  title two_lines_record = Some (lit "Hello world") /\
  ~ In c_lf (lit "Hello world") /\
  description two_lines_record <> None.
Proof.
  assert (Hin : In two_lines_record (emitted (handler Main) (showing (lit "h1") two_lines)))
    by (left; vm_compute; reflexivity).
  assert (Ht : title two_lines_record = Some (lit "Hello world"))
    by (vm_compute; reflexivity).
  destruct (@title_is_one_short_line Main _ two_lines_record (lit "Hello world")
              ltac:(discriminate) Hin Ht) as (_ & N & D).
  repeat split; assumption.
Defined.

(** ** What a caption of the page never holds *)

Ltac split_guard :=
  repeat match goal with
         | H : (_ && _) = true |- _ => apply andb_prop in H; destruct H
         end.

Ltac refused :=
  first [ apply Nat.ltb_lt; assumption
        | apply negb_true_iff; assumption
        | apply not_includes_trim, negb_true_iff; assumption ].

(** At an assignment: the description is kept, or the branch cannot be
    reached, or the text passed the tests of its strategy. *)
Ltac caption_filtered :=
  intros ? ? HI c' Hc'; cbn [reelData description set_username set_audioUsed
    set_comments set_likes set_views set_title set_description set_error] in *;
  first [ exact (HI c' Hc')
        | exfalso; congruence
        | injection Hc' as <-; split_guard;
          unfold Enhanced_caption_text, Optimized_caption_text;
          repeat split; refused ].

Lemma Enhanced_extract_filters p :
  shared_media p = inr None ->
  preserves (fun st => forall c, description (reelData st) = Some c ->
                                 Enhanced_caption_text c)
            (Enhanced_extract p).
Proof. intros Hm. unfold Enhanced_extract. preserves_eqn caption_filtered. Qed.

Lemma Optimized_extract_filters p :
  querySelector p Optimized.h1Caption = inr None ->
  preserves (fun st => forall c, description (reelData st) = Some c ->
                                 Optimized_caption_text c)
            (Optimized_extract p).
Proof. intros Hh. unfold Optimized_extract. preserves_eqn caption_filtered. Qed.

(** X16. A caption that a file of [part_000] takes from the elements or
    the text of the page has passed its filter. In every record pushed by
    the first file on a page without embedded data, the [description],
    when present, is more than 10 long and holds neither "likes" nor
    "views"; in every record pushed by the second file on a page with no
    element under the exact heading selector, it is more than 10 long and
    holds none of "likes", "views", "comments", "Follow", the bullet and
    "The Black Eyed Peas". *)
Theorem page_captions_are_filtered (ctx : Context) (d : ReelData) (c : jstring) :
  description d = Some c ->
  (shared_media (page ctx) = inr None ->
   In d (emitted (handler First) ctx) -> Enhanced_caption_text c) /\
  (querySelector (page ctx) Optimized.h1Caption = inr None ->
   In d (emitted (handler Second) ctx) -> Optimized_caption_text c).
Proof.
  intros Hd. split; intros Hno Hin; revert c Hd.
  - apply (@handler_pushed
             (fun r => forall c, description r = Some c -> Enhanced_caption_text c)
             First ctx d); [ | intros e r H; exact H | exact Hin].
    apply (@Enhanced_extract_filters (page ctx) Hno (mkState _ _)).
    intros c Hc. discriminate Hc.
  - apply (@handler_pushed
             (fun r => forall c, description r = Some c -> Optimized_caption_text c)
             Second ctx d); [ | intros e r H; exact H | exact Hin].
    apply (@Optimized_extract_filters (page ctx) Hno (mkState _ _)).
    intros c Hc. discriminate Hc.
Qed.

Lemma page_captions_are_filtered_witness :
  description plainly_headed_record = Some (lit "A day at the reef") /\
  querySelector (page plainly_headed) Optimized.h1Caption = inr None /\
  In plainly_headed_record (emitted (handler Second) plainly_headed) /\
  Optimized_caption_text (lit "A day at the reef").
Proof.
  assert (Hd : description plainly_headed_record = Some (lit "A day at the reef"))
    by (vm_compute; reflexivity).
  assert (Hn : querySelector (page plainly_headed) Optimized.h1Caption = inr None)
    by (vm_compute; reflexivity).
  assert (Hin : In plainly_headed_record (emitted (handler Second) plainly_headed))
    by (left; vm_compute; reflexivity).
  split; [exact Hd|]. split; [exact Hn|]. split; [exact Hin|].
  exact (proj2 (@page_captions_are_filtered plainly_headed plainly_headed_record _ Hd)
           Hn Hin).
Defined.

(** ** Second file of [part_000]: the exact heading *)

Lemma Optimized_heading_found p text st c :
  selected_text p Optimized.h1Caption 0 = Some c ->
  Optimized.extract_caption p text st
  = (inr tt, mkState (set_title (Some c) (set_description (Some c) (reelData st)))
                     (pushed st)).
Proof.
  intros H. unfold selected_text in H.
  unfold Optimized.extract_caption, Optimized.caption_from_h1,
    Optimized.caption_from_selectors, Optimized.caption_from_text,
    try_catch, bind, await, read, when, assign.
  destruct (querySelector p Optimized.h1Caption) as [e|[el|]]; try discriminate.
  destruct (textContent el) as [e|[[|c0 t]|]]; try discriminate.
  cbn [is_empty negb andb List.length Nat.ltb Nat.leb] in H.
  destruct (trim (c0 :: t)) as [|b r]; [discriminate|].
  cbn [is_empty negb] in H. injection H as <-. reflexivity.
Qed.

(** X17. In the second file of [part_000], the exact heading comes first
    and is taken unfiltered: when the first element of the exact heading
    selector has a text that is not white space only, a record pushed
    without [error] holds that text, trimmed, as [description] and as
    [title], whatever words it holds and however long it is. *)
Theorem exact_heading_takes_precedence (ctx : Context) (d : ReelData) (c : jstring) :
  In d (emitted (handler Second) ctx) -> error d = None ->
  selected_text (page ctx) Optimized.h1Caption 0 = Some c ->
  description d = Some c /\ title d = Some c.
Proof.
  intros Hin Hd Hc.
  destruct (@emitted_without_error Second ctx d Hin Hd) as (st1 & Hr & ->).
  cbn [extraction] in Hr.
  refine (@wp_returned _ _
            (fun _ st => description (reelData st) = Some c /\
                         title (reelData st) = Some c)
            (fun _ _ => True) _ _ _ _ Hr).
  unfold Optimized_extract.
  do 7 (apply wp_bind, wp_any; [intros ? ? | constructor]).
  eapply wp_known; [apply Optimized_heading_found, Hc|].
  split; reflexivity.
Qed.

Lemma exact_heading_takes_precedence_witness :
  In headed_record (emitted (handler Second) headed) /\
  error headed_record = None /\
  selected_text (page headed) Optimized.h1Caption 0 = Some (lit "1,200 likes and more") /\
  description headed_record = Some (lit "1,200 likes and more") /\
  title headed_record = Some (lit "1,200 likes and more").
Proof.
  assert (Hin : In headed_record (emitted (handler Second) headed))
    by (left; vm_compute; reflexivity).
  assert (Hd : error headed_record = None) by (vm_compute; reflexivity).
  assert (Hc : selected_text (page headed) Optimized.h1Caption 0
               = Some (lit "1,200 likes and more")) by (vm_compute; reflexivity).
  split; [exact Hin|]. split; [exact Hd|]. split; [exact Hc|].
  exact (@exact_heading_takes_precedence headed headed_record _ Hin Hd Hc).
Defined.

(* ===================================================================== *)
(** * The audio of [main.ts] *)
(* ===================================================================== *)

Lemma MainTs_audio_loop p :
  MainTs.extract_audio p
  = try_catch (for_of MainTs.audioSelectors (MainTs_audio_turn p)) (fun _ => ret tt).
Proof. reflexivity. Qed.

Lemma MainTs_audio_turn_silent p sel st :
  answers p sel -> selected_text p sel 0 = None ->
  MainTs_audio_turn p sel st = (inr false, st).
Proof.
  unfold answers, selected_text, MainTs_audio_turn, bind, await.
  destruct (querySelector p sel) as [e|[el|]]; try contradiction; try reflexivity.
  destruct (textContent el) as [e|[[|a0 a]|]]; try contradiction; try reflexivity.
  intros _ H. cbn [is_empty negb andb List.length Nat.ltb Nat.leb] in *.
  rewrite andb_true_r in H.
  destruct (negb (is_empty (trim (a0 :: a)))); [discriminate | reflexivity].
Qed.

Lemma MainTs_audio_turn_found p sel st a :
  selected_text p sel 0 = Some a ->
  MainTs_audio_turn p sel st
  = (inr true, mkState (set_audioUsed (Some a) (reelData st)) (pushed st)).
Proof.
  unfold selected_text, MainTs_audio_turn, bind, await, assign, break.
  destruct (querySelector p sel) as [e|[el|]]; try discriminate.
  destruct (textContent el) as [e|[[|a0 t]|]]; try discriminate.
  cbn [is_empty negb andb List.length Nat.ltb Nat.leb].
  rewrite andb_true_r.
  destruct (negb (is_empty (trim (a0 :: t)))); [|discriminate].
  intros [= <-]. reflexivity.
Qed.

(** The audio step when a selector answers after silent ones, and when
    every selector is silent. *)
Lemma MainTs_audio_found p before sel after a st :
  MainTs.audioSelectors = before ++ sel :: after ->
  Forall (fun s => answers p s /\ selected_text p s 0 = None) before ->
  selected_text p sel 0 = Some a ->
  MainTs.extract_audio p st
  = (inr tt, mkState (set_audioUsed (Some a) (reelData st)) (pushed st)).
Proof.
  intros Hs Hb Ha. rewrite MainTs_audio_loop, Hs. unfold try_catch.
  rewrite for_of_app_skip.
  2:{ intros x Hx. rewrite Forall_forall in Hb. destruct (Hb x Hx).
      now apply MainTs_audio_turn_silent. }
  cbn [for_of]. unfold bind. now rewrite (MainTs_audio_turn_found _ _ st Ha).
Qed.

Lemma MainTs_audio_silent p st :
  Forall (fun s => answers p s /\ selected_text p s 0 = None) MainTs.audioSelectors ->
  MainTs.extract_audio p st = (inr tt, st).
Proof.
  intros Hb. rewrite MainTs_audio_loop. unfold try_catch.
  rewrite for_of_skip; [reflexivity|].
  intros x Hx. rewrite Forall_forall in Hb. destruct (Hb x Hx).
  now apply MainTs_audio_turn_silent.
Qed.

Lemma MainTs_username_keeps_audio_unset p :
  preserves audio_unset (MainTs.extract_username p).
Proof. preserves_with field_kept. Qed.

Lemma MainTs_rest_keeps_audio (I : option jstring -> Prop) p :
  preserves (fun st => I (audioUsed (reelData st)))
            (MainTs.extract_metrics p ;; MainTs.extract_caption p).
Proof. preserves_with field_kept. Qed.

(** The extraction of [main.ts], when the audio step has a known outcome
    on a record without audio. *)
Lemma MainTs_extract_audio_known p (f : ReelData -> ReelData) (I : option jstring -> Prop) st :
  waitForTimeout p = inr tt -> audio_unset st ->
  (forall st', audio_unset st' ->
     MainTs.extract_audio p st' = (inr tt, mkState (f (reelData st')) (pushed st')) /\
     I (audioUsed (f (reelData st')))) ->
  I (audioUsed (reelData (snd (MainTs_extract p st)))).
Proof.
  intros Hload H0 Ha.
  apply (@wp_state _ (MainTs_extract p) (fun st' => I (audioUsed (reelData st')))).
  eapply wp_weaken with (Q' := fun _ st' => I (audioUsed (reelData st')))
                       (E' := fun _ _ => False);
    [|auto|intros e st' []].
  unfold MainTs_extract.
  eapply wp_bind_total with (I := audio_unset); [ | | exact H0 | ].
  { apply no_throw_try_catch. intros e. apply no_throw_ret. }
  { apply preserves_try_catch; [apply preserves_await | intros; apply preserves_ret]. }
  intros [] st1 H1.
  apply wp_bind, wp_await. rewrite Hload.
  eapply wp_bind_total with (I := audio_unset);
    [returns | apply MainTs_username_keeps_audio_unset | exact H1 | ].
  intros [] st2 H2.
  destruct (Ha st2 H2) as [Hr HI].
  apply wp_bind. eapply wp_known; [exact Hr|].
  change (wp (MainTs.extract_metrics p ;; MainTs.extract_caption p)
             (fun _ st' => I (audioUsed (reelData st'))) (fun _ _ => False)
             (mkState (f (reelData st2)) (pushed st2))).
  apply wp_total with (I := fun st' => I (audioUsed (reelData st')));
    [ | apply MainTs_rest_keeps_audio | exact HI].
  apply no_throw_bind; [returns | intros _; returns].
Qed.

(** X18. In [main.ts] the audio is the answer of the first selector that
    has one. On a page that loads, when the selectors before one, in the
    order of the list, answer without a text that is more than white
    space, and that one has such a text, every record pushed holds it,
    trimmed, as [audioUsed]; when every selector is so silent, no record
    pushed has an [audioUsed]. *)
Theorem main_ts_audio_is_first_answer (ctx : Context) (d : ReelData) :
  waitForTimeout (page ctx) = inr tt ->
  In d (emitted (handler Main) ctx) ->
  (forall before sel after a,
     MainTs.audioSelectors = before ++ sel :: after ->
     Forall (fun s => answers (page ctx) s /\ selected_text (page ctx) s 0 = None)
            before ->
     selected_text (page ctx) sel 0 = Some a ->
     audioUsed d = Some a) /\
  (Forall (fun s => answers (page ctx) s /\ selected_text (page ctx) s 0 = None)
          MainTs.audioSelectors ->
   audioUsed d = None).
Proof.
  intros Hload Hin.
  set (st0 := mkState (new_reelData (request_url ctx)) []).
  assert (H0 : audio_unset st0) by reflexivity.
  split.
  - intros before sel after a Hs Hb Ha. revert Hin.
    apply (@handler_pushed (fun r => audioUsed r = Some a) Main ctx d);
      [ | intros e r H; exact H].
    cbn [extraction].
    apply (@MainTs_extract_audio_known (page ctx) (set_audioUsed (Some a))
             (fun o => o = Some a) st0 Hload H0).
    intros st' _. split; [|reflexivity].
    exact (@MainTs_audio_found (page ctx) before sel after a st' Hs Hb Ha).
  - intros Hb. revert Hin.
    apply (@handler_pushed (fun r => audioUsed r = None) Main ctx d);
      [ | intros e r H; exact H].
    cbn [extraction].
    apply (@MainTs_extract_audio_known (page ctx) (fun r => r)
             (fun o => o = None) st0 Hload H0).
    intros st' Hu. split; [|exact Hu].
    rewrite (@MainTs_audio_silent (page ctx) st' Hb). now destruct st'.
Qed.

Lemma main_ts_audio_is_first_answer_witness :
  waitForTimeout (page labelled) = inr tt /\
  Forall (fun d => audioUsed d = Some (lit "Song")) (emitted (handler Main) labelled).
Proof.
  split; [reflexivity|].
  apply Forall_forall. intros d Hd.
  apply (proj1 (@main_ts_audio_is_first_answer labelled d eq_refl Hd))
    with (before := [quoted ["[aria-label*="; "Audio"; "]"]%string;
                     quoted ["[data-testid="; "audio-attribution"; "]"]%string])
         (sel := quoted ["a[href*="; "/audio/"; "]"]%string) (after := []).
  - reflexivity.
  - repeat (apply Forall_cons; [split; vm_compute; [exact I | reflexivity]|]).
    apply Forall_nil.
  - vm_compute. reflexivity.
Defined.
